(** * MIMPI: a shallow embedding of the message-passing core (mimpi.c)

    C [int]s are modelled as [Z]; every function below names the C function
    it embeds.  Bytes ([u_int8_t]) are [Z] values in [0, 256) and the
    wrap-around of a narrowing store is written out with [mod 256]. *)

From Stdlib Require Import ZArith List Bool Lia.
From stdpp Require Import base decidable option list numbers gmap.

Local Open Scope Z_scope.

(** ** Constants and enumerations *)

(** [MAXSIZE] (mimpi.c:38). *)
Definition MAXSIZE : Z := 16.

(** [METADATA_SIZE] is [2 * sizeof(int)] (mimpi.c:41), with 4-byte [int]s. *)
Definition sizeof_int : Z := 4.
Definition METADATA_SIZE : Z := 2 * sizeof_int.

Definition MIMPI_DEFAULT_COUNT : Z := -1.
Definition MIMPI_DEFAULT_SOURCE : Z := -1.

(** The [MIMPI_Tags] enumeration (mimpi.c:60-72). *)
Definition MIMPI_ZERO_TAG : Z := 0.
Definition MIMPI_DEFAULT_TAG : Z := -1.
Definition MIMPI_NO_MESSAGE_TAG : Z := -2.
Definition MIMPI_BROADCAST_TAG : Z := -3.
Definition MIMPI_DEADLOCK_TAG : Z := -4.
Definition MIMPI_WAITING_TAG : Z := -5.
Definition MIMPI_RECEIVED_TAG : Z := -6.
Definition MIMPI_MAX_TAG : Z := -7.
Definition MIMPI_MIN_TAG : Z := -8.
Definition MIMPI_SUM_TAG : Z := -9.
Definition MIMPI_PROD_TAG : Z := -10.

(** Modelled from the spec: the public header mimpi.h, which declares
    [MIMPI_ANY_TAG], is not part of the sources.  The specification fixes
    the wildcard at -1 (section 6.1). *)
Definition MIMPI_ANY_TAG : Z := -1.

(** Modelled from the spec: the return codes of mimpi.h (section 7). *)
Inductive MIMPI_Retcode : Set :=
| MIMPI_SUCCESS
| MIMPI_ERROR_ATTEMPTED_SELF_OP
| MIMPI_ERROR_NO_SUCH_RANK
| MIMPI_ERROR_REMOTE_FINISHED
| MIMPI_ERROR_DEADLOCK_DETECTED.

#[export] Instance MIMPI_Retcode_eq_dec : EqDecision MIMPI_Retcode.
Proof. solve_decision. Defined.

(** Modelled from the spec: the reduction operators of mimpi.h.  Section 4.7
    encodes an operator into the tag space as [REDUCE_BASE - op_index], and
    the tag table of section 6.1 orders them MAX, MIN, SUM, PROD. *)
Inductive MIMPI_Op : Set := MIMPI_MAX | MIMPI_MIN | MIMPI_SUM | MIMPI_PROD.

Definition op_index (op : MIMPI_Op) : Z :=
  match op with
  | MIMPI_MAX => 0
  | MIMPI_MIN => 1
  | MIMPI_SUM => 2
  | MIMPI_PROD => 3
  end.

(** ** Messages (mimpi.c:76-82)

    [data] is a pointer to a heap buffer owned by the message; it is modelled
    by the bytes it points to, [None] standing for [NULL]. *)
Record Message : Type := mkMessage {
  msg_tag : Z;
  msg_count : Z;
  msg_source : Z;
  msg_data : option (list Z);
  msg_received : bool
}.

(** [create_message] (mimpi.c:135-146). *)
Definition create_message (tag count source : Z) (data : option (list Z)) : Message :=
  {| msg_tag := tag; msg_count := count; msg_source := source;
     msg_data := data; msg_received := false |}.

(** [MIMPI_DEFAULT_MSG] (mimpi.c:109-111). *)
Definition MIMPI_DEFAULT_MSG : Message :=
  {| msg_tag := MIMPI_DEFAULT_TAG; msg_count := MIMPI_DEFAULT_COUNT;
     msg_source := MIMPI_DEFAULT_SOURCE; msg_data := None;
     msg_received := false |}.

(** [compare_message] (mimpi.c:169-174): [a] is the stored message, [b] the
    filter. *)
Definition compare_message (a b : Message) : bool :=
  (msg_source a =? msg_source b) &&
  (msg_count a =? msg_count b) &&
  ((msg_tag b =? MIMPI_ANY_TAG) || (msg_tag a =? msg_tag b)).

(** The match predicate of the specification's text: source and count are
    equal and the tags are equal or the filter carries [ANY_TAG] and the
    message a non-negative tag. *)
Definition filter_matches (a b : Message) : Prop :=
  msg_source a = msg_source b /\
  msg_count a = msg_count b /\
  (msg_tag b = msg_tag a \/ (msg_tag b = MIMPI_ANY_TAG /\ 0 <= msg_tag a)).

(** ** Message lists (mimpi.c:88-312)

    A [list] of the C code is a doubly linked chain between two sentinels,
    [tail] first and [head] last.  It is modelled by the sequence of the
    messages of the elements between the sentinels, read from [tail->next]
    towards [head]. *)

(** [push_front] (mimpi.c:301-312) links the element just before [head],
    that is at the far end of the sequence. *)
Definition push_front (l : list Message) (m : Message) : list Message :=
  l ++ [m].

(** [find_elem_in_list] (mimpi.c:279-294): the position of the first element
    whose message satisfies [compare_message _ to_compare]; [None] when the
    walk stops at the [head] sentinel. *)
Fixpoint find_elem_in_list (l : list Message) (to_compare : Message) : option nat :=
  match l with
  | [] => None
  | current :: next =>
      if compare_message current to_compare then Some 0%nat
      else S <$> find_elem_in_list next to_compare
  end.

(** [remove_from_list] (mimpi.c:236-249) applied to the element at position
    [i]. *)
Definition remove_from_list (l : list Message) (i : nat) : list Message :=
  delete i l.

(** ** The binomial tree helper *)

(** [get_power] (mimpi.c:426-433). *)
Definition get_power (rank : Z) : Z :=
  if rank <=? 1 then rank
  else if rank <=? 3 then 2
  else if rank <=? 7 then 4
  else 8.

(** ** Reduction on byte lanes *)

(** The macros [MAX] and [MIN] (mimpi.c:53, 57). *)
Definition MAX (a b : Z) : Z := if a >? b then a else b.
Definition MIN (a b : Z) : Z := if a <? b then a else b.

(** A store into a [u_int8_t] lane keeps the low eight bits. *)
Definition u8 (x : Z) : Z := x mod 256.

(** One iteration [dataInt[i] = f(dataInt[i], messageDataInt[i])] of the
    loops of [handle_reduce_operation]. *)
Definition lane_step (f : Z -> Z -> Z) (received_data : list Z)
    (data : list Z) (i : nat) : list Z :=
  match data !! i, received_data !! i with
  | Some d, Some r => <[i := u8 (f d r)]> data
  | _, _ => data
  end.

(** [for (int i = 0; i < count; i++)]. *)
Definition lane_loop (f : Z -> Z -> Z) (received_data : list Z) (count : Z)
    (data : list Z) : list Z :=
  foldl (lane_step f received_data) data (seq 0 (Z.to_nat count)).

(** [handle_reduce_operation] (mimpi.c:386-417).  The closing
    [memcpy(data, dataInt, count)] copies the buffer onto itself. *)
Definition handle_reduce_operation (received_data : list Z) (count tag : Z)
    (data : list Z) : list Z :=
  if tag =? MIMPI_MAX_TAG then lane_loop MAX received_data count data
  else if tag =? MIMPI_MIN_TAG then lane_loop MIN received_data count data
  else if tag =? MIMPI_SUM_TAG then lane_loop Z.add received_data count data
  else lane_loop Z.mul received_data count data.

(** The value of lane [i] after the first [n] iterations of a lane loop,
    from the lane's old value and the received one. *)
Definition lane_result (f : Z -> Z -> Z) (n i : nat) (od or : option Z)
    : option Z :=
  match od, or with
  | Some d, Some r => if decide (i < n)%nat then Some (u8 (f d r)) else Some d
  | _, _ => od
  end.

(** Folding the received payloads [payloads], in order, into the scratch
    buffer [scratch] under the reduce carrier [tag]. *)
Definition fold_payloads (count tag : Z) (scratch : list Z)
    (payloads : list (list Z)) : list Z :=
  foldl (fun acc x => handle_reduce_operation x count tag acc) scratch payloads.

(** ** Caller-visible memory

    User buffers ([data], [send_data], [recv_data]) are passed by address.
    Memory is a byte-addressed store; [NULL] is address 0. *)
Definition heap : Type := Z -> Z.
Definition NULL : Z := 0.

(** The [n] bytes starting at address [p]. *)
Definition load (h : heap) (p n : Z) : list Z :=
  map (fun i : nat => h (p + Z.of_nat i)) (seq 0 (Z.to_nat n)).

(** Writing [bytes] at address [p]. *)
Definition store (h : heap) (p : Z) (bytes : list Z) : heap :=
  fun a =>
    if (p <=? a) && (a <? p + Z.of_nat (length bytes))
    then nth (Z.to_nat (a - p)) bytes 0
    else h a.

(** [memcpy(dst, src, n)] between caller-visible buffers. *)
Definition memcpy (h : heap) (dst src n : Z) : heap :=
  store h dst (load h src n).

(** The tail of [MIMPI_Recv] (mimpi.c:920-925): once the payload
    [to_receive] has been taken from the queue, a reduce carrier is folded
    into the caller's buffer, any other payload-bearing tag is copied out
    with [memcpy(data, to_receive, count)]. *)
Definition Recv_deliver (h : heap) (data count tag : Z) (to_receive : list Z) : heap :=
  if tag <=? MIMPI_MAX_TAG then
    store h data (handle_reduce_operation to_receive count tag (load h data count))
  else if negb (tag =? MIMPI_NO_MESSAGE_TAG) then
    store h data (take (Z.to_nat count) to_receive)
  else h.

(** ** Collective operations as trees of calls

    The collectives are sequential programs over the point-to-point
    primitives.  They are embedded as finite trees whose nodes are the calls
    the C code makes, each continuation receiving the value the call
    returned.  [CallMalloc size k] is [malloc(size)] together with the
    [ASSERT_MALLOC] that follows it (mimpi.c:972-973): [k] receives the
    address only when the allocation has succeeded.  [OutOfFuel] marks a
    loop cut by its iteration bound. *)
Inductive prog (A : Type) : Type :=
| Ret (a : A)
| CallSend (data count destination tag : Z) (k : MIMPI_Retcode -> prog A)
| CallRecv (data count source tag : Z) (k : MIMPI_Retcode -> prog A)
| CallMalloc (size : Z) (k : Z -> prog A)
| CallMemcpy (dst src n : Z) (k : prog A)
| CallFree (p : Z) (k : prog A)
| OutOfFuel.

Arguments Ret {A} a.
Arguments CallSend {A} data count destination tag k.
Arguments CallRecv {A} data count source tag k.
Arguments CallMalloc {A} size k.
Arguments CallMemcpy {A} dst src n k.
Arguments CallFree {A} p k.
Arguments OutOfFuel {A}.

Fixpoint bind {A B : Type} (p : prog A) (f : A -> prog B) : prog B :=
  match p with
  | Ret a => f a
  | CallSend d c dst t k => CallSend d c dst t (fun r => bind (k r) f)
  | CallRecv d c src t k => CallRecv d c src t (fun r => bind (k r) f)
  | CallMalloc s k => CallMalloc s (fun r => bind (k r) f)
  | CallMemcpy d s n k => CallMemcpy d s n (bind k f)
  | CallFree p k => CallFree p (bind k f)
  | OutOfFuel => OutOfFuel
  end.

#[export] Instance prog_ret : MRet prog := @Ret.
#[export] Instance prog_bind : MBind prog := fun A B f p => bind p f.

(** The point-to-point primitives as seen by a collective. *)
Definition call_MIMPI_Send (data count destination tag : Z) : prog MIMPI_Retcode :=
  CallSend data count destination tag Ret.
Definition call_MIMPI_Recv (data count source tag : Z) : prog MIMPI_Retcode :=
  CallRecv data count source tag Ret.

(** [HANDLE_REMOTE_FINISHED(expr)] (mimpi.c:30-34) followed by the rest of
    the enclosing function. *)
Definition HANDLE_REMOTE_FINISHED (expr : prog MIMPI_Retcode)
    (rest : prog MIMPI_Retcode) : prog MIMPI_Retcode :=
  rc ← expr;
  if decide (rc = MIMPI_ERROR_REMOTE_FINISHED) then Ret MIMPI_ERROR_REMOTE_FINISHED
  else rest.

(** The first lines of [communication_loop] (mimpi.c:457-469): the triple
    [(receive_from, power, start_from)]. *)
Definition tree_init (world_rank root : Z) : Z * Z * Z :=
  let receive_from := world_rank - get_power world_rank in
  let power := get_power world_rank * 2 in
  let start_from := world_rank + power in
  if world_rank =? root then (receive_from, 1, 1)
  else if world_rank =? 0 then
    (root - get_power root, get_power root * 2, root + get_power root * 2)
  else (receive_from, power, start_from).

(** The relabelling of the parent (mimpi.c:482-487 and 494-499). *)
Definition swap_parent (root receive_from : Z) : Z :=
  if receive_from =? root then 0
  else if receive_from =? 0 then root
  else receive_from.

(** The relabelling of a child (mimpi.c:473 and 505). *)
Definition swap_child (root start_from : Z) : Z :=
  if start_from =? root then 0 else start_from.

(** The loops [while (start_from < world_size)] (mimpi.c:472-479 and
    504-511); [call] is the primitive applied to each [helper], [rest] what
    follows the loop. *)
Fixpoint children_loop (fuel : nat) (call : Z -> prog MIMPI_Retcode)
    (root start_from power world_size : Z) (rest : prog MIMPI_Retcode)
    : prog MIMPI_Retcode :=
  if start_from <? world_size then
    match fuel with
    | O => OutOfFuel
    | S fuel' =>
        let helper := swap_child root start_from in
        HANDLE_REMOTE_FINISHED (call helper)
          (children_loop fuel' call root (start_from + power) (power * 2)
             world_size rest)
    end
  else rest.

(** [communication_loop] (mimpi.c:448-515). *)
Definition communication_loop (fuel : nat) (data count root tag world_rank
    world_size : Z) (begin : bool) : prog MIMPI_Retcode :=
  let '(receive_from, power, start_from) := tree_init world_rank root in
  if begin then
    children_loop fuel (fun helper => call_MIMPI_Recv data count helper tag)
      root start_from power world_size
      (if negb (world_rank =? root) then
         HANDLE_REMOTE_FINISHED
           (call_MIMPI_Send data count (swap_parent root receive_from) tag)
           (Ret MIMPI_SUCCESS)
       else Ret MIMPI_SUCCESS)
  else
    let down :=
      children_loop fuel (fun helper => call_MIMPI_Send data count helper tag)
        root start_from power world_size (Ret MIMPI_SUCCESS) in
    if negb (world_rank =? root) then
      HANDLE_REMOTE_FINISHED
        (call_MIMPI_Recv data count (swap_parent root receive_from) tag)
        down
    else down.

(** [CHECK_RANK_ERROR(rank)] (mimpi.c:10-16), as the test it performs. *)
Definition CHECK_RANK_ERROR (world_size rank : Z) : bool :=
  (rank <? 0) || (rank >=? world_size).

(** [CHECK_SELF_OP_ERROR(rank)] (mimpi.c:20-26), as the test it performs. *)
Definition CHECK_SELF_OP_ERROR (world_rank rank : Z) : bool :=
  rank =? world_rank.

(** The collectives read the world size and the rank of the process from
    its environment ([MIMPI_World_size], [MIMPI_World_rank]). *)
Section Collectives.
Variable world_size : Z.
Variable world_rank : Z.
Variable fuel : nat.

(** [MIMPI_Barrier] (mimpi.c:934-941). *)
Definition MIMPI_Barrier : prog MIMPI_Retcode :=
  HANDLE_REMOTE_FINISHED
    (communication_loop fuel NULL MIMPI_DEFAULT_COUNT 0 MIMPI_NO_MESSAGE_TAG
       world_rank world_size true)
    (communication_loop fuel NULL MIMPI_DEFAULT_COUNT 0 MIMPI_NO_MESSAGE_TAG
       world_rank world_size false).

(** [MIMPI_Bcast] (mimpi.c:944-957). *)
Definition MIMPI_Bcast (data count root : Z) : prog MIMPI_Retcode :=
  if CHECK_RANK_ERROR world_size root then Ret MIMPI_ERROR_NO_SUCH_RANK
  else
    HANDLE_REMOTE_FINISHED
      (communication_loop fuel NULL MIMPI_DEFAULT_COUNT root
         MIMPI_NO_MESSAGE_TAG world_rank world_size true)
      (communication_loop fuel data count root MIMPI_BROADCAST_TAG
         world_rank world_size false).

(** [MIMPI_Reduce] (mimpi.c:960-989).  The scratch buffer [memory] is there
    only when [malloc] has returned it: [CallMalloc] stands for lines
    972-973, [malloc] and [ASSERT_MALLOC(memory)]. *)
Definition MIMPI_Reduce (send_data recv_data count : Z) (op : MIMPI_Op)
    (root : Z) : prog MIMPI_Retcode :=
  if CHECK_RANK_ERROR world_size root then Ret MIMPI_ERROR_NO_SUCH_RANK
  else
    CallMalloc count (fun memory =>
    CallMemcpy memory send_data count (
    rc ← communication_loop fuel memory count root
            (MIMPI_MAX_TAG - op_index op) world_rank world_size true;
    if decide (rc = MIMPI_ERROR_REMOTE_FINISHED) then
      CallFree memory (Ret MIMPI_ERROR_REMOTE_FINISHED)
    else
      let copy_out (k : prog MIMPI_Retcode) :=
        if world_rank =? root then CallMemcpy recv_data memory count k
        else k in
      copy_out (
      CallFree memory (
      communication_loop fuel NULL MIMPI_DEFAULT_COUNT root
        MIMPI_NO_MESSAGE_TAG world_rank world_size false)))).
End Collectives.

(** ** Running a collective against its environment

    What a point-to-point call returns is decided by the peers.  The
    environment answers the [n]-th point-to-point call of a run with a
    return code and, for a receive, the payload taken from the queue. *)
Record response : Type := mkResponse {
  resp_rc : MIMPI_Retcode;
  resp_payload : list Z
}.

(** The point-to-point calls made during a run, in order. *)
Inductive event : Type :=
| EvSend (data count destination tag : Z)
| EvRecv (data count source tag : Z).

#[export] Instance event_eq_dec : EqDecision event.
Proof. solve_decision. Defined.

(** [exec p env alloc n h] runs [p] from memory [h]; [n] counts the
    point-to-point calls made so far and [alloc] is the address [malloc]
    returns for a given size, [NULL] when it fails.  A negative size is
    converted to a [size_t] that no [malloc] can serve.  When the
    allocation fails [ASSERT_MALLOC] stops the process through [syserr]
    (mimpi_common.h:62-69) and the run has no result, as when a loop is cut
    by its bound.  A successful receive writes the caller's buffer as
    [MIMPI_Recv] does; any other return code leaves it alone. *)
Fixpoint exec {A : Type} (p : prog A) (env : nat -> response) (alloc : Z -> Z)
    (n : nat) (h : heap) : option (A * heap * list event) :=
  match p with
  | Ret a => Some (a, h, [])
  | CallSend d c dst t k =>
      match exec (k (resp_rc (env n))) env alloc (S n) h with
      | Some (a, h', tr) => Some (a, h', EvSend d c dst t :: tr)
      | None => None
      end
  | CallRecv d c src t k =>
      let r := env n in
      let h1 :=
        if decide (resp_rc r = MIMPI_SUCCESS)
        then Recv_deliver h d c t (resp_payload r) else h in
      match exec (k (resp_rc r)) env alloc (S n) h1 with
      | Some (a, h', tr) => Some (a, h', EvRecv d c src t :: tr)
      | None => None
      end
  | CallMalloc s k =>
      if (s <? 0) || (alloc s =? NULL) then None
      else exec (k (alloc s)) env alloc n h
  | CallMemcpy d s m k => exec k env alloc n (memcpy h d s m)
  | CallFree _ k => exec k env alloc n h
  | OutOfFuel => None
  end.

(** An environment in which no point-to-point call reports that the peer
    has finished. *)
Definition never_finished (env : nat -> response) : Prop :=
  forall i, resp_rc (env i) <> MIMPI_ERROR_REMOTE_FINISHED.

(** Putting the calls [evs] in front of the calls of a run. *)
Definition prepend {A : Type} (evs : list event)
    (r : A * heap * list event) : A * heap * list event :=
  (r.1.1, r.1.2, evs ++ r.2).

(** The parent [receive_from] and the successive values of [start_from]
    that [communication_loop] computes, before the relabelling by
    [swap_parent] and [swap_child]. *)
Definition loop_parent (world_rank root : Z) : Z :=
  (tree_init world_rank root).1.1.

Fixpoint start_from_values (fuel : nat) (start_from power world_size : Z)
    : option (list Z) :=
  if start_from <? world_size then
    match fuel with
    | O => None
    | S fuel' =>
        (start_from ::.) <$>
          start_from_values fuel' (start_from + power) (power * 2) world_size
    end
  else Some [].

Definition loop_children (fuel : nat) (world_rank root world_size : Z)
    : option (list Z) :=
  let '(_, power, start_from) := tree_init world_rank root in
  start_from_values fuel start_from power world_size.

(** ** The specification's description of the tree *)

(** [LP k], the largest power of two dividing [k], as [k & -k]. *)
Definition LP (k : Z) : Z := Z.land k (- k).

(** The children [k + LP(k) * 2^i], [i = 0, 1, ...], while below [W]. *)
Definition LP_children (k W : Z) : list Z :=
  filter (fun c => c < W) ((fun i => k + LP k * 2 ^ i) <$> seqZ 0 W).

(** The highest power of two not exceeding [k], 0 for [k = 0]. *)
Definition msb (k : Z) : Z := if k =? 0 then 0 else 2 ^ Z.log2 k.

(** The children [k + msb(k) * 2^i], [i = 1, 2, ...], while below [W]. *)
Definition msb_children (k W : Z) : list Z :=
  filter (fun c => c < W) ((fun i => k + msb k * 2 ^ i) <$> seqZ 1 W).

(** The tree of the specification's text at rank [k]: parent [k - LP k],
    children [k + LP(k) * 2^i]. *)
Definition LP_tree (fuel : nat) (k W root : Z) : Prop :=
  loop_parent k root = k - LP k /\
  loop_children fuel k root W = Some (LP_children k W).

(** ** Shapes of programs used to state error propagation *)

(** [quiet p]: [p] makes no point-to-point call and returns
    remote-finished. *)
Inductive quiet : prog MIMPI_Retcode -> Prop :=
| quiet_Ret : quiet (Ret MIMPI_ERROR_REMOTE_FINISHED)
| quiet_Free (p : Z) (k : prog MIMPI_Retcode) :
    quiet k -> quiet (CallFree p k).

(** [eager alloc p]: after any point-to-point call of [p] that returns
    remote-finished [p] is [quiet]; a run that ends otherwise ends with
    success; every allocation of [p] succeeds with the allocator [alloc];
    and no loop of [p] is cut by its iteration bound. *)
Inductive eager (alloc : Z -> Z) : prog MIMPI_Retcode -> Prop :=
| eager_Ret : eager alloc (Ret MIMPI_SUCCESS)
| eager_Send (d c dst t : Z) (k : MIMPI_Retcode -> prog MIMPI_Retcode) :
    quiet (k MIMPI_ERROR_REMOTE_FINISHED) ->
    (forall rc, rc <> MIMPI_ERROR_REMOTE_FINISHED -> eager alloc (k rc)) ->
    eager alloc (CallSend d c dst t k)
| eager_Recv (d c src t : Z) (k : MIMPI_Retcode -> prog MIMPI_Retcode) :
    quiet (k MIMPI_ERROR_REMOTE_FINISHED) ->
    (forall rc, rc <> MIMPI_ERROR_REMOTE_FINISHED -> eager alloc (k rc)) ->
    eager alloc (CallRecv d c src t k)
| eager_Malloc (s : Z) (k : Z -> prog MIMPI_Retcode) :
    0 <= s -> alloc s <> NULL -> eager alloc (k (alloc s)) ->
    eager alloc (CallMalloc s k)
| eager_Memcpy (d s n : Z) (k : prog MIMPI_Retcode) :
    eager alloc k -> eager alloc (CallMemcpy d s n k)
| eager_Free (p : Z) (k : prog MIMPI_Retcode) :
    eager alloc k -> eager alloc (CallFree p k).

(** What the specification asks of a run of a collective that made the
    calls [tr] and returned [rc], the [i]-th call of the run being answered
    by [env (n + i)]. *)
Definition propagates (env : nat -> response) (n : nat) (rc : MIMPI_Retcode)
    (tr : list event) : Prop :=
  (forall i : nat, (i < length tr)%nat ->
     resp_rc (env (n + i)%nat) = MIMPI_ERROR_REMOTE_FINISHED ->
     rc = MIMPI_ERROR_REMOTE_FINISHED /\ length tr = S i) /\
  ((forall i : nat, (i < length tr)%nat ->
      resp_rc (env (n + i)%nat) <> MIMPI_ERROR_REMOTE_FINISHED) ->
   rc = MIMPI_SUCCESS).

(** ** Footprints *)

(** The buffer a point-to-point call was handed. *)
Definition event_data (e : event) : Z :=
  match e with
  | EvSend data _ _ _ => data
  | EvRecv data _ _ _ => data
  end.

(** [writes_within alloc R p]: every write [p] makes to caller-visible
    memory, by a receive into its buffer or by [memcpy], falls at an address
    satisfying [R]. *)
Inductive writes_within (alloc : Z -> Z) (R : Z -> Prop)
    : prog MIMPI_Retcode -> Prop :=
| ww_Ret (rc : MIMPI_Retcode) : writes_within alloc R (Ret rc)
| ww_Send (d c dst t : Z) (k : MIMPI_Retcode -> prog MIMPI_Retcode) :
    (forall rc, writes_within alloc R (k rc)) ->
    writes_within alloc R (CallSend d c dst t k)
| ww_Recv (d c src t : Z) (k : MIMPI_Retcode -> prog MIMPI_Retcode) :
    (t <> MIMPI_NO_MESSAGE_TAG -> forall a, d <= a < d + c -> R a) ->
    (forall rc, writes_within alloc R (k rc)) ->
    writes_within alloc R (CallRecv d c src t k)
| ww_Malloc (s : Z) (k : Z -> prog MIMPI_Retcode) :
    writes_within alloc R (k (alloc s)) ->
    writes_within alloc R (CallMalloc s k)
| ww_Memcpy (d s n : Z) (k : prog MIMPI_Retcode) :
    (forall a, d <= a < d + n -> R a) ->
    writes_within alloc R k ->
    writes_within alloc R (CallMemcpy d s n k)
| ww_Free (p : Z) (k : prog MIMPI_Retcode) :
    writes_within alloc R k -> writes_within alloc R (CallFree p k)
| ww_OutOfFuel : writes_within alloc R OutOfFuel.

(** [calls_on alloc D p]: every point-to-point call of [p] is handed a
    buffer address satisfying [D]. *)
Inductive calls_on (alloc : Z -> Z) (D : Z -> Prop)
    : prog MIMPI_Retcode -> Prop :=
| co_Ret (rc : MIMPI_Retcode) : calls_on alloc D (Ret rc)
| co_Send (d c dst t : Z) (k : MIMPI_Retcode -> prog MIMPI_Retcode) :
    D d -> (forall rc, calls_on alloc D (k rc)) ->
    calls_on alloc D (CallSend d c dst t k)
| co_Recv (d c src t : Z) (k : MIMPI_Retcode -> prog MIMPI_Retcode) :
    D d -> (forall rc, calls_on alloc D (k rc)) ->
    calls_on alloc D (CallRecv d c src t k)
| co_Malloc (s : Z) (k : Z -> prog MIMPI_Retcode) :
    calls_on alloc D (k (alloc s)) -> calls_on alloc D (CallMalloc s k)
| co_Memcpy (d s n : Z) (k : prog MIMPI_Retcode) :
    calls_on alloc D k -> calls_on alloc D (CallMemcpy d s n k)
| co_Free (p : Z) (k : prog MIMPI_Retcode) :
    calls_on alloc D k -> calls_on alloc D (CallFree p k)
| co_OutOfFuel : calls_on alloc D OutOfFuel.

(** ** Point-to-point layer: the state of one process

    The globals of mimpi.c (lines 112-119), together with the two values
    the process reads from its environment.  All of them are accessed under
    [MIMPI_mutex]; a function below that runs between a lock and the
    matching unlock (or [pthread_cond_wait]) is one atomic transition.

    A list pointer is [None] when it is [NULL] (never created by
    [MIMPI_Init]) or when the [head] sentinel of the list has been unlinked
    and freed, after which the C code can no longer walk the list. *)
Record Process : Type := mkProcess {
  MIMPI_SIZE : Z;
  MIMPI_PID_RANK : Z;
  MIMPI_deadlock_enabled : bool;
  MIMPI_waiting : Message;
  MIMPI_already_left : gset Z;
  MIMPI_send_not_received : option (list Message);
  MIMPI_others_recv : gmap Z (list Message);
  MIMPI_received_messages : gmap Z (list Message)
}.

(** [MIMPI_World_size] and [MIMPI_World_rank] (mimpi.c:733-744). *)
Definition MIMPI_World_size (p : Process) : Z := MIMPI_SIZE p.
Definition MIMPI_World_rank (p : Process) : Z := MIMPI_PID_RANK p.

Definition set_waiting (p : Process) (m : Message) : Process :=
  {| MIMPI_SIZE := MIMPI_SIZE p; MIMPI_PID_RANK := MIMPI_PID_RANK p;
     MIMPI_deadlock_enabled := MIMPI_deadlock_enabled p;
     MIMPI_waiting := m;
     MIMPI_already_left := MIMPI_already_left p;
     MIMPI_send_not_received := MIMPI_send_not_received p;
     MIMPI_others_recv := MIMPI_others_recv p;
     MIMPI_received_messages := MIMPI_received_messages p |}.

Definition set_already_left (p : Process) (s : gset Z) : Process :=
  {| MIMPI_SIZE := MIMPI_SIZE p; MIMPI_PID_RANK := MIMPI_PID_RANK p;
     MIMPI_deadlock_enabled := MIMPI_deadlock_enabled p;
     MIMPI_waiting := MIMPI_waiting p;
     MIMPI_already_left := s;
     MIMPI_send_not_received := MIMPI_send_not_received p;
     MIMPI_others_recv := MIMPI_others_recv p;
     MIMPI_received_messages := MIMPI_received_messages p |}.

Definition set_send_not_received (p : Process) (l : option (list Message))
    : Process :=
  {| MIMPI_SIZE := MIMPI_SIZE p; MIMPI_PID_RANK := MIMPI_PID_RANK p;
     MIMPI_deadlock_enabled := MIMPI_deadlock_enabled p;
     MIMPI_waiting := MIMPI_waiting p;
     MIMPI_already_left := MIMPI_already_left p;
     MIMPI_send_not_received := l;
     MIMPI_others_recv := MIMPI_others_recv p;
     MIMPI_received_messages := MIMPI_received_messages p |}.

Definition set_others_recv (p : Process) (m : gmap Z (list Message))
    : Process :=
  {| MIMPI_SIZE := MIMPI_SIZE p; MIMPI_PID_RANK := MIMPI_PID_RANK p;
     MIMPI_deadlock_enabled := MIMPI_deadlock_enabled p;
     MIMPI_waiting := MIMPI_waiting p;
     MIMPI_already_left := MIMPI_already_left p;
     MIMPI_send_not_received := MIMPI_send_not_received p;
     MIMPI_others_recv := m;
     MIMPI_received_messages := MIMPI_received_messages p |}.

Definition set_received_messages (p : Process) (m : gmap Z (list Message))
    : Process :=
  {| MIMPI_SIZE := MIMPI_SIZE p; MIMPI_PID_RANK := MIMPI_PID_RANK p;
     MIMPI_deadlock_enabled := MIMPI_deadlock_enabled p;
     MIMPI_waiting := MIMPI_waiting p;
     MIMPI_already_left := MIMPI_already_left p;
     MIMPI_send_not_received := MIMPI_send_not_received p;
     MIMPI_others_recv := MIMPI_others_recv p;
     MIMPI_received_messages := m |}.

(** The ranks [i] of the loops [for (i = 0; i < world_size; i++)] that skip
    [world_rank]. *)
Definition peers (world_size world_rank : Z) : list Z :=
  filter (fun i => i <> world_rank) (seqZ 0 world_size).

(** One empty list ([create_list]) per peer. *)
Definition create_lists (world_size world_rank : Z) : gmap Z (list Message) :=
  list_to_map ((fun i => (i, [])) <$> peers world_size world_rank).

(** [MIMPI_Init] (mimpi.c:638-688), as the state it sets up. *)
Definition MIMPI_Init (world_size world_rank : Z)
    (enable_deadlock_detection : bool) : Process :=
  {| MIMPI_SIZE := world_size; MIMPI_PID_RANK := world_rank;
     MIMPI_deadlock_enabled := enable_deadlock_detection;
     MIMPI_waiting := MIMPI_DEFAULT_MSG;
     MIMPI_already_left := ∅;
     MIMPI_send_not_received :=
       if enable_deadlock_detection then Some [] else None;
     MIMPI_others_recv :=
       if enable_deadlock_detection then create_lists world_size world_rank
       else ∅;
     MIMPI_received_messages := create_lists world_size world_rank |}.

(** A run of a library function either completes or stops the process: a
    failed assertion ([ASSERT_MALLOC]) or a dereference of an unusable
    pointer. *)
Inductive outcome (A : Type) : Type :=
| Done (a : A)
| Crash.

Arguments Done {A} a.
Arguments Crash {A}.

#[export] Instance outcome_ret : MRet outcome := @Done.
#[export] Instance outcome_bind : MBind outcome := fun A B f o =>
  match o with
  | Done a => f a
  | Crash => Crash
  end.

(** Dereferencing a list pointer.  Using a list that was never created or
    whose [head] sentinel has been freed is undefined behaviour; it is
    counted as stopping the process. *)
Definition deref {A : Type} (o : option A) : outcome A :=
  match o with
  | Some a => Done a
  | None => Crash
  end.

(** [remove_from_list(lists[i]->tail->next)] (mimpi.c:766, 837, 854, 869).
    On an empty list [tail->next] is the [head] sentinel itself, which is
    unlinked and freed. *)
Definition remove_tail_next (lists : gmap Z (list Message)) (i : Z)
    : outcome (gmap Z (list Message)) :=
  match lists !! i with
  | None => Crash
  | Some [] => Done (delete i lists)
  | Some (_ :: l) => Done (<[i := l]> lists)
  end.

(** ** Wire frames *)

(** The object representation of a 4-byte [int] on the (little-endian)
    host, as [memcpy] copies it into and out of a frame. *)
Definition encode_int (x : Z) : list Z :=
  [Z.land x 255; Z.land (Z.shiftr x 8) 255;
   Z.land (Z.shiftr x 16) 255; Z.land (Z.shiftr x 24) 255].

Definition decode_int (bytes : list Z) : Z :=
  match bytes with
  | b0 :: b1 :: b2 :: b3 :: _ =>
      let u := Z.lor (Z.lor b0 (Z.shiftl b1 8))
                 (Z.lor (Z.shiftl b2 16) (Z.shiftl b3 24)) in
      if u <? 2 ^ 31 then u else u - 2 ^ 32
  | _ => 0
  end.

(** The test [tag != MIMPI_NO_MESSAGE_TAG && tag != MIMPI_DEADLOCK_TAG]
    (mimpi.c:563, 779, 897). *)
Definition payload_bearing (tag : Z) : bool :=
  negb (tag =? MIMPI_NO_MESSAGE_TAG) && negb (tag =? MIMPI_DEADLOCK_TAG).

(** The frames written during a call, each with the rank of the process
    whose channel it went to. *)
Definition wire : Type := list (Z * list Z).

(** [MIMPI_Send] (mimpi.c:747-806).  [data] holds the bytes at the
    caller's pointer, [write_ok destination] tells whether
    [write_to_channel] manages to write the whole frame.  A payload-bearing
    frame with a negative [count] makes [memcpy] run with a huge size. *)
Definition MIMPI_Send (p : Process) (write_ok : Z -> bool) (data : list Z)
    (count destination tag : Z) : outcome (MIMPI_Retcode * Process * wire) :=
  if CHECK_RANK_ERROR (MIMPI_World_size p) destination then
    Done (MIMPI_ERROR_NO_SUCH_RANK, p, [])
  else if CHECK_SELF_OP_ERROR (MIMPI_World_rank p) destination then
    Done (MIMPI_ERROR_ATTEMPTED_SELF_OP, p, [])
  else
    p1 ← (if MIMPI_deadlock_enabled p && (tag >=? MIMPI_ANY_TAG) then
            l ← deref (MIMPI_others_recv p !! destination);
            let l' :=
              match l with
              | msg :: _ =>
                  if (msg_count msg =? count) && (msg_tag msg =? tag)
                  then remove_from_list l 0 else l
              | [] => l
              end in
            s ← deref (MIMPI_send_not_received p);
            Done (set_send_not_received
                    (set_others_recv p (<[destination := l']> (MIMPI_others_recv p)))
                    (Some (push_front s (create_message tag count destination None))))
          else Done p);
    to_send ← (if payload_bearing tag then
                 if count <? 0 then Crash
                 else Done (encode_int count ++ encode_int tag
                              ++ take (Z.to_nat count) data)
               else Done (encode_int count ++ encode_int tag));
    if write_ok destination then Done (MIMPI_SUCCESS, p1, [(destination, to_send)])
    else Done (MIMPI_ERROR_REMOTE_FINISHED, p1, []).

(** How a call of [MIMPI_Recv] leaves the critical section: by returning,
    or by parking the caller in [pthread_cond_wait]. *)
Inductive recv_status : Type :=
| Returned (rc : MIMPI_Retcode)
| Parked.

#[export] Instance recv_status_eq_dec : EqDecision recv_status.
Proof. solve_decision. Defined.

Definition recv_result : Type := recv_status * Process * heap * wire.

(** [malloc(count)] followed by [memcpy(to_receive, message->data, count)]
    (mimpi.c:885-888, 898-901).  The buffer of a message has as many bytes
    as its count; the bytes of a message are those the reader wrote into
    it, so that fewer than [count] are copied only from a message whose
    body was cut short by the end of the stream (see [read_frame]).  What
    the code copies from the unwritten rest of such a buffer is not
    determined, and nothing is stated about it. *)
Definition copy_payload (count : Z) (m : Message) : outcome (list Z) :=
  if count <? 0 then Crash
  else d ← deref (msg_data m); Done (take (Z.to_nat count) d).

(** The [(count, tag)] pair carried by WAITING and RECEIVED frames
    (mimpi.c:845-849, 908-912). *)
Definition info (count tag : Z) : list Z := encode_int count ++ encode_int tag.

(** The end of [MIMPI_Recv] (mimpi.c:907-930), once the payload has been
    taken from the queue ([None] when [to_receive] is still [NULL]). *)
Definition Recv_epilogue (p : Process) (write_ok : Z -> bool) (h : heap)
    (data count source tag : Z) (to_receive : option (list Z)) (w : wire)
    : outcome recv_result :=
  '(p1, w1) ← (if MIMPI_deadlock_enabled p && (tag >=? MIMPI_ANY_TAG) then
                 '(_, p1, w1) ← MIMPI_Send p write_ok (info count tag)
                                  METADATA_SIZE source MIMPI_RECEIVED_TAG;
                 Done (p1, w ++ w1)
               else Done (p, w));
  h1 ← (if (tag <=? MIMPI_MAX_TAG) || negb (tag =? MIMPI_NO_MESSAGE_TAG) then
          x ← deref to_receive; Done (Recv_deliver h data count tag x)
        else Done h);
  Done (Returned MIMPI_SUCCESS, p1, h1, w1).

(** [MIMPI_Recv] after the wait loop (mimpi.c:867-895). *)
Definition Recv_after_wait (p : Process) (write_ok : Z -> bool) (h : heap)
    (data count source tag : Z) (w : wire) : outcome recv_result :=
  if msg_tag (MIMPI_waiting p) =? MIMPI_DEADLOCK_TAG then
    lists ← remove_tail_next (MIMPI_others_recv p) source;
    Done (Returned MIMPI_ERROR_DEADLOCK_DETECTED,
          set_others_recv (set_waiting p MIMPI_DEFAULT_MSG) lists, h, w)
  else if bool_decide (source ∈ MIMPI_already_left p)
          && negb (msg_received (MIMPI_waiting p)) then
    Done (Returned MIMPI_ERROR_REMOTE_FINISHED,
          set_waiting p MIMPI_DEFAULT_MSG, h, w)
  else
    q ← deref (MIMPI_received_messages p !! source);
    match find_elem_in_list q (create_message tag count source None) with
    | Some i =>
        m ← deref (q !! i);
        to_receive ← (if negb (tag =? MIMPI_NO_MESSAGE_TAG)
                      then x ← copy_payload count m; Done (Some x)
                      else Done None);
        Recv_epilogue
          (set_waiting
             (set_received_messages p
                (<[source := remove_from_list q i]> (MIMPI_received_messages p)))
             MIMPI_DEFAULT_MSG)
          write_ok h data count source tag to_receive w
    | None =>
        (* [elem_received] is the [head] sentinel, whose message is [NULL] *)
        if negb (tag =? MIMPI_NO_MESSAGE_TAG) then Crash
        else
          Recv_epilogue
            (set_waiting
               (set_received_messages p (delete source (MIMPI_received_messages p)))
               MIMPI_DEFAULT_MSG)
            write_ok h data count source tag None w
    end.

(** [MIMPI_Recv] from its entry to the wait loop (mimpi.c:809-865); when
    the loop condition is false on arrival the call goes on with
    [Recv_after_wait] without releasing the mutex. *)
Definition MIMPI_Recv (p : Process) (write_ok : Z -> bool) (h : heap)
    (data count source tag : Z) : outcome recv_result :=
  if CHECK_RANK_ERROR (MIMPI_World_size p) source then
    Done (Returned MIMPI_ERROR_NO_SUCH_RANK, p, h, [])
  else if CHECK_SELF_OP_ERROR (MIMPI_World_rank p) source then
    Done (Returned MIMPI_ERROR_ATTEMPTED_SELF_OP, p, h, [])
  else
    q ← deref (MIMPI_received_messages p !! source);
    match find_elem_in_list q (create_message tag count source None) with
    | Some i =>
        m ← deref (q !! i);
        to_receive ← (if payload_bearing tag
                      then x ← copy_payload count m; Done (Some x)
                      else Done None);
        Recv_epilogue
          (set_received_messages p
             (<[source := remove_from_list q i]> (MIMPI_received_messages p)))
          write_ok h data count source tag to_receive []
    | None =>
        let p1 := set_waiting p
                    {| msg_tag := tag; msg_count := count; msg_source := source;
                       msg_data := None; msg_received := false |} in
        let announce : outcome (recv_result + Process * wire) :=
          '(rc, p2, w) ← MIMPI_Send p1 write_ok (info count tag) METADATA_SIZE
                           source MIMPI_WAITING_TAG;
          if decide (rc = MIMPI_ERROR_REMOTE_FINISHED) then
            lists ← remove_tail_next (MIMPI_others_recv p2) source;
            Done (inl (Returned MIMPI_ERROR_REMOTE_FINISHED,
                       set_others_recv (set_waiting p2 MIMPI_DEFAULT_MSG) lists,
                       h, w))
          else Done (inr (p2, w)) in
        r ← (if MIMPI_deadlock_enabled p1 && (tag >=? MIMPI_ANY_TAG) then
               l ← deref (MIMPI_others_recv p1 !! source);
               match l with
               | msg :: _ =>
                   if msg_tag msg >=? MIMPI_ANY_TAG then
                     lists ← remove_tail_next (MIMPI_others_recv p1) source;
                     '(_, p2, w) ← MIMPI_Send
                                     (set_others_recv
                                        (set_waiting p1 MIMPI_DEFAULT_MSG) lists)
                                     write_ok [] MIMPI_DEFAULT_COUNT source
                                     MIMPI_DEADLOCK_TAG;
                     Done (inl (Returned MIMPI_ERROR_DEADLOCK_DETECTED, p2, h, w))
                   else announce
               | [] => announce
               end
             else Done (inr (p1, [])));
        match r with
        | inl res => Done res
        | inr (p2, w) =>
            if negb (msg_received (MIMPI_waiting p2))
               && negb (bool_decide (source ∈ MIMPI_already_left p2))
            then Done (Parked, p2, h, w)
            else Recv_after_wait p2 write_ok h data count source tag w
        end
    end.

(** ** The reader of one channel *)

(** [Readcode] (mimpi.c:103-106). *)
Record Readcode : Type := mkReadcode {
  error_occured : bool;
  readcode_data : list Z
}.

(** [read_from_channel] (mimpi.c:322-349) on the bytes [stream] that the
    channel delivers before its end: [chrecv] may return fewer bytes than
    asked for and the loop goes on until [count] bytes have arrived or
    [chrecv] returns no byte.  The result comes with the bytes left in the
    channel. *)
Definition read_from_channel (stream : list Z) (count : Z)
    : Readcode * list Z :=
  if (Z.to_nat count <=? length stream)%nat then
    ({| error_occured := false; readcode_data := take (Z.to_nat count) stream |},
     drop (Z.to_nat count) stream)
  else ({| error_occured := true; readcode_data := stream |}, []).

(** What the reader has after the reading part of one turn of its loop
    (mimpi.c:533-583): the end of the stream, or a message with the flags
    [waiting_tag] and [receive_tag]. *)
Inductive frame : Type :=
| EndOfStream
| Frame (waiting_tag receive_tag : bool) (message : Message).

(** The reading part of one turn of [handle_channel] (mimpi.c:533-585).
    [read_from_channel(fd_num, count)] converts a negative [count] to a huge
    size, for which [malloc] fails.  The error flag of the read of the body
    is not looked at (mimpi.c:562-567): when the stream ends inside a body
    the message is made of the buffer as it is, the bytes that arrived being
    followed by bytes that were never written; the message then holds the
    bytes that arrived. *)
Definition read_frame (sender : Z) (stream : list Z) : outcome (frame * list Z) :=
  let '(readcode, rest) := read_from_channel stream METADATA_SIZE in
  if error_occured readcode then Done (EndOfStream, rest)
  else
    let count := decode_int (take 4 (readcode_data readcode)) in
    let tag := decode_int (drop 4 (readcode_data readcode)) in
    '(message_data, rest1) ←
      (if payload_bearing tag then
         if count <? 0 then Crash
         else
           let '(body, rest1) := read_from_channel rest count in
           Done (Some (readcode_data body), rest1)
       else Done (None, rest));
    if (tag =? MIMPI_WAITING_TAG) || (tag =? MIMPI_RECEIVED_TAG) then
      body ← deref message_data;
      Done (Frame (tag =? MIMPI_WAITING_TAG)
              (negb (tag =? MIMPI_WAITING_TAG))
              (create_message (decode_int (drop 4 body))
                 (decode_int (take 4 body)) sender message_data),
            rest1)
    else
      Done (Frame false false (create_message tag count sender message_data),
            rest1).

(** The critical section of one turn of [handle_channel]
    (mimpi.c:535-549 for the end of the stream, 588-630 for a message). *)
Definition dispatch (p : Process) (sender : Z) (f : frame) : outcome Process :=
  match f with
  | EndOfStream =>
      Done (set_already_left p ({[sender]} ∪ MIMPI_already_left p))
  | Frame waiting_tag receive_tag message =>
      let verdict (w : Message) : Message :=
        {| msg_tag := MIMPI_DEADLOCK_TAG; msg_count := msg_count w;
           msg_source := msg_source w; msg_data := msg_data w;
           msg_received := true |} in
      if msg_tag message =? MIMPI_DEADLOCK_TAG then
        l ← deref (MIMPI_others_recv p !! sender);
        Done (set_others_recv (set_waiting p (verdict (MIMPI_waiting p)))
                (<[sender := push_front l message]> (MIMPI_others_recv p)))
      else if waiting_tag then
        s ← deref (MIMPI_send_not_received p);
        match find_elem_in_list s message with
        | None =>
            l ← deref (MIMPI_others_recv p !! sender);
            let p1 := set_others_recv p
                        (<[sender := push_front l message]> (MIMPI_others_recv p)) in
            if (msg_source (MIMPI_waiting p1) =? sender)
               && negb (msg_received (MIMPI_waiting p1))
            then Done (set_waiting p1 (verdict (MIMPI_waiting p1)))
            else Done p1
        | Some _ => Done p
        end
      else if receive_tag then
        s ← deref (MIMPI_send_not_received p);
        match find_elem_in_list s message with
        | Some i => Done (set_send_not_received p (Some (remove_from_list s i)))
        | None => Done (set_send_not_received p None)
        end
      else
        q ← deref (MIMPI_received_messages p !! sender);
        let p1 := set_received_messages p
                    (<[sender := push_front q message]> (MIMPI_received_messages p)) in
        if compare_message message (MIMPI_waiting p1) then
          Done (set_waiting p1
                  {| msg_tag := msg_tag message; msg_count := msg_count message;
                     msg_source := msg_source message;
                     msg_data := msg_data message; msg_received := true |})
        else Done p1
  end.

(** The frame layout of the specification: an 8-byte header, [count] then
    [tag], followed by [count] payload bytes iff the tag is
    payload-bearing. *)
Definition frame_layout (data : list Z) (count tag : Z) : list Z :=
  encode_int count ++ encode_int tag
  ++ (if payload_bearing tag then take (Z.to_nat count) data else []).

(** What the reader makes of a frame with header [(count, tag)] and body
    [body]: a WAITING or RECEIVED frame is relabelled with the pair it
    carries. *)
Definition decoded (sender count tag : Z) (body : option (list Z)) : frame :=
  if (tag =? MIMPI_WAITING_TAG) || (tag =? MIMPI_RECEIVED_TAG) then
    Frame (tag =? MIMPI_WAITING_TAG) (negb (tag =? MIMPI_WAITING_TAG))
      (create_message (decode_int (drop 4 (default [] body)))
         (decode_int (take 4 (default [] body))) sender body)
  else Frame false false (create_message tag count sender body).

(** One turn of the loop of [handle_channel] (mimpi.c:532-631) on the bytes
    [stream] of the channel from [sender]. *)
Definition handle_channel_turn (p : Process) (sender : Z) (stream : list Z)
    : outcome (Process * list Z) :=
  '(f, rest) ← read_frame sender stream;
  p' ← dispatch p sender f;
  Done (p', rest).

(** Whether the first notification of a list of [MIMPI_others_recv] carries
    a tag [>= MIMPI_ANY_TAG] (mimpi.c:832-835). *)
Definition head_user_tag (l : option (list Message)) : bool :=
  match l with
  | Some (msg :: _) => msg_tag msg >=? MIMPI_ANY_TAG
  | _ => false
  end.



(** ** Two processes waiting for each other

    Two processes of a world, with deadlock detection on, each about to
    call [MIMPI_Recv] naming the other.  In each process the caller thread
    and the reader of the channel from the other process are followed; the
    two channels between them are the only objects the two processes share.
    Every code section that runs under [MIMPI_mutex] is one step of the
    thread that holds the mutex, and the frames a step writes are appended
    to the channel to the peer.  The reader takes a frame out of its channel
    in one step and handles it under the mutex in another. *)
Inductive caller_state : Type :=
| Ready
| Blocked
| Finished (rc : MIMPI_Retcode).

#[export] Instance caller_state_eq_dec : EqDecision caller_state.
Proof. solve_decision. Defined.

(** How the caller of a node learnt of the deadlock. *)
Inductive cause : Type :=
| ByWaitingNotification
| ByDeadlockFrame
| OnEntry.

#[export] Instance cause_eq_dec : EqDecision cause.
Proof. solve_decision. Defined.

Record Node : Type := mkNode {
  proc : Process;
  caller : caller_state;
  holding : option frame;
  inbox : list Z;
  woken : option cause
}.

(** The arguments of the one call [MIMPI_Recv(data, count, source, tag)]
    that the caller of a node makes. *)
Record recv_call : Type := mkCall {
  call_data : Z;
  call_count : Z;
  call_source : Z;
  call_tag : Z
}.

Definition System : Type := Node * Node.

Definition node (s : System) (i : bool) : Node := if i then s.2 else s.1.

Definition set_node (s : System) (i : bool) (n : Node) : System :=
  if i then (s.1, n) else (n, s.2).

(** The bytes of the frames of [w], in order. *)
Definition wire_bytes (w : wire) : list Z := mjoin (snd <$> w).

(** The frames of [w] addressed to node [n] arrive in its channel. *)
Definition deliver (n : Node) (w : wire) : Node :=
  {| proc := proc n; caller := caller n; holding := holding n;
     inbox := inbox n
              ++ wire_bytes
                   (filter (fun f => f.1 = MIMPI_World_rank (proc n)) w);
     woken := woken n |}.

(** The threads of a node. *)
Inductive thread : Type :=
| CallerEnter
| CallerWake
| ReaderRead
| ReaderDispatch.

Definition always_ok : Z -> bool := fun _ => true.
Definition no_memory : heap := fun _ => 0.

(** The condition of the wait loop of [MIMPI_Recv] (mimpi.c:863). *)
Definition wait_over (p : Process) (source : Z) : bool :=
  msg_received (MIMPI_waiting p) || bool_decide (source ∈ MIMPI_already_left p).

(** Whether a dispatch gives the verdict to a parked caller, and how. *)
Definition verdict_cause (before after : Process) (f : frame) : option cause :=
  if negb (msg_tag (MIMPI_waiting before) =? MIMPI_DEADLOCK_TAG)
     && (msg_tag (MIMPI_waiting after) =? MIMPI_DEADLOCK_TAG) then
    match f with
    | Frame true _ _ => Some ByWaitingNotification
    | _ => Some ByDeadlockFrame
    end
  else None.

(** One step of thread [t] of a node whose caller makes the call [c]:
    [None] when the thread cannot move (it is blocked or has finished),
    otherwise the node after the step with the frames it wrote, or [Crash]
    when the step stops the process. *)
Definition node_step (c : recv_call) (me : Node) (t : thread)
    : option (outcome (Node * wire)) :=
  match t with
  | CallerEnter =>
      match caller me with
      | Ready =>
          Some ('(st, p', _, w) ←
                  MIMPI_Recv (proc me) always_ok no_memory (call_data c)
                    (call_count c) (call_source c) (call_tag c);
                Done ({| proc := p';
                         caller := match st with
                                   | Parked => Blocked
                                   | Returned rc => Finished rc
                                   end;
                         holding := holding me; inbox := inbox me;
                         woken := match st with
                                  | Returned MIMPI_ERROR_DEADLOCK_DETECTED =>
                                      Some OnEntry
                                  | _ => None
                                  end |}, w))
      | _ => None
      end
  | CallerWake =>
      match caller me with
      | Blocked =>
          if wait_over (proc me) (call_source c) then
            Some ('(st, p', _, w) ←
                    Recv_after_wait (proc me) always_ok no_memory (call_data c)
                      (call_count c) (call_source c) (call_tag c) [];
                  Done ({| proc := p';
                           caller := match st with
                                     | Parked => Blocked
                                     | Returned rc => Finished rc
                                     end;
                           holding := holding me; inbox := inbox me;
                           woken := woken me |}, w))
          else None
      | _ => None
      end
  | ReaderRead =>
      match holding me, inbox me with
      | None, _ :: _ =>
          Some ('(f, rest) ← read_frame (call_source c) (inbox me);
                Done ({| proc := proc me; caller := caller me;
                         holding := Some f; inbox := rest;
                         woken := woken me |}, []))
      | _, _ => None
      end
  | ReaderDispatch =>
      match holding me with
      | Some f =>
          Some (p' ← dispatch (proc me) (call_source c) f;
                Done ({| proc := p'; caller := caller me; holding := None;
                         inbox := inbox me;
                         woken := match verdict_cause (proc me) p' f with
                                  | Some k => Some k
                                  | None => woken me
                                  end |}, []))
      | None => None
      end
  end.

(** One step of thread [t] of node [i] of the system: the frames written
    go to the channel into the other node. *)
Definition step (calls : recv_call * recv_call) (s : System) (i : bool)
    (t : thread) : option (outcome System) :=
  match node_step (if i then calls.2 else calls.1) (node s i) t with
  | None => None
  | Some o =>
      Some ('(n', w) ← o;
            Done (set_node (set_node s i n') (negb i)
                    (deliver (node s (negb i)) w)))
  end.

Definition moves : list (bool * thread) :=
  [(false, CallerEnter); (false, CallerWake); (false, ReaderRead);
   (false, ReaderDispatch); (true, CallerEnter); (true, CallerWake);
   (true, ReaderRead); (true, ReaderDispatch)].

(** The steps enabled in [s]. *)
Definition successors (calls : recv_call * recv_call) (s : System)
    : list (outcome System) :=
  omap (fun m : bool * thread => step calls s m.1 m.2) moves.

(** The states in which the executions from [s] end, provided that every
    execution ends within [fuel] steps and none stops a process. *)
Fixpoint explore (calls : recv_call * recv_call) (fuel : nat) (s : System)
    : option (list System) :=
  match successors calls s with
  | [] => Some [s]
  | next =>
      match fuel with
      | O => None
      | S fuel' =>
          mjoin <$> mapM (fun o => match o with
                                    | Done s' => explore calls fuel' s'
                                    | Crash => None
                                    end) next
      end
  end.

(** A node before its caller has entered [MIMPI_Recv], with nothing in
    the channel from the peer. *)
Definition start_node (p : Process) : Node :=
  {| proc := p; caller := Ready; holding := None; inbox := []; woken := None |}.

Definition start_system (p0 p1 : Process) : System :=
  (start_node p0, start_node p1).

(** The preconditions of a mutual wait on the side of process [p], whose
    caller makes the call [mine] while the caller of the process it names
    makes the call [peer]: detection is on, the call passes the rank
    checks, the peer has not left, no caller is waiting, no notification
    from the peer is pending, no queued message matches the call, and no
    unacknowledged send matches what the peer waits for. *)
Definition waits_for (p : Process) (mine peer : recv_call) : Prop :=
  MIMPI_deadlock_enabled p = true /\
  0 <= call_source mine < MIMPI_World_size p /\
  call_source mine <> MIMPI_World_rank p /\
  call_source peer = MIMPI_World_rank p /\
  (call_source mine ∉ MIMPI_already_left p) /\
  MIMPI_waiting p = MIMPI_DEFAULT_MSG /\
  MIMPI_others_recv p !! call_source mine = Some [] /\
  (exists q, MIMPI_received_messages p !! call_source mine = Some q /\
             find_elem_in_list q
               (create_message (call_tag mine) (call_count mine)
                  (call_source mine) None) = None) /\
  (exists s, MIMPI_send_not_received p = Some s /\
             find_elem_in_list s
               (create_message (call_tag peer) (call_count peer)
                  (call_source mine)
                  (Some (info (call_count peer) (call_tag peer)))) = None).

(** Rank 0 receives from rank 1 and rank 1 from rank 0. *)
Definition mutual_calls (data0 count0 tag0 data1 count1 tag1 : Z)
    : recv_call * recv_call :=
  ({| call_data := data0; call_count := count0; call_source := 1;
      call_tag := tag0 |},
   {| call_data := data1; call_count := count1; call_source := 0;
      call_tag := tag1 |}).

(** What is observed of an execution: how each call ended and what made
    its caller learn of the deadlock. *)
Definition outcome_of (s : System)
    : (caller_state * option cause) * (caller_state * option cause) :=
  ((caller s.1, woken s.1), (caller s.2, woken s.2)).

(** Running the threads named by a schedule, one step each. *)
Fixpoint run (calls : recv_call * recv_call) (schedule : list (bool * thread))
    (s : System) : option (outcome System) :=
  match schedule with
  | [] => Some (Done s)
  | (i, t) :: rest =>
      match step calls s i t with
      | Some (Done s') => run calls rest s'
      | other => other
      end
  end.

(** ** The shapes of the states of a mutual wait

    In a mutual wait the two processes exchange only WAITING notifications
    and DEADLOCK frames.  The states a node goes through are described by
    a few shapes, independent of the tags and counts of the two calls. *)
Inductive kind : Type :=
| KWaiting
| KDeadlock.

(** The shape of [MIMPI_waiting]: the default message, the filter of the
    call in progress, or that filter turned into a verdict. *)
Inductive slot : Type :=
| Idle
| Filter
| Verdict.

Record ANode : Type := mkANode {
  a_caller : caller_state;
  a_slot : slot;
  a_others : list kind;
  a_holding : option kind;
  a_inbox : list kind;
  a_woken : option cause
}.

#[export] Instance kind_eq_dec : EqDecision kind.
Proof. solve_decision. Defined.
#[export] Instance slot_eq_dec : EqDecision slot.
Proof. solve_decision. Defined.
#[export] Instance ANode_eq_dec : EqDecision ANode.
Proof. solve_decision. Defined.

(** The message of an element of [MIMPI_others_recv] of a node whose
    caller makes the call [mine], the caller of the other node making the
    call [peer]. *)
Definition kind_msg (mine peer : recv_call) (k : kind) : Message :=
  match k with
  | KWaiting =>
      create_message (call_tag peer) (call_count peer) (call_source mine)
        (Some (info (call_count peer) (call_tag peer)))
  | KDeadlock =>
      create_message MIMPI_DEADLOCK_TAG MIMPI_DEFAULT_COUNT (call_source mine)
        None
  end.

Definition kind_frame (mine peer : recv_call) (k : kind) : frame :=
  match k with
  | KWaiting => Frame true false (kind_msg mine peer k)
  | KDeadlock => Frame false false (kind_msg mine peer k)
  end.

(** The bytes of a frame written by the node whose caller makes the call
    [sender]. *)
Definition kind_bytes (sender : recv_call) (k : kind) : list Z :=
  match k with
  | KWaiting =>
      frame_layout (info (call_count sender) (call_tag sender)) METADATA_SIZE
        MIMPI_WAITING_TAG
  | KDeadlock => frame_layout [] MIMPI_DEFAULT_COUNT MIMPI_DEADLOCK_TAG
  end.

Definition slot_msg (mine : recv_call) (s : slot) : Message :=
  match s with
  | Idle => MIMPI_DEFAULT_MSG
  | Filter =>
      {| msg_tag := call_tag mine; msg_count := call_count mine;
         msg_source := call_source mine; msg_data := None;
         msg_received := false |}
  | Verdict =>
      {| msg_tag := MIMPI_DEADLOCK_TAG; msg_count := call_count mine;
         msg_source := call_source mine; msg_data := None;
         msg_received := true |}
  end.

(** The process state of a given shape, the parts of [base] that a mutual
    wait does not touch being kept. *)
Definition shape_proc (base : Process) (mine peer : recv_call) (s : slot)
    (others : list kind) : Process :=
  set_others_recv (set_waiting base (slot_msg mine s))
    (<[call_source mine := kind_msg mine peer <$> others]>
       (MIMPI_others_recv base)).

Definition shape_node (base : Process) (mine peer : recv_call) (a : ANode)
    : Node :=
  {| proc := shape_proc base mine peer (a_slot a) (a_others a);
     caller := a_caller a;
     holding := kind_frame mine peer <$> a_holding a;
     inbox := mjoin (kind_bytes peer <$> a_inbox a);
     woken := a_woken a |}.

Definition shape_system (bases : Process * Process)
    (calls : recv_call * recv_call) (a : ANode * ANode) : System :=
  (shape_node bases.1 calls.1 calls.2 a.1,
   shape_node bases.2 calls.2 calls.1 a.2).

Definition shape_wire (mine : recv_call) (ks : list kind) : wire :=
  (fun k => (call_source mine, kind_bytes mine k)) <$> ks.

(** A step on shapes: [None] when the thread cannot move, [Some None] for
    a shape that is not followed further. *)
Definition anode_step (a : ANode) (t : thread)
    : option (option (ANode * list kind)) :=
  match t with
  | CallerEnter =>
      match a_caller a with
      | Ready =>
          match a_slot a, a_others a with
          | Idle, [] =>
              Some (Some ({| a_caller := Blocked; a_slot := Filter;
                             a_others := []; a_holding := a_holding a;
                             a_inbox := a_inbox a; a_woken := None |},
                          [KWaiting]))
          | Idle, KWaiting :: rest =>
              Some (Some ({| a_caller := Finished MIMPI_ERROR_DEADLOCK_DETECTED;
                             a_slot := Idle; a_others := rest;
                             a_holding := a_holding a; a_inbox := a_inbox a;
                             a_woken := Some OnEntry |},
                          [KDeadlock]))
          | _, _ => Some None
          end
      | _ => None
      end
  | CallerWake =>
      match a_caller a with
      | Blocked =>
          match a_slot a, a_others a with
          | Filter, _ => None
          | Verdict, _ :: rest =>
              Some (Some ({| a_caller := Finished MIMPI_ERROR_DEADLOCK_DETECTED;
                             a_slot := Idle; a_others := rest;
                             a_holding := a_holding a; a_inbox := a_inbox a;
                             a_woken := a_woken a |}, []))
          | _, _ => Some None
          end
      | _ => None
      end
  | ReaderRead =>
      match a_holding a, a_inbox a with
      | None, k :: rest =>
          Some (Some ({| a_caller := a_caller a; a_slot := a_slot a;
                         a_others := a_others a; a_holding := Some k;
                         a_inbox := rest; a_woken := a_woken a |}, []))
      | _, _ => None
      end
  | ReaderDispatch =>
      match a_holding a with
      | Some KWaiting =>
          Some (Some ({| a_caller := a_caller a;
                         a_slot := match a_slot a with
                                   | Filter => Verdict
                                   | other => other
                                   end;
                         a_others := a_others a ++ [KWaiting];
                         a_holding := None; a_inbox := a_inbox a;
                         a_woken := match a_slot a with
                                    | Filter => Some ByWaitingNotification
                                    | _ => a_woken a
                                    end |}, []))
      | Some KDeadlock =>
          match a_slot a with
          | Filter =>
              Some (Some ({| a_caller := a_caller a; a_slot := Verdict;
                             a_others := a_others a ++ [KDeadlock];
                             a_holding := None; a_inbox := a_inbox a;
                             a_woken := Some ByDeadlockFrame |}, []))
          | _ => Some None
          end
      | None => None
      end
  end.

Definition anode (a : ANode * ANode) (i : bool) : ANode := if i then a.2 else a.1.

Definition set_anode (a : ANode * ANode) (i : bool) (n : ANode)
    : ANode * ANode :=
  if i then (a.1, n) else (n, a.2).

Definition adeliver (n : ANode) (ks : list kind) : ANode :=
  {| a_caller := a_caller n; a_slot := a_slot n; a_others := a_others n;
     a_holding := a_holding n; a_inbox := a_inbox n ++ ks;
     a_woken := a_woken n |}.

Definition astep (a : ANode * ANode) (i : bool) (t : thread)
    : option (option (ANode * ANode)) :=
  match anode_step (anode a i) t with
  | None => None
  | Some None => Some None
  | Some (Some (n', ks)) =>
      Some (Some (set_anode (set_anode a i n') (negb i)
                    (adeliver (anode a (negb i)) ks)))
  end.

(** The shapes after the enabled steps; [None] when one of them is not
    followed further. *)
Definition asuccessors (a : ANode * ANode) : option (list (ANode * ANode)) :=
  mapM id (omap (fun m : bool * thread => astep a m.1 m.2) moves).

Fixpoint aexplore (fuel : nat) (a : ANode * ANode)
    : option (list (ANode * ANode)) :=
  match asuccessors a with
  | None => None
  | Some [] => Some [a]
  | Some next =>
      match fuel with
      | O => None
      | S fuel' => mjoin <$> mapM (aexplore fuel') next
      end
  end.

Definition ainit_node : ANode :=
  {| a_caller := Ready; a_slot := Idle; a_others := []; a_holding := None;
     a_inbox := []; a_woken := None |}.

Definition aoutcome_of (a : ANode * ANode)
    : (caller_state * option cause) * (caller_state * option cause) :=
  ((a_caller a.1, a_woken a.1), (a_caller a.2, a_woken a.2)).

(** The three ways in which a mutual wait ends. *)
Definition detected : list ((caller_state * option cause)
                            * (caller_state * option cause)) :=
  [((Finished MIMPI_ERROR_DEADLOCK_DETECTED, Some ByWaitingNotification),
    (Finished MIMPI_ERROR_DEADLOCK_DETECTED, Some ByWaitingNotification));
   ((Finished MIMPI_ERROR_DEADLOCK_DETECTED, Some ByDeadlockFrame),
    (Finished MIMPI_ERROR_DEADLOCK_DETECTED, Some OnEntry));
   ((Finished MIMPI_ERROR_DEADLOCK_DETECTED, Some OnEntry),
    (Finished MIMPI_ERROR_DEADLOCK_DETECTED, Some ByDeadlockFrame))].

(** ** A mutual wait without deadlock detection *)

(** The preconditions of a wait on the side of process [p], whose caller
    makes the call [mine], when deadlock detection is off: the call passes
    the rank checks, the process it names has not left and no queued
    message matches the call. *)
Definition waits_undetected (p : Process) (mine : recv_call) : Prop :=
  MIMPI_deadlock_enabled p = false /\
  0 <= call_source mine < MIMPI_World_size p /\
  call_source mine <> MIMPI_World_rank p /\
  (call_source mine ∉ MIMPI_already_left p) /\
  (exists q, MIMPI_received_messages p !! call_source mine = Some q /\
             find_elem_in_list q
               (create_message (call_tag mine) (call_count mine)
                  (call_source mine) None) = None).

(** A node whose caller is parked in the call [mine], with nothing in the
    channel from the peer. *)
Definition parked_node (p : Process) (mine : recv_call) : Node :=
  {| proc := set_waiting p
               {| msg_tag := call_tag mine; msg_count := call_count mine;
                  msg_source := call_source mine; msg_data := None;
                  msg_received := false |};
     caller := Blocked; holding := None; inbox := []; woken := None |}.

(** The four states of two such nodes: each caller has entered its call
    and is parked, or has not entered yet. *)
Definition entered_system (p0 p1 : Process) (calls : recv_call * recv_call)
    (a b : bool) : System :=
  (if a then parked_node p0 calls.1 else start_node p0,
   if b then parked_node p1 calls.2 else start_node p1).

(** ** What a call leaves alone *)

(** The parts of the state of a process that only [MIMPI_Init] and the
    readers write: the size of the world, the rank, the detection flag and
    the set of peers that have left. *)
Definition same_world (p p' : Process) : Prop :=
  MIMPI_SIZE p' = MIMPI_SIZE p /\
  MIMPI_PID_RANK p' = MIMPI_PID_RANK p /\
  MIMPI_deadlock_enabled p' = MIMPI_deadlock_enabled p /\
  MIMPI_already_left p' = MIMPI_already_left p.

(** ** Channel input and output in pieces

    Modelled from the spec: channel.h, which declares [chrecv] and [chsend],
    is not part of the sources.  Section 4.1 takes short input and output to
    be normal: a call moves between one byte and the number of bytes asked
    for and returns how many it moved, or it returns zero or an error (a
    negative value).  A channel is the list of the bytes in it; [piece] is
    the number of bytes the underlying stream is ready to move at a call,
    a value [<= 0] standing for an error that is returned as it is. *)
Module Pieces.

(** [chrecv(fd, buf, count)]: the value returned, the bytes stored at
    [buf] and the bytes left in the channel.  An empty channel whose write
    end is closed gives 0. *)
Definition chrecv (piece : Z) (stream : list Z) (count : Z)
    : Z * list Z * list Z :=
  if piece <=? 0 then (piece, [], stream)
  else
    let n := Z.min piece (Z.min count (Z.of_nat (length stream))) in
    (n, take (Z.to_nat n) stream, drop (Z.to_nat n) stream).

(** The loop [while (bytes_read < count)] of [read_from_channel]
    (mimpi.c:336-345); [pieces k] belongs to the [k]-th call of [chrecv] and
    [data] holds the bytes stored so far. *)
Fixpoint read_loop (fuel : nat) (pieces : nat -> Z) (k : nat) (stream : list Z)
    (count bytes_read : Z) (data : list Z) : option (Readcode * list Z) :=
  if bytes_read <? count then
    match fuel with
    | O => None
    | S fuel' =>
        let '(current_read, bytes, rest) :=
          chrecv (pieces k) stream (count - bytes_read) in
        if current_read <=? 0 then
          Some ({| error_occured := true; readcode_data := data |}, rest)
        else
          read_loop fuel' pieces (S k) rest count (bytes_read + current_read)
            (data ++ bytes)
    end
  else Some ({| error_occured := false; readcode_data := data |}, stream).

(** [read_from_channel] (mimpi.c:322-349). *)
Definition read_from_channel (fuel : nat) (pieces : nat -> Z)
    (stream : list Z) (count : Z) : option (Readcode * list Z) :=
  read_loop fuel pieces 0 stream count 0 [].

(** [chsend(fd, buf, count)]: the value returned and the bytes appended to
    the channel. *)
Definition chsend (piece : Z) (buf : list Z) (count : Z) : Z * list Z :=
  if piece <=? 0 then (piece, [])
  else
    let n := Z.min piece count in
    (n, take (Z.to_nat n) buf).

(** The largest value of an [int]. *)
Definition INT_MAX : Z := 2 ^ 31 - 1.

(** The loop [while (bytes_wrote < count)] of [write_to_channel]
    (mimpi.c:366-374); [out] holds the bytes appended to the channel so
    far.  The counter [bytes_wrote] is an [int] (mimpi.c:364) compared with
    the [size_t] [count]: an addition that takes it beyond [INT_MAX] is
    undefined and the loop has no result, as when it is cut by its bound. *)
Fixpoint write_loop (fuel : nat) (pieces : nat -> Z) (k : nat) (data : list Z)
    (count bytes_wrote : Z) (out : list Z) : option (bool * list Z) :=
  if bytes_wrote <? count then
    match fuel with
    | O => None
    | S fuel' =>
        let '(current_wrote, bytes) :=
          chsend (pieces k) (drop (Z.to_nat bytes_wrote) data)
            (count - bytes_wrote) in
        if current_wrote <=? 0 then Some (false, out)
        else if INT_MAX <? bytes_wrote + current_wrote then None
        else
          write_loop fuel' pieces (S k) data count
            (bytes_wrote + current_wrote) (out ++ bytes)
    end
  else Some (true, out).

(** [write_to_channel] (mimpi.c:359-377). *)
Definition write_to_channel (fuel : nat) (pieces : nat -> Z) (count : Z)
    (data : list Z) : option (bool * list Z) :=
  write_loop fuel pieces 0 data count 0 [].

End Pieces.

(** ** The doubly linked lists in memory (mimpi.c:88-312)

    The elements of the lists are cells of the C heap.  A pointer to an
    element is its address, [NULL] is 0, and the heap is the finite map of
    the elements that are allocated.  Dereferencing [NULL] or the address of
    an element that has been freed is counted as stopping the process.  The
    message of an element, with its data, is owned by that element alone
    ([delete_elem] frees it through [delete_message], mimpi.c:152-159 and
    206-207); it is kept with the element. *)
Module Linked.

(** [elem] (mimpi.c:88-92). *)
Record elem : Type := mkElem {
  next : Z;
  prev : Z;
  message : option Message
}.

(** [list] (mimpi.c:96-99): the addresses of the two sentinels. *)
Record dlist : Type := mkList {
  head : Z;
  tail : Z
}.

(** The assignments [el->next = v] and [el->prev = v]. *)
Definition set_next (m : gmap Z elem) (el v : Z) : outcome (gmap Z elem) :=
  e ← deref (m !! el);
  Done (<[el := {| next := v; prev := prev e; message := message e |}]> m).

Definition set_prev (m : gmap Z elem) (el v : Z) : outcome (gmap Z elem) :=
  e ← deref (m !! el);
  Done (<[el := {| next := next e; prev := v; message := message e |}]> m).

(** [create_elem] (mimpi.c:185-195); [el] is the address [malloc]
    returned, [NULL] when it failed ([ASSERT_MALLOC]). *)
Definition create_elem (m : gmap Z elem) (el next prev : Z)
    (message : option Message) : outcome (gmap Z elem) :=
  if el =? NULL then Crash
  else Done (<[el := {| next := next; prev := prev; message := message |}]> m).

(** [delete_elem] (mimpi.c:201-210). *)
Definition delete_elem (m : gmap Z elem) (el : Z) : outcome (gmap Z elem) :=
  _ ← deref (m !! el);
  Done (delete el m).

(** [create_list] (mimpi.c:217-230); [head] and [tail] are the addresses
    returned by the two calls of [malloc]. *)
Definition create_list (m : gmap Z elem) (head tail : Z)
    : outcome (dlist * gmap Z elem) :=
  m1 ← create_elem m head NULL NULL None;
  m2 ← create_elem m1 tail NULL NULL None;
  m3 ← set_next m2 tail head;
  m4 ← set_prev m3 head tail;
  Done ({| head := head; tail := tail |}, m4).

(** [remove_from_list] (mimpi.c:236-249). *)
Definition remove_from_list (m : gmap Z elem) (el : Z)
    : outcome (gmap Z elem) :=
  e ← deref (m !! el);
  let previous_element := prev e in
  let next_element := next e in
  m1 ← (if previous_element =? NULL then Done m
        else set_next m previous_element next_element);
  m2 ← (if next_element =? NULL then Done m1
        else set_prev m1 next_element previous_element);
  delete_elem m2 el.

(** The loop of [delete_list] (mimpi.c:260-264); [None] when the loop is
    cut by its iteration bound. *)
Fixpoint delete_loop (fuel : nat) (m : gmap Z elem) (current : Z)
    : option (outcome (gmap Z elem)) :=
  if current =? NULL then Some (Done m)
  else
    match fuel with
    | O => None
    | S fuel' =>
        match m !! current with
        | None => Some Crash
        | Some e =>
            match remove_from_list m current with
            | Crash => Some Crash
            | Done m' => delete_loop fuel' m' (next e)
            end
        end
    end.

(** [delete_list] (mimpi.c:255-269), as what it does to the elements. *)
Definition delete_list (fuel : nat) (m : gmap Z elem) (l : dlist)
    : option (outcome (gmap Z elem)) :=
  delete_loop fuel m (tail l).

(** The loop of [find_elem_in_list] (mimpi.c:285-291). *)
Fixpoint find_loop (fuel : nat) (m : gmap Z elem) (l : dlist)
    (to_compare : Message) (current : Z) : option (outcome Z) :=
  match m !! current with
  | None => Some Crash
  | Some e =>
      match message e with
      | Some msg =>
          if negb (current =? head l) then
            if compare_message msg to_compare then Some (Done current)
            else
              match fuel with
              | O => None
              | S fuel' => find_loop fuel' m l to_compare (next e)
              end
          else Some (Done current)
      | None => Some (Done current)
      end
  end.

(** [find_elem_in_list] (mimpi.c:279-294). *)
Definition find_elem_in_list (fuel : nat) (m : gmap Z elem) (l : dlist)
    (to_compare : Message) : option (outcome Z) :=
  match m !! tail l with
  | None => Some Crash
  | Some t => find_loop fuel m l to_compare (next t)
  end.

(** [push_front] (mimpi.c:301-312). *)
Definition push_front (m : gmap Z elem) (l : dlist) (el : Z)
    : outcome (gmap Z elem) :=
  hd ← deref (m !! head l);
  let last := prev hd in
  m1 ← set_next m last el;
  m2 ← set_prev m1 el last;
  m3 ← set_next m2 el (head l);
  set_prev m3 (head l) el.

(** *** What a list in memory stands for *)

(** The address that follows a chain of cells, and the one that precedes
    what comes after it. *)
Definition first_addr (chain : list (Z * option Message)) (after : Z) : Z :=
  match chain with
  | [] => after
  | (el, _) :: _ => el
  end.

Definition last_addr (before : Z) (chain : list (Z * option Message)) : Z :=
  default before (last chain.*1).

(** [linked m before chain after]: the cells of [chain], each an address
    with the message it holds, are allocated in [m] and linked to one
    another in that order, the first one pointing back to [before] and the
    last one on to [after]. *)
Fixpoint linked (m : gmap Z elem) (before : Z)
    (chain : list (Z * option Message)) (after : Z) : Prop :=
  match chain with
  | [] => True
  | (el, msg) :: rest =>
      m !! el = Some {| next := first_addr rest after; prev := before;
                        message := msg |} /\
      linked m el rest after
  end.

(** The cells of the list [l] whose elements are [elems]: the [tail]
    sentinel, the elements, the [head] sentinel. *)
Definition chain_of (l : dlist) (elems : list (Z * Message))
    : list (Z * option Message) :=
  (tail l, None) :: ((fun x => (x.1, Some x.2)) <$> elems) ++ [(head l, None)].

(** [is_list m l elems]: in [m], [l] is a well-formed list whose elements,
    from [tail->next] towards [head], have the addresses and the messages
    of [elems]. *)
Definition is_list (m : gmap Z elem) (l : dlist) (elems : list (Z * Message))
    : Prop :=
  NoDup (chain_of l elems).*1 /\ (NULL ∉ (chain_of l elems).*1) /\
  linked m NULL (chain_of l elems) NULL.

End Linked.

(** ** A world of processes in a collective

    The processes of a world run a collective at the same time.  Here no
    process leaves and no write fails, so that every point-to-point call
    succeeds: each process makes the calls of its run in order.  A Send is
    never held up (the reader of the destination takes the frame out of the
    channel), and a Recv returns once a message of its source, tag and count
    that no earlier Recv has taken has been sent. *)

(** The environment in which every call succeeds. *)
Definition all_succeed : nat -> response :=
  fun _ => {| resp_rc := MIMPI_SUCCESS; resp_payload := [] |}.

(** The point-to-point calls of a run of [p] in which every call succeeds,
    with the value returned; [None] when a loop is cut by its bound. *)
Definition calls_of (p : prog MIMPI_Retcode)
    : option (MIMPI_Retcode * list event) :=
  match exec p all_succeed (fun _ => NULL) 0 no_memory with
  | Some (rc, _, tr) => Some (rc, tr)
  | None => None
  end.

(** The calls of rank [i] in a world whose ranks run the programs of
    [table]. *)
Definition script (table : list (list event)) (i : nat) : list event :=
  default [] (table !! i).

(** The number of messages for [destination] with the given tag and count
    among the sends of [evs], and the number of messages from [source] with
    that tag and count taken by the receives of [evs]. *)
Definition is_send (destination tag count : Z) (e : event) : bool :=
  match e with
  | EvSend _ c d t => (d =? destination) && (t =? tag) && (c =? count)
  | EvRecv _ _ _ _ => false
  end.

Definition is_recv (source tag count : Z) (e : event) : bool :=
  match e with
  | EvSend _ _ _ _ => false
  | EvRecv _ c s t => (s =? source) && (t =? tag) && (c =? count)
  end.

Definition sent (evs : list event) (destination tag count : Z) : nat :=
  length (filter (fun e => is_send destination tag count e = true) evs).

Definition taken (evs : list event) (source tag count : Z) : nat :=
  length (filter (fun e => is_recv source tag count e = true) evs).

(** [ready table pos i]: the next call of rank [i] can complete when every
    rank [k] has completed the first [pos k] calls of its run. *)
Definition ready (table : list (list event)) (pos : nat -> nat) (i : nat)
    : bool :=
  match script table i !! pos i with
  | Some (EvSend _ _ _ _) => true
  | Some (EvRecv _ count source tag) =>
      (taken (take (pos i) (script table i)) source tag count
       <? sent (take (pos (Z.to_nat source))
                  (script table (Z.to_nat source)))
            (Z.of_nat i) tag count)%nat
  | None => false
  end.

(** Rank [i] completes its next call. *)
Definition advance (pos : nat -> nat) (i : nat) : nat -> nat :=
  fun k => if decide (k = i) then S (pos k) else pos k.

Definition world_step (table : list (list event)) (pos : nat -> nat) (i : nat)
    : option (nat -> nat) :=
  if ready table pos i then Some (advance pos i) else None.

(** Running the ranks named by a schedule, one call each. *)
Fixpoint world_run (table : list (list event)) (schedule : list nat)
    (pos : nat -> nat) : option (nat -> nat) :=
  match schedule with
  | [] => Some pos
  | i :: rest =>
      match world_step table pos i with
      | Some pos' => world_run table rest pos'
      | None => None
      end
  end.

(** The first rank among [ranks] that is ready. *)
Definition first_ready (table : list (list event)) (pos : nat -> nat)
    (ranks : list nat) : option nat :=
  list_find (fun i => ready table pos i = true) ranks ≫= fun x => Some x.2.

(** A schedule that lets the first ready rank among [ranks] move, as long
    as there is one, with the positions it ends in. *)
Fixpoint eager_schedule (fuel : nat) (table : list (list event))
    (ranks : list nat) (pos : nat -> nat) : list nat * (nat -> nat) :=
  match fuel with
  | O => ([], pos)
  | S fuel' =>
      match first_ready table pos ranks with
      | Some i =>
          let '(s, pos') := eager_schedule fuel' table ranks (advance pos i) in
          (i :: s, pos')
      | None => ([], pos)
      end
  end.

(** The ranks of a world of [n] processes, and those other than [j]. *)
Definition ranks (n : nat) : list nat := seq 0 n.
Definition ranks_but (n j : nat) : list nat :=
  filter (fun i => i <> j) (seq 0 n).

(** The number of calls in all the runs of a world. *)
Definition total_calls (table : list (list event)) : nat :=
  sum_list (length <$> table).

(** [all_done table pos]: every rank has completed its run. *)
Definition all_done (table : list (list event)) (pos : nat -> nat) : bool :=
  forallb (fun i => pos i =? length (script table i))%nat
    (ranks (length table)).

(** The world of [W] processes in which rank [rank] runs [p rank]: the
    calls of every rank, provided that every run returns success. *)
Definition world_of (W : Z) (p : Z -> prog MIMPI_Retcode)
    : option (list (list event)) :=
  mapM (fun rank =>
          '(rc, tr) ← calls_of (p rank);
          if decide (rc = MIMPI_SUCCESS) then Some tr else None)
    (seqZ 0 W).

(** The worlds in which every rank calls [MIMPI_Barrier], [MIMPI_Bcast] or
    [MIMPI_Reduce] with the same arguments.  [MIMPI_Reduce] allocates its
    scratch buffer: its world is that of the runs with the allocator
    [alloc], and there is none when the allocation fails. *)
Definition Barrier_world (W : Z) : option (list (list event)) :=
  world_of W (fun rank => MIMPI_Barrier W rank (Z.to_nat W)).

Definition Bcast_world (W root data count : Z) : option (list (list event)) :=
  world_of W (fun rank => MIMPI_Bcast W rank (Z.to_nat W) data count root).


(** What is checked of a world by running it: the eager schedule completes
    every run, and when a rank [j] never moves, the eager schedule of the
    others stops before any of them has completed its run. *)
Definition completes (table : list (list event)) : bool :=
  let '(s, pos) :=
    eager_schedule (total_calls table) table (ranks (length table))
      (fun _ => O) in
  all_done table pos.

Definition waits_for_all (table : list (list event)) : bool :=
  forallb
    (fun j =>
       let '(s, pos) :=
         eager_schedule (total_calls table) table
           (ranks_but (length table) j) (fun _ => O) in
       forallb (fun i => negb (ready table pos i) || (i =? j)%nat)
         (ranks (length table))
       && forallb (fun i => pos i <? length (script table i))%nat
            (ranks (length table)))
    (ranks (length table)).

Definition Barrier_checked (W : Z) : bool :=
  match Barrier_world W with
  | Some table =>
      (length table =? Z.to_nat W)%nat && completes table
      && waits_for_all table
  | None => false
  end.

(** The tag, the count and the peer of a call. *)
Definition event_tag (e : event) : Z :=
  match e with
  | EvSend _ _ _ tag => tag
  | EvRecv _ _ _ tag => tag
  end.

Definition event_count (e : event) : Z :=
  match e with
  | EvSend _ count _ _ => count
  | EvRecv _ count _ _ => count
  end.

(** [calls_sat P p]: every point-to-point call that [p] can make satisfies
    [P], whatever the calls return. *)
Inductive calls_sat (P : event -> Prop) : prog MIMPI_Retcode -> Prop :=
| cs_Ret (rc : MIMPI_Retcode) : calls_sat P (Ret rc)
| cs_Send (d c dst t : Z) (k : MIMPI_Retcode -> prog MIMPI_Retcode) :
    P (EvSend d c dst t) -> (forall rc, calls_sat P (k rc)) ->
    calls_sat P (CallSend d c dst t k)
| cs_Recv (d c src t : Z) (k : MIMPI_Retcode -> prog MIMPI_Retcode) :
    P (EvRecv d c src t) -> (forall rc, calls_sat P (k rc)) ->
    calls_sat P (CallRecv d c src t k)
| cs_Malloc (s : Z) (k : Z -> prog MIMPI_Retcode) :
    (forall a, calls_sat P (k a)) -> calls_sat P (CallMalloc s k)
| cs_Memcpy (d s n : Z) (k : prog MIMPI_Retcode) :
    calls_sat P k -> calls_sat P (CallMemcpy d s n k)
| cs_Free (p : Z) (k : prog MIMPI_Retcode) :
    calls_sat P k -> calls_sat P (CallFree p k)
| cs_OutOfFuel : calls_sat P OutOfFuel.

(** In a collective every call carries either the sentinel (tag
    NO_MESSAGE, count -1) or the payload of the collective (tag [tag],
    count [count]). *)
Definition carries (tag count : Z) (e : event) : Prop :=
  (event_tag e = MIMPI_NO_MESSAGE_TAG /\ event_count e = MIMPI_DEFAULT_COUNT)
  \/ (event_tag e = tag /\ event_count e = count).

(** A call with its buffer and its count left out. *)
Definition erase (e : event) : event :=
  match e with
  | EvSend _ _ destination tag => EvSend 0 0 destination tag
  | EvRecv _ _ source tag => EvRecv 0 0 source tag
  end.

Definition erase_all (table : list (list event)) : list (list event) :=
  (fun evs : list event => erase <$> evs) <$> table.

(** [uniform table]: in [table] the count of a call is determined by its
    tag. *)
Definition uniform (table : list (list event)) : Prop :=
  forall e e', e ∈ mjoin table -> e' ∈ mjoin table ->
    event_tag e = event_tag e' -> event_count e = event_count e'.

(** The two checks on a world, made on its calls with buffers and counts
    left out. *)
Definition world_checked_erased (W : Z) (world : option (list (list event)))
    : bool :=
  match world with
  | Some table =>
      (length table =? Z.to_nat W)%nat && completes (erase_all table)
      && waits_for_all (erase_all table)
  | None => false
  end.

(** The pairs of a world size from 2 to 16 and a root. *)
Definition sizes_and_roots : list (Z * Z) :=
  W ← seqZ 2 15; (fun root => (W, root)) <$> seqZ 0 W.

(** ** The processes of a world on their channels

    A world is run by its processes together.  Each process has the state
    of its copy of the library, the memory of its caller thread, what that
    thread has still to run, and a flag telling whether it is parked in the
    wait loop of [MIMPI_Recv] (mimpi.c:863-865).  The channel from a process
    to another holds the bytes written and not yet read; only the caller
    thread of the first writes to it ([MIMPI_Send]) and only one reader
    thread of the second reads from it ([handle_channel]).  No process
    leaves, and every write succeeds.

    A step is made by one thread: the caller thread of a process makes its
    next call, [MIMPI_Send] as a whole or [MIMPI_Recv] up to its return or to
    the wait loop; a parked caller thread whose wait is over goes on to the
    return of [MIMPI_Recv]; a reader thread takes one frame out of its
    channel and handles it. *)
Record Rank : Type := mkRank {
  library : Process;
  memory : heap;
  code : prog MIMPI_Retcode;
  asleep : bool
}.

Record World : Type := mkWorld {
  size : Z;
  member : Z -> Rank;
  channel : Z * Z -> list Z
}.

Inductive move : Type :=
| Call (i : Z)
| Wake (i : Z)
| Read (i sender : Z).

(** [upd f k v] is [f] with the value [v] at [k]. *)
Definition upd {K A : Type} `{EqDecision K} (f : K -> A) (k : K) (v : A)
    : K -> A :=
  fun k' => if decide (k' = k) then v else f k'.

(** The frames written by process [from] are appended to the channels to
    their destinations; a channel is named by its two ends, the writer
    first. *)
Definition write_frames (from : Z) (w : wire) (ch : Z * Z -> list Z)
    : Z * Z -> list Z :=
  foldl (fun ch f => upd ch (from, f.1) (ch (from, f.1) ++ f.2)) ch w.

(** What a call of [MIMPI_Recv] makes of the caller thread. *)
Definition after_recv (r : Rank) (k : MIMPI_Retcode -> prog MIMPI_Retcode)
    (res : recv_result) : Rank * wire :=
  let '(st, p, h, w) := res in
  ({| library := p; memory := h;
      code := match st with
              | Returned rc => k rc
              | Parked => code r
              end;
      asleep := match st with
                | Returned _ => false
                | Parked => true
                end |}, w).

(** The caller thread makes its next call, or its next step on its own
    memory.  An allocation that fails stops the process ([ASSERT_MALLOC],
    mimpi.c:973). *)
Definition call_move (alloc : Z -> Z) (r : Rank)
    : option (outcome (Rank * wire)) :=
  if asleep r then None
  else
    match code r with
    | Ret _ => None
    | OutOfFuel => None
    | CallSend d c dst t k =>
        Some ('(rc, p, w) ← MIMPI_Send (library r) always_ok
                              (load (memory r) d c) c dst t;
              Done ({| library := p; memory := memory r; code := k rc;
                       asleep := false |}, w))
    | CallRecv d c src t k =>
        Some (res ← MIMPI_Recv (library r) always_ok (memory r) d c src t;
              Done (after_recv r k res))
    | CallMalloc s k =>
        if (s <? 0) || (alloc s =? NULL) then Some Crash
        else
          Some (Done ({| library := library r; memory := memory r;
                         code := k (alloc s); asleep := false |}, []))
    | CallMemcpy d s n k =>
        Some (Done ({| library := library r;
                       memory := memcpy (memory r) d s n; code := k;
                       asleep := false |}, []))
    | CallFree _ k =>
        Some (Done ({| library := library r; memory := memory r; code := k;
                       asleep := false |}, []))
    end.

(** A parked caller thread leaves the wait loop once its condition is
    false. *)
Definition wake_move (r : Rank) : option (outcome (Rank * wire)) :=
  if asleep r then
    match code r with
    | CallRecv d c src t k =>
        if wait_over (library r) src then
          Some (res ← Recv_after_wait (library r) always_ok (memory r) d c
                        src t [];
                Done (after_recv r k res))
        else None
    | _ => None
    end
  else None.

(** The reader of the channel from [sender] makes one turn of its loop; it
    is blocked in [chrecv] while the channel is empty. *)
Definition read_move (r : Rank) (sender : Z) (stream : list Z)
    : option (outcome (Rank * list Z)) :=
  match stream with
  | [] => None
  | _ :: _ =>
      Some ('(p, rest) ← handle_channel_turn (library r) sender stream;
            Done ({| library := p; memory := memory r; code := code r;
                     asleep := asleep r |}, rest))
  end.

Definition in_world (W i : Z) : bool := (0 <=? i) && (i <? W).

(** One step of a world: [None] when the thread cannot move, [Crash] when
    the step stops its process. *)
Definition processes_move (alloc : Z -> Z) (w : World) (m : move)
    : option (outcome World) :=
  match m with
  | Call i =>
      if in_world (size w) i then
        o ← call_move alloc (member w i);
        Some ('(r, fr) ← o;
              Done {| size := size w; member := upd (member w) i r;
                      channel := write_frames i fr (channel w) |})
      else None
  | Wake i =>
      if in_world (size w) i then
        o ← wake_move (member w i);
        Some ('(r, fr) ← o;
              Done {| size := size w; member := upd (member w) i r;
                      channel := write_frames i fr (channel w) |})
      else None
  | Read i sender =>
      if in_world (size w) i && in_world (size w) sender
         && negb (sender =? i) then
        o ← read_move (member w i) sender (channel w (sender, i));
        Some ('(r, rest) ← o;
              Done {| size := size w; member := upd (member w) i r;
                      channel := upd (channel w) (sender, i) rest |})
      else None
  end.

(** Running the threads named by a schedule, one step each. *)
Fixpoint processes_run (alloc : Z -> Z) (schedule : list move) (w : World)
    : option (outcome World) :=
  match schedule with
  | [] => Some (Done w)
  | m :: rest =>
      match processes_move alloc w m with
      | Some (Done w') => processes_run alloc rest w'
      | other => other
      end
  end.

(** The world after every process has called [MIMPI_Init]: process [i] runs
    [progs i] on the memory [heaps i]. *)
Definition start_world (W : Z) (detection : Z -> bool) (heaps : Z -> heap)
    (progs : Z -> prog MIMPI_Retcode) : World :=
  {| size := W;
     member := fun i =>
       {| library := MIMPI_Init W i (detection i); memory := heaps i;
          code := progs i; asleep := false |};
     channel := fun _ => [] |}.

(** *** The messages of a world

    What the caller threads see of a world whose calls all carry the tags
    of the collectives: for every pair of processes the messages on their
    way and those received and not yet taken, and for every process its
    memory, what is left of its program and whether it is parked. *)
Record Mail : Type := mkMail {
  desk : Z -> heap * prog MIMPI_Retcode * bool;
  queued : Z * Z -> list Message;
  flying : Z * Z -> list Message
}.

(** The message that [MIMPI_Send(data, count, _, tag)] of process [i] puts
    on its way. *)
Definition sent_message (h : heap) (data count i tag : Z) : Message :=
  create_message tag count i
    (if payload_bearing tag then Some (load h data count) else None).

(** Taking the message at position [idx] of the queue from [src]. *)
Definition take_message (a : Mail) (i : Z) (h : heap) (d c src t : Z)
    (k : MIMPI_Retcode -> prog MIMPI_Retcode) (idx : nat) : Mail :=
  let payload := default [] (queued a (src, i) !! idx ≫= msg_data) in
  {| desk := upd (desk a) i
               (Recv_deliver h d c t (take (Z.to_nat c) payload),
                k MIMPI_SUCCESS, false);
     queued := upd (queued a) (src, i) (delete idx (queued a (src, i)));
     flying := flying a |}.

Definition mail_move (alloc : Z -> Z) (W : Z) (a : Mail) (m : move)
    : option Mail :=
  match m with
  | Call i =>
      if in_world W i then
        let '(h, p, z) := desk a i in
        if z : bool then None
        else
          match p with
          | Ret _ => None
          | OutOfFuel => None
          | CallSend d c dst t k =>
              Some {| desk := upd (desk a) i (h, k MIMPI_SUCCESS, false);
                      queued := queued a;
                      flying := upd (flying a) (i, dst)
                                  (flying a (i, dst)
                                   ++ [sent_message h d c i t]) |}
          | CallRecv d c src t k =>
              match find_elem_in_list (queued a (src, i))
                      (create_message t c src None) with
              | Some idx => Some (take_message a i h d c src t k idx)
              | None =>
                  Some {| desk := upd (desk a) i (h, p, true);
                          queued := queued a; flying := flying a |}
              end
          | CallMalloc s k =>
              if (s <? 0) || (alloc s =? NULL) then None
              else
                Some {| desk := upd (desk a) i (h, k (alloc s), false);
                        queued := queued a; flying := flying a |}
          | CallMemcpy d s n k =>
              Some {| desk := upd (desk a) i (memcpy h d s n, k, false);
                      queued := queued a; flying := flying a |}
          | CallFree _ k =>
              Some {| desk := upd (desk a) i (h, k, false);
                      queued := queued a; flying := flying a |}
          end
      else None
  | Wake i =>
      if in_world W i then
        let '(h, p, z) := desk a i in
        if z : bool then
          match p with
          | CallRecv d c src t k =>
              match find_elem_in_list (queued a (src, i))
                      (create_message t c src None) with
              | Some idx => Some (take_message a i h d c src t k idx)
              | None => None
              end
          | _ => None
          end
        else None
      else None
  | Read i sender =>
      if in_world W i && in_world W sender && negb (sender =? i) then
        match flying a (sender, i) with
        | [] => None
        | m :: rest =>
            Some {| desk := desk a;
                    queued := upd (queued a) (sender, i)
                                (push_front (queued a (sender, i)) m);
                    flying := upd (flying a) (sender, i) rest |}
        end
      else None
  end.

Fixpoint mail_run (alloc : Z -> Z) (W : Z) (schedule : list move) (a : Mail)
    : option Mail :=
  match schedule with
  | [] => Some a
  | m :: rest =>
      match mail_move alloc W a m with
      | Some a' => mail_run alloc W rest a'
      | None => None
      end
  end.

Definition start_mail (heaps : Z -> heap) (progs : Z -> prog MIMPI_Retcode)
    : Mail :=
  {| desk := fun i => (heaps i, progs i, false);
     queued := fun _ => []; flying := fun _ => [] |}.

(** The tags of the collectives: below [ANY_TAG] and none of DEADLOCK,
    WAITING and RECEIVED. *)
Definition collective_tag (t : Z) : Prop :=
  - 2 ^ 31 <= t < MIMPI_ANY_TAG /\ t <> MIMPI_DEADLOCK_TAG /\
  t <> MIMPI_WAITING_TAG /\ t <> MIMPI_RECEIVED_TAG.

(** A call that process [i] of a world of [W] can make without an error:
    the peer is another process of the world, the tag is one of the
    collectives, and the count fits an [int], a payload having a count that
    is not negative. *)
Definition event_peer (e : event) : Z :=
  match e with
  | EvSend _ _ destination _ => destination
  | EvRecv _ _ source _ => source
  end.

Definition valid_call (W i : Z) (e : event) : Prop :=
  0 <= event_peer e < W /\ event_peer e <> i /\
  collective_tag (event_tag e) /\
  - 2 ^ 31 <= event_count e < 2 ^ 31 /\
  (payload_bearing (event_tag e) = true -> 0 <= event_count e).

(** A message from [s] as the reader of its channel makes it. *)
Definition message_ok (s : Z) (m : Message) : Prop :=
  msg_source m = s /\ msg_received m = false /\
  collective_tag (msg_tag m) /\
  - 2 ^ 31 <= msg_count m < 2 ^ 31 /\
  if payload_bearing (msg_tag m)
  then 0 <= msg_count m /\
       exists d, msg_data m = Some d /\ length d = Z.to_nat (msg_count m)
  else msg_data m = None.

(** The bytes of the frame of a message. *)
Definition frame_bytes (m : Message) : list Z :=
  frame_layout (default [] (msg_data m)) (msg_count m) (msg_tag m).

(** The calls that a program makes when every call and every allocation
    succeeds, and whether they do and it then returns success. *)
Fixpoint calls_left (alloc : Z -> Z) (p : prog MIMPI_Retcode) : list event :=
  match p with
  | Ret _ => []
  | CallSend d c dst t k =>
      EvSend d c dst t :: calls_left alloc (k MIMPI_SUCCESS)
  | CallRecv d c src t k =>
      EvRecv d c src t :: calls_left alloc (k MIMPI_SUCCESS)
  | CallMalloc s k => calls_left alloc (k (alloc s))
  | CallMemcpy _ _ _ k => calls_left alloc k
  | CallFree _ k => calls_left alloc k
  | OutOfFuel => []
  end.

Fixpoint succeeds (alloc : Z -> Z) (p : prog MIMPI_Retcode) : Prop :=
  match p with
  | Ret rc => rc = MIMPI_SUCCESS
  | CallSend _ _ _ _ k => succeeds alloc (k MIMPI_SUCCESS)
  | CallRecv _ _ _ _ k => succeeds alloc (k MIMPI_SUCCESS)
  | CallMalloc s k =>
      0 <= s /\ alloc s <> NULL /\ succeeds alloc (k (alloc s))
  | CallMemcpy _ _ _ k => succeeds alloc k
  | CallFree _ k => succeeds alloc k
  | OutOfFuel => False
  end.

(** The state of the library of process [i] in a world whose messages are
    those of [a]. *)
Definition library_of (W i : Z) (a : Mail) (r : Rank) : Prop :=
  let p := library r in
  MIMPI_World_size p = W /\ MIMPI_World_rank p = i /\
  MIMPI_already_left p = ∅ /\
  (forall s, 0 <= s < W -> s <> i ->
     MIMPI_received_messages p !! s = Some (queued a (s, i))) /\
  if asleep r then
    exists d c src t k,
      code r = CallRecv d c src t k /\
      msg_tag (MIMPI_waiting p) = t /\ msg_count (MIMPI_waiting p) = c /\
      msg_source (MIMPI_waiting p) = src /\
      (msg_received (MIMPI_waiting p) = true <->
       is_Some (find_elem_in_list (queued a (src, i))
                  (create_message t c src None)))
  else MIMPI_waiting p = MIMPI_DEFAULT_MSG.

(** [mail_of W a w]: the messages of the world [w] are those of [a]. *)
Definition mail_of (W : Z) (a : Mail) (w : World) : Prop :=
  size w = W /\
  (forall i, 0 <= i < W ->
     desk a i = (memory (member w i), code (member w i), asleep (member w i))
     /\ library_of W i a (member w i)) /\
  (forall s i, channel w (s, i) = mjoin (frame_bytes <$> flying a (s, i))).

(** Every message of [a] is well formed. *)
Definition mail_ok (a : Mail) : Prop :=
  forall s i, Forall (message_ok s) (queued a (s, i)) /\
              Forall (message_ok s) (flying a (s, i)).

(** Every process of the world is in a program that returns success when
    its calls succeed, and the calls it has still to make are valid. *)
Definition on_script (alloc : Z -> Z) (W : Z) (a : Mail) : Prop :=
  forall i, 0 <= i < W ->
    succeeds alloc (desk a i).1.2 /\
    Forall (valid_call W i) (calls_left alloc (desk a i).1.2).

(** The call that a program is about to make, if any, is valid, and the
    allocation that it is about to make succeeds. *)
Definition pending_valid (alloc : Z -> Z) (W i : Z) (p : prog MIMPI_Retcode)
    : Prop :=
  match p with
  | CallSend d c dst t _ => valid_call W i (EvSend d c dst t)
  | CallRecv d c src t _ => valid_call W i (EvRecv d c src t)
  | CallMalloc s _ => 0 <= s /\ alloc s <> NULL
  | _ => True
  end.

(** [plain P p]: whatever its calls return, [p] makes point-to-point
    calls only, each of them satisfying [P]. *)
Inductive plain (P : event -> Prop) : prog MIMPI_Retcode -> Prop :=
| plain_Ret (rc : MIMPI_Retcode) : plain P (Ret rc)
| plain_Send (d c dst t : Z) (k : MIMPI_Retcode -> prog MIMPI_Retcode) :
    P (EvSend d c dst t) -> (forall rc, plain P (k rc)) ->
    plain P (CallSend d c dst t k)
| plain_Recv (d c src t : Z) (k : MIMPI_Retcode -> prog MIMPI_Retcode) :
    P (EvRecv d c src t) -> (forall rc, plain P (k rc)) ->
    plain P (CallRecv d c src t k)
| plain_OutOfFuel : plain P OutOfFuel.

(** The calls of [MIMPI_Bcast(data, count, _)]: the sentinel, or the
    payload with the buffer and the count of the call. *)
Definition Bcast_call (data count : Z) (e : event) : Prop :=
  (event_tag e = MIMPI_NO_MESSAGE_TAG /\ event_count e = MIMPI_DEFAULT_COUNT)
  \/ (event_tag e = MIMPI_BROADCAST_TAG /\ event_data e = data /\
      event_count e = count).

(** The calls of [MIMPI_Barrier]. *)
Definition Barrier_call (e : event) : Prop :=
  event_tag e = MIMPI_NO_MESSAGE_TAG /\ event_count e = MIMPI_DEFAULT_COUNT.

(** [awaits evs]: the first call of [evs] that carries the payload of a
    broadcast is a Recv. *)
Definition awaits (evs : list event) : bool :=
  match filter (fun e => event_tag e = MIMPI_BROADCAST_TAG) evs with
  | EvRecv _ _ _ _ :: _ => true
  | _ => false
  end.

(** Every call of the table names a process of the world other than the
    one that makes it. *)
Definition peers_valid (W : Z) (table : list (list event)) : bool :=
  forallb
    (fun i =>
       forallb
         (fun e => (0 <=? event_peer e) && (event_peer e <? W)
                   && negb (event_peer e =? Z.of_nat i))
         (script table i))
    (ranks (length table)).

(** Every process other than the root receives the payload of the
    broadcast before it sends it on. *)
Definition Bcast_order (root : Z) (table : list (list event)) : bool :=
  forallb (fun i => (Z.of_nat i =? root) || awaits (script table i))
    (ranks (length table)).

Definition Bcast_scripts_checked (W root : Z)
    (world : option (list (list event))) : bool :=
  match world with
  | Some table => peers_valid W table && Bcast_order root table
  | None => false
  end.

(** The state of the processes of a world in [MIMPI_Bcast(data, count,
    root)], [sent] being the bytes of the root's buffer: every payload of
    the broadcast that has been sent holds [sent]; the memory of a process
    is what it was outside its buffer; and its buffer holds [sent] unless
    it has still to receive the payload before it sends it on. *)
Definition Bcast_state (W root data count : Z) (heaps : Z -> heap)
    (alloc : Z -> Z) (a : Mail) : Prop :=
  let sent := load (heaps root) data count in
  (forall s i m, m ∈ queued a (s, i) \/ m ∈ flying a (s, i) ->
     msg_tag m = MIMPI_BROADCAST_TAG -> msg_data m = Some sent) /\
  forall i, 0 <= i < W ->
    let '(h, p, _) := desk a i in
    plain (Bcast_call data count) p /\
    (forall x, ~ (data <= x < data + count) -> h x = heaps i x) /\
    (load h data count = sent \/ awaits (calls_left alloc p) = true).

(** *** The messages of a world and the calls of its processes *)

(** The number of messages of [l] with tag [t] and count [c]. *)
Definition count_of (t c : Z) (l : list Message) : nat :=
  length (filter (fun m => msg_tag m = t /\ msg_count m = c) l).

(** [tracks alloc W table pos a]: the processes of the world have completed
    the first [pos] calls of the runs of [table], in some order in which
    these can be completed; each process has the rest of its run to make, a
    parked one being in a Recv; and between two processes the messages of a
    tag and a count that are on their way or waiting to be taken are those
    sent and not yet taken. *)
Definition tracks (alloc : Z -> Z) (W : Z) (table : list (list event))
    (pos : nat -> nat) (a : Mail) : Prop :=
  (exists schedule, world_run table schedule (fun _ => O) = Some pos) /\
  (forall i, 0 <= i < W ->
     calls_left alloc (desk a i).1.2
     = drop (pos (Z.to_nat i)) (script table (Z.to_nat i)) /\
     ((desk a i).2 = true ->
      exists d c src t k, (desk a i).1.2 = CallRecv d c src t k)) /\
  (forall s i t c, 0 <= s < W -> 0 <= i < W -> s <> i ->
     (count_of t c (queued a (s, i)) + count_of t c (flying a (s, i))
      + taken (take (pos (Z.to_nat i)) (script table (Z.to_nat i))) s t c
      = sent (take (pos (Z.to_nat s)) (script table (Z.to_nat s))) i t c)%nat).

(** The steps that a program has still to make when every call succeeds: a
    call counts for two, since a Recv may park before it returns and a Send
    gives the reader of its destination a frame to handle. *)
Fixpoint work (alloc : Z -> Z) (p : prog MIMPI_Retcode) : nat :=
  match p with
  | Ret _ => 0
  | CallSend _ _ _ _ k => 2 + work alloc (k MIMPI_SUCCESS)
  | CallRecv _ _ _ _ k => 2 + work alloc (k MIMPI_SUCCESS)
  | CallMalloc s k => 1 + work alloc (k (alloc s))
  | CallMemcpy _ _ _ k => 1 + work alloc k
  | CallFree _ k => 1 + work alloc k
  | OutOfFuel => 0
  end.

Definition pairs (W : Z) : list (Z * Z) :=
  s ← seqZ 0 W; (fun i => (s, i)) <$> seqZ 0 W.

(** The number of steps that a world can still make. *)
Definition rank_weight (alloc : Z -> Z) (x : heap * prog MIMPI_Retcode * bool)
    : nat :=
  (work alloc x.1.2 + if x.2 then 0 else 1)%nat.

Definition callers_weight (alloc : Z -> Z) (W : Z) (a : Mail) : nat :=
  sum_list ((fun i => rank_weight alloc (desk a i)) <$> seqZ 0 W).

Definition flying_weight (W : Z) (a : Mail) : nat :=
  sum_list ((fun p => length (flying a p)) <$> pairs W).

Definition weight (alloc : Z -> Z) (W : Z) (a : Mail) : nat :=
  (callers_weight alloc W a + flying_weight W a)%nat.

(** What is checked of the runs of a collective besides their order: the
    peers of the calls, and the number of the calls, four for every process
    but one. *)
Definition calls_checked (W : Z) (world : option (list (list event))) : bool :=
  match world with
  | Some table =>
      peers_valid W table
      && (total_calls table =? 4 * (Z.to_nat W - 1))%nat
  | None => false
  end.

(** The calls that the processes of a world make when every call and
    every allocation succeeds. *)
Definition table_of (alloc : Z -> Z) (W : Z) (progs : Z -> prog MIMPI_Retcode)
    : list (list event) :=
  (fun i => calls_left alloc (progs i)) <$> seqZ 0 W.
(** * Properties *)

Example LP_children_3_8 : LP_children 3 8 = [4; 5; 7].
Proof. reflexivity. Qed.
Example msb_children_1_16 : msb_children 1 16 = [3; 5; 9].
Proof. reflexivity. Qed.
Example loop_children_1_16 : loop_children 16 1 0 16 = Some [3; 5; 9].
Proof. reflexivity. Qed.
Example loop_children_root : loop_children 16 2 2 16 = Some [1; 2; 4; 8].
Proof. reflexivity. Qed.

(** ** [get_power] and the shape of the tree *)

Lemma get_power_msb (k : Z) : 0 ≤ k ≤ 15 → get_power k = msb k.
Proof.
  intros Hk.
  assert (H : Forall (fun k => get_power k = msb k) (seqZ 0 16))
    by compute_done.
  rewrite Forall_seqZ in H. apply H. lia.
Qed.

Lemma msb_clearbit (k : Z) : 0 < k → k - msb k = Z.clearbit k (Z.log2 k).
Proof.
  intros Hk. unfold msb.
  destruct (Z.eqb_spec k 0) as [->|_]; [lia|].
  rewrite Z.clearbit_spec'.
  assert (Hbit : Z.testbit k (Z.log2 k) = true) by (apply Z.bit_log2; lia).
  pose proof (Z.log2_nonneg k) as Hlog.
  rewrite <- (Z.sub_nocarry_ldiff k (2 ^ Z.log2 k)); [reflexivity|].
  apply Z.bits_inj'. intros n Hn.
  rewrite Z.ldiff_spec, Z.bits_0, Z.pow2_bits_eqb by lia.
  destruct (Z.eqb_spec (Z.log2 k) n) as [<-|Hne]; [|reflexivity].
  rewrite Hbit. reflexivity.
Qed.

Lemma tree_init_inner (k root : Z) :
  k ≠ root → k ≠ 0 →
  tree_init k root = (k - get_power k, get_power k * 2, k + get_power k * 2).
Proof.
  intros Hr H0. unfold tree_init.
  destruct (Z.eqb_spec k root); [done|].
  destruct (Z.eqb_spec k 0); done.
Qed.

Lemma start_from_values_fuel (fuel fuel' : nat) (sf pw W : Z) (cs : list Z) :
  start_from_values fuel sf pw W = Some cs → (fuel ≤ fuel')%nat →
  start_from_values fuel' sf pw W = Some cs.
Proof.
  revert fuel' sf pw cs.
  induction fuel as [|fuel IH]; intros fuel' sf pw cs; simpl.
  - destruct (sf <? W) eqn:E; [done|].
    intros [= <-] _. destruct fuel'; simpl; by rewrite E.
  - destruct (sf <? W) eqn:E.
    + destruct (start_from_values fuel _ _ _) as [cs'|] eqn:E'; [|done].
      simpl. intros [= <-] Hle. destruct fuel' as [|fuel']; [lia|].
      simpl. rewrite E. erewrite IH; [done|exact E'|lia].
    + intros [= <-] _. destruct fuel'; simpl; by rewrite E.
Qed.

Lemma inner_children_16 (k W : Z) :
  0 < k < W → W ≤ MAXSIZE →
  start_from_values (Z.to_nat W) (k + get_power k * 2) (get_power k * 2) W
  = Some (msb_children k W).
Proof.
  unfold MAXSIZE. intros Hk HW.
  assert (H : Forall (fun W => Forall (fun k =>
              k < W →
              start_from_values (Z.to_nat W) (k + get_power k * 2)
                (get_power k * 2) W
              = Some (msb_children k W)) (seqZ 1 15)) (seqZ 1 16))
    by compute_done.
  rewrite Forall_seqZ in H. specialize (H W ltac:(lia)).
  rewrite Forall_seqZ in H. apply H; lia.
Qed.

(** ** Runs of the loops when no peer has finished *)

Lemma exec_handle_recv (data count source tag : Z) (rest : prog MIMPI_Retcode)
    (env : nat → response) (alloc : Z → Z) (n : nat) (h : heap) :
  resp_rc (env n) ≠ MIMPI_ERROR_REMOTE_FINISHED →
  ∃ h1, exec (HANDLE_REMOTE_FINISHED (call_MIMPI_Recv data count source tag) rest)
          env alloc n h
        = prepend [EvRecv data count source tag] <$> exec rest env alloc (S n) h1.
Proof.
  intros Hrc.
  exists (if decide (resp_rc (env n) = MIMPI_SUCCESS)
          then Recv_deliver h data count tag (resp_payload (env n)) else h).
  unfold HANDLE_REMOTE_FINISHED, call_MIMPI_Recv. simpl.
  destruct (decide (resp_rc (env n) = MIMPI_ERROR_REMOTE_FINISHED)) as [|_];
    [done|].
  destruct (exec rest _ _ _ _) as [[[a h'] tr]|]; reflexivity.
Qed.

Lemma exec_handle_send (data count destination tag : Z)
    (rest : prog MIMPI_Retcode) (env : nat → response) (alloc : Z → Z)
    (n : nat) (h : heap) :
  resp_rc (env n) ≠ MIMPI_ERROR_REMOTE_FINISHED →
  exec (HANDLE_REMOTE_FINISHED (call_MIMPI_Send data count destination tag) rest)
    env alloc n h
  = prepend [EvSend data count destination tag] <$> exec rest env alloc (S n) h.
Proof.
  intros Hrc. unfold HANDLE_REMOTE_FINISHED, call_MIMPI_Send.
  simpl. destruct (decide (resp_rc (env n) = _)) as [|_]; [done|].
  destruct (exec rest _ _ _ _) as [[[a h'] tr]|]; reflexivity.
Qed.

Lemma prepend_prepend {A : Type} (e1 e2 : list event)
    (r : option (A * heap * list event)) :
  prepend e1 <$> (prepend e2 <$> r) = prepend (e1 ++ e2) <$> r.
Proof.
  destruct r as [[[a h] tr]|]; [|done].
  unfold prepend; simpl. by rewrite app_assoc.
Qed.

Lemma exec_children_loop_recv (fuel : nat) (data count tag root W : Z)
    (rest : prog MIMPI_Retcode) (env : nat → response) (alloc : Z → Z) :
  never_finished env →
  ∀ (sf pw : Z) (cs : list Z) (n : nat) (h : heap),
    start_from_values fuel sf pw W = Some cs →
    ∃ h1,
      exec (children_loop fuel (fun helper => call_MIMPI_Recv data count helper tag)
              root sf pw W rest) env alloc n h
      = prepend ((fun c => EvRecv data count (swap_child root c) tag) <$> cs)
          <$> exec rest env alloc (n + length cs) h1.
Proof.
  intros Henv.
  induction fuel as [|fuel IH]; intros sf pw cs n h;
    cbn [start_from_values children_loop].
  - destruct (sf <? W); [done|]. intros [= <-]. exists h.
    rewrite Nat.add_0_r. by destruct (exec rest _ _ _ _) as [[[??]?]|].
  - destruct (sf <? W).
    + destruct (start_from_values fuel _ _ _) as [cs'|] eqn:E; [|done].
      cbn [fmap option_fmap option_map]. intros [= <-].
      destruct (exec_handle_recv data count (swap_child root sf) tag
                  (children_loop fuel
                     (fun helper => call_MIMPI_Recv data count helper tag)
                     root (sf + pw) (pw * 2) W rest) env alloc n h (Henv n))
        as [h1 ->].
      destruct (IH _ _ _ (S n) h1 E) as [h2 ->]. exists h2.
      rewrite prepend_prepend. simpl.
      by replace (n + S (length cs'))%nat with (S n + length cs')%nat by lia.
    + intros [= <-]. exists h.
      rewrite Nat.add_0_r. by destruct (exec rest _ _ _ _) as [[[??]?]|].
Qed.

Lemma exec_children_loop_send (fuel : nat) (data count tag root W : Z)
    (rest : prog MIMPI_Retcode) (env : nat → response) (alloc : Z → Z) :
  never_finished env →
  ∀ (sf pw : Z) (cs : list Z) (n : nat) (h : heap),
    start_from_values fuel sf pw W = Some cs →
    exec (children_loop fuel (fun helper => call_MIMPI_Send data count helper tag)
            root sf pw W rest) env alloc n h
    = prepend ((fun c => EvSend data count (swap_child root c) tag) <$> cs)
        <$> exec rest env alloc (n + length cs) h.
Proof.
  intros Henv.
  induction fuel as [|fuel IH]; intros sf pw cs n h;
    cbn [start_from_values children_loop].
  - destruct (sf <? W); [done|]. intros [= <-].
    rewrite Nat.add_0_r. by destruct (exec rest _ _ _ _) as [[[??]?]|].
  - destruct (sf <? W).
    + destruct (start_from_values fuel _ _ _) as [cs'|] eqn:E; [|done].
      cbn [fmap option_fmap option_map]. intros [= <-].
      rewrite exec_handle_send by apply Henv.
      rewrite (IH _ _ _ (S n) h E), prepend_prepend. simpl.
      by replace (n + S (length cs'))%nat with (S n + length cs')%nat by lia.
    + intros [= <-].
      rewrite Nat.add_0_r. by destruct (exec rest _ _ _ _) as [[[??]?]|].
Qed.

(** C1 (counterexample). At rank 3 in a world of 8 processes rooted at 0
    the loop computes parent 1 and the single child 7, whereas
    [3 - LP 3 = 2] and [3 + LP(3) * 2^i] gives 4, 5, 7. *)
Lemma LP_tree_counterexample :
  0 < 3 < 8 ∧ 3 ≠ 0 ∧ ¬ LP_tree 16 3 8 0 ∧
  loop_parent 3 0 = 1 ∧ 3 - LP 3 = 2 ∧
  loop_children 16 3 0 8 = Some [7] ∧ LP_children 3 8 = [4; 5; 7].
Proof.
  split; [lia|]. split; [lia|]. split; [|by vm_compute].
  intros [H _]. vm_compute in H. discriminate H.
Qed.

(** C1 (amended). For every rank [k] with [0 < k < W <= MAXSIZE] that is not the
    collective's root, [communication_loop] computes [k]'s parent as
    [k - msb k] and [k]'s children as [k + msb(k) * 2^i] for [i = 1, 2, ...]
    while still below [W], where [msb k] is the highest power of two not
    exceeding [k]; these are the ranks before the relabelling of 0 and the
    root.  When no call reports remote-finished, the up-phase receives from
    the relabelled children in that order and then sends to the relabelled
    parent, and the down-phase receives from the parent and then sends to
    the children. *)
Theorem communication_loop_tree (k W root : Z) (fuel : nat) :
  0 < k < W → W ≤ MAXSIZE → k ≠ root → (Z.to_nat W ≤ fuel)%nat →
  loop_parent k root = k - msb k ∧
  loop_children fuel k root W = Some (msb_children k W) ∧
  ∀ (data count tag : Z) (env : nat → response) (alloc : Z → Z) (n : nat)
    (h : heap),
    never_finished env →
    (∃ h', exec (communication_loop fuel data count root tag k W true)
             env alloc n h
           = Some (MIMPI_SUCCESS, h',
                   ((fun c => EvRecv data count (swap_child root c) tag)
                      <$> msb_children k W)
                   ++ [EvSend data count (swap_parent root (k - msb k)) tag])) ∧
    exec (communication_loop fuel data count root tag k W false) env alloc n h
    = Some (MIMPI_SUCCESS,
            (if decide (resp_rc (env n) = MIMPI_SUCCESS)
             then Recv_deliver h data count tag (resp_payload (env n)) else h),
            EvRecv data count (swap_parent root (k - msb k)) tag
            :: ((fun c => EvSend data count (swap_child root c) tag)
                  <$> msb_children k W)).
Proof.
  intros Hk HW Hroot Hfuel.
  assert (Hinit : tree_init k root
                  = (k - msb k, get_power k * 2, k + get_power k * 2))
    by (unfold MAXSIZE in HW; rewrite tree_init_inner by lia;
        by rewrite get_power_msb by lia).
  assert (Hcs : start_from_values fuel (k + get_power k * 2) (get_power k * 2) W
                = Some (msb_children k W))
    by (eapply start_from_values_fuel; [by apply inner_children_16|done]).
  split; [unfold loop_parent; by rewrite Hinit|].
  split; [unfold loop_children; by rewrite Hinit|].
  intros data count tag env alloc n h Henv.
  unfold communication_loop. rewrite Hinit.
  destruct (Z.eqb_spec k root) as [|_]; [done|]. cbn [negb]. split.
  - destruct (exec_children_loop_recv fuel data count tag root W
                (HANDLE_REMOTE_FINISHED
                   (call_MIMPI_Send data count (swap_parent root (k - msb k)) tag)
                   (Ret MIMPI_SUCCESS))
                env alloc Henv _ _ _ n h Hcs) as [h1 ->].
    exists h1. by rewrite exec_handle_send by apply Henv.
  - destruct (exec_handle_recv data count (swap_parent root (k - msb k)) tag
                (children_loop fuel
                   (fun helper => call_MIMPI_Send data count helper tag)
                   root (k + get_power k * 2) (get_power k * 2) W
                   (Ret MIMPI_SUCCESS)) env alloc n h (Henv n)) as [h1 E].
    unfold HANDLE_REMOTE_FINISHED, call_MIMPI_Recv in *. cbn in E |- *.
    destruct (decide (resp_rc (env n) = MIMPI_ERROR_REMOTE_FINISHED)) as [|_];
      [by destruct (Henv n)|].
    rewrite (exec_children_loop_send fuel data count tag root W
               (Ret MIMPI_SUCCESS) env alloc Henv _ _ _ (S n) _ Hcs).
    cbn. by rewrite app_nil_r.
Qed.

Lemma communication_loop_tree_witness :
  loop_parent 3 0 = 3 - msb 3 ∧
  loop_children 16 3 0 8 = Some (msb_children 3 8).
Proof.
  destruct (communication_loop_tree 3 8 0 16) as (H1 & H2 & _);
    [lia|unfold MAXSIZE; lia|lia|vm_compute; lia|].
  exact (conj H1 H2).
Defined.

(** ** Reduction on byte lanes *)

Lemma lane_fold_lookup (f : Z → Z → Z) (received data : list Z) (n : nat) :
  ∀ i : nat,
    foldl (lane_step f received) data (seq 0 n) !! i
    = lane_result f n i (data !! i) (received !! i).
Proof.
  induction n as [|n IH]; intros i.
  - simpl. unfold lane_result. destruct (data !! i), (received !! i); done.
  - rewrite seq_S, foldl_app. simpl.
    set (L := foldl (lane_step f received) data (seq 0 n)) in *.
    unfold lane_step at 1. rewrite (IH n).
    unfold lane_result at 1.
    destruct (data !! n) as [d|] eqn:Ed; [|].
    + destruct (received !! n) as [r|] eqn:Er.
      * destruct (decide (n < n)%nat); [lia|].
        destruct (decide (i = n)) as [->|Hne].
        -- rewrite list_lookup_insert_eq.
           ++ unfold lane_result. rewrite Ed, Er.
              destruct (decide (n < S n)%nat); [done|lia].
           ++ apply lookup_lt_is_Some. rewrite (IH n). unfold lane_result.
              rewrite Ed, Er. destruct (decide (n < n)%nat); eauto.
        -- rewrite list_lookup_insert_ne by done. rewrite IH.
           unfold lane_result. destruct (data !! i), (received !! i); try done.
           destruct (decide (i < n)%nat), (decide (i < S n)%nat); try done; lia.
      * rewrite IH. unfold lane_result.
        destruct (data !! i) eqn:Edi, (received !! i) eqn:Eri; try done.
        destruct (decide (i < n)%nat), (decide (i < S n)%nat); try done; try lia.
        assert (i = n) by lia. congruence.
    + rewrite IH. unfold lane_result.
      destruct (data !! i) eqn:Edi, (received !! i) eqn:Eri; try done.
      destruct (decide (i < n)%nat), (decide (i < S n)%nat); try done; try lia.
      assert (i = n) by lia. congruence.
Qed.

Lemma lane_loop_lookup (f : Z → Z → Z) (received data : list Z) (count : Z)
    (i : nat) :
  lane_loop f received count data !! i
  = lane_result f (Z.to_nat count) i (data !! i) (received !! i).
Proof. apply lane_fold_lookup. Qed.

Lemma u8_small (x : Z) : 0 ≤ x < 256 → u8 x = x.
Proof. intros. unfold u8. by apply Z.mod_small. Qed.

Lemma MAX_max (a b : Z) : MAX a b = Z.max a b.
Proof. unfold MAX. destruct (Z.gtb_spec a b); lia. Qed.

Lemma MIN_min (a b : Z) : MIN a b = Z.min a b.
Proof. unfold MIN. destruct (Z.ltb_spec a b); lia. Qed.

Lemma reduce_sum_replicate (n : nat) (a b : Z) :
  handle_reduce_operation (replicate n a) (Z.of_nat n) MIMPI_SUM_TAG
    (replicate n b)
  = replicate n ((b + a) mod 256).
Proof.
  apply list_eq. intros i. unfold handle_reduce_operation. cbn [Z.eqb].
  change (MIMPI_SUM_TAG =? MIMPI_MAX_TAG) with false.
  change (MIMPI_SUM_TAG =? MIMPI_MIN_TAG) with false.
  change (MIMPI_SUM_TAG =? MIMPI_SUM_TAG) with true. cbv iota.
  rewrite lane_loop_lookup, Nat2Z.id. unfold lane_result.
  destruct (decide (i < n)%nat) as [Hi|Hi].
  - rewrite !lookup_replicate_2 by done. done.
  - assert (Hn : ∀ x : Z, replicate n x !! i = None)
      by (intros x; apply lookup_replicate_None; lia).
    by rewrite !Hn.
Qed.

Lemma fold_sum_ones (n : nat) (m : nat) (b : Z) :
  fold_payloads (Z.of_nat n) MIMPI_SUM_TAG (replicate n b)
    (replicate m (replicate n 1))
  = replicate n (if decide (m = 0)%nat then b else (b + Z.of_nat m) mod 256).
Proof.
  revert b. induction m as [|m IH]; intros b; [done|].
  unfold fold_payloads in *. cbn [replicate foldl].
  rewrite reduce_sum_replicate, IH. f_equal.
  destruct (decide (m = 0)%nat) as [->|_]; [done|].
  rewrite Zplus_mod_idemp_l. f_equal. lia.
Qed.

(** C4. The reduce combine step works on unsigned 8-bit lanes, lane by
    lane over the first [count] lanes: MAX takes the maximum, MIN the
    minimum, SUM adds modulo 256, PROD multiplies modulo 256, and lanes from
    [count] on are left alone; folding the other [W - 1] contributions of
    the all-ones vector into an all-ones scratch with SUM gives [W mod 256]
    in every lane. *)
Theorem reduce_combine_lanes (received data : list Z) (count : Z) (W : nat) :
  (∀ (i : nat) (d r : Z),
     data !! i = Some d → received !! i = Some r →
     0 ≤ d < 256 → 0 ≤ r < 256 → (i < Z.to_nat count)%nat →
     handle_reduce_operation received count MIMPI_MAX_TAG data !! i
       = Some (Z.max d r) ∧
     handle_reduce_operation received count MIMPI_MIN_TAG data !! i
       = Some (Z.min d r) ∧
     handle_reduce_operation received count MIMPI_SUM_TAG data !! i
       = Some ((d + r) mod 256) ∧
     handle_reduce_operation received count MIMPI_PROD_TAG data !! i
       = Some ((d * r) mod 256)) ∧
  (∀ (tag : Z) (i : nat),
     (Z.to_nat count ≤ i)%nat →
     handle_reduce_operation received count tag data !! i = data !! i) ∧
  ((0 < W)%nat → 0 ≤ count →
   fold_payloads count MIMPI_SUM_TAG (replicate (Z.to_nat count) 1)
     (replicate (W - 1) (replicate (Z.to_nat count) 1))
   = replicate (Z.to_nat count) (Z.of_nat W mod 256)).
Proof.
  split; [|split].
  - intros i d r Hd Hr Hd8 Hr8 Hi.
    unfold handle_reduce_operation.
    change (MIMPI_MAX_TAG =? MIMPI_MAX_TAG) with true.
    change (MIMPI_MIN_TAG =? MIMPI_MAX_TAG) with false.
    change (MIMPI_MIN_TAG =? MIMPI_MIN_TAG) with true.
    change (MIMPI_SUM_TAG =? MIMPI_MAX_TAG) with false.
    change (MIMPI_SUM_TAG =? MIMPI_MIN_TAG) with false.
    change (MIMPI_SUM_TAG =? MIMPI_SUM_TAG) with true.
    change (MIMPI_PROD_TAG =? MIMPI_MAX_TAG) with false.
    change (MIMPI_PROD_TAG =? MIMPI_MIN_TAG) with false.
    change (MIMPI_PROD_TAG =? MIMPI_SUM_TAG) with false.
    cbv iota. rewrite !lane_loop_lookup, Hd, Hr. unfold lane_result.
    destruct (decide (i < Z.to_nat count)%nat); [|lia].
    rewrite MAX_max, MIN_min, !u8_small by lia. done.
  - intros tag i Hi. unfold handle_reduce_operation.
    repeat case_match; rewrite lane_loop_lookup; unfold lane_result;
      destruct (data !! i), (received !! i); try done;
      destruct (decide (i < Z.to_nat count)%nat); done || lia.
  - intros HW Hc.
    rewrite <- (Z2Nat.id count) at 1 by done.
    rewrite fold_sum_ones. f_equal.
    destruct (decide (W - 1 = 0)%nat) as [E|E].
    + by replace W with 1%nat by lia.
    + f_equal. lia.
Qed.

Lemma reduce_combine_lanes_witness :
  handle_reduce_operation [200; 7] 2 MIMPI_SUM_TAG [100; 9] !! 0%nat
    = Some ((100 + 200) mod 256) ∧
  fold_payloads 3 MIMPI_SUM_TAG (replicate (Z.to_nat 3) 1)
    (replicate (300 - 1) (replicate (Z.to_nat 3) 1))
  = replicate (Z.to_nat 3) (Z.of_nat 300 mod 256).
Proof.
  destruct (reduce_combine_lanes [200; 7] [100; 9] 2 300) as (H1 & _ & _).
  destruct (reduce_combine_lanes [] [] 3 300) as (_ & _ & H3).
  split.
  - apply (H1 0%nat 100 200); [reflexivity|reflexivity|lia|lia|vm_compute; lia].
  - apply H3; lia.
Defined.

(** ** The match predicate *)

Lemma compare_message_iff (a b : Message) :
  compare_message a b = true ↔
  msg_source a = msg_source b ∧ msg_count a = msg_count b ∧
  (msg_tag b = MIMPI_ANY_TAG ∨ msg_tag a = msg_tag b).
Proof.
  unfold compare_message.
  rewrite !andb_true_iff, orb_true_iff, !Z.eqb_eq. tauto.
Qed.

Lemma find_elem_in_list_Some (l : list Message) (b : Message) (i : nat) :
  find_elem_in_list l b = Some i ↔
  (∃ a, l !! i = Some a ∧ compare_message a b = true) ∧
  (∀ (j : nat) (a' : Message),
     (j < i)%nat → l !! j = Some a' → compare_message a' b = false).
Proof.
  revert i. induction l as [|m l IH]; intros i; simpl.
  - split; [done|]. intros [(a & Ha & _) _]. done.
  - destruct (compare_message m b) eqn:E.
    + split.
      * intros [= <-]. split; [by exists m|]. intros j a' Hj. lia.
      * intros [(a & Ha & Hc) Hfirst]. destruct i as [|i]; [done|].
        specialize (Hfirst 0%nat m ltac:(lia) eq_refl). congruence.
    + destruct (find_elem_in_list l b) as [i'|] eqn:F; simpl.
      * split.
        -- intros [= <-]. destruct (proj1 (IH i') eq_refl) as [Hex Hfirst].
           split; [done|].
           intros [|j] a' Hj; simpl; [by intros [= <-]|].
           apply Hfirst. lia.
        -- intros [(a & Ha & Hc) Hfirst]. destruct i as [|i].
           ++ simpl in Ha. congruence.
           ++ f_equal. symmetry.
              enough (Some i' = Some i) by congruence.
              apply IH. split; [by exists a|].
              intros j a' Hj Hl. apply (Hfirst (S j) a'); [lia|done].
      * split; [done|]. intros [(a & Ha & Hc) Hfirst]. destruct i as [|i].
        -- simpl in Ha. congruence.
        -- assert (None = Some i); [|done]. apply IH. split; [by exists a|].
           intros j a' Hj Hl. apply (Hfirst (S j) a'); [lia|done].
Qed.

(** C2 (counterexample). A filter with tag [ANY_TAG] matches a queued
    broadcast carrier (tag -3) of the same source and count, and
    [find_elem_in_list] returns it, although the carrier's tag is
    negative. *)
Lemma any_tag_matches_internal_tag :
  let a := create_message MIMPI_BROADCAST_TAG 4 1 (Some [1; 2; 3; 4]) in
  let b := create_message MIMPI_ANY_TAG 4 1 None in
  compare_message a b = true ∧ find_elem_in_list [a] b = Some 0%nat ∧
  ¬ filter_matches a b.
Proof.
  split; [done|]. split; [done|].
  intros (_ & _ & [H|[_ H]]); simpl in H; [discriminate H|].
  unfold MIMPI_BROADCAST_TAG in H. lia.
Qed.

(** C2 (amended). For every queued message [a] and receive filter [b], the
    match predicate used by Recv holds iff [a.source = b.source],
    [a.count = b.count], and either [b.tag = ANY_TAG] or [a.tag = b.tag];
    a filter with tag [ANY_TAG] matches a message of any tag with its source
    and count, and [find_elem_in_list] returns the position of the first
    message of the list that matches. *)
Theorem compare_message_any_tag (a b : Message) (l : list Message) (i : nat) :
  (compare_message a b = true ↔
     msg_source a = msg_source b ∧ msg_count a = msg_count b ∧
     (msg_tag b = MIMPI_ANY_TAG ∨ msg_tag a = msg_tag b)) ∧
  (compare_message a
     (create_message MIMPI_ANY_TAG (msg_count a) (msg_source a) None) = true) ∧
  (find_elem_in_list l b = Some i ↔
     (∃ a', l !! i = Some a' ∧ compare_message a' b = true) ∧
     (∀ (j : nat) (a' : Message),
        (j < i)%nat → l !! j = Some a' → compare_message a' b = false)).
Proof.
  split; [apply compare_message_iff|]. split;
    [|apply find_elem_in_list_Some].
  apply compare_message_iff. simpl. auto.
Qed.

(** ** Propagation of remote-finished out of a collective *)

Lemma exec_quiet (q : prog MIMPI_Retcode) :
  quiet q →
  ∀ (env : nat → response) (alloc : Z → Z) (n : nat) (h : heap),
    exec q env alloc n h = Some (MIMPI_ERROR_REMOTE_FINISHED, h, []).
Proof. induction 1; intros env alloc n h; simpl; auto. Qed.

Lemma propagates_cons (env : nat → response) (n : nat) (rc : MIMPI_Retcode)
    (e : event) (tr : list event) :
  resp_rc (env n) ≠ MIMPI_ERROR_REMOTE_FINISHED →
  propagates env (S n) rc tr → propagates env n rc (e :: tr).
Proof.
  intros Hn [Hfail Hok]. split.
  - intros [|i] Hi Hrc; simpl in Hi.
    + rewrite Nat.add_0_r in Hrc. done.
    + replace (n + S i)%nat with (S n + i)%nat in Hrc by lia.
      destruct (Hfail i ltac:(lia) Hrc) as [-> E]. simpl. by rewrite E.
  - intros Hall. apply Hok. intros i Hi.
    replace (S n + i)%nat with (n + S i)%nat by lia.
    apply Hall. simpl. lia.
Qed.

Lemma propagates_last (env : nat → response) (n : nat) (e : event) :
  resp_rc (env n) = MIMPI_ERROR_REMOTE_FINISHED →
  propagates env n MIMPI_ERROR_REMOTE_FINISHED [e].
Proof.
  intros Hn. split.
  - intros i Hi _. simpl in Hi. split; [done|]. simpl. f_equal. lia.
  - intros Hall. destruct (Hall 0%nat); [simpl; lia|].
    by rewrite Nat.add_0_r.
Qed.

Lemma exec_eager (alloc : Z → Z) (p : prog MIMPI_Retcode) :
  eager alloc p →
  ∀ (env : nat → response) (n : nat) (h : heap),
    ∃ rc h' tr, exec p env alloc n h = Some (rc, h', tr) ∧
                propagates env n rc tr.
Proof.
  induction 1 as [|d c dst t k Hq Hk IH|d c src t k Hq Hk IH|s k Hs Ha Hk IH
                  |d s m k Hk IH|q k Hk IH]; intros env n h; simpl.
  - exists MIMPI_SUCCESS, h, []. split; [done|]. split; [|done].
    intros i Hi. simpl in Hi. lia.
  - destruct (decide (resp_rc (env n) = MIMPI_ERROR_REMOTE_FINISHED)) as [E|E].
    + rewrite E, (exec_quiet _ Hq). do 3 eexists. split; [done|].
      by apply propagates_last.
    + destruct (IH _ E env (S n) h) as (rc & h' & tr & -> & Hp).
      do 3 eexists. split; [done|]. by apply propagates_cons.
  - destruct (decide (resp_rc (env n) = MIMPI_ERROR_REMOTE_FINISHED)) as [E|E].
    + rewrite E, (exec_quiet _ Hq). do 3 eexists. split; [done|].
      by apply propagates_last.
    + set (h1 := if decide (resp_rc (env n) = MIMPI_SUCCESS)
                 then Recv_deliver h d c t (resp_payload (env n)) else h).
      destruct (IH _ E env (S n) h1) as (rc & h' & tr & -> & Hp).
      do 3 eexists. split; [done|]. by apply propagates_cons.
  - destruct (Z.ltb_spec s 0); [lia|].
    destruct (Z.eqb_spec (alloc s) NULL); [done|]. apply IH.
  - apply IH.
  - apply IH.
Qed.

Lemma quiet_bind (q : prog MIMPI_Retcode)
    (f : MIMPI_Retcode → prog MIMPI_Retcode) :
  quiet q → quiet (f MIMPI_ERROR_REMOTE_FINISHED) → quiet (bind q f).
Proof. induction 1; intros Hf; simpl; [done|]. constructor. auto. Qed.

Lemma eager_bind (alloc : Z → Z) (p : prog MIMPI_Retcode)
    (f : MIMPI_Retcode → prog MIMPI_Retcode) :
  eager alloc p → quiet (f MIMPI_ERROR_REMOTE_FINISHED) →
  eager alloc (f MIMPI_SUCCESS) → eager alloc (bind p f).
Proof.
  induction 1; intros Hq Hs; simpl; try (constructor; by auto using quiet_bind).
  done.
Qed.

Lemma eager_handle (alloc : Z → Z) (p rest : prog MIMPI_Retcode) :
  eager alloc p → eager alloc rest →
  eager alloc (HANDLE_REMOTE_FINISHED p rest).
Proof.
  intros Hp Hrest. unfold HANDLE_REMOTE_FINISHED. apply eager_bind; [done| |done].
  simpl. constructor.
Qed.

Lemma eager_handle_recv (alloc : Z → Z) (data count source tag : Z)
    (rest : prog MIMPI_Retcode) :
  eager alloc rest →
  eager alloc
    (HANDLE_REMOTE_FINISHED (call_MIMPI_Recv data count source tag) rest).
Proof.
  intros Hrest. unfold HANDLE_REMOTE_FINISHED, call_MIMPI_Recv. simpl.
  constructor; [constructor|]. intros rc Hrc. by destruct (decide _).
Qed.

Lemma eager_handle_send (alloc : Z → Z) (data count destination tag : Z)
    (rest : prog MIMPI_Retcode) :
  eager alloc rest →
  eager alloc
    (HANDLE_REMOTE_FINISHED (call_MIMPI_Send data count destination tag) rest).
Proof.
  intros Hrest. unfold HANDLE_REMOTE_FINISHED, call_MIMPI_Send. simpl.
  constructor; [constructor|]. intros rc Hrc. by destruct (decide _).
Qed.

Lemma eager_children_loop (alloc : Z → Z) (call : Z → prog MIMPI_Retcode)
    (root W : Z) (rest : prog MIMPI_Retcode) :
  (∀ helper r, eager alloc r →
     eager alloc (HANDLE_REMOTE_FINISHED (call helper) r)) →
  eager alloc rest →
  ∀ (fuel : nat) (sf pw : Z),
    1 ≤ pw → (Z.to_nat (W - sf) ≤ fuel)%nat →
    eager alloc (children_loop fuel call root sf pw W rest).
Proof.
  intros Hcall Hrest. induction fuel as [|fuel IH]; intros sf pw Hpw Hfuel;
    cbn [children_loop]; destruct (Z.ltb_spec sf W); try done; [lia|].
  apply Hcall, IH; lia.
Qed.

Lemma get_power_pos (r : Z) : 1 ≤ r → 1 ≤ get_power r.
Proof. intros Hr. unfold get_power. repeat case_match; lia. Qed.

Lemma tree_init_bounds (rank root : Z) :
  0 ≤ rank → 0 ≤ root →
  1 ≤ (tree_init rank root).1.2 ∧ 0 ≤ (tree_init rank root).2.
Proof.
  intros Hrank Hroot. unfold tree_init.
  destruct (Z.eqb_spec rank root); [simpl; lia|].
  destruct (Z.eqb_spec rank 0); simpl.
  - pose proof (get_power_pos root). lia.
  - pose proof (get_power_pos rank). lia.
Qed.

Lemma eager_communication_loop (alloc : Z → Z) (fuel : nat)
    (data count root tag rank W : Z) (begin : bool) :
  0 ≤ rank → 0 ≤ root → (Z.to_nat W ≤ fuel)%nat →
  eager alloc (communication_loop fuel data count root tag rank W begin).
Proof.
  intros Hrank Hroot Hfuel.
  pose proof (tree_init_bounds rank root Hrank Hroot) as [Hpw Hsf].
  unfold communication_loop.
  destruct (tree_init rank root) as [[receive_from power] start_from].
  simpl in Hpw, Hsf.
  destruct begin.
  - apply eager_children_loop; [intros; by apply eager_handle_recv| |done|lia].
    destruct (negb (rank =? root)); [|constructor].
    apply eager_handle_send. constructor.
  - assert (eager alloc
              (children_loop fuel
                 (fun helper => call_MIMPI_Send data count helper tag)
                 root start_from power W (Ret MIMPI_SUCCESS))) as Hdown.
    { apply eager_children_loop;
        [intros; by apply eager_handle_send|constructor|done|lia]. }
    destruct (negb (rank =? root)); [|done].
    by apply eager_handle_recv.
Qed.

Lemma eager_Barrier (alloc : Z → Z) (W rank : Z) (fuel : nat) :
  0 ≤ rank → (Z.to_nat W ≤ fuel)%nat →
  eager alloc (MIMPI_Barrier W rank fuel).
Proof.
  intros. apply eager_handle; by apply eager_communication_loop.
Qed.

Lemma eager_Bcast (alloc : Z → Z) (W rank : Z) (fuel : nat)
    (data count root : Z) :
  0 ≤ rank → (Z.to_nat W ≤ fuel)%nat → 0 ≤ root < W →
  eager alloc (MIMPI_Bcast W rank fuel data count root).
Proof.
  intros Hrank Hfuel Hroot. unfold MIMPI_Bcast, CHECK_RANK_ERROR.
  destruct (Z.ltb_spec root 0); [lia|].
  destruct (Z.geb_spec root W); [lia|]. simpl.
  apply eager_handle; apply eager_communication_loop; lia.
Qed.

Lemma eager_Reduce (alloc : Z → Z) (W rank : Z) (fuel : nat)
    (send_data recv_data count : Z) (op : MIMPI_Op) (root : Z) :
  0 ≤ rank → (Z.to_nat W ≤ fuel)%nat → 0 ≤ root < W →
  0 ≤ count → alloc count ≠ NULL →
  eager alloc (MIMPI_Reduce W rank fuel send_data recv_data count op root).
Proof.
  intros Hrank Hfuel Hroot Hcount Halloc. unfold MIMPI_Reduce, CHECK_RANK_ERROR.
  destruct (Z.ltb_spec root 0); [lia|].
  destruct (Z.geb_spec root W); [lia|]. simpl.
  constructor; [done|done|]. constructor.
  apply eager_bind; [apply eager_communication_loop; lia| |].
  - simpl. repeat constructor.
  - simpl.
    assert (eager alloc
              (CallFree (alloc count)
                 (communication_loop fuel NULL MIMPI_DEFAULT_COUNT root
                    MIMPI_NO_MESSAGE_TAG rank W false))) as Hk
      by (constructor; apply eager_communication_loop; lia).
    destruct (rank =? root); [by constructor|done].
Qed.

(** C5. For every collective call (Barrier, Bcast, Reduce) of a process of
    rank at least 0, with a root inside [0, W) and, for Reduce, a count that
    is not negative and a scratch buffer that [malloc] does return, the run
    ends; if a point-to-point Send or Recv of either phase returns
    remote-finished, that call is the last one made and the collective
    returns remote-finished; if no call returns remote-finished, the
    collective returns success. *)
Theorem collective_remote_finished (W rank : Z) (fuel : nat)
    (data send_data recv_data count root : Z) (op : MIMPI_Op)
    (p : prog MIMPI_Retcode) (env : nat → response) (alloc : Z → Z) (h : heap) :
  0 ≤ rank → (Z.to_nat W ≤ fuel)%nat → 0 ≤ root < W →
  p = MIMPI_Barrier W rank fuel ∨
  p = MIMPI_Bcast W rank fuel data count root ∨
  (p = MIMPI_Reduce W rank fuel send_data recv_data count op root ∧
   0 ≤ count ∧ alloc count ≠ NULL) →
  ∃ rc h' tr, exec p env alloc 0 h = Some (rc, h', tr) ∧
              propagates env 0 rc tr.
Proof.
  intros Hrank Hfuel Hroot Hp. apply exec_eager.
  destruct Hp as [->|[->|(-> & Hcount & Halloc)]];
    auto using eager_Barrier, eager_Bcast, eager_Reduce.
Qed.

Lemma collective_remote_finished_witness :
  ∃ rc h' tr,
    exec (MIMPI_Reduce 4 1 4 100 200 2 MIMPI_SUM 0)
      (fun _ => mkResponse MIMPI_ERROR_REMOTE_FINISHED []) (fun _ => 1000)
      0 (fun _ => 0) = Some (rc, h', tr) ∧
    propagates (fun _ => mkResponse MIMPI_ERROR_REMOTE_FINISHED []) 0 rc tr.
Proof.
  apply (collective_remote_finished 4 1 4 0 100 200 2 0 MIMPI_SUM);
    [lia|vm_compute; lia|lia|].
  right. right. split; [reflexivity|]. split; [lia|]. unfold NULL. lia.
Defined.

(** ** Memory *)

Lemma length_load (h : heap) (p n : Z) : length (load h p n) = Z.to_nat n.
Proof. unfold load. by rewrite length_map, length_seq. Qed.

Lemma store_outside (h : heap) (p : Z) (bytes : list Z) (a : Z) :
  ¬ (p ≤ a < p + Z.of_nat (length bytes)) → store h p bytes a = h a.
Proof.
  intros Ha. unfold store.
  destruct (Z.leb_spec p a), (Z.ltb_spec a (p + Z.of_nat (length bytes)));
    simpl; done || lia.
Qed.

Lemma load_store (h : heap) (p : Z) (bytes : list Z) :
  load (store h p bytes) p (Z.of_nat (length bytes)) = bytes.
Proof.
  unfold load. rewrite Nat2Z.id. apply list_eq. intros i.
  rewrite list_lookup_fmap.
  destruct (decide (i < length bytes)%nat) as [Hi|Hi].
  - rewrite lookup_seq_lt by done. simpl. unfold store.
    destruct (Z.leb_spec p (p + Z.of_nat i)); [|lia].
    destruct (Z.ltb_spec (p + Z.of_nat i) (p + Z.of_nat (length bytes))); [|lia].
    simpl. replace (Z.to_nat (p + Z.of_nat i - p)) with i by lia.
    destruct (lookup_lt_is_Some_2 bytes i Hi) as [x Hx].
    rewrite Hx. f_equal. by apply nth_lookup_Some.
  - rewrite lookup_seq_ge by lia. simpl. symmetry.
    apply lookup_ge_None. lia.
Qed.

Lemma load_ext (h h' : heap) (p n : Z) :
  (∀ a, p ≤ a < p + n → h a = h' a) → load h p n = load h' p n.
Proof.
  intros Heq. unfold load. apply map_ext_in. intros i Hi.
  apply in_seq in Hi. apply Heq. lia.
Qed.

Lemma length_lane_loop (f : Z → Z → Z) (received data : list Z) (count : Z) :
  length (lane_loop f received count data) = length data.
Proof.
  unfold lane_loop. generalize (Z.to_nat count). intros n.
  induction n as [|n IH]; [done|].
  rewrite seq_S, foldl_app. simpl. unfold lane_step at 1.
  repeat case_match; rewrite ?length_insert; done.
Qed.

Lemma length_handle_reduce_operation (received data : list Z) (count tag : Z) :
  length (handle_reduce_operation received count tag data) = length data.
Proof.
  unfold handle_reduce_operation. repeat case_match; apply length_lane_loop.
Qed.

Lemma Recv_deliver_outside (h : heap) (data count tag : Z) (x : list Z) (a : Z) :
  ¬ (tag ≠ MIMPI_NO_MESSAGE_TAG ∧ data ≤ a < data + count) →
  Recv_deliver h data count tag x a = h a.
Proof.
  intros Ha. unfold Recv_deliver.
  destruct (Z.leb_spec tag MIMPI_MAX_TAG) as [Ht|Ht].
  - apply store_outside.
    rewrite length_handle_reduce_operation, length_load.
    unfold MIMPI_MAX_TAG, MIMPI_NO_MESSAGE_TAG in *. lia.
  - destruct (Z.eqb_spec tag MIMPI_NO_MESSAGE_TAG) as [Ht'|Ht']; [done|].
    simpl. apply store_outside. rewrite length_take. lia.
Qed.

Lemma exec_writes_within (alloc : Z → Z) (R : Z → Prop)
    (p : prog MIMPI_Retcode) :
  writes_within alloc R p →
  ∀ (env : nat → response) (n : nat) (h h' : heap) (rc : MIMPI_Retcode)
    (tr : list event),
    exec p env alloc n h = Some (rc, h', tr) →
    ∀ a, ¬ R a → h' a = h a.
Proof.
  induction 1 as [rc0|d c dst t k Hk IH|d c src t k Hfp Hk IH|s k Hk IH
                  |d s m k Hfp Hk IH|q k Hk IH|];
    intros env n h h' rc tr Hexec a Ha; simpl in Hexec.
  - by injection Hexec as _ <- _.
  - destruct (exec (k _) _ _ _ _) as [[[rc1 h1] tr1]|] eqn:E; [|done].
    injection Hexec as _ <- _. eapply IH; eauto.
  - destruct (exec (k _) _ _ _ _) as [[[rc1 h1] tr1]|] eqn:E; [|done].
    injection Hexec as _ <- _. erewrite IH; [|exact E|done].
    destruct (decide _); [|done].
    apply Recv_deliver_outside. intros [Ht Hr]. apply Ha. by apply Hfp.
  - destruct ((s <? 0) || (alloc s =? NULL)); [done|]. eapply IH; eauto.
  - erewrite IH; [|exact Hexec|done].
    apply store_outside. rewrite length_load. intros Hr. apply Ha, Hfp. lia.
  - eapply IH; eauto.
  - done.
Qed.

Lemma exec_calls_on (alloc : Z → Z) (D : Z → Prop) (p : prog MIMPI_Retcode) :
  calls_on alloc D p →
  ∀ (env : nat → response) (n : nat) (h h' : heap) (rc : MIMPI_Retcode)
    (tr : list event),
    exec p env alloc n h = Some (rc, h', tr) →
    ∀ e, e ∈ tr → D (event_data e).
Proof.
  induction 1 as [rc0|d c dst t k Hd Hk IH|d c src t k Hd Hk IH|s k Hk IH
                  |d s m k Hk IH|q k Hk IH|];
    intros env n h h' rc tr Hexec e He; simpl in Hexec.
  - injection Hexec as _ _ <-. by apply elem_of_nil in He.
  - destruct (exec (k _) _ _ _ _) as [[[rc1 h1] tr1]|] eqn:E; [|done].
    injection Hexec as _ _ <-. apply elem_of_cons in He as [->|He]; [done|].
    eapply IH; eauto.
  - destruct (exec (k _) _ _ _ _) as [[[rc1 h1] tr1]|] eqn:E; [|done].
    injection Hexec as _ _ <-. apply elem_of_cons in He as [->|He]; [done|].
    eapply IH; eauto.
  - destruct ((s <? 0) || (alloc s =? NULL)); [done|]. eapply IH; eauto.
  - eapply IH; eauto.
  - eapply IH; eauto.
  - done.
Qed.

Lemma exec_bind {A B : Type} (p : prog A) (f : A → prog B)
    (env : nat → response) (alloc : Z → Z) :
  ∀ (n : nat) (h : heap),
    exec (bind p f) env alloc n h
    = match exec p env alloc n h with
      | Some (a, h1, tr1) =>
          prepend tr1 <$> exec (f a) env alloc (n + length tr1) h1
      | None => None
      end.
Proof.
  induction p as [a|d c dst t k IH|d c src t k IH|s k IH|d s m k IH|q k IH|];
    intros n h; simpl.
  - rewrite Nat.add_0_r. by destruct (exec (f a) _ _ _ _) as [[[??]?]|].
  - rewrite IH. destruct (exec (k _) _ _ _ _) as [[[a1 h1] tr1]|]; [|done].
    simpl. replace (n + S (length tr1))%nat with (S n + length tr1)%nat by lia.
    by destruct (exec (f a1) _ _ _ _) as [[[??]?]|].
  - rewrite IH. destruct (exec (k _) _ _ _ _) as [[[a1 h1] tr1]|]; [|done].
    simpl. replace (n + S (length tr1))%nat with (S n + length tr1)%nat by lia.
    by destruct (exec (f a1) _ _ _ _) as [[[??]?]|].
  - destruct ((s <? 0) || (alloc s =? NULL)); [done|]. apply IH.
  - apply IH.
  - apply IH.
  - done.
Qed.

Lemma ww_bind (alloc : Z → Z) (R : Z → Prop) (p : prog MIMPI_Retcode)
    (f : MIMPI_Retcode → prog MIMPI_Retcode) :
  writes_within alloc R p → (∀ rc, writes_within alloc R (f rc)) →
  writes_within alloc R (bind p f).
Proof. induction 1; intros Hf; simpl; try constructor; auto. Qed.

Lemma co_bind (alloc : Z → Z) (D : Z → Prop) (p : prog MIMPI_Retcode)
    (f : MIMPI_Retcode → prog MIMPI_Retcode) :
  calls_on alloc D p → (∀ rc, calls_on alloc D (f rc)) →
  calls_on alloc D (bind p f).
Proof. induction 1; intros Hf; simpl; try constructor; auto. Qed.

Lemma ww_handle (alloc : Z → Z) (R : Z → Prop) (p rest : prog MIMPI_Retcode) :
  writes_within alloc R p → writes_within alloc R rest →
  writes_within alloc R (HANDLE_REMOTE_FINISHED p rest).
Proof.
  intros Hp Hrest. apply ww_bind; [done|]. intros rc.
  destruct (decide _); [constructor|done].
Qed.

Lemma co_handle (alloc : Z → Z) (D : Z → Prop) (p rest : prog MIMPI_Retcode) :
  calls_on alloc D p → calls_on alloc D rest →
  calls_on alloc D (HANDLE_REMOTE_FINISHED p rest).
Proof.
  intros Hp Hrest. apply co_bind; [done|]. intros rc.
  destruct (decide _); [constructor|done].
Qed.

Lemma ww_children_loop (alloc : Z → Z) (R : Z → Prop)
    (call : Z → prog MIMPI_Retcode) (root W : Z) (rest : prog MIMPI_Retcode) :
  (∀ helper, writes_within alloc R (call helper)) →
  writes_within alloc R rest →
  ∀ (fuel : nat) (sf pw : Z),
    writes_within alloc R (children_loop fuel call root sf pw W rest).
Proof.
  intros Hcall Hrest. induction fuel as [|fuel IH]; intros sf pw;
    cbn [children_loop]; destruct (sf <? W); try done; [constructor|].
  by apply ww_handle.
Qed.

Lemma co_children_loop (alloc : Z → Z) (D : Z → Prop)
    (call : Z → prog MIMPI_Retcode) (root W : Z) (rest : prog MIMPI_Retcode) :
  (∀ helper, calls_on alloc D (call helper)) →
  calls_on alloc D rest →
  ∀ (fuel : nat) (sf pw : Z),
    calls_on alloc D (children_loop fuel call root sf pw W rest).
Proof.
  intros Hcall Hrest. induction fuel as [|fuel IH]; intros sf pw;
    cbn [children_loop]; destruct (sf <? W); try done; [constructor|].
  by apply co_handle.
Qed.

Lemma ww_communication_loop (alloc : Z → Z) (R : Z → Prop) (fuel : nat)
    (data count root tag rank W : Z) (begin : bool) :
  (tag ≠ MIMPI_NO_MESSAGE_TAG → ∀ a, data ≤ a < data + count → R a) →
  writes_within alloc R
    (communication_loop fuel data count root tag rank W begin).
Proof.
  intros Hfp. unfold communication_loop.
  destruct (tree_init rank root) as [[receive_from power] start_from].
  assert (∀ src, writes_within alloc R (call_MIMPI_Recv data count src tag))
    as Hrecv by (intros; constructor; [done|constructor]).
  assert (∀ dst, writes_within alloc R (call_MIMPI_Send data count dst tag))
    as Hsend by (intros; constructor; constructor).
  destruct begin.
  - apply ww_children_loop; [done|].
    destruct (negb _); [|constructor]. apply ww_handle; [done|constructor].
  - destruct (negb _); [apply ww_handle; [done|]|];
      apply ww_children_loop; done || constructor.
Qed.

Lemma co_communication_loop (alloc : Z → Z) (D : Z → Prop) (fuel : nat)
    (data count root tag rank W : Z) (begin : bool) :
  D data →
  calls_on alloc D (communication_loop fuel data count root tag rank W begin).
Proof.
  intros Hd. unfold communication_loop.
  destruct (tree_init rank root) as [[receive_from power] start_from].
  assert (∀ src, calls_on alloc D (call_MIMPI_Recv data count src tag))
    as Hrecv by (intros; constructor; [done|constructor]).
  assert (∀ dst, calls_on alloc D (call_MIMPI_Send data count dst tag))
    as Hsend by (intros; constructor; [done|constructor]).
  destruct begin.
  - apply co_children_loop; [done|].
    destruct (negb _); [|constructor]. apply co_handle; [done|constructor].
  - destruct (negb _); [apply co_handle; [done|]|];
      apply co_children_loop; done || constructor.
Qed.

Lemma ww_Reduce (alloc : Z → Z) (W rank : Z) (fuel : nat)
    (send_data recv_data count : Z) (op : MIMPI_Op) (root : Z) :
  writes_within alloc
    (fun a => alloc count ≤ a < alloc count + count ∨
              (rank = root ∧ recv_data ≤ a < recv_data + count))
    (MIMPI_Reduce W rank fuel send_data recv_data count op root).
Proof.
  unfold MIMPI_Reduce. destruct (CHECK_RANK_ERROR W root); [constructor|].
  constructor. constructor; [auto|].
  apply ww_bind; [apply ww_communication_loop; auto|].
  intros rc. destruct (decide _); [repeat constructor|].
  assert (writes_within alloc
            (fun a => alloc count ≤ a < alloc count + count ∨
                      (rank = root ∧ recv_data ≤ a < recv_data + count))
            (CallFree (alloc count)
               (communication_loop fuel NULL MIMPI_DEFAULT_COUNT root
                  MIMPI_NO_MESSAGE_TAG rank W false))) as Hk
    by (constructor; by apply ww_communication_loop).
  destruct (Z.eqb_spec rank root); [|done].
  constructor; [auto|done].
Qed.

Lemma co_Reduce (alloc : Z → Z) (W rank : Z) (fuel : nat)
    (send_data recv_data count : Z) (op : MIMPI_Op) (root : Z) :
  calls_on alloc (fun d => d = alloc count ∨ d = NULL)
    (MIMPI_Reduce W rank fuel send_data recv_data count op root).
Proof.
  unfold MIMPI_Reduce. destruct (CHECK_RANK_ERROR W root); [constructor|].
  constructor. constructor.
  apply co_bind; [apply co_communication_loop; auto|].
  intros rc. destruct (decide _); [repeat constructor|].
  assert (calls_on alloc (fun d => d = alloc count ∨ d = NULL)
            (CallFree (alloc count)
               (communication_loop fuel NULL MIMPI_DEFAULT_COUNT root
                  MIMPI_NO_MESSAGE_TAG rank W false))) as Hk
    by (constructor; apply co_communication_loop; auto).
  destruct (rank =? root); [by constructor|done].
Qed.

Lemma load_neg (h : heap) (p n : Z) : n ≤ 0 → load h p n = [].
Proof. intros Hn. unfold load. by replace (Z.to_nat n) with 0%nat by lia. Qed.

Lemma load_memcpy (h : heap) (dst src n : Z) :
  load (memcpy h dst src n) dst n = load h src n.
Proof.
  destruct (Z.le_gt_cases n 0) as [Hn|Hn]; [by rewrite !load_neg|].
  unfold memcpy.
  rewrite <- (Z2Nat.id n) at 2 by lia.
  rewrite <- (length_load h src n). apply load_store.
Qed.

Lemma load_Recv_deliver_reduce (h : heap) (data count tag : Z) (x : list Z) :
  tag ≤ MIMPI_MAX_TAG →
  load (Recv_deliver h data count tag x) data count
  = handle_reduce_operation x count tag (load h data count).
Proof.
  intros Ht. unfold Recv_deliver.
  destruct (Z.leb_spec tag MIMPI_MAX_TAG); [|lia].
  set (bytes := handle_reduce_operation x count tag (load h data count)).
  assert (Hlen : length bytes = Z.to_nat count)
    by (unfold bytes; by rewrite length_handle_reduce_operation, length_load).
  destruct (Z.le_gt_cases count 0) as [Hn|Hn].
  - rewrite load_neg by done. symmetry. apply nil_length_inv. lia.
  - rewrite <- (Z2Nat.id count) at 1 by lia. rewrite <- Hlen.
    apply load_store.
Qed.

Lemma exec_children_loop_reduce (fuel : nat) (data count tag root W : Z)
    (env : nat → response) (alloc : Z → Z) :
  tag ≤ MIMPI_MAX_TAG →
  ∀ (sf pw : Z) (cs : list Z) (n : nat) (h : heap),
    start_from_values fuel sf pw W = Some cs →
    (∀ i : nat, (i < length cs)%nat → resp_rc (env (n + i)%nat) = MIMPI_SUCCESS) →
    ∃ h1,
      exec (children_loop fuel (fun helper => call_MIMPI_Recv data count helper tag)
              root sf pw W (Ret MIMPI_SUCCESS)) env alloc n h
      = Some (MIMPI_SUCCESS, h1,
              (fun c => EvRecv data count (swap_child root c) tag) <$> cs) ∧
      load h1 data count
      = fold_payloads count tag (load h data count)
          ((fun i => resp_payload (env i)) <$> seq n (length cs)).
Proof.
  intros Ht.
  induction fuel as [|fuel IH]; intros sf pw cs n h;
    cbn [start_from_values children_loop].
  - destruct (sf <? W); [done|]. intros [= <-] _. by exists h.
  - destruct (sf <? W); [|intros [= <-] _; by exists h].
    destruct (start_from_values fuel _ _ _) as [cs'|] eqn:E; [|done].
    cbn [fmap option_fmap option_map]. intros [= <-] Hok.
    pose proof (Hok 0%nat ltac:(simpl; lia)) as H0. rewrite Nat.add_0_r in H0.
    destruct (IH _ _ _ (S n)
                (Recv_deliver h data count tag (resp_payload (env n))) E)
      as (h1 & Hexec & Hload).
    { intros i Hi. replace (S n + i)%nat with (n + S i)%nat by lia.
      apply Hok. simpl. lia. }
    exists h1. split.
    + unfold HANDLE_REMOTE_FINISHED, call_MIMPI_Recv in Hexec |- *.
      cbn [mbind prog_bind bind exec]. rewrite H0.
      destruct (decide (MIMPI_SUCCESS = MIMPI_ERROR_REMOTE_FINISHED)); [done|].
      destruct (decide (MIMPI_SUCCESS = MIMPI_SUCCESS)); [|done].
      by rewrite Hexec.
    + rewrite Hload, load_Recv_deliver_reduce by done. done.
Qed.

Lemma start_from_values_total (W : Z) (fuel : nat) :
  ∀ (sf pw : Z),
    1 ≤ pw → (Z.to_nat (W - sf) ≤ fuel)%nat →
    ∃ cs, start_from_values fuel sf pw W = Some cs.
Proof.
  induction fuel as [|fuel IH]; intros sf pw Hpw Hfuel;
    cbn [start_from_values]; destruct (Z.ltb_spec sf W); eauto; [lia|].
  destruct (IH (sf + pw) (pw * 2)) as [cs ->]; [lia|lia|]. eauto.
Qed.

(** C10 (counterexample). Rank 0 is a non-root rank when the root is 3.
    The loop computes for it the parent [3 - get_power 3 = 1], which the
    relabelling leaves as it is, and the up-phase of rank 0 in a world of
    four is a Send to rank 1; 0 with its most significant set bit cleared
    is 0.  Rank 3 under the root 1 has the computed parent 1, which is 3
    with its most significant set bit cleared, but the relabelling turns it
    into 0 and the up-phase of rank 3 is a Send to rank 0. *)
Lemma rank_zero_parent_counterexample :
  let env := fun _ : nat => mkResponse MIMPI_SUCCESS [] in
  let calls := fun p : prog MIMPI_Retcode =>
    match exec p env (fun _ => NULL) 0 (fun _ => 0) with
    | Some (rc, _, tr) => Some (rc, tr)
    | None => None
    end in
  (0 ≤ 0 ≤ 15 ∧ 0 ≠ 3 ∧ Z.clearbit 0 (Z.log2 0) = 0 ∧
   loop_parent 0 3 = 1 ∧ swap_parent 3 (loop_parent 0 3) = 1 ∧
   calls (communication_loop 4 NULL MIMPI_DEFAULT_COUNT 3
            MIMPI_NO_MESSAGE_TAG 0 4 true)
   = Some (MIMPI_SUCCESS,
           [EvSend NULL MIMPI_DEFAULT_COUNT 1 MIMPI_NO_MESSAGE_TAG])) ∧
  (Z.clearbit 3 (Z.log2 3) = 1 ∧
   loop_parent 3 1 = 1 ∧ swap_parent 1 (loop_parent 3 1) = 0 ∧
   calls (communication_loop 4 NULL MIMPI_DEFAULT_COUNT 1
            MIMPI_NO_MESSAGE_TAG 3 4 true)
   = Some (MIMPI_SUCCESS,
           [EvSend NULL MIMPI_DEFAULT_COUNT 0 MIMPI_NO_MESSAGE_TAG])).
Proof. cbv zeta. split; (split; [lia || reflexivity|]); by vm_compute. Qed.

Lemma loop_parent_clearbit (k root : Z) :
  0 ≤ k ≤ 15 → 0 ≤ root ≤ 15 → k ≠ root →
  let place := if decide (k = 0) then root else k in
  tree_init k root
  = (Z.clearbit place (Z.log2 place), get_power place * 2,
     place + get_power place * 2).
Proof.
  intros Hk Hroot Hne. unfold tree_init.
  destruct (Z.eqb_spec k root); [done|].
  destruct (decide (k = 0)) as [->|H0]; cbn zeta.
  - cbn [Z.eqb]. by rewrite <- msb_clearbit, get_power_msb by lia.
  - destruct (Z.eqb_spec k 0); [done|].
    by rewrite <- msb_clearbit, get_power_msb by lia.
Qed.

(** C10 (amended). For every rank [k] with [0 <= k <= 15], [get_power k] is
    the highest power of two not exceeding [k] (0 for [k = 0], 1 for
    [k = 1], [get_power 3 = 2], [get_power 5 = 4]).  Hence the parent that
    [communication_loop] computes for a non-root rank [k > 0] is [k] with
    its most significant set bit cleared, and for the non-root rank 0 it is
    the root with its most significant set bit cleared; the rank that the
    process sends to at the end of its up-phase and receives from at the
    start of its down-phase is this parent with 0 and the root exchanged. *)
Theorem get_power_highest_power (k root : Z) :
  0 ≤ k ≤ 15 → 0 ≤ root ≤ 15 →
  get_power k = msb k ∧
  (get_power 0 = 0 ∧ get_power 1 = 1 ∧ get_power 3 = 2 ∧ get_power 5 = 4) ∧
  (k ≠ root →
   let place := if decide (k = 0) then root else k in
   let parent := Z.clearbit place (Z.log2 place) in
   let partner :=
     if decide (parent = root) then 0
     else if decide (parent = 0) then root else parent in
   loop_parent k root = parent ∧
   ∀ (W : Z) (fuel : nat) (data count tag : Z) (env : nat → response)
     (alloc : Z → Z) (n : nat) (h : heap),
     (Z.to_nat W ≤ fuel)%nat → never_finished env →
     ∃ cs h1 h2,
       exec (communication_loop fuel data count root tag k W true)
         env alloc n h
       = Some (MIMPI_SUCCESS, h1,
               ((fun c => EvRecv data count (swap_child root c) tag) <$> cs)
               ++ [EvSend data count partner tag]) ∧
       exec (communication_loop fuel data count root tag k W false)
         env alloc n h
       = Some (MIMPI_SUCCESS, h2,
               EvRecv data count partner tag
               :: ((fun c => EvSend data count (swap_child root c) tag)
                     <$> cs))).
Proof.
  intros Hk Hroot. split; [by apply get_power_msb|]. split; [done|].
  intros Hne place parent partner.
  pose proof (loop_parent_clearbit k root Hk Hroot Hne) as Hinit.
  fold place in Hinit. cbn zeta in Hinit. fold parent in Hinit.
  split; [unfold loop_parent; by rewrite Hinit|].
  intros W fuel data count tag env alloc n h Hfuel Henv.
  assert (0 < place ≤ 15) as Hplace
    by (unfold place; destruct (decide (k = 0)); lia).
  destruct (start_from_values_total W fuel (place + get_power place * 2)
              (get_power place * 2)) as [cs Hcs].
  { pose proof (get_power_pos place). lia. }
  { pose proof (get_power_pos place). lia. }
  assert (swap_parent root parent = partner) as Hswap.
  { unfold swap_parent, partner.
    destruct (Z.eqb_spec parent root), (decide (parent = root)); try done.
    by destruct (Z.eqb_spec parent 0), (decide (parent = 0)). }
  unfold communication_loop. rewrite Hinit.
  destruct (Z.eqb_spec k root) as [|_]; [done|]. cbn [negb].
  rewrite Hswap.
  destruct (exec_children_loop_recv fuel data count tag root W
              (HANDLE_REMOTE_FINISHED
                 (call_MIMPI_Send data count partner tag) (Ret MIMPI_SUCCESS))
              env alloc Henv _ _ _ n h Hcs) as [h1 Hup].
  destruct (exec_handle_recv data count partner tag
              (children_loop fuel
                 (fun helper => call_MIMPI_Send data count helper tag)
                 root (place + get_power place * 2) (get_power place * 2) W
                 (Ret MIMPI_SUCCESS)) env alloc n h (Henv n)) as [h2 Hdown].
  exists cs, h1, h2. split.
  - rewrite Hup. by rewrite exec_handle_send by apply Henv.
  - rewrite Hdown.
    rewrite (exec_children_loop_send fuel data count tag root W
               (Ret MIMPI_SUCCESS) env alloc Henv _ _ _ (S n) _ Hcs).
    unfold prepend. cbn. by rewrite app_nil_r.
Qed.

Lemma get_power_highest_power_witness :
  get_power 5 = msb 5 ∧ loop_parent 0 3 = Z.clearbit 3 (Z.log2 3) ∧
  loop_parent 5 2 = Z.clearbit 5 (Z.log2 5).
Proof.
  destruct (get_power_highest_power 5 2 ltac:(lia) ltac:(lia))
    as (H1 & _ & H2).
  destruct (get_power_highest_power 0 3 ltac:(lia) ltac:(lia))
    as (_ & _ & H3).
  split; [exact H1|]. split; [apply H3; lia|apply H2; lia].
Defined.

Lemma exec_ww_empty (alloc : Z → Z) (p : prog MIMPI_Retcode)
    (env : nat → response) (n : nat) (h h' : heap) (rc : MIMPI_Retcode)
    (tr : list event) :
  writes_within alloc (fun _ => False) p →
  exec p env alloc n h = Some (rc, h', tr) → ∀ a, h' a = h a.
Proof. intros Hww Hexec a. eapply exec_writes_within; eauto. Qed.

Lemma Reduce_root_result (W : Z) (fuel : nat) (send_data recv_data count : Z)
    (op : MIMPI_Op) (root : Z) (env : nat → response) (alloc : Z → Z)
    (h h' : heap) (rc : MIMPI_Retcode) (tr : list event) (cs : list Z) :
  0 ≤ root < W →
  exec (MIMPI_Reduce W root fuel send_data recv_data count op root)
    env alloc 0 h = Some (rc, h', tr) →
  loop_children fuel root root W = Some cs →
  (∀ i : nat, (i < length cs)%nat → resp_rc (env i) = MIMPI_SUCCESS) →
  load h' recv_data count
  = fold_payloads count (MIMPI_MAX_TAG - op_index op) (load h send_data count)
      ((fun i => resp_payload (env i)) <$> seq 0 (length cs)).
Proof.
  intros Hroot Hexec Hcs Hok.
  unfold MIMPI_Reduce, CHECK_RANK_ERROR in Hexec.
  destruct (Z.ltb_spec root 0); [lia|].
  destruct (Z.geb_spec root W); [lia|].
  cbn [orb exec] in Hexec.
  destruct ((count <? 0) || (alloc count =? NULL)); [done|].
  change (exec (bind ?p ?f)) with (exec (bind p f)) in Hexec.
  unfold mbind, prog_bind in Hexec. rewrite exec_bind in Hexec.
  assert (Hinit : tree_init root root = (root - get_power root, 1, 1))
    by (unfold tree_init; by rewrite Z.eqb_refl).
  unfold loop_children in Hcs. rewrite Hinit in Hcs.
  unfold communication_loop in Hexec at 1.
  rewrite Hinit, Z.eqb_refl in Hexec. cbn [negb] in Hexec.
  assert (Htag : MIMPI_MAX_TAG - op_index op ≤ MIMPI_MAX_TAG)
    by (destruct op; unfold MIMPI_MAX_TAG; simpl; lia).
  destruct (exec_children_loop_reduce fuel (alloc count) count
              (MIMPI_MAX_TAG - op_index op) root W env alloc Htag 1 1 cs 0%nat
              (memcpy h (alloc count) send_data count) Hcs Hok)
    as (h1 & Hup & Hload).
  rewrite Hup in Hexec. rewrite load_memcpy in Hload.
  destruct (decide (MIMPI_SUCCESS = MIMPI_ERROR_REMOTE_FINISHED)); [done|].
  cbn [exec] in Hexec.
  destruct (exec (communication_loop _ _ _ _ _ _ _ _) _ _ _ _)
    as [[[rc2 h2] tr2]|] eqn:Edown; [|done].
  cbn in Hexec. injection Hexec as _ <- _.
  rewrite <- Hload, <- (load_memcpy h1 recv_data (alloc count) count).
  apply load_ext. intros a _.
  eapply exec_ww_empty; [|exact Edown].
  apply ww_communication_loop. done.
Qed.

(** C8 (counterexample). The root of a world of four calls Reduce with
    [recv_data] and [send_data] the same buffer of two bytes, holding 5 and
    250, the scratch buffer being elsewhere; its children send it 1, 7 and
    2, 7.  The call returns success and the buffer, which is [send_data],
    holds the result 8, 8. *)
Lemma Reduce_overwrites_send_data :
  let env := fun i : nat => mkResponse MIMPI_SUCCESS [Z.of_nat i + 1; 7] in
  let h := fun a : Z => if a =? 100 then 5 else if a =? 101 then 250 else 0 in
  load h 100 2 = [5; 250] ∧
  match
    exec (MIMPI_Reduce 4 0 4 100 100 2 MIMPI_SUM 0) env (fun _ => 1000) 0 h
  with
  | Some (rc, h', _) => Some (rc, load h' 100 2)
  | None => None
  end = Some (MIMPI_SUCCESS, [8; 8]).
Proof. split; vm_compute; reflexivity. Qed.

(** C8 (amended). A Reduce with a count that is not negative and a scratch
    buffer that [malloc] does return copies [send_data] into the scratch
    buffer and hands only that buffer (or [NULL]) to the point-to-point
    calls; outside the scratch buffer the call changes memory only at the
    root and only inside [recv_data].  So, the scratch buffer being apart
    from the caller's buffers, [recv_data] is unchanged at every non-root
    process, and [send_data] is unchanged at every non-root process and, at
    the root, wherever it does not overlap [recv_data]; at the root, when
    every receive of the up-phase succeeds, [recv_data] holds the fold of
    [send_data] with the received payloads. *)
Theorem Reduce_frame (W rank : Z) (fuel : nat) (send_data recv_data count : Z)
    (op : MIMPI_Op) (root : Z) (env : nat → response) (alloc : Z → Z)
    (h : heap) :
  0 ≤ rank → 0 ≤ root < W → (Z.to_nat W ≤ fuel)%nat →
  0 ≤ count → alloc count ≠ NULL →
  ∃ rc h' tr,
    exec (MIMPI_Reduce W rank fuel send_data recv_data count op root)
      env alloc 0 h = Some (rc, h', tr) ∧
    (∀ e, e ∈ tr → event_data e = alloc count ∨ event_data e = NULL) ∧
    (∀ a, ¬ (alloc count ≤ a < alloc count + count) →
          ¬ (rank = root ∧ recv_data ≤ a < recv_data + count) →
          h' a = h a) ∧
    (rank ≠ root →
     (∀ a, recv_data ≤ a < recv_data + count →
           ¬ (alloc count ≤ a < alloc count + count)) →
     load h' recv_data count = load h recv_data count) ∧
    ((∀ a, send_data ≤ a < send_data + count →
           ¬ (alloc count ≤ a < alloc count + count) ∧
           ¬ (rank = root ∧ recv_data ≤ a < recv_data + count)) →
     load h' send_data count = load h send_data count) ∧
    (rank = root →
     ∀ cs, loop_children fuel rank root W = Some cs →
           (∀ i : nat, (i < length cs)%nat → resp_rc (env i) = MIMPI_SUCCESS) →
           load h' recv_data count
           = fold_payloads count (MIMPI_MAX_TAG - op_index op)
               (load h send_data count)
               ((fun i => resp_payload (env i)) <$> seq 0 (length cs))).
Proof.
  intros Hrank Hroot Hfuel Hcount Halloc.
  destruct (exec_eager alloc _
              (eager_Reduce alloc W rank fuel send_data recv_data count
                 op root Hrank Hfuel Hroot Hcount Halloc) env 0%nat h)
    as (rc & h' & tr & Hexec & _).
  assert (∀ a, ¬ (alloc count ≤ a < alloc count + count) →
               ¬ (rank = root ∧ recv_data ≤ a < recv_data + count) →
               h' a = h a) as Hframe.
  { intros a Hscratch Hrecv.
    eapply exec_writes_within; [apply ww_Reduce|exact Hexec|].
    simpl. tauto. }
  exists rc, h', tr. split; [done|]. split; [|split; [done|split; [|split]]].
  - intros e He.
    exact (exec_calls_on alloc _ _
             (co_Reduce alloc W rank fuel send_data recv_data count op root)
             env 0%nat h h' rc tr Hexec e He).
  - intros Hne Hapart. apply load_ext. intros a Ha.
    apply Hframe; [by apply Hapart|]. intros [? _]. done.
  - intros Hapart. apply load_ext. intros a Ha.
    destruct (Hapart a Ha). by apply Hframe.
  - intros -> cs Hcs Hok. eapply Reduce_root_result; eauto.
Qed.

Lemma Reduce_frame_witness :
  let env := fun i : nat => mkResponse MIMPI_SUCCESS [Z.of_nat i + 1; 7] in
  let h := fun a : Z => if a =? 100 then 5 else if a =? 101 then 250 else 0 in
  ∃ rc h' tr,
    exec (MIMPI_Reduce 4 0 4 100 200 2 MIMPI_SUM 0) env (fun _ => 1000) 0 h
      = Some (rc, h', tr) ∧
    load h' 100 2 = load h 100 2 ∧
    load h' 200 2 = [(5 + 1 + 2) mod 256; (250 + 7 + 7) mod 256].
Proof.
  intros env h.
  destruct (Reduce_frame 4 0 4 100 200 2 MIMPI_SUM 0 env (fun _ => 1000) h)
    as (rc & h' & tr & Hexec & _ & _ & _ & Hsend & Hroot);
    [lia|lia|vm_compute; lia|lia|unfold NULL; lia|].
  exists rc, h', tr. split; [exact Hexec|]. split.
  - apply Hsend. intros a Ha. lia.
  - rewrite (Hroot eq_refl [1; 2]); [reflexivity|reflexivity|].
    intros i _. reflexivity.
Defined.

(** ** Rank checks of the collectives *)

Lemma Bcast_Reduce_no_such_rank (W rank : Z) (fuel : nat)
    (data send_data recv_data count root : Z) (op : MIMPI_Op) :
  ¬ (0 ≤ root < W) →
  MIMPI_Bcast W rank fuel data count root = Ret MIMPI_ERROR_NO_SUCH_RANK ∧
  MIMPI_Reduce W rank fuel send_data recv_data count op root
  = Ret MIMPI_ERROR_NO_SUCH_RANK.
Proof.
  intros Hroot. unfold MIMPI_Bcast, MIMPI_Reduce, CHECK_RANK_ERROR.
  destruct (Z.ltb_spec root 0), (Z.geb_spec root W); simpl; done || lia.
Qed.

(** ** Wire frames *)

Lemma byte_bits (x k n : Z) : 0 ≤ k → 0 ≤ n →
  Z.testbit (Z.shiftl (Z.land (Z.shiftr x k) 255) k) n
  = Z.testbit x n && (k <=? n) && (n <? k + 8).
Proof.
  intros Hk Hn.
  destruct (Z.leb_spec k n) as [Hkn|Hkn].
  - rewrite Z.shiftl_spec, Z.land_spec, Z.shiftr_spec by lia.
    replace (n - k + k) with n by lia.
    change 255 with (Z.ones 8).
    rewrite Z.testbit_ones by lia.
    destruct (Z.leb_spec 0 (n - k)); [|lia].
    destruct (Z.ltb_spec (n - k) 8), (Z.ltb_spec n (k + 8)); simpl; try lia;
      by rewrite ?andb_true_r, ?andb_false_r.
  - rewrite Z.shiftl_spec_low by lia. by rewrite andb_false_r.
Qed.

Lemma decode_encode_mod (x : Z) :
  Z.lor (Z.lor (Z.land x 255) (Z.shiftl (Z.land (Z.shiftr x 8) 255) 8))
    (Z.lor (Z.shiftl (Z.land (Z.shiftr x 16) 255) 16)
       (Z.shiftl (Z.land (Z.shiftr x 24) 255) 24))
  = x mod 2 ^ 32.
Proof.
  apply Z.bits_inj'. intros n Hn.
  rewrite !Z.lor_spec.
  rewrite (byte_bits x 8), (byte_bits x 16), (byte_bits x 24) by lia.
  pose proof (byte_bits x 0 n ltac:(lia) Hn) as H0.
  rewrite Z.shiftr_0_r, Z.shiftl_0_r in H0. rewrite H0.
  rewrite Z.testbit_mod_pow2 by lia.
  repeat match goal with
         | |- context [?a <=? ?b] => destruct (Z.leb_spec a b)
         | |- context [?a <? ?b] => destruct (Z.ltb_spec a b)
         end; destruct (Z.testbit x n); simpl; done || lia.
Qed.

Lemma decode_encode (x : Z) :
  - 2 ^ 31 ≤ x < 2 ^ 31 → decode_int (encode_int x) = x.
Proof.
  intros Hx. unfold decode_int, encode_int.
  rewrite decode_encode_mod.
  destruct (Z.ltb_spec (x mod 2 ^ 32) (2 ^ 31)) as [H|H].
  - destruct (Z.le_gt_cases 0 x).
    + apply Z.mod_small. lia.
    + rewrite <- (Z.mod_add x 1) in H by lia.
      rewrite Z.mod_small in H by lia. lia.
  - destruct (Z.le_gt_cases 0 x).
    + rewrite Z.mod_small in H by lia. lia.
    + rewrite <- (Z.mod_add x 1) by lia.
      rewrite Z.mod_small by lia. lia.
Qed.

Lemma length_encode_int (x : Z) : length (encode_int x) = 4%nat.
Proof. reflexivity. Qed.

Lemma read_from_channel_app (xs rest : list Z) (n : Z) :
  n = Z.of_nat (length xs) →
  read_from_channel (xs ++ rest) n
  = ({| error_occured := false; readcode_data := xs |}, rest).
Proof.
  intros ->. unfold read_from_channel. rewrite Nat2Z.id.
  destruct (Nat.leb_spec (length xs) (length (xs ++ rest))) as [_|H].
  - by rewrite take_app_length, drop_app_length.
  - rewrite length_app in H. lia.
Qed.

Lemma Send_wire (p : Process) (write_ok : Z → bool) (data : list Z)
    (count destination tag : Z) (rc : MIMPI_Retcode) (p' : Process) (w : wire) :
  MIMPI_Send p write_ok data count destination tag = Done (rc, p', w) →
  (w = [] ∧ rc ≠ MIMPI_SUCCESS) ∨
  (w = [(destination, frame_layout data count tag)] ∧ rc = MIMPI_SUCCESS ∧
   write_ok destination = true ∧
   CHECK_RANK_ERROR (MIMPI_World_size p) destination = false ∧
   CHECK_SELF_OP_ERROR (MIMPI_World_rank p) destination = false).
Proof.
  unfold MIMPI_Send, frame_layout.
  destruct (CHECK_RANK_ERROR _ _); [intros [= <- <- <-]; by left|].
  destruct (CHECK_SELF_OP_ERROR _ _); [intros [= <- <- <-]; by left|].
  destruct (if MIMPI_deadlock_enabled p && (tag >=? MIMPI_ANY_TAG)
            then _ else _) as [p1|]; [|done].
  cbn [mbind outcome_bind].
  destruct (payload_bearing tag).
  - destruct (count <? 0); [done|]. cbn [mbind outcome_bind].
    destruct (write_ok destination); intros [= <- <- <-]; [right|left]; done.
  - cbn [mbind outcome_bind]. rewrite app_nil_r.
    destruct (write_ok destination); intros [= <- <- <-]; [right|left]; done.
Qed.

Lemma read_frame_layout (data : list Z) (count tag sender : Z)
    (rest : list Z) :
  - 2 ^ 31 ≤ count < 2 ^ 31 → - 2 ^ 31 ≤ tag < 2 ^ 31 →
  (payload_bearing tag = true → 0 ≤ count ≤ Z.of_nat (length data)) →
  read_frame sender (frame_layout data count tag ++ rest)
    = Done (decoded sender count tag
              (if payload_bearing tag then Some (take (Z.to_nat count) data)
               else None),
            rest).
Proof.
  intros Hcount Htag Hdata.
  unfold read_frame, frame_layout.
  rewrite (app_assoc (encode_int count)), <- (app_assoc _ _ rest).
  rewrite (read_from_channel_app (encode_int count ++ encode_int tag)) by done.
  cbn [error_occured readcode_data].
  rewrite take_app_length', drop_app_length' by done.
  rewrite !decode_encode by done.
  unfold decoded.
  destruct (payload_bearing tag) eqn:Ebear.
  + specialize (Hdata eq_refl).
    destruct (Z.ltb_spec count 0); [lia|].
    rewrite read_from_channel_app by (rewrite length_take; lia).
    cbn [mbind outcome_bind readcode_data].
    by destruct ((tag =? MIMPI_WAITING_TAG) || (tag =? MIMPI_RECEIVED_TAG)).
  + cbn [mbind outcome_bind app].
    destruct ((tag =? MIMPI_WAITING_TAG) || (tag =? MIMPI_RECEIVED_TAG)) eqn:E;
      [|done].
    unfold payload_bearing in Ebear.
    apply orb_true_iff in E as [E|E]; apply Z.eqb_eq in E; subst tag; done.
Qed.

(** C7. Every frame Send writes consists of an 8-byte header holding
    [count] then [tag] as 4-byte integers, followed by exactly [count]
    payload bytes iff the tag is neither NO_MESSAGE nor DEADLOCK; the
    reader decodes a frame under the same layout, reading a [count]-byte
    body exactly for those tags, and stops just after the frame. *)
Theorem frame_layout_roundtrip (p : Process) (write_ok : Z → bool)
    (data : list Z) (count destination tag sender : Z) (rest : list Z) :
  - 2 ^ 31 ≤ count < 2 ^ 31 → - 2 ^ 31 ≤ tag < 2 ^ 31 →
  (payload_bearing tag = true → 0 ≤ count ≤ Z.of_nat (length data)) →
  (∀ rc p' w d f,
     MIMPI_Send p write_ok data count destination tag = Done (rc, p', w) →
     (d, f) ∈ w → d = destination ∧ f = frame_layout data count tag) ∧
  decode_int (take 4 (frame_layout data count tag)) = count ∧
  decode_int (take 4 (drop 4 (frame_layout data count tag))) = tag ∧
  Z.of_nat (length (frame_layout data count tag))
    = METADATA_SIZE + (if payload_bearing tag then count else 0) ∧
  read_frame sender (frame_layout data count tag ++ rest)
    = Done (decoded sender count tag
              (if payload_bearing tag then Some (take (Z.to_nat count) data)
               else None),
            rest).
Proof.
  intros Hcount Htag Hdata. split; [|split; [|split; [|split]]].
  - intros rc p' w d f Hsend Hin.
    destruct (Send_wire _ _ _ _ _ _ _ _ _ Hsend) as [[-> _]|(-> & _)].
    + by apply elem_of_nil in Hin.
    + apply list_elem_of_singleton in Hin. by injection Hin as -> ->.
  - unfold frame_layout. rewrite take_app_length' by done.
    by apply decode_encode.
  - unfold frame_layout. rewrite drop_app_length' by done.
    rewrite take_app_length' by done. by apply decode_encode.
  - unfold frame_layout, METADATA_SIZE, sizeof_int.
    rewrite !length_app, !length_encode_int.
    destruct (payload_bearing tag); [|simpl; lia].
    rewrite length_take. specialize (Hdata eq_refl). lia.
  - by apply read_frame_layout.
Qed.

Lemma frame_layout_roundtrip_witness :
  let p := MIMPI_Init 2 0 false in
  MIMPI_Send p (fun _ => true) [10; 20; 30] 3 1 7
    = Done (MIMPI_SUCCESS, p, [(1, [3; 0; 0; 0; 7; 0; 0; 0; 10; 20; 30])]) ∧
  read_frame 0 (frame_layout [10; 20; 30] 3 7 ++ [99])
    = Done (Frame false false (create_message 7 3 0 (Some [10; 20; 30])), [99]) ∧
  read_frame 0 (frame_layout [] (-1) MIMPI_NO_MESSAGE_TAG ++ [99])
    = Done (Frame false false
              (create_message MIMPI_NO_MESSAGE_TAG (-1) 0 None), [99]).
Proof.
  intros p. split; [reflexivity|]. split.
  - apply (frame_layout_roundtrip p (fun _ => true) [10; 20; 30] 3 1 7 0 [99]);
      [lia|lia|intros _; simpl; lia].
  - apply (frame_layout_roundtrip p (fun _ => true) [] (-1) 1
             MIMPI_NO_MESSAGE_TAG 0 [99]); [lia|unfold MIMPI_NO_MESSAGE_TAG; lia|].
    intros H. discriminate H.
Defined.

(** ** Rank checks *)

(** C6. A Send (resp. Recv) whose destination (resp. source) is outside
    [0, W) returns no-such-rank, and one that names the calling process
    itself returns self-op; in both cases no frame is written and the state
    of the process and the caller's memory are unchanged.  Bcast and Reduce
    return no-such-rank, without any point-to-point call, when the root is
    outside [0, W). *)
Theorem rank_argument_checks (p : Process) (write_ok : Z → bool) (h : heap)
    (bytes : list Z) (data send_data recv_data count r tag : Z) (fuel : nat)
    (op : MIMPI_Op) :
  (¬ (0 ≤ r < MIMPI_World_size p) →
   MIMPI_Send p write_ok bytes count r tag
     = Done (MIMPI_ERROR_NO_SUCH_RANK, p, []) ∧
   MIMPI_Recv p write_ok h data count r tag
     = Done (Returned MIMPI_ERROR_NO_SUCH_RANK, p, h, []) ∧
   MIMPI_Bcast (MIMPI_World_size p) (MIMPI_World_rank p) fuel data count r
     = Ret MIMPI_ERROR_NO_SUCH_RANK ∧
   MIMPI_Reduce (MIMPI_World_size p) (MIMPI_World_rank p) fuel send_data
     recv_data count op r = Ret MIMPI_ERROR_NO_SUCH_RANK) ∧
  (0 ≤ r < MIMPI_World_size p → r = MIMPI_World_rank p →
   MIMPI_Send p write_ok bytes count r tag
     = Done (MIMPI_ERROR_ATTEMPTED_SELF_OP, p, []) ∧
   MIMPI_Recv p write_ok h data count r tag
     = Done (Returned MIMPI_ERROR_ATTEMPTED_SELF_OP, p, h, [])).
Proof.
  split.
  - intros Hr.
    assert (CHECK_RANK_ERROR (MIMPI_World_size p) r = true) as Hcheck.
    { unfold CHECK_RANK_ERROR.
      destruct (Z.ltb_spec r 0), (Z.geb_spec r (MIMPI_World_size p));
        simpl; done || lia. }
    unfold MIMPI_Send, MIMPI_Recv. rewrite Hcheck.
    split; [done|]. split; [done|]. by apply Bcast_Reduce_no_such_rank.
  - intros Hr Hself.
    assert (CHECK_RANK_ERROR (MIMPI_World_size p) r = false) as Hcheck.
    { unfold CHECK_RANK_ERROR.
      destruct (Z.ltb_spec r 0), (Z.geb_spec r (MIMPI_World_size p));
        simpl; done || lia. }
    assert (CHECK_SELF_OP_ERROR (MIMPI_World_rank p) r = true) as Hcheck'
      by (unfold CHECK_SELF_OP_ERROR; by apply Z.eqb_eq).
    unfold MIMPI_Send, MIMPI_Recv. by rewrite Hcheck, Hcheck'.
Qed.

Lemma rank_argument_checks_witness :
  let p := MIMPI_Init 4 2 true in
  MIMPI_Send p (fun _ => true) [1] 1 4 0
    = Done (MIMPI_ERROR_NO_SUCH_RANK, p, []) ∧
  MIMPI_Recv p (fun _ => true) (fun _ => 0) 100 1 2 0
    = Done (Returned MIMPI_ERROR_ATTEMPTED_SELF_OP, p, (fun _ => 0), []).
Proof.
  intros p. split.
  - apply (rank_argument_checks p (fun _ => true) (fun _ => 0) [1] 0 0 0 1 4 0
             0%nat MIMPI_SUM). simpl. lia.
  - apply (rank_argument_checks p (fun _ => true) (fun _ => 0) [1] 100 0 0 1 2 0
             0%nat MIMPI_SUM); [simpl; lia|reflexivity].
Defined.

(** ** Receiving from a peer that has closed its channel *)

Lemma Send_internal (p : Process) (write_ok : Z → bool) (data : list Z)
    (count destination tag : Z) :
  0 ≤ destination < MIMPI_World_size p → destination ≠ MIMPI_World_rank p →
  tag < MIMPI_ANY_TAG → (payload_bearing tag = true → 0 ≤ count) →
  MIMPI_Send p write_ok data count destination tag
  = if write_ok destination
    then Done (MIMPI_SUCCESS, p, [(destination, frame_layout data count tag)])
    else Done (MIMPI_ERROR_REMOTE_FINISHED, p, []).
Proof.
  intros Hd Hself Htag Hcount. unfold MIMPI_Send, frame_layout.
  unfold CHECK_RANK_ERROR, CHECK_SELF_OP_ERROR.
  destruct (Z.ltb_spec destination 0); [lia|].
  destruct (Z.geb_spec destination (MIMPI_World_size p)); [lia|].
  destruct (Z.eqb_spec destination (MIMPI_World_rank p)); [done|].
  destruct (Z.geb_spec tag MIMPI_ANY_TAG); [lia|].
  rewrite andb_false_r. cbn [orb mbind outcome_bind].
  destruct (payload_bearing tag).
  - destruct (Z.ltb_spec count 0); [lia|]. done.
  - cbn [mbind outcome_bind]. by rewrite app_nil_r.
Qed.



Lemma closed_peer_announce (p : Process) (write_ok : Z → bool) (h : heap)
    (data count source tag : Z) (w : wire) :
  source ∈ MIMPI_already_left p → tag ≠ MIMPI_DEADLOCK_TAG →
  msg_tag (MIMPI_waiting p) = tag → msg_received (MIMPI_waiting p) = false →
  Recv_after_wait p write_ok h data count source tag w
  = Done (Returned MIMPI_ERROR_REMOTE_FINISHED,
          set_waiting p MIMPI_DEFAULT_MSG, h, w).
Proof.
  intros Hleft Htag Hwt Hwr. unfold Recv_after_wait. rewrite Hwt, Hwr.
  destruct (Z.eqb_spec tag MIMPI_DEADLOCK_TAG); [done|].
  by rewrite bool_decide_eq_true_2.
Qed.



(** ** Mutual wait: the steps of a node on shapes *)

Section MutualWaitNode.
Variables (base : Process) (mine peer : recv_call).
Variables (q s0 : list Message).
Hypothesis Hdl : MIMPI_deadlock_enabled base = true.
Hypothesis Hsrc : 0 ≤ call_source mine < MIMPI_World_size base.
Hypothesis Hself : call_source mine ≠ MIMPI_World_rank base.
Hypothesis Hleft : call_source mine ∉ MIMPI_already_left base.
Hypothesis Hq : MIMPI_received_messages base !! call_source mine = Some q.
Hypothesis Hfind :
  find_elem_in_list q
    (create_message (call_tag mine) (call_count mine) (call_source mine) None)
  = None.
Hypothesis Hs0 : MIMPI_send_not_received base = Some s0.
Hypothesis Hsent :
  find_elem_in_list s0 (kind_msg mine peer KWaiting) = None.
Hypothesis Hmine : MIMPI_ANY_TAG ≤ call_tag mine.
Hypothesis Hpeer_tag : MIMPI_ANY_TAG ≤ call_tag peer < 2 ^ 31.
Hypothesis Hpeer_count : - 2 ^ 31 ≤ call_count peer < 2 ^ 31.

Lemma shape_checks (s : slot) (others : list kind) :
  CHECK_RANK_ERROR (MIMPI_World_size (shape_proc base mine peer s others))
    (call_source mine) = false ∧
  CHECK_SELF_OP_ERROR (MIMPI_World_rank (shape_proc base mine peer s others))
    (call_source mine) = false.
Proof.
  unfold CHECK_RANK_ERROR, CHECK_SELF_OP_ERROR.
  change (MIMPI_World_size (shape_proc base mine peer s others))
    with (MIMPI_World_size base).
  change (MIMPI_World_rank (shape_proc base mine peer s others))
    with (MIMPI_World_rank base).
  destruct (Z.ltb_spec (call_source mine) 0); [lia|].
  destruct (Z.geb_spec (call_source mine) (MIMPI_World_size base)); [lia|].
  by destruct (Z.eqb_spec (call_source mine) (MIMPI_World_rank base)).
Qed.

Lemma shape_Send (s : slot) (others : list kind) (data : list Z)
    (count tag : Z) :
  tag < MIMPI_ANY_TAG → (payload_bearing tag = true → 0 ≤ count) →
  MIMPI_Send (shape_proc base mine peer s others) always_ok data count
    (call_source mine) tag
  = Done (MIMPI_SUCCESS, shape_proc base mine peer s others,
          [(call_source mine, frame_layout data count tag)]).
Proof. intros Htag Hcount. by rewrite Send_internal. Qed.

Lemma enter_alone (h : heap) :
  MIMPI_Recv (shape_proc base mine peer Idle []) always_ok h (call_data mine)
    (call_count mine) (call_source mine) (call_tag mine)
  = Done (Parked, shape_proc base mine peer Filter [], h,
          shape_wire mine [KWaiting]).
Proof.
  unfold MIMPI_Recv.
  destruct (shape_checks Idle []) as [-> ->].
  change (MIMPI_received_messages (shape_proc base mine peer Idle []))
    with (MIMPI_received_messages base).
  rewrite Hq. cbn [deref mbind outcome_bind]. rewrite Hfind.
  change (set_waiting (shape_proc base mine peer Idle []) _)
    with (shape_proc base mine peer Filter []).
  change (MIMPI_deadlock_enabled (shape_proc base mine peer Filter []))
    with (MIMPI_deadlock_enabled base).
  rewrite Hdl.
  destruct (Z.geb_spec (call_tag mine) MIMPI_ANY_TAG); [|lia].
  cbn [andb MIMPI_others_recv shape_proc set_others_recv].
  rewrite lookup_insert_eq.
  cbn [fmap list_fmap deref mbind outcome_bind].
  rewrite shape_Send by done.
  cbn [mbind outcome_bind].
  destruct (decide (MIMPI_SUCCESS = MIMPI_ERROR_REMOTE_FINISHED)); [done|].
  cbn [mbind outcome_bind MIMPI_waiting shape_proc set_others_recv set_waiting
       slot_msg msg_received negb andb MIMPI_already_left].
  by rewrite bool_decide_eq_false_2.
Qed.

Lemma enter_notified (h : heap) (rest : list kind) :
  MIMPI_Recv (shape_proc base mine peer Idle (KWaiting :: rest)) always_ok h
    (call_data mine) (call_count mine) (call_source mine) (call_tag mine)
  = Done (Returned MIMPI_ERROR_DEADLOCK_DETECTED,
          shape_proc base mine peer Idle rest, h,
          shape_wire mine [KDeadlock]).
Proof.
  unfold MIMPI_Recv.
  destruct (shape_checks Idle (KWaiting :: rest)) as [-> ->].
  change (MIMPI_received_messages
            (shape_proc base mine peer Idle (KWaiting :: rest)))
    with (MIMPI_received_messages base).
  rewrite Hq. cbn [deref mbind outcome_bind]. rewrite Hfind.
  change (set_waiting (shape_proc base mine peer Idle (KWaiting :: rest)) _)
    with (shape_proc base mine peer Filter (KWaiting :: rest)).
  change (MIMPI_deadlock_enabled
            (shape_proc base mine peer Filter (KWaiting :: rest)))
    with (MIMPI_deadlock_enabled base).
  rewrite Hdl.
  destruct (Z.geb_spec (call_tag mine) MIMPI_ANY_TAG); [|lia].
  cbn [andb MIMPI_others_recv shape_proc set_others_recv].
  rewrite lookup_insert_eq.
  cbn [fmap list_fmap deref mbind outcome_bind kind_msg create_message msg_tag].
  destruct (Z.geb_spec (call_tag peer) MIMPI_ANY_TAG); [|lia].
  unfold remove_tail_next. rewrite lookup_insert_eq.
  cbn [mbind outcome_bind]. rewrite insert_insert_eq.
  change (set_others_recv _ _) with (shape_proc base mine peer Idle rest).
  rewrite shape_Send by done. done.
Qed.

Lemma wake_verdict (h : heap) (k : kind) (rest : list kind) :
  Recv_after_wait (shape_proc base mine peer Verdict (k :: rest)) always_ok h
    (call_data mine) (call_count mine) (call_source mine) (call_tag mine) []
  = Done (Returned MIMPI_ERROR_DEADLOCK_DETECTED,
          shape_proc base mine peer Idle rest, h, []).
Proof.
  unfold Recv_after_wait.
  cbn [MIMPI_waiting shape_proc set_others_recv set_waiting slot_msg msg_tag].
  rewrite Z.eqb_refl. unfold remove_tail_next.
  cbn [MIMPI_others_recv shape_proc set_others_recv].
  rewrite lookup_insert_eq.
  cbn [fmap list_fmap mbind outcome_bind]. rewrite insert_insert_eq. done.
Qed.

Lemma read_kind (k : kind) (rest : list Z) :
  read_frame (call_source mine) (kind_bytes peer k ++ rest)
  = Done (kind_frame mine peer k, rest).
Proof.
  destruct k; unfold kind_bytes.
  - rewrite read_frame_layout; [|done|done|done].
    unfold decoded.
    change (MIMPI_WAITING_TAG =? MIMPI_WAITING_TAG) with true.
    change (payload_bearing MIMPI_WAITING_TAG) with true.
    cbn [orb negb default]. unfold info, id.
    change (Z.to_nat METADATA_SIZE) with 8%nat.
    assert (Hlen : ∀ x y, take 8 (encode_int x ++ encode_int y)
                          = encode_int x ++ encode_int y) by done.
    rewrite !Hlen.
    rewrite take_app_length', drop_app_length' by done.
    rewrite !decode_encode by (unfold MIMPI_ANY_TAG in *; lia). done.
  - by rewrite read_frame_layout.
Qed.

Lemma dispatch_waiting (s : slot) (others : list kind) :
  dispatch (shape_proc base mine peer s others) (call_source mine)
    (kind_frame mine peer KWaiting)
  = Done (shape_proc base mine peer
            (match s with Filter => Verdict | other => other end)
            (others ++ [KWaiting])).
Proof.
  unfold dispatch. cbn [kind_frame].
  change (msg_tag (kind_msg mine peer KWaiting)) with (call_tag peer).
  destruct (Z.eqb_spec (call_tag peer) MIMPI_DEADLOCK_TAG) as [E|_];
    [unfold MIMPI_DEADLOCK_TAG, MIMPI_ANY_TAG in *; lia|].
  change (MIMPI_send_not_received (shape_proc base mine peer s others))
    with (MIMPI_send_not_received base).
  rewrite Hs0. cbn [deref mbind outcome_bind]. rewrite Hsent.
  cbn [MIMPI_others_recv shape_proc set_others_recv].
  rewrite lookup_insert_eq. cbn [deref mbind outcome_bind].
  rewrite insert_insert_eq.
  unfold push_front.
  replace ((kind_msg mine peer <$> others) ++ [kind_msg mine peer KWaiting])
    with (kind_msg mine peer <$> (others ++ [KWaiting]))
    by (by rewrite fmap_app).
  destruct s; cbn [shape_proc set_others_recv set_waiting MIMPI_waiting
                   slot_msg msg_source msg_received MIMPI_DEFAULT_MSG negb andb];
    rewrite ?andb_false_r.
  - destruct (Z.eqb_spec MIMPI_DEFAULT_SOURCE (call_source mine)) as [E|_];
      [unfold MIMPI_DEFAULT_SOURCE in E; lia|]. done.
  - rewrite Z.eqb_refl. done.
  - done.
Qed.

Lemma dispatch_deadlock (others : list kind) :
  dispatch (shape_proc base mine peer Filter others) (call_source mine)
    (kind_frame mine peer KDeadlock)
  = Done (shape_proc base mine peer Verdict (others ++ [KDeadlock])).
Proof.
  unfold dispatch. cbn [kind_frame kind_msg create_message msg_tag].
  rewrite Z.eqb_refl. cbn [MIMPI_others_recv shape_proc set_others_recv].
  rewrite lookup_insert_eq. cbn [deref mbind outcome_bind].
  rewrite insert_insert_eq.
  unfold push_front.
  replace ((kind_msg mine peer <$> others)
           ++ [create_message MIMPI_DEADLOCK_TAG MIMPI_DEFAULT_COUNT
                 (call_source mine) None])
    with (kind_msg mine peer <$> (others ++ [KDeadlock]))
    by (by rewrite fmap_app).
  done.
Qed.

Lemma wait_over_shape (s : slot) (others : list kind) :
  wait_over (shape_proc base mine peer s others) (call_source mine)
  = match s with Verdict => true | _ => false end.
Proof.
  unfold wait_over.
  cbn [MIMPI_waiting MIMPI_already_left shape_proc set_others_recv set_waiting].
  rewrite bool_decide_eq_false_2 by done. by destruct s.
Qed.

Lemma node_step_shape (a : ANode) (t : thread) :
  match anode_step a t with
  | None => node_step mine (shape_node base mine peer a) t = None
  | Some None => True
  | Some (Some (a', ks)) =>
      node_step mine (shape_node base mine peer a) t
      = Some (Done (shape_node base mine peer a', shape_wire mine ks))
  end.
Proof.
  destruct a as [c s others hold inb wk].
  destruct t; unfold anode_step, node_step;
    cbn [a_caller a_slot a_others a_holding a_inbox a_woken
         caller proc holding inbox woken shape_node].
  - destruct c; [|done|done].
    destruct s; [|done|done].
    destruct others as [|[] rest]; [| |done].
    + rewrite enter_alone. done.
    + rewrite enter_notified. done.
  - destruct c; [done| |done].
    rewrite wait_over_shape.
    destruct s; [done|done|].
    destruct others as [|k rest]; [done|].
    rewrite wake_verdict. done.
  - destruct hold as [k|]; cbn [fmap option_fmap option_map]; [done|].
    destruct inb as [|k rest].
    + done.
    + cbn [fmap list_fmap mjoin list_join].
      destruct (kind_bytes peer k ++ mjoin (kind_bytes peer <$> rest))
        as [|b bytes] eqn:E.
      { destruct k; discriminate E. }
      rewrite <- E, read_kind. done.
  - destruct hold as [[]|]; cbn [fmap option_fmap option_map]; [| |done].
    + rewrite dispatch_waiting. cbn [mbind outcome_bind].
      do 3 f_equal. f_equal.
      unfold verdict_cause.
      destruct s; cbn [MIMPI_waiting shape_proc set_others_recv set_waiting
                       slot_msg msg_tag kind_frame MIMPI_DEFAULT_MSG];
        try done.
      destruct (Z.eqb_spec (call_tag mine) MIMPI_DEADLOCK_TAG) as [E|_];
        [unfold MIMPI_DEADLOCK_TAG, MIMPI_ANY_TAG in *; lia|]. done.
    + destruct s; [done| |done].
      rewrite dispatch_deadlock. cbn [mbind outcome_bind].
      do 3 f_equal. f_equal.
      unfold verdict_cause.
      cbn [MIMPI_waiting shape_proc set_others_recv set_waiting slot_msg
           msg_tag kind_frame].
      destruct (Z.eqb_spec (call_tag mine) MIMPI_DEADLOCK_TAG) as [E|_];
        [unfold MIMPI_DEADLOCK_TAG, MIMPI_ANY_TAG in *; lia|]. done.
Qed.

End MutualWaitNode.

(** ** Mutual wait: every execution *)

Section MutualWaitSystem.
Variables (p0 p1 : Process) (calls : recv_call * recv_call).
Hypothesis Hp0 : waits_for p0 calls.1 calls.2.
Hypothesis Hp1 : waits_for p1 calls.2 calls.1.
Hypothesis Ht0 : MIMPI_ANY_TAG ≤ call_tag calls.1 < 2 ^ 31.
Hypothesis Ht1 : MIMPI_ANY_TAG ≤ call_tag calls.2 < 2 ^ 31.
Hypothesis Hc0 : - 2 ^ 31 ≤ call_count calls.1 < 2 ^ 31.
Hypothesis Hc1 : - 2 ^ 31 ≤ call_count calls.2 < 2 ^ 31.

Lemma deliver_shape (base : Process) (mine peer : recv_call) (n : ANode)
    (ks : list kind) :
  call_source peer = MIMPI_World_rank base →
  deliver (shape_node base mine peer n) (shape_wire peer ks)
  = shape_node base mine peer (adeliver n ks).
Proof.
  intros Hrank. unfold deliver, shape_node, adeliver, shape_wire, wire_bytes.
  cbn [proc caller holding inbox woken a_caller a_slot a_others a_holding
       a_inbox a_woken].
  f_equal. rewrite fmap_app, join_app. f_equal.
  change (MIMPI_World_rank (shape_proc base mine peer (a_slot n) (a_others n)))
    with (MIMPI_World_rank base).
  rewrite <- Hrank.
  induction ks as [|k ks IH]; [done|].
  cbn [fmap list_fmap filter list_filter fst].
  destruct (decide (call_source peer = call_source peer)); [|done].
  cbn [fmap list_fmap mjoin list_join snd]. f_equal. apply IH.
Qed.

Lemma step_shape (a : ANode * ANode) (i : bool) (t : thread) :
  match astep a i t with
  | None => step calls (shape_system (p0, p1) calls a) i t = None
  | Some None => True
  | Some (Some a') =>
      step calls (shape_system (p0, p1) calls a) i t
      = Some (Done (shape_system (p0, p1) calls a'))
  end.
Proof.
  destruct Hp0 as (Hdl0 & Hsrc0 & Hself0 & Hrank0 & Hleft0 & _ & _
                   & (q0 & Hq0 & Hfind0) & (s0 & Hs0 & Hsent0)).
  destruct Hp1 as (Hdl1 & Hsrc1 & Hself1 & Hrank1 & Hleft1 & _ & _
                   & (q1 & Hq1 & Hfind1) & (s1 & Hs1 & Hsent1)).
  destruct a as [a0 a1]. unfold astep, step.
  destruct i; cbn [anode node negb fst snd shape_system].
  - pose proof (node_step_shape p1 calls.2 calls.1 q1 s1 Hdl1 Hsrc1 Hself1
                  Hleft1 Hq1 Hfind1 Hs1 Hsent1 (proj1 Ht1) Ht0 Hc0 a1 t) as H.
    destruct (anode_step a1 t) as [[[a' ks]|]|]; [|done|by rewrite H].
    rewrite H. cbn [mbind outcome_bind set_node set_anode fst snd].
    rewrite deliver_shape by done. done.
  - pose proof (node_step_shape p0 calls.1 calls.2 q0 s0 Hdl0 Hsrc0 Hself0
                  Hleft0 Hq0 Hfind0 Hs0 Hsent0 (proj1 Ht0) Ht1 Hc1 a0 t) as H.
    destruct (anode_step a0 t) as [[[a' ks]|]|]; [|done|by rewrite H].
    rewrite H. cbn [mbind outcome_bind set_node set_anode fst snd].
    rewrite deliver_shape by done. done.
Qed.

Lemma omap_step_shape (a : ANode * ANode) (ms : list (bool * thread))
    (l : list (ANode * ANode)) :
  mapM id (omap (fun m : bool * thread => astep a m.1 m.2) ms) = Some l →
  omap (fun m : bool * thread =>
          step calls (shape_system (p0, p1) calls a) m.1 m.2) ms
  = (fun a' => Done (shape_system (p0, p1) calls a')) <$> l.
Proof.
  revert l.
  induction ms as [|[i t] ms IH]; intros l; cbn [omap list_omap fst snd].
  - by intros [= <-].
  - pose proof (step_shape a i t) as H.
    destruct (astep a i t) as [[a'|]|].
    + rewrite H. cbn [mapM]. unfold id at 1. cbn [mbind option_bind].
      destruct (mapM id _) as [l'|] eqn:E; [|done].
      cbn [mbind option_bind mret option_ret]. intros [= <-].
      cbn [fmap list_fmap]. f_equal. by apply IH.
    + done.
    + rewrite H. apply IH.
Qed.

Lemma successors_shape (a : ANode * ANode) (l : list (ANode * ANode)) :
  asuccessors a = Some l →
  successors calls (shape_system (p0, p1) calls a)
  = (fun a' => Done (shape_system (p0, p1) calls a')) <$> l.
Proof. apply omap_step_shape. Qed.

Lemma explore_shape (fuel : nat) :
  ∀ (a : ANode * ANode) (l : list (ANode * ANode)),
    aexplore fuel a = Some l →
    explore calls fuel (shape_system (p0, p1) calls a)
    = Some (shape_system (p0, p1) calls <$> l).
Proof.
  induction fuel as [|fuel IH]; intros a l; cbn [aexplore explore];
    destruct (asuccessors a) as [next|] eqn:Hnext; try done;
    rewrite (successors_shape a next Hnext);
    destruct next as [|a1 next']; try done.
  - by intros [= <-].
  - by intros [= <-].
  - cbn [fmap list_fmap].
    destruct (mapM (aexplore fuel) (a1 :: next')) as [ls|] eqn:Hls; [|done].
    cbn [fmap option_fmap option_map]. intros [= <-].
    assert (mapM (fun o : outcome System =>
                    match o with
                    | Done s' => explore calls fuel s'
                    | Crash => None
                    end)
              (Done (shape_system (p0, p1) calls a1)
               :: ((fun a' => Done (shape_system (p0, p1) calls a')) <$> next'))
            = Some (fmap (shape_system (p0, p1) calls) <$> ls)) as ->.
    { change (Done (shape_system (p0, p1) calls a1)
              :: ((fun a' => Done (shape_system (p0, p1) calls a')) <$> next'))
        with ((fun a' => Done (shape_system (p0, p1) calls a'))
                <$> (a1 :: next')).
      apply mapM_Some. apply mapM_Some in Hls.
      apply Forall2_fmap. eapply Forall2_impl; [exact Hls|].
      intros x y Hxy. apply IH, Hxy. }
    cbn [fmap option_fmap option_map]. f_equal.
    clear. induction ls as [|l ls IHls]; [done|].
    cbn [fmap list_fmap mjoin list_join]. rewrite fmap_app. f_equal. apply IHls.
Qed.

Lemma shape_proc_start (p : Process) (mine peer : recv_call) :
  MIMPI_waiting p = MIMPI_DEFAULT_MSG →
  MIMPI_others_recv p !! call_source mine = Some [] →
  shape_proc p mine peer Idle [] = p.
Proof.
  intros Hw Ho. unfold shape_proc. cbn [fmap list_fmap slot_msg].
  rewrite insert_id by done. destruct p. simpl in Hw. by subst.
Qed.

Lemma start_system_shape :
  start_system p0 p1 = shape_system (p0, p1) calls (ainit_node, ainit_node).
Proof.
  destruct Hp0 as (_ & _ & _ & _ & _ & Hw0 & Ho0 & _).
  destruct Hp1 as (_ & _ & _ & _ & _ & Hw1 & Ho1 & _).
  unfold start_system, start_node, shape_system, shape_node, ainit_node.
  cbn [a_caller a_slot a_others a_holding a_inbox a_woken fst snd].
  by rewrite !shape_proc_start.
Qed.

End MutualWaitSystem.

Lemma moves_all (i : bool) (t : thread) : (i, t) ∈ moves.
Proof. destruct i, t; unfold moves; set_solver. Qed.

Lemma step_successors (calls : recv_call * recv_call) (s : System) (i : bool)
    (t : thread) (o : outcome System) :
  step calls s i t = Some o → o ∈ successors calls s.
Proof.
  intros Hstep. unfold successors. apply list_elem_of_omap.
  exists (i, t). split; [apply moves_all|done].
Qed.

Lemma explore_terminal (calls : recv_call * recv_call) (fuel : nat) (s : System) :
  successors calls s = [] → explore calls fuel s = Some [s].
Proof. intros H. destruct fuel; simpl; by rewrite H. Qed.

Lemma explore_successor (calls : recv_call * recv_call) (fuel : nat)
    (s : System) (finals : list System) (o : outcome System) :
  explore calls fuel s = Some finals → o ∈ successors calls s →
  ∃ fuel' s' finals',
    fuel = S fuel' ∧ o = Done s' ∧ explore calls fuel' s' = Some finals' ∧
    finals' ⊆ finals.
Proof.
  intros Hexp Ho. destruct fuel as [|fuel]; cbn [explore] in Hexp;
    destruct (successors calls s) as [|o1 next] eqn:Hnext;
    try (by apply elem_of_nil in Ho); [done|].
  destruct (mapM _ (o1 :: next)) as [ls|] eqn:Hls; [|done].
  cbn [fmap option_fmap option_map] in Hexp.
  injection Hexp as <-. apply mapM_Some in Hls.
  apply list_elem_of_lookup in Ho as [k Hk].
  destruct (Forall2_lookup_l _ _ _ _ _ Hls Hk) as (finals' & Hk' & Hexp').
  destruct o as [s'|]; [|done].
  exists fuel, s', finals'. repeat split; try done.
  intros x Hx. apply list_elem_of_join. exists finals'. split; [done|].
  eapply list_elem_of_lookup_2; eauto.
Qed.

Lemma explore_run (calls : recv_call * recv_call) (schedule : list (bool * thread)) :
  ∀ (fuel : nat) (s : System) (finals : list System) (o : outcome System),
    explore calls fuel s = Some finals →
    run calls schedule s = Some o →
    ∃ s', o = Done s' ∧ (length schedule ≤ fuel)%nat ∧
          (successors calls s' = [] → s' ∈ finals).
Proof.
  induction schedule as [|[i t] rest IH]; intros fuel s finals o Hexp Hrun;
    simpl in Hrun.
  - injection Hrun as <-. exists s. split; [done|]. split; [simpl; lia|].
    intros Hterm. rewrite (explore_terminal _ _ _ Hterm) in Hexp.
    injection Hexp as <-. apply list_elem_of_here.
  - destruct (step calls s i t) as [o1|] eqn:Hstep; [|done].
    destruct (explore_successor _ _ _ _ _ Hexp (step_successors _ _ _ _ _ Hstep))
      as (fuel' & s1 & finals' & -> & -> & Hexp' & Hsub).
    destruct (IH _ _ _ _ Hexp' Hrun) as (s' & -> & Hlen & Hfin).
    exists s'. split; [done|]. split; [simpl; lia|]. auto.
Qed.

Lemma aexplore_detected :
  match aexplore 8 (ainit_node, ainit_node) with
  | Some l =>
      forallb (fun a => bool_decide (aoutcome_of a ∈ detected)) l
      && forallb (fun o => bool_decide (o ∈ aoutcome_of <$> l)) detected
  | None => false
  end = true.
Proof. vm_compute. reflexivity. Qed.

(** C9 (counterexample). Ranks 0 and 1 of a two-process world, detection
    on, each calling Recv on the other with tag 0 and count 4.  Both callers
    park, each reader then handles the other side's WAITING notification and
    gives its own caller the verdict: both calls return deadlock-detected,
    both woken by their own reader, and no DEADLOCK frame is written. *)
Lemma both_woken_by_own_reader :
  ∃ s,
    run (mutual_calls 100 4 0 200 4 0)
      [(false, CallerEnter); (true, CallerEnter);
       (false, ReaderRead); (false, ReaderDispatch);
       (true, ReaderRead); (true, ReaderDispatch);
       (false, CallerWake); (true, CallerWake)]
      (start_system (MIMPI_Init 2 0 true) (MIMPI_Init 2 1 true))
    = Some (Done s) ∧
    successors (mutual_calls 100 4 0 200 4 0) s = [] ∧
    outcome_of s
    = ((Finished MIMPI_ERROR_DEADLOCK_DETECTED, Some ByWaitingNotification),
       (Finished MIMPI_ERROR_DEADLOCK_DETECTED, Some ByWaitingNotification)).
Proof.
  eexists. split; [vm_compute; reflexivity|].
  split; vm_compute; reflexivity.
Qed.

(** C9 (amended). With deadlock detection enabled, when two processes call
    Recv naming each other with tags at least [ANY_TAG], no queued message
    and no unacknowledged send satisfying either side, every execution of
    the two callers and the two readers ends within 8 steps, no step stops
    a process, and at the end both calls have returned deadlock-detected:
    either both callers parked and each was woken by its own reader on the
    peer's WAITING notification, or one side found the peer's notification
    on entry, sent a DEADLOCK frame and returned without parking, and the
    other was woken by that frame.  Each of these three endings occurs. *)
Theorem mutual_wait_detected (p0 p1 : Process) (calls : recv_call * recv_call)
    (schedule : list (bool * thread)) (o : outcome System) :
  waits_for p0 calls.1 calls.2 → waits_for p1 calls.2 calls.1 →
  MIMPI_ANY_TAG ≤ call_tag calls.1 < 2 ^ 31 →
  MIMPI_ANY_TAG ≤ call_tag calls.2 < 2 ^ 31 →
  - 2 ^ 31 ≤ call_count calls.1 < 2 ^ 31 →
  - 2 ^ 31 ≤ call_count calls.2 < 2 ^ 31 →
  (run calls schedule (start_system p0 p1) = Some o →
   ∃ s, o = Done s ∧ (length schedule ≤ 8)%nat ∧
        (successors calls s = [] → outcome_of s ∈ detected)) ∧
  ∃ finals,
    explore calls 8 (start_system p0 p1) = Some finals ∧
    ∀ e, e ∈ detected → e ∈ outcome_of <$> finals.
Proof.
  intros Hp0 Hp1 Ht0 Ht1 Hc0 Hc1.
  pose proof aexplore_detected as Habs.
  destruct (aexplore 8 (ainit_node, ainit_node)) as [l|] eqn:Hl; [|done].
  apply andb_prop in Habs as [Hall Hex].
  pose proof (explore_shape p0 p1 calls Hp0 Hp1 Ht0 Ht1 Hc0 Hc1 8 _ _ Hl)
    as Hexp.
  rewrite <- (start_system_shape p0 p1 calls Hp0 Hp1) in Hexp.
  assert (Hout : ∀ a, outcome_of (shape_system (p0, p1) calls a)
                      = aoutcome_of a) by (by intros [[] []]).
  split.
  - intros Hrun.
    destruct (explore_run _ _ _ _ _ _ Hexp Hrun) as (s & -> & Hlen & Hfin).
    exists s. split; [done|]. split; [done|]. intros Hterm.
    apply Hfin, list_elem_of_fmap in Hterm as (a & -> & Ha).
    rewrite Hout. rewrite forallb_forall in Hall.
    apply list_elem_of_In, Hall in Ha. by apply bool_decide_eq_true_1 in Ha.
  - eexists. split; [exact Hexp|]. intros e He.
    rewrite forallb_forall in Hex.
    apply list_elem_of_In, Hex, bool_decide_eq_true_1 in He.
    rewrite <- list_fmap_compose.
    erewrite list_fmap_ext; [exact He|]. intros ? a _. apply Hout.
Qed.

Lemma waits_for_Init (rank source : Z) (mine peer : recv_call) :
  0 ≤ source < 2 → source ≠ rank → 0 ≤ rank < 2 →
  call_source mine = source → call_source peer = rank →
  waits_for (MIMPI_Init 2 rank true) mine peer.
Proof.
  intros Hs Hne Hr Hmine Hpeer. unfold waits_for. rewrite Hmine, Hpeer.
  assert (create_lists 2 rank !! source = Some []) as Hlists.
  { assert ((rank = 0 ∧ source = 1) ∨ (rank = 1 ∧ source = 0))
      as [[-> ->]|[-> ->]] by lia; reflexivity. }
  split; [done|]. split; [exact Hs|]. split; [exact Hne|]. split; [done|].
  split; [apply not_elem_of_empty|]. split; [done|].
  split; [exact Hlists|]. split.
  - exists []. split; [exact Hlists|done].
  - exists []. split; done.
Qed.

Lemma mutual_wait_detected_witness :
  ∃ s,
    Some (Done s)
    = run (mutual_calls 100 4 0 200 4 0)
        [(false, CallerEnter); (true, ReaderRead); (true, ReaderDispatch);
         (true, CallerEnter); (false, ReaderRead); (false, ReaderDispatch);
         (false, CallerWake)]
        (start_system (MIMPI_Init 2 0 true) (MIMPI_Init 2 1 true)) ∧
    outcome_of s ∈ detected.
Proof.
  destruct (mutual_wait_detected (MIMPI_Init 2 0 true) (MIMPI_Init 2 1 true)
              (mutual_calls 100 4 0 200 4 0)
              [(false, CallerEnter); (true, ReaderRead); (true, ReaderDispatch);
               (true, CallerEnter); (false, ReaderRead); (false, ReaderDispatch);
               (false, CallerWake)]
              (default Crash
                 (run (mutual_calls 100 4 0 200 4 0)
                    [(false, CallerEnter); (true, ReaderRead);
                     (true, ReaderDispatch); (true, CallerEnter);
                     (false, ReaderRead); (false, ReaderDispatch);
                     (false, CallerWake)]
                    (start_system (MIMPI_Init 2 0 true) (MIMPI_Init 2 1 true)))))
    as [H _].
  - unfold waits_for. simpl. repeat split; try reflexivity; try lia.
    + apply not_elem_of_empty.
    + exists []. split; reflexivity.
    + exists []. split; reflexivity.
  - unfold waits_for. simpl. repeat split; try reflexivity; try lia.
    + apply not_elem_of_empty.
    + exists []. split; reflexivity.
    + exists []. split; reflexivity.
  - simpl. unfold MIMPI_ANY_TAG. lia.
  - simpl. unfold MIMPI_ANY_TAG. lia.
  - simpl. lia.
  - simpl. lia.
  - destruct H as (s & Hs & _ & Hfin); [vm_compute; reflexivity|].
    exists s. split.
    + rewrite <- Hs. vm_compute. reflexivity.
    + apply Hfin. vm_compute in Hs. injection Hs as <-. vm_compute. reflexivity.
Defined.

(** * Point-to-point exchanges *)

Lemma rank_checks_pass (W rank r : Z) :
  0 ≤ r < W → r ≠ rank →
  CHECK_RANK_ERROR W r = false ∧ CHECK_SELF_OP_ERROR rank r = false.
Proof.
  intros Hr Hne. unfold CHECK_RANK_ERROR, CHECK_SELF_OP_ERROR.
  destruct (Z.ltb_spec r 0); [lia|]. destruct (Z.geb_spec r W); [lia|].
  by destruct (Z.eqb_spec r rank).
Qed.

Lemma user_tag_bearing (tag : Z) :
  MIMPI_ANY_TAG ≤ tag →
  payload_bearing tag = true ∧ (tag <=? MIMPI_MAX_TAG) = false ∧
  (tag =? MIMPI_NO_MESSAGE_TAG) = false ∧ (tag =? MIMPI_DEADLOCK_TAG) = false ∧
  (tag >=? MIMPI_ANY_TAG) = true.
Proof.
  unfold MIMPI_ANY_TAG, payload_bearing, MIMPI_MAX_TAG, MIMPI_NO_MESSAGE_TAG,
    MIMPI_DEADLOCK_TAG.
  intros H. destruct (Z.eqb_spec tag (-2)); [lia|].
  destruct (Z.eqb_spec tag (-4)); [lia|]. destruct (Z.leb_spec tag (-7)); [lia|].
  destruct (Z.geb_spec tag (-1)); [done|lia].
Qed.

(** The acknowledgement a successful Recv sends when detection is on. *)
Lemma Recv_epilogue_user (p : Process) (write_ok : Z → bool) (h : heap)
    (data count source tag : Z) (x : list Z) (w : wire) :
  0 ≤ source < MIMPI_World_size p → source ≠ MIMPI_World_rank p →
  MIMPI_ANY_TAG ≤ tag →
  Recv_epilogue p write_ok h data count source tag (Some x) w
  = Done (Returned MIMPI_SUCCESS, p,
          store h data (take (Z.to_nat count) x),
          w ++ (if MIMPI_deadlock_enabled p && write_ok source
                then [(source, frame_layout (info count tag) METADATA_SIZE
                                 MIMPI_RECEIVED_TAG)]
                else [])).
Proof.
  intros Hsrc Hself Htag. unfold Recv_epilogue, Recv_deliver.
  destruct (user_tag_bearing tag Htag) as (_ & -> & -> & _ & ->).
  rewrite andb_true_r. cbn [negb orb].
  destruct (MIMPI_deadlock_enabled p).
  - rewrite Send_internal; [|done|done|done|done].
    destruct (write_ok source); cbn [mbind outcome_bind deref andb]; [done|].
    by rewrite app_nil_r.
  - cbn [mbind outcome_bind deref andb]. by rewrite app_nil_r.
Qed.

Lemma Recv_takes_queued (p : Process) (write_ok : Z → bool) (h : heap)
    (data count source tag : Z) (q : list Message) (i : nat) (m : Message)
    (d : list Z) :
  0 ≤ source < MIMPI_World_size p → source ≠ MIMPI_World_rank p →
  MIMPI_ANY_TAG ≤ tag → 0 ≤ count →
  MIMPI_received_messages p !! source = Some q →
  find_elem_in_list q (create_message tag count source None) = Some i →
  q !! i = Some m → msg_data m = Some d →
  MIMPI_Recv p write_ok h data count source tag
  = Done (Returned MIMPI_SUCCESS,
          set_received_messages p
            (<[source := delete i q]> (MIMPI_received_messages p)),
          store h data (take (Z.to_nat count) d),
          if MIMPI_deadlock_enabled p && write_ok source
          then [(source, frame_layout (info count tag) METADATA_SIZE
                           MIMPI_RECEIVED_TAG)]
          else []).
Proof.
  intros Hsrc Hself Htag Hcount Hq Hfind Hm Hd. unfold MIMPI_Recv.
  destruct (rank_checks_pass _ _ _ Hsrc Hself) as [-> ->].
  rewrite Hq. cbn [deref mbind outcome_bind]. rewrite Hfind, Hm.
  cbn [deref mbind outcome_bind].
  destruct (user_tag_bearing tag Htag) as (-> & _).
  unfold copy_payload. destruct (Z.ltb_spec count 0); [lia|].
  rewrite Hd. cbn [deref mbind outcome_bind].
  rewrite Recv_epilogue_user by done.
  unfold remove_from_list. cbn [app MIMPI_deadlock_enabled set_received_messages].
  by rewrite take_take, Nat.min_id.
Qed.

(** X1. A Recv whose filter matches a queued message that holds the
    [count] bytes asked for returns at once: the first such message is
    taken from the queue, its first [count] bytes are copied into the
    caller's buffer, and with detection on one RECEIVED acknowledgement is
    written to the source. *)
Theorem Recv_queued (p : Process) (write_ok : Z → bool) (h : heap)
    (data count source tag : Z) (q : list Message) (i : nat) (m : Message)
    (d : list Z) :
  0 ≤ source < MIMPI_World_size p → source ≠ MIMPI_World_rank p →
  MIMPI_ANY_TAG ≤ tag → 0 ≤ count →
  MIMPI_received_messages p !! source = Some q →
  find_elem_in_list q (create_message tag count source None) = Some i →
  q !! i = Some m → msg_data m = Some d → (Z.to_nat count ≤ length d)%nat →
  MIMPI_Recv p write_ok h data count source tag
  = Done (Returned MIMPI_SUCCESS,
          set_received_messages p
            (<[source := delete i q]> (MIMPI_received_messages p)),
          store h data (take (Z.to_nat count) d),
          if MIMPI_deadlock_enabled p && write_ok source
          then [(source, frame_layout (info count tag) METADATA_SIZE
                           MIMPI_RECEIVED_TAG)]
          else []).
Proof. intros. by eapply Recv_takes_queued. Qed.

Lemma Recv_queued_witness :
  MIMPI_Recv
    (set_received_messages (MIMPI_Init 2 0 true)
       {[1 := [create_message 5 2 1 (Some [8; 9]);
               create_message 7 2 1 (Some [10; 20])]]})
    (fun _ => true) (fun _ => 0) 100 2 1 7
  = Done (Returned MIMPI_SUCCESS,
          set_received_messages (MIMPI_Init 2 0 true)
            {[1 := [create_message 5 2 1 (Some [8; 9])]]},
          store (fun _ => 0) 100 [10; 20],
          [(1, [8; 0; 0; 0; 250; 255; 255; 255; 2; 0; 0; 0; 7; 0; 0; 0])]).
Proof.
  rewrite (Recv_queued _ _ _ _ _ _ _
             [create_message 5 2 1 (Some [8; 9]);
              create_message 7 2 1 (Some [10; 20])]
             1%nat (create_message 7 2 1 (Some [10; 20])) [10; 20]);
    [reflexivity|simpl; lia|simpl; lia|unfold MIMPI_ANY_TAG; lia|lia
    |reflexivity|reflexivity|reflexivity|reflexivity|simpl; lia].
Defined.

Lemma Send_undetected (p : Process) (write_ok : Z → bool) (data : list Z)
    (count destination tag : Z) :
  0 ≤ destination < MIMPI_World_size p → destination ≠ MIMPI_World_rank p →
  MIMPI_deadlock_enabled p = false → (payload_bearing tag = true → 0 ≤ count) →
  MIMPI_Send p write_ok data count destination tag
  = if write_ok destination
    then Done (MIMPI_SUCCESS, p, [(destination, frame_layout data count tag)])
    else Done (MIMPI_ERROR_REMOTE_FINISHED, p, []).
Proof.
  intros Hd Hself Hoff Hcount. unfold MIMPI_Send, frame_layout.
  destruct (rank_checks_pass _ _ _ Hd Hself) as [-> ->]. rewrite Hoff.
  cbn [andb mbind outcome_bind].
  destruct (payload_bearing tag).
  - destruct (Z.ltb_spec count 0); [lia|]. done.
  - cbn [mbind outcome_bind]. by rewrite app_nil_r.
Qed.

(** The list of notifications from [destination] after a Send of
    [(count, tag)] to it: a first notification announcing a wait for
    exactly that count and tag is removed (mimpi.c:763-767). *)
Lemma Send_detected (p : Process) (write_ok : Z → bool) (data : list Z)
    (count destination tag : Z) (l s : list Message) :
  0 ≤ destination < MIMPI_World_size p → destination ≠ MIMPI_World_rank p →
  MIMPI_deadlock_enabled p = true → MIMPI_ANY_TAG ≤ tag → 0 ≤ count →
  MIMPI_others_recv p !! destination = Some l →
  MIMPI_send_not_received p = Some s →
  MIMPI_Send p write_ok data count destination tag
  = Done (if write_ok destination then MIMPI_SUCCESS
          else MIMPI_ERROR_REMOTE_FINISHED,
          set_send_not_received
            (set_others_recv p
               (<[destination :=
                    match l with
                    | msg :: rest =>
                        if (msg_count msg =? count) && (msg_tag msg =? tag)
                        then rest else l
                    | [] => l
                    end]> (MIMPI_others_recv p)))
            (Some (s ++ [create_message tag count destination None])),
          if write_ok destination
          then [(destination, frame_layout data count tag)] else []).
Proof.
  intros Hd Hself Hon Htag Hcount Hl Hs. unfold MIMPI_Send, frame_layout.
  destruct (rank_checks_pass _ _ _ Hd Hself) as [-> ->]. rewrite Hon.
  destruct (user_tag_bearing tag Htag) as (-> & _ & _ & _ & ->).
  cbn [andb]. rewrite Hl, Hs. cbn [deref mbind outcome_bind].
  destruct (Z.ltb_spec count 0); [lia|]. cbn [mbind outcome_bind].
  unfold push_front, remove_from_list.
  destruct l as [|msg rest]; [by destruct (write_ok destination)|].
  by destruct ((msg_count msg =? count) && (msg_tag msg =? tag)),
       (write_ok destination).
Qed.

Lemma find_elem_in_list_app (q : list Message) (m b : Message) :
  find_elem_in_list q b = None →
  find_elem_in_list (q ++ [m]) b
  = if compare_message m b then Some (length q) else None.
Proof.
  induction q as [|a q IH]; simpl.
  - intros _. by destruct (compare_message m b).
  - destruct (compare_message a b); [done|].
    destruct (find_elem_in_list q b); [done|]. intros _.
    rewrite IH by done. by destruct (compare_message m b).
Qed.

Lemma delete_length_app {A : Type} (q : list A) (m : A) :
  delete (length q) (q ++ [m]) = q.
Proof. induction q as [|a q IH]; simpl; [done|]. by rewrite IH. Qed.

Lemma set_received_messages_id (p : Process) (source : Z) (q : list Message) :
  MIMPI_received_messages p !! source = Some q →
  set_received_messages p (<[source := q]> (MIMPI_received_messages p)) = p.
Proof. intros H. rewrite insert_id by done. by destruct p. Qed.

(** One turn of the reader on a frame carrying a user message
    (mimpi.c:619-628). *)
Lemma turn_user_message (p : Process) (sender : Z) (data : list Z)
    (count tag : Z) (rest : list Z) (q : list Message) :
  0 ≤ count ≤ Z.of_nat (length data) → count < 2 ^ 31 →
  MIMPI_ANY_TAG ≤ tag < 2 ^ 31 →
  MIMPI_received_messages p !! sender = Some q →
  let m := create_message tag count sender (Some (take (Z.to_nat count) data)) in
  handle_channel_turn p sender (frame_layout data count tag ++ rest)
  = Done (let p1 := set_received_messages p
                      (<[sender := q ++ [m]]> (MIMPI_received_messages p)) in
          if compare_message m (MIMPI_waiting p)
          then set_waiting p1
                 {| msg_tag := tag; msg_count := count; msg_source := sender;
                    msg_data := Some (take (Z.to_nat count) data);
                    msg_received := true |}
          else p1, rest).
Proof.
  intros Hcount Hc31 Htag Hq m. unfold handle_channel_turn.
  rewrite read_frame_layout; [|lia|unfold MIMPI_ANY_TAG in Htag; lia|lia].
  destruct (user_tag_bearing tag (proj1 Htag)) as (-> & _ & _ & Hdl & _).
  cbn [mbind outcome_bind]. unfold decoded.
  assert ((tag =? MIMPI_WAITING_TAG) || (tag =? MIMPI_RECEIVED_TAG) = false)
    as ->.
  { unfold MIMPI_ANY_TAG, MIMPI_WAITING_TAG, MIMPI_RECEIVED_TAG in *.
    destruct (Z.eqb_spec tag (-5)); [lia|].
    destruct (Z.eqb_spec tag (-6)); [lia|]. done. }
  unfold dispatch. cbn [msg_tag create_message]. rewrite Hdl, Hq.
  cbn [deref mbind outcome_bind]. unfold push_front.
  cbn [MIMPI_waiting set_received_messages]. fold m.
  by destruct (compare_message m (MIMPI_waiting p)).
Qed.

Lemma Send_user_success (p : Process) (write_ok : Z → bool) (data : list Z)
    (count destination tag : Z) :
  0 ≤ destination < MIMPI_World_size p → destination ≠ MIMPI_World_rank p →
  MIMPI_ANY_TAG ≤ tag → 0 ≤ count → write_ok destination = true →
  (MIMPI_deadlock_enabled p = true →
   is_Some (MIMPI_others_recv p !! destination) ∧
   is_Some (MIMPI_send_not_received p)) →
  ∃ p',
    MIMPI_Send p write_ok data count destination tag
    = Done (MIMPI_SUCCESS, p', [(destination, frame_layout data count tag)]).
Proof.
  intros Hd Hself Htag Hcount Hok Hlists.
  destruct (MIMPI_deadlock_enabled p) eqn:Hdet.
  - destruct (Hlists eq_refl) as [[l Hl] [s Hs]].
    rewrite (Send_detected _ _ _ _ _ _ l s) by done. rewrite Hok. eauto.
  - rewrite Send_undetected by done. rewrite Hok. eauto.
Qed.

Lemma compare_default (m : Message) :
  0 ≤ msg_source m → compare_message m MIMPI_DEFAULT_MSG = false.
Proof.
  intros H. unfold compare_message. cbn [msg_source MIMPI_DEFAULT_MSG].
  unfold MIMPI_DEFAULT_SOURCE. destruct (Z.eqb_spec (msg_source m) (-1)); [lia|done].
Qed.

Lemma compare_filter (a b : Message) :
  msg_source a = msg_source b → msg_count a = msg_count b →
  msg_tag b = msg_tag a ∨ msg_tag b = MIMPI_ANY_TAG →
  compare_message a b = true.
Proof. intros. apply compare_message_iff. intuition. Qed.

(** X2. A message sent with [MIMPI_Send], taken from the channel by the
    receiver's reader and then asked for with [MIMPI_Recv] (same count, same
    tag or [ANY_TAG]) is delivered: the Recv returns success without
    parking, the caller's buffer holds the first [count] bytes that were
    sent, and the receiving process is back in the state it was in before
    the message arrived. *)
Theorem Send_Recv_roundtrip (pA pB : Process) (okA okB : Z → bool) (h : heap)
    (bytes : list Z) (buf count tag rtag : Z) (q : list Message) :
  0 ≤ MIMPI_World_rank pB < MIMPI_World_size pA →
  0 ≤ MIMPI_World_rank pA < MIMPI_World_size pB →
  MIMPI_World_rank pA ≠ MIMPI_World_rank pB →
  okA (MIMPI_World_rank pB) = true →
  0 ≤ count ≤ Z.of_nat (length bytes) → count < 2 ^ 31 → 0 ≤ tag < 2 ^ 31 →
  rtag = tag ∨ rtag = MIMPI_ANY_TAG →
  (MIMPI_deadlock_enabled pA = true →
   is_Some (MIMPI_others_recv pA !! MIMPI_World_rank pB) ∧
   is_Some (MIMPI_send_not_received pA)) →
  MIMPI_waiting pB = MIMPI_DEFAULT_MSG →
  MIMPI_received_messages pB !! MIMPI_World_rank pA = Some q →
  find_elem_in_list q (create_message rtag count (MIMPI_World_rank pA) None)
    = None →
  ∃ pA' f pB' w,
    MIMPI_Send pA okA bytes count (MIMPI_World_rank pB) tag
      = Done (MIMPI_SUCCESS, pA', [(MIMPI_World_rank pB, f)]) ∧
    handle_channel_turn pB (MIMPI_World_rank pA) f = Done (pB', []) ∧
    MIMPI_Recv pB' okB h buf count (MIMPI_World_rank pA) rtag
      = Done (Returned MIMPI_SUCCESS, pB,
              store h buf (take (Z.to_nat count) bytes), w).
Proof.
  intros HB HA Hne Hok Hcount Hc31 Htag Hrtag Hlists Hwait Hq Hfind.
  assert (MIMPI_ANY_TAG ≤ tag) as Htag' by (unfold MIMPI_ANY_TAG; lia).
  assert (MIMPI_ANY_TAG ≤ rtag) as Hrtag'
    by (destruct Hrtag as [->| ->]; unfold MIMPI_ANY_TAG in *; lia).
  destruct (Send_user_success pA okA bytes count _ tag HB ltac:(done) Htag'
              ltac:(lia) Hok Hlists) as [pA' HSend].
  set (m := create_message tag count (MIMPI_World_rank pA)
              (Some (take (Z.to_nat count) bytes))).
  eexists pA', _, _, _. split; [exact HSend|]. split.
  - rewrite <- (app_nil_r (frame_layout bytes count tag)).
    rewrite (turn_user_message _ _ _ _ _ _ q) by (done || lia).
    rewrite Hwait, compare_default by (cbn; lia). reflexivity.
  - erewrite (Recv_takes_queued _ _ _ _ _ _ _ (q ++ [m]) (length q) m);
      cycle 1.
    + done.
    + done.
    + done.
    + lia.
    + cbn [MIMPI_received_messages set_received_messages].
      apply lookup_insert_eq.
    + rewrite find_elem_in_list_app by done.
      by rewrite compare_filter.
    + by rewrite lookup_app_r, Nat.sub_diag.
    + reflexivity.
    + rewrite delete_length_app.
      cbn [MIMPI_received_messages set_received_messages].
      rewrite insert_insert_eq, (insert_id _ _ q) by done.
      rewrite take_take, Nat.min_id. by destruct pB.
Qed.

Lemma Send_Recv_roundtrip_witness :
  ∃ pA' f pB' w,
    MIMPI_Send (MIMPI_Init 2 0 true) (fun _ => true) [10; 20; 30] 3 1 7
      = Done (MIMPI_SUCCESS, pA', [(1, f)]) ∧
    handle_channel_turn (MIMPI_Init 2 1 true) 0 f = Done (pB', []) ∧
    MIMPI_Recv pB' (fun _ => true) (fun _ => 0) 100 3 0 MIMPI_ANY_TAG
      = Done (Returned MIMPI_SUCCESS, MIMPI_Init 2 1 true,
              store (fun _ => 0) 100 [10; 20; 30], w).
Proof.
  apply (Send_Recv_roundtrip (MIMPI_Init 2 0 true) (MIMPI_Init 2 1 true)
           (fun _ => true) (fun _ => true) (fun _ => 0) [10; 20; 30] 100 3 7
           MIMPI_ANY_TAG []); simpl; try lia; try reflexivity.
  intros _. split; eexists; reflexivity.
Defined.

(** The call of [MIMPI_Recv] up to the wait loop when no queued message
    matches and the peer has not left. *)
Lemma Recv_parks_eq (p : Process) (write_ok : Z → bool) (h : heap)
    (data count source tag : Z) (q : list Message) :
  0 ≤ source < MIMPI_World_size p → source ≠ MIMPI_World_rank p →
  source ∉ MIMPI_already_left p →
  MIMPI_received_messages p !! source = Some q →
  find_elem_in_list q (create_message tag count source None) = None →
  (MIMPI_deadlock_enabled p = true → MIMPI_ANY_TAG ≤ tag →
   write_ok source = true ∧
   ∃ l, MIMPI_others_recv p !! source = Some l ∧ head_user_tag (Some l) = false) →
  MIMPI_Recv p write_ok h data count source tag
  = Done (Parked,
          set_waiting p
            {| msg_tag := tag; msg_count := count; msg_source := source;
               msg_data := None; msg_received := false |},
          h,
          if MIMPI_deadlock_enabled p && (tag >=? MIMPI_ANY_TAG)
          then [(source, frame_layout (info count tag) METADATA_SIZE
                           MIMPI_WAITING_TAG)]
          else []).
Proof.
  intros Hsrc Hself Hleft Hq Hfind Hdet. unfold MIMPI_Recv.
  destruct (rank_checks_pass _ _ _ Hsrc Hself) as [-> ->].
  rewrite Hq. cbn [deref mbind outcome_bind]. rewrite Hfind.
  cbv zeta. cbn [MIMPI_deadlock_enabled set_waiting MIMPI_others_recv].
  destruct (MIMPI_deadlock_enabled p && (tag >=? MIMPI_ANY_TAG)) eqn:E.
  - apply andb_prop in E as [Eon Etag].
    destruct (Hdet Eon) as (Hok & l & Hl & Hhead);
      [by destruct (Z.geb_spec tag MIMPI_ANY_TAG)|].
    rewrite Hl. cbn [deref mbind outcome_bind].
    rewrite Send_internal; [|done|done|done|done]. rewrite Hok.
    cbn [mbind outcome_bind].
    assert (MIMPI_SUCCESS ≠ MIMPI_ERROR_REMOTE_FINISHED) as Hrc by done.
    destruct l as [|msg l'].
    + destruct (decide (MIMPI_SUCCESS = MIMPI_ERROR_REMOTE_FINISHED)); [done|].
      cbn [mbind outcome_bind MIMPI_waiting set_waiting msg_received
             MIMPI_already_left negb andb].
      by rewrite bool_decide_eq_false_2.
    + cbn [head_user_tag] in Hhead. rewrite Hhead.
      destruct (decide (MIMPI_SUCCESS = MIMPI_ERROR_REMOTE_FINISHED)); [done|].
      cbn [mbind outcome_bind MIMPI_waiting set_waiting msg_received
             MIMPI_already_left negb andb].
      by rewrite bool_decide_eq_false_2.
  - cbn [mbind outcome_bind MIMPI_waiting set_waiting msg_received
           MIMPI_already_left negb andb].
    by rewrite bool_decide_eq_false_2.
Qed.

(** [MIMPI_Recv] after the wait loop when a message matching the filter
    has been queued and handed to the waiting slot. *)
Lemma Recv_after_wait_delivered (p : Process) (write_ok : Z → bool) (h : heap)
    (data count source tag : Z) (w : wire) (q : list Message) (i : nat)
    (m : Message) (d : list Z) :
  0 ≤ source < MIMPI_World_size p → source ≠ MIMPI_World_rank p →
  MIMPI_ANY_TAG ≤ tag → 0 ≤ count →
  msg_tag (MIMPI_waiting p) ≠ MIMPI_DEADLOCK_TAG →
  msg_received (MIMPI_waiting p) = true →
  MIMPI_received_messages p !! source = Some q →
  find_elem_in_list q (create_message tag count source None) = Some i →
  q !! i = Some m → msg_data m = Some d →
  Recv_after_wait p write_ok h data count source tag w
  = Done (Returned MIMPI_SUCCESS,
          set_waiting
            (set_received_messages p
               (<[source := delete i q]> (MIMPI_received_messages p)))
            MIMPI_DEFAULT_MSG,
          store h data (take (Z.to_nat count) d),
          w ++ (if MIMPI_deadlock_enabled p && write_ok source
                then [(source, frame_layout (info count tag) METADATA_SIZE
                                 MIMPI_RECEIVED_TAG)]
                else [])).
Proof.
  intros Hsrc Hself Htag Hcount Hwt Hwr Hq Hfind Hm Hd. unfold Recv_after_wait.
  destruct (Z.eqb_spec (msg_tag (MIMPI_waiting p)) MIMPI_DEADLOCK_TAG); [done|].
  rewrite Hwr, andb_false_r, Hq. cbn [deref mbind outcome_bind].
  rewrite Hfind, Hm. cbn [deref mbind outcome_bind].
  destruct (user_tag_bearing tag Htag) as (_ & _ & -> & _).
  cbn [negb]. unfold copy_payload. destruct (Z.ltb_spec count 0); [lia|].
  rewrite Hd. cbn [deref mbind outcome_bind].
  rewrite Recv_epilogue_user by done.
  unfold remove_from_list.
  by rewrite take_take, Nat.min_id.
Qed.

(** X3. A Recv that finds nothing to receive parks; when the message it
    waits for is then sent and handled by the reader, the wait is over and
    the call completes: it returns success, the caller's buffer holds the
    first [count] bytes that were sent, and the process is back in the state
    it was in before the call. *)
Theorem parked_Recv_completed (pA pB : Process) (okA okB : Z → bool)
    (h : heap) (bytes : list Z) (buf count tag rtag : Z) (q : list Message) :
  0 ≤ MIMPI_World_rank pB < MIMPI_World_size pA →
  0 ≤ MIMPI_World_rank pA < MIMPI_World_size pB →
  MIMPI_World_rank pA ≠ MIMPI_World_rank pB →
  okA (MIMPI_World_rank pB) = true → okB (MIMPI_World_rank pA) = true →
  0 ≤ count ≤ Z.of_nat (length bytes) → count < 2 ^ 31 → 0 ≤ tag < 2 ^ 31 →
  rtag = tag ∨ rtag = MIMPI_ANY_TAG →
  (MIMPI_deadlock_enabled pA = true →
   is_Some (MIMPI_others_recv pA !! MIMPI_World_rank pB) ∧
   is_Some (MIMPI_send_not_received pA)) →
  (MIMPI_deadlock_enabled pB = true →
   ∃ l, MIMPI_others_recv pB !! MIMPI_World_rank pA = Some l ∧
        head_user_tag (Some l) = false) →
  MIMPI_World_rank pA ∉ MIMPI_already_left pB →
  MIMPI_waiting pB = MIMPI_DEFAULT_MSG →
  MIMPI_received_messages pB !! MIMPI_World_rank pA = Some q →
  find_elem_in_list q (create_message rtag count (MIMPI_World_rank pA) None)
    = None →
  ∃ p1 w1 pA' f p2 w2,
    MIMPI_Recv pB okB h buf count (MIMPI_World_rank pA) rtag
      = Done (Parked, p1, h, w1) ∧
    wait_over p1 (MIMPI_World_rank pA) = false ∧
    MIMPI_Send pA okA bytes count (MIMPI_World_rank pB) tag
      = Done (MIMPI_SUCCESS, pA', [(MIMPI_World_rank pB, f)]) ∧
    handle_channel_turn p1 (MIMPI_World_rank pA) f = Done (p2, []) ∧
    wait_over p2 (MIMPI_World_rank pA) = true ∧
    Recv_after_wait p2 okB h buf count (MIMPI_World_rank pA) rtag w1
      = Done (Returned MIMPI_SUCCESS, pB,
              store h buf (take (Z.to_nat count) bytes), w2).
Proof.
  intros HB HA Hne HokA HokB Hcount Hc31 Htag Hrtag HlA HlB Hleft Hwait Hq Hfind.
  assert (MIMPI_ANY_TAG ≤ tag) as Htag' by (unfold MIMPI_ANY_TAG; lia).
  assert (MIMPI_ANY_TAG ≤ rtag) as Hrtag'
    by (destruct Hrtag as [->| ->]; unfold MIMPI_ANY_TAG in *; lia).
  destruct (Send_user_success pA okA bytes count _ tag HB ltac:(done) Htag'
              ltac:(lia) HokA HlA) as [pA' HSend].
  set (m := create_message tag count (MIMPI_World_rank pA)
              (Some (take (Z.to_nat count) bytes))).
  eexists _, _, pA', _, _, _.
  split; [apply (Recv_parks_eq _ _ _ _ _ _ _ q); auto|].
  split.
  { unfold wait_over. cbn [MIMPI_waiting set_waiting msg_received
                              MIMPI_already_left orb].
    by rewrite bool_decide_eq_false_2. }
  split; [exact HSend|]. split.
  { rewrite <- (app_nil_r (frame_layout bytes count tag)).
    rewrite (turn_user_message _ _ _ _ _ _ q) by (done || lia).
    cbn [MIMPI_waiting set_waiting].
    rewrite compare_filter by (done || (cbn; intuition)). reflexivity. }
  split; [done|].
  erewrite (Recv_after_wait_delivered _ _ _ _ _ _ _ _ (q ++ [m]) (length q) m);
    cycle 1.
  - done.
  - done.
  - done.
  - lia.
  - cbn. unfold MIMPI_DEADLOCK_TAG. lia.
  - done.
  - cbn [MIMPI_received_messages set_received_messages set_waiting].
    apply lookup_insert_eq.
  - rewrite find_elem_in_list_app by done.
    by rewrite compare_filter.
  - by rewrite lookup_app_r, Nat.sub_diag.
  - reflexivity.
  - rewrite delete_length_app.
    cbn [MIMPI_received_messages set_received_messages set_waiting].
    rewrite insert_insert_eq, (insert_id _ _ q) by done.
    rewrite take_take, Nat.min_id, <- Hwait. by destruct pB.
Qed.

Lemma parked_Recv_completed_witness :
  ∃ p1 w1 pA' f p2 w2,
    MIMPI_Recv (MIMPI_Init 2 1 true) (fun _ => true) (fun _ => 0) 100 3 0 7
      = Done (Parked, p1, (fun _ => 0), w1) ∧
    wait_over p1 0 = false ∧
    MIMPI_Send (MIMPI_Init 2 0 true) (fun _ => true) [10; 20; 30] 3 1 7
      = Done (MIMPI_SUCCESS, pA', [(1, f)]) ∧
    handle_channel_turn p1 0 f = Done (p2, []) ∧
    wait_over p2 0 = true ∧
    Recv_after_wait p2 (fun _ => true) (fun _ => 0) 100 3 0 7 w1
      = Done (Returned MIMPI_SUCCESS, MIMPI_Init 2 1 true,
              store (fun _ => 0) 100 [10; 20; 30], w2).
Proof.
  apply (parked_Recv_completed (MIMPI_Init 2 0 true) (MIMPI_Init 2 1 true)
           (fun _ => true) (fun _ => true) (fun _ => 0) [10; 20; 30] 100 3 7
           7 []); simpl; try lia; try reflexivity.
  - intros _. split; eexists; reflexivity.
  - intros _. exists []. split; reflexivity.
  - apply not_elem_of_empty.
Defined.

(** What the reader makes of a WAITING or RECEIVED frame: a message
    carrying the count and the tag of the announced or acknowledged call
    (mimpi.c:573-585). *)
Lemma read_notification (sender count tag kind_tag : Z) (rest : list Z) :
  - 2 ^ 31 ≤ count < 2 ^ 31 → - 2 ^ 31 ≤ tag < 2 ^ 31 →
  kind_tag = MIMPI_WAITING_TAG ∨ kind_tag = MIMPI_RECEIVED_TAG →
  read_frame sender
    (frame_layout (info count tag) METADATA_SIZE kind_tag ++ rest)
  = Done (Frame (kind_tag =? MIMPI_WAITING_TAG)
            (negb (kind_tag =? MIMPI_WAITING_TAG))
            (create_message tag count sender (Some (info count tag))),
          rest).
Proof.
  intros Hcount Htag Hkind.
  rewrite read_frame_layout; [|done|destruct Hkind as [->| ->]; done|done].
  unfold decoded.
  assert (payload_bearing kind_tag = true) as ->
    by (by destruct Hkind as [->| ->]).
  assert ((kind_tag =? MIMPI_WAITING_TAG) || (kind_tag =? MIMPI_RECEIVED_TAG)
          = true) as -> by (by destruct Hkind as [->| ->]).
  assert (take (Z.to_nat METADATA_SIZE) (info count tag) = info count tag)
    as -> by done.
  cbn [default]. unfold id, info at 1 2.
  rewrite take_app_length', drop_app_length' by done.
  by rewrite !decode_encode.
Qed.

(** X4. Detection on: a Recv with nothing to receive writes one WAITING
    frame before it parks, and the reader of the process it names turns that
    frame into a notification carrying the count and the tag of the call;
    with detection off, or for a tag below [ANY_TAG], the call parks without
    writing anything.  The caller's buffer is left alone and the waiting
    slot holds the filter. *)
Theorem Recv_announces_wait (p : Process) (write_ok : Z → bool) (h : heap)
    (data count source tag : Z) (q : list Message) (rest : list Z) :
  0 ≤ source < MIMPI_World_size p → source ≠ MIMPI_World_rank p →
  - 2 ^ 31 ≤ count < 2 ^ 31 → - 2 ^ 31 ≤ tag < 2 ^ 31 →
  source ∉ MIMPI_already_left p →
  MIMPI_received_messages p !! source = Some q →
  find_elem_in_list q (create_message tag count source None) = None →
  (MIMPI_deadlock_enabled p = true → MIMPI_ANY_TAG ≤ tag →
   write_ok source = true ∧
   ∃ l, MIMPI_others_recv p !! source = Some l ∧ head_user_tag (Some l) = false) →
  ∃ w,
    MIMPI_Recv p write_ok h data count source tag
    = Done (Parked,
            set_waiting p
              {| msg_tag := tag; msg_count := count; msg_source := source;
                 msg_data := None; msg_received := false |},
            h, w) ∧
    (MIMPI_deadlock_enabled p = false ∨ tag < MIMPI_ANY_TAG → w = []) ∧
    (MIMPI_deadlock_enabled p = true → MIMPI_ANY_TAG ≤ tag →
     ∃ f, w = [(source, f)] ∧
          read_frame (MIMPI_World_rank p) (f ++ rest)
          = Done (Frame true false
                    (create_message tag count (MIMPI_World_rank p)
                       (Some (info count tag))),
                  rest)).
Proof.
  intros Hsrc Hself Hcount Htag Hleft Hq Hfind Hdet.
  eexists. split; [by apply (Recv_parks_eq _ _ _ _ _ _ _ q)|]. split.
  - intros [-> | Hlt]; [done|].
    destruct (Z.geb_spec tag MIMPI_ANY_TAG); [lia|]. by rewrite andb_false_r.
  - intros -> Hge. destruct (Z.geb_spec tag MIMPI_ANY_TAG); [|lia].
    eexists. split; [reflexivity|].
    rewrite (read_notification _ _ _ MIMPI_WAITING_TAG) by auto. done.
Qed.

Lemma Recv_announces_wait_witness :
  ∃ w,
    MIMPI_Recv (MIMPI_Init 2 1 true) (fun _ => true) (fun _ => 0) 100 3 0 7
    = Done (Parked,
            set_waiting (MIMPI_Init 2 1 true)
              {| msg_tag := 7; msg_count := 3; msg_source := 0;
                 msg_data := None; msg_received := false |},
            (fun _ => 0), w) ∧
    w = [(0, [8; 0; 0; 0; 251; 255; 255; 255; 3; 0; 0; 0; 7; 0; 0; 0])].
Proof.
  destruct (Recv_announces_wait (MIMPI_Init 2 1 true) (fun _ => true)
              (fun _ => 0) 100 3 0 7 [] []) as (w & Hw & _ & Hon);
    try (simpl; lia); try reflexivity.
  - apply not_elem_of_empty.
  - intros _ _. split; [reflexivity|]. exists []. split; reflexivity.
  - exists w. split; [exact Hw|].
    vm_compute in Hw. by injection Hw as <-.
Defined.

Lemma turn_end_of_stream (p : Process) (sender : Z) (stream : list Z) :
  (length stream < 8)%nat →
  handle_channel_turn p sender stream
  = Done (set_already_left p ({[sender]} ∪ MIMPI_already_left p), []).
Proof.
  intros Hlen. unfold handle_channel_turn, read_frame, read_from_channel.
  change (Z.to_nat METADATA_SIZE) with 8%nat.
  destruct (Nat.leb_spec 8 (length stream)); [lia|]. done.
Qed.

(** X5. A caller parked in Recv whose peer closes its channel (the reader
    finds fewer bytes than a header before the end of the stream) is woken
    and the call returns remote-finished: the caller's buffer is untouched,
    nothing more is written, and the process is in the state it was in
    before the call, with the peer recorded as having left. *)
Theorem parked_Recv_peer_leaves (p : Process) (write_ok : Z → bool) (h : heap)
    (data count source tag : Z) (q : list Message) (stream : list Z) :
  0 ≤ source < MIMPI_World_size p → source ≠ MIMPI_World_rank p →
  tag ≠ MIMPI_DEADLOCK_TAG →
  source ∉ MIMPI_already_left p → MIMPI_waiting p = MIMPI_DEFAULT_MSG →
  MIMPI_received_messages p !! source = Some q →
  find_elem_in_list q (create_message tag count source None) = None →
  (MIMPI_deadlock_enabled p = true → MIMPI_ANY_TAG ≤ tag →
   write_ok source = true ∧
   ∃ l, MIMPI_others_recv p !! source = Some l ∧ head_user_tag (Some l) = false) →
  (length stream < 8)%nat →
  ∃ p1 w p2,
    MIMPI_Recv p write_ok h data count source tag = Done (Parked, p1, h, w) ∧
    handle_channel_turn p1 source stream = Done (p2, []) ∧
    wait_over p2 source = true ∧
    Recv_after_wait p2 write_ok h data count source tag w
    = Done (Returned MIMPI_ERROR_REMOTE_FINISHED,
            set_already_left p ({[source]} ∪ MIMPI_already_left p), h, w).
Proof.
  intros Hsrc Hself Htag Hleft Hwait Hq Hfind Hdet Hlen.
  eexists _, _, _. split; [by apply (Recv_parks_eq _ _ _ _ _ _ _ q)|].
  split; [by apply turn_end_of_stream|]. split.
  - unfold wait_over. cbn [MIMPI_already_left set_already_left].
    rewrite bool_decide_eq_true_2
      by (apply elem_of_union_l; by apply elem_of_singleton).
    apply orb_true_r.
  - rewrite closed_peer_announce;
      [|cbn; apply elem_of_union_l; by apply elem_of_singleton
       |done|done|done].
    rewrite <- Hwait. by destruct p.
Qed.

Lemma parked_Recv_peer_leaves_witness :
  ∃ p1 w p2,
    MIMPI_Recv (MIMPI_Init 2 1 false) (fun _ => true) (fun _ => 0) 100 3 0 7
      = Done (Parked, p1, (fun _ => 0), w) ∧
    handle_channel_turn p1 0 [3; 0; 0] = Done (p2, []) ∧
    wait_over p2 0 = true ∧
    Recv_after_wait p2 (fun _ => true) (fun _ => 0) 100 3 0 7 w
    = Done (Returned MIMPI_ERROR_REMOTE_FINISHED,
            set_already_left (MIMPI_Init 2 1 false) ({[0]} ∪ ∅),
            (fun _ => 0), w).
Proof.
  apply (parked_Recv_peer_leaves (MIMPI_Init 2 1 false) (fun _ => true)
           (fun _ => 0) 100 3 0 7 [] [3; 0; 0]);
    simpl; try lia; try reflexivity; try done.
Defined.

Lemma find_elem_in_list_skip (q l : list Message) (b : Message) :
  find_elem_in_list q b = None →
  find_elem_in_list (q ++ l) b
  = (fun i => (length q + i)%nat) <$> find_elem_in_list l b.
Proof.
  induction q as [|a q IH]; simpl.
  - intros _. by destruct (find_elem_in_list l b).
  - destruct (compare_message a b); [done|].
    destruct (find_elem_in_list q b); [done|]. intros _.
    rewrite IH by done. by destruct (find_elem_in_list l b).
Qed.

Lemma delete_length_middle {A : Type} (q l : list A) (m : A) :
  delete (length q) (q ++ m :: l) = q ++ l.
Proof. induction q as [|a q IH]; simpl; [done|]. by rewrite IH. Qed.

(** X6. Two frames written one after the other by the same sender with
    the same count and tag are taken from the stream one per turn of the
    reader, and two Recv calls for that count and tag (or [ANY_TAG]) return
    their payloads in the order in which they were written. *)
Theorem Recv_in_order (p : Process) (write_ok : Z → bool) (h h' : heap)
    (b1 b2 : list Z) (buf buf' count tag rtag sender : Z) (q : list Message) :
  0 ≤ sender < MIMPI_World_size p → sender ≠ MIMPI_World_rank p →
  0 ≤ count ≤ Z.of_nat (length b1) → count ≤ Z.of_nat (length b2) →
  count < 2 ^ 31 → 0 ≤ tag < 2 ^ 31 →
  rtag = tag ∨ rtag = MIMPI_ANY_TAG →
  MIMPI_waiting p = MIMPI_DEFAULT_MSG →
  MIMPI_received_messages p !! sender = Some q →
  find_elem_in_list q (create_message rtag count sender None) = None →
  ∃ p1 p2 p3 w1 w2,
    handle_channel_turn p sender
      (frame_layout b1 count tag ++ frame_layout b2 count tag)
      = Done (p1, frame_layout b2 count tag) ∧
    handle_channel_turn p1 sender (frame_layout b2 count tag)
      = Done (p2, []) ∧
    MIMPI_Recv p2 write_ok h buf count sender rtag
      = Done (Returned MIMPI_SUCCESS, p3,
              store h buf (take (Z.to_nat count) b1), w1) ∧
    MIMPI_Recv p3 write_ok h' buf' count sender rtag
      = Done (Returned MIMPI_SUCCESS, p,
              store h' buf' (take (Z.to_nat count) b2), w2).
Proof.
  intros Hs Hself Hc1 Hc2 Hc31 Htag Hrtag Hwait Hq Hfind.
  assert (MIMPI_ANY_TAG ≤ tag) as Htag' by (unfold MIMPI_ANY_TAG; lia).
  assert (MIMPI_ANY_TAG ≤ rtag) as Hrtag'
    by (destruct Hrtag as [->| ->]; unfold MIMPI_ANY_TAG in *; lia).
  set (m1 := create_message tag count sender (Some (take (Z.to_nat count) b1))).
  set (m2 := create_message tag count sender (Some (take (Z.to_nat count) b2))).
  eexists _, _, _, _, _. split.
  { rewrite (turn_user_message _ _ _ _ _ _ q) by (done || lia).
    rewrite Hwait, compare_default by (cbn; lia). reflexivity. }
  split.
  { rewrite <- (app_nil_r (frame_layout b2 count tag)).
    rewrite (turn_user_message _ _ _ _ _ _ (q ++ [m1]));
      [|lia|done|lia|apply lookup_insert_eq].
    cbn [MIMPI_waiting set_received_messages].
    rewrite Hwait, compare_default by (cbn; lia). reflexivity. }
  cbn [MIMPI_received_messages set_received_messages].
  rewrite insert_insert_eq, <- app_assoc. cbn [app]. fold m1 m2. split.
  { erewrite (Recv_takes_queued _ _ _ _ _ _ _ (q ++ [m1; m2]) (length q)
                m1); cycle 1.
    - done.
    - done.
    - done.
    - lia.
    - apply lookup_insert_eq.
    - rewrite find_elem_in_list_skip by done. cbn [find_elem_in_list].
      rewrite compare_filter by done. cbn. by rewrite Nat.add_0_r.
    - by rewrite lookup_app_r, Nat.sub_diag.
    - reflexivity.
    - rewrite delete_length_middle, take_take, Nat.min_id.
      cbn [MIMPI_received_messages set_received_messages].
      rewrite insert_insert_eq. reflexivity. }
  erewrite (Recv_takes_queued _ _ _ _ _ _ _ (q ++ [m2]) (length q) m2);
    cycle 1.
  - done.
  - done.
  - done.
  - lia.
  - apply lookup_insert_eq.
  - rewrite find_elem_in_list_app by done. by rewrite compare_filter.
  - by rewrite lookup_app_r, Nat.sub_diag.
  - reflexivity.
  - rewrite delete_length_app, take_take, Nat.min_id.
    cbn [MIMPI_received_messages set_received_messages].
    rewrite insert_insert_eq, (insert_id _ _ q) by done. by destruct p.
Qed.

Lemma Recv_in_order_witness :
  ∃ p1 p2 p3 w1 w2,
    handle_channel_turn (MIMPI_Init 2 1 false) 0
      (frame_layout [1; 2] 2 7 ++ frame_layout [3; 4] 2 7)
      = Done (p1, frame_layout [3; 4] 2 7) ∧
    handle_channel_turn p1 0 (frame_layout [3; 4] 2 7) = Done (p2, []) ∧
    MIMPI_Recv p2 (fun _ => true) (fun _ => 0) 100 2 0 7
      = Done (Returned MIMPI_SUCCESS, p3, store (fun _ => 0) 100 [1; 2], w1) ∧
    MIMPI_Recv p3 (fun _ => true) (fun _ => 0) 200 2 0 7
      = Done (Returned MIMPI_SUCCESS, MIMPI_Init 2 1 false,
              store (fun _ => 0) 200 [3; 4], w2).
Proof.
  apply (Recv_in_order (MIMPI_Init 2 1 false) (fun _ => true) (fun _ => 0)
           (fun _ => 0) [1; 2] [3; 4] 100 200 2 7 7 0 []);
    simpl; try lia; try reflexivity.
Defined.

Lemma compare_message_filter_ext (a b b' : Message) :
  msg_tag b = msg_tag b' → msg_count b = msg_count b' →
  msg_source b = msg_source b' →
  compare_message a b = compare_message a b'.
Proof. unfold compare_message. by intros -> -> ->. Qed.

Lemma find_elem_in_list_filter_ext (l : list Message) (b b' : Message) :
  msg_tag b = msg_tag b' → msg_count b = msg_count b' →
  msg_source b = msg_source b' →
  find_elem_in_list l b = find_elem_in_list l b'.
Proof.
  intros Ht Hc Hs. induction l as [|a l IH]; simpl; [done|].
  by rewrite (compare_message_filter_ext a b b'), IH.
Qed.

Lemma find_elem_in_list_app_l (q l : list Message) (b : Message) (i : nat) :
  find_elem_in_list q b = Some i → find_elem_in_list (q ++ l) b = Some i.
Proof.
  revert i. induction q as [|a q IH]; simpl; [done|]. intros i.
  destruct (compare_message a b); [done|].
  destruct (find_elem_in_list q b) as [j|]; [|done].
  intros [= <-]. by rewrite (IH j).
Qed.

Lemma find_elem_in_list_lt (l : list Message) (b : Message) (i : nat) :
  find_elem_in_list l b = Some i → (i < length l)%nat.
Proof.
  intros H. apply find_elem_in_list_Some in H as [(a & Ha & _) _].
  by apply lookup_lt_Some in Ha.
Qed.

(** X7. Detection on: a Send with a tag at or above [ANY_TAG] records the
    message as not yet received, and the acknowledgement that the
    receiver's Recv writes (a RECEIVED frame with the count and the tag of
    that Recv) makes the sender's reader remove the first matching record:
    the number of unacknowledged sends is back to what it was, and when no
    older record matches, so is the list itself.  The rest of the sender's
    state is not touched by the acknowledgement. *)
Theorem Send_acknowledged (p : Process) (write_ok : Z → bool) (bytes : list Z)
    (count destination tag rtag : Z) (l s : list Message) :
  0 ≤ destination < MIMPI_World_size p → destination ≠ MIMPI_World_rank p →
  MIMPI_deadlock_enabled p = true →
  MIMPI_ANY_TAG ≤ tag < 2 ^ 31 → 0 ≤ count < 2 ^ 31 →
  rtag = tag ∨ rtag = MIMPI_ANY_TAG →
  MIMPI_others_recv p !! destination = Some l →
  MIMPI_send_not_received p = Some s →
  ∃ rc p' w s',
    MIMPI_Send p write_ok bytes count destination tag = Done (rc, p', w) ∧
    MIMPI_send_not_received p'
      = Some (s ++ [create_message tag count destination None]) ∧
    handle_channel_turn p' destination
      (frame_layout (info count rtag) METADATA_SIZE MIMPI_RECEIVED_TAG)
      = Done (set_send_not_received p' (Some s'), []) ∧
    length s' = length s ∧
    (find_elem_in_list s (create_message rtag count destination None) = None →
     s' = s).
Proof.
  intros Hd Hself Hon Htag Hcount Hrtag Hl Hs.
  rewrite (Send_detected _ _ _ _ _ _ l s) by (done || lia).
  set (e := create_message tag count destination None).
  set (b := create_message rtag count destination (Some (info count rtag))).
  assert (- 2 ^ 31 ≤ rtag < 2 ^ 31) as Hr31
    by (destruct Hrtag as [->| ->]; unfold MIMPI_ANY_TAG in *; lia).
  assert (∃ i, find_elem_in_list (s ++ [e]) b = Some i ∧
               (i < length (s ++ [e]))%nat ∧
               (find_elem_in_list s (create_message rtag count destination None)
                = None → i = length s)) as (i & Hi & Hlt & Hlast).
  { rewrite (find_elem_in_list_filter_ext s _ b) by done.
    destruct (find_elem_in_list s b) as [i|] eqn:Hfs.
    - exists i. split; [by apply find_elem_in_list_app_l|].
      split; [|done]. apply find_elem_in_list_lt in Hfs.
      rewrite length_app. lia.
    - exists (length s). split; [|split; [|done]].
      + rewrite find_elem_in_list_app by done.
        rewrite compare_filter; [done|done|done|].
        cbn. destruct Hrtag as [->| ->]; auto.
      + rewrite length_app. simpl. lia. }
  eexists _, _, _, (delete i (s ++ [e])). split; [reflexivity|].
  split; [reflexivity|]. split; [|split].
  - unfold handle_channel_turn.
    rewrite <- (app_nil_r (frame_layout _ _ _)).
    rewrite (read_notification _ _ _ MIMPI_RECEIVED_TAG) by (auto || lia).
    cbn [mbind outcome_bind]. unfold dispatch.
    change (MIMPI_RECEIVED_TAG =? MIMPI_WAITING_TAG) with false.
    cbn [negb msg_tag create_message].
    destruct (Z.eqb_spec rtag MIMPI_DEADLOCK_TAG) as [E|_].
    { unfold MIMPI_DEADLOCK_TAG, MIMPI_ANY_TAG in *.
      destruct Hrtag as [->| ->]; lia. }
    cbn [MIMPI_send_not_received set_send_not_received deref mbind
           outcome_bind].
    fold b e. rewrite Hi. reflexivity.
  - rewrite length_delete by (by apply lookup_lt_is_Some_2).
    rewrite length_app. simpl. lia.
  - intros Hnone. rewrite (Hlast Hnone). apply delete_length_app.
Qed.

Lemma Send_acknowledged_witness :
  ∃ rc p' w s',
    MIMPI_Send (MIMPI_Init 2 0 true) (fun _ => true) [10; 20; 30] 3 1 7
      = Done (rc, p', w) ∧
    MIMPI_send_not_received p' = Some ([] ++ [create_message 7 3 1 None]) ∧
    handle_channel_turn p' 1
      (frame_layout (info 3 MIMPI_ANY_TAG) METADATA_SIZE MIMPI_RECEIVED_TAG)
      = Done (set_send_not_received p' (Some s'), []) ∧
    length s' = 0%nat ∧
    (find_elem_in_list [] (create_message MIMPI_ANY_TAG 3 1 None) = None →
     s' = []).
Proof.
  apply (Send_acknowledged (MIMPI_Init 2 0 true) (fun _ => true) [10; 20; 30]
           3 1 7 MIMPI_ANY_TAG [] []);
    simpl; try lia; try reflexivity.
  unfold MIMPI_ANY_TAG. lia.
Defined.

(** X8. Detection on, no Recv naming the peer in progress: a Send of
    [(count, tag)] to a peer and the arrival of that peer's notification
    that it waits for exactly that count and tag can happen in either
    order; both orders write the same frame and leave the process in the
    same state, in which no notification from the peer is pending, so that
    the wait the message satisfies is never counted as a deadlock. *)
Theorem Send_notification_commute (p : Process) (write_ok : Z → bool)
    (bytes : list Z) (count destination tag : Z) (s : list Message) :
  0 ≤ destination < MIMPI_World_size p → destination ≠ MIMPI_World_rank p →
  MIMPI_deadlock_enabled p = true →
  MIMPI_ANY_TAG ≤ tag < 2 ^ 31 → 0 ≤ count < 2 ^ 31 →
  MIMPI_others_recv p !! destination = Some [] →
  MIMPI_send_not_received p = Some s →
  find_elem_in_list s (create_message tag count destination None) = None →
  msg_source (MIMPI_waiting p) ≠ destination →
  ∃ rc w p1 p2 p',
    MIMPI_Send p write_ok bytes count destination tag = Done (rc, p1, w) ∧
    handle_channel_turn p1 destination
      (frame_layout (info count tag) METADATA_SIZE MIMPI_WAITING_TAG)
      = Done (p', []) ∧
    handle_channel_turn p destination
      (frame_layout (info count tag) METADATA_SIZE MIMPI_WAITING_TAG)
      = Done (p2, []) ∧
    MIMPI_others_recv p2 !! destination
      = Some [create_message tag count destination (Some (info count tag))] ∧
    MIMPI_Send p2 write_ok bytes count destination tag = Done (rc, p', w) ∧
    MIMPI_others_recv p' !! destination = Some [] ∧
    MIMPI_waiting p' = MIMPI_waiting p.
Proof.
  intros Hd Hself Hon Htag Hcount Hl Hs Hfind Hwait.
  set (e := create_message tag count destination None).
  set (b := create_message tag count destination (Some (info count tag))).
  assert (- 2 ^ 31 ≤ tag < 2 ^ 31) as Ht31
    by (unfold MIMPI_ANY_TAG in *; lia).
  assert ((tag =? MIMPI_DEADLOCK_TAG) = false) as Hdl
    by (by destruct (user_tag_bearing tag (proj1 Htag)) as (_ & _ & _ & -> & _)).
  eexists _, _, _, _, _. split.
  { by rewrite (Send_detected _ _ _ _ _ _ [] s) by (done || lia). }
  split.
  { unfold handle_channel_turn.
    rewrite <- (app_nil_r (frame_layout _ _ _)).
    rewrite (read_notification _ _ _ MIMPI_WAITING_TAG) by (auto || lia).
    cbn [mbind outcome_bind]. unfold dispatch.
    change (MIMPI_WAITING_TAG =? MIMPI_WAITING_TAG) with true.
    cbn [negb msg_tag create_message]. rewrite Hdl.
    cbn [MIMPI_send_not_received set_send_not_received deref mbind
           outcome_bind].
    fold e b.
    rewrite (find_elem_in_list_filter_ext s _ b) in Hfind by done.
    rewrite find_elem_in_list_app by done.
    rewrite compare_filter by (done || (cbn; auto)).
    cbn [mbind outcome_bind]. reflexivity. }
  assert (handle_channel_turn p destination
            (frame_layout (info count tag) METADATA_SIZE MIMPI_WAITING_TAG)
          = Done (set_others_recv p
                    (<[destination := [b]]> (MIMPI_others_recv p)), [])) as Hturn.
  { unfold handle_channel_turn.
    rewrite <- (app_nil_r (frame_layout _ _ _)).
    rewrite (read_notification _ _ _ MIMPI_WAITING_TAG) by (auto || lia).
    cbn [mbind outcome_bind]. unfold dispatch.
    change (MIMPI_WAITING_TAG =? MIMPI_WAITING_TAG) with true.
    cbn [negb msg_tag create_message]. rewrite Hdl, Hs.
    cbn [deref mbind outcome_bind]. fold b.
    rewrite (find_elem_in_list_filter_ext s _ b) in Hfind by done.
    rewrite Hfind, Hl. cbn [deref mbind outcome_bind push_front app].
    cbn [MIMPI_waiting set_others_recv].
    destruct (Z.eqb_spec (msg_source (MIMPI_waiting p)) destination); [done|].
    reflexivity. }
  split; [exact Hturn|]. split; [apply lookup_insert_eq|]. split.
  { rewrite (Send_detected _ _ _ _ _ _ [b] s);
      [|done|done|done|lia|lia|apply lookup_insert_eq|done].
    cbn [msg_count msg_tag b create_message]. rewrite !Z.eqb_refl.
    cbn [andb MIMPI_others_recv set_others_recv].
    rewrite insert_insert_eq. reflexivity. }
  split; [apply lookup_insert_eq|reflexivity].
Qed.

Lemma Send_notification_commute_witness :
  ∃ rc w p1 p2 p',
    MIMPI_Send (MIMPI_Init 2 0 true) (fun _ => true) [10; 20; 30] 3 1 7
      = Done (rc, p1, w) ∧
    handle_channel_turn p1 1
      (frame_layout (info 3 7) METADATA_SIZE MIMPI_WAITING_TAG)
      = Done (p', []) ∧
    handle_channel_turn (MIMPI_Init 2 0 true) 1
      (frame_layout (info 3 7) METADATA_SIZE MIMPI_WAITING_TAG)
      = Done (p2, []) ∧
    MIMPI_others_recv p2 !! 1 = Some [create_message 7 3 1 (Some (info 3 7))] ∧
    MIMPI_Send p2 (fun _ => true) [10; 20; 30] 3 1 7 = Done (rc, p', w) ∧
    MIMPI_others_recv p' !! 1 = Some [] ∧
    MIMPI_waiting p' = MIMPI_DEFAULT_MSG.
Proof.
  apply (Send_notification_commute (MIMPI_Init 2 0 true) (fun _ => true)
           [10; 20; 30] 3 1 7 []);
    simpl; try lia; try reflexivity.
  unfold MIMPI_ANY_TAG. lia.
  unfold MIMPI_DEFAULT_SOURCE. lia.
Defined.

(** * A mutual wait without deadlock detection *)

Section Undetected.
Variables (p0 p1 : Process) (calls : recv_call * recv_call).
Hypothesis (H0 : waits_undetected p0 calls.1).
Hypothesis (H1 : waits_undetected p1 calls.2).

Lemma node_step_start (p : Process) (c : recv_call) (t : thread) :
  waits_undetected p c →
  node_step c (start_node p) t
  = match t with
    | CallerEnter => Some (Done (parked_node p c, []))
    | _ => None
    end.
Proof.
  intros (Hoff & Hsrc & Hself & Hleft & q & Hq & Hfind).
  destruct t; try done. unfold node_step, start_node. cbn [caller proc].
  rewrite (Recv_parks_eq _ _ _ _ _ _ _ q); [|done|done|done|done|done|].
  - rewrite Hoff. reflexivity.
  - by rewrite Hoff.
Qed.

Lemma node_step_parked (p : Process) (c : recv_call) (t : thread) :
  waits_undetected p c → node_step c (parked_node p c) t = None.
Proof.
  intros (Hoff & Hsrc & Hself & Hleft & q & Hq & Hfind).
  destruct t; try done. unfold node_step, parked_node, wait_over.
  cbn [caller proc MIMPI_waiting set_waiting msg_received MIMPI_already_left
         orb].
  by rewrite bool_decide_eq_false_2.
Qed.

Lemma deliver_nothing (n : Node) : deliver n [] = n.
Proof. unfold deliver. cbn. rewrite app_nil_r. by destruct n. Qed.

Lemma step_undetected (a b i : bool) (t : thread) :
  step calls (entered_system p0 p1 calls a b) i t
  = match t with
    | CallerEnter =>
        if (if i then b else a) then None
        else Some (Done (entered_system p0 p1 calls (a || negb i) (b || i)))
    | _ => None
    end.
Proof.
  unfold step, entered_system.
  destruct i, a, b; cbn [node fst snd negb orb];
    rewrite ?node_step_start, ?node_step_parked by done;
    destruct t; try done;
    cbn [mbind outcome_bind set_node fst snd negb node];
    by rewrite deliver_nothing.
Qed.

Lemma run_undetected (schedule : list (bool * thread)) (a b : bool)
    (o : outcome System) :
  run calls schedule (entered_system p0 p1 calls a b) = Some o → ∃ a' b', o = Done (entered_system p0 p1 calls a' b').
Proof.
  revert a b. induction schedule as [|[i t] rest IH]; intros a b; simpl.
  - intros [= <-]. eauto.
  - rewrite step_undetected.
    destruct t; try done. destruct (if i then b else a); [done|]. apply IH.
Qed.

Lemma successors_undetected (a b : bool) :
  successors calls (entered_system p0 p1 calls a b)
  = (if a then [] else [Done (entered_system p0 p1 calls true b)])
    ++ (if b then [] else [Done (entered_system p0 p1 calls a true)]).
Proof.
  unfold successors, moves. cbn [omap list_omap fst snd].
  rewrite !step_undetected. by destruct a, b.
Qed.

Lemma explore_undetected :
  explore calls 2 (entered_system p0 p1 calls false false) = Some [entered_system p0 p1 calls true true; entered_system p0 p1 calls true true].
Proof.
  cbn [explore]. rewrite successors_undetected.
  cbn [app mapM fmap option_fmap option_map mbind option_bind mret option_ret
         explore].
  rewrite !successors_undetected.
  cbn [app mapM fmap option_fmap option_map mbind option_bind mret option_ret
         explore].
  rewrite !successors_undetected. reflexivity.
Qed.

End Undetected.

(** X9. With deadlock detection off, two processes that call Recv naming
    each other when neither has a message for the other stay blocked: each
    caller parks without writing anything, no thread of either process can
    move after that, and neither call ever returns. *)
Theorem mutual_wait_undetected (p0 p1 : Process)
    (calls : recv_call * recv_call) (schedule : list (bool * thread))
    (o : outcome System) :
  waits_undetected p0 calls.1 → waits_undetected p1 calls.2 →
  run calls schedule (start_system p0 p1) = Some o →
  ∃ s, o = Done s ∧ (length schedule ≤ 2)%nat ∧
       (∀ i rc, caller (node s i) ≠ Finished rc) ∧
       inbox s.1 = [] ∧ inbox s.2 = [] ∧
       (successors calls s = [] →
        s = (parked_node p0 calls.1, parked_node p1 calls.2)).
Proof.
  intros H0 H1 Hrun.
  destruct (explore_run _ _ _ _ _ _ (explore_undetected p0 p1 calls H0 H1) Hrun)
    as (s & -> & Hlen & Hfin).
  destruct (run_undetected p0 p1 calls H0 H1 schedule false false _ Hrun)
    as (a & b & [= ->]).
  eexists. split; [done|]. split; [done|]. split; [|split; [|split]].
  - intros i rc. by destruct i, a, b.
  - by destruct a.
  - by destruct b.
  - intros Hterm. specialize (Hfin Hterm).
    apply elem_of_cons in Hfin as [->|Hfin]; [done|].
    by apply list_elem_of_singleton in Hfin as ->.
Qed.

Lemma mutual_wait_undetected_witness :
  ∃ s,
    run (mutual_calls 100 4 0 200 4 0) [(true, CallerEnter); (false, CallerEnter)]
      (start_system (MIMPI_Init 2 0 false) (MIMPI_Init 2 1 false))
    = Some (Done s) ∧
    caller s.1 = Blocked ∧ caller s.2 = Blocked ∧
    successors (mutual_calls 100 4 0 200 4 0) s = [].
Proof.
  destruct (mutual_wait_undetected (MIMPI_Init 2 0 false) (MIMPI_Init 2 1 false)
              (mutual_calls 100 4 0 200 4 0)
              [(true, CallerEnter); (false, CallerEnter)]
              (Done (parked_node (MIMPI_Init 2 0 false)
                       (mutual_calls 100 4 0 200 4 0).1,
                     parked_node (MIMPI_Init 2 1 false)
                       (mutual_calls 100 4 0 200 4 0).2)))
    as (s & Hs & _ & _ & _ & _ & Hfin).
  - unfold waits_undetected. simpl. repeat split; try reflexivity; try lia.
    + apply not_elem_of_empty.
    + exists []. split; reflexivity.
  - unfold waits_undetected. simpl. repeat split; try reflexivity; try lia.
    + apply not_elem_of_empty.
    + exists []. split; reflexivity.
  - vm_compute. reflexivity.
  - injection Hs as <-. eexists. split; [vm_compute; reflexivity|].
    split; [reflexivity|]. split; [reflexivity|]. vm_compute. reflexivity.
Defined.
Lemma same_world_refl (p : Process) : same_world p p.
Proof. by repeat split. Qed.

Lemma same_world_trans (p p' p'' : Process) :
  same_world p p' → same_world p' p'' → same_world p p''.
Proof.
  intros (? & ? & ? & ?) (? & ? & ? & ?). repeat split; congruence.
Qed.

Lemma Send_keeps (p : Process) (write_ok : Z → bool) (data : list Z)
    (count destination tag : Z) (rc : MIMPI_Retcode) (p' : Process) (w : wire) :
  MIMPI_Send p write_ok data count destination tag = Done (rc, p', w) →
  same_world p p' ∧ MIMPI_waiting p' = MIMPI_waiting p ∧
  MIMPI_received_messages p' = MIMPI_received_messages p ∧
  (∀ i, i ≠ destination → MIMPI_others_recv p' !! i = MIMPI_others_recv p !! i) ∧
  (MIMPI_deadlock_enabled p = false ∨ tag < MIMPI_ANY_TAG → p' = p).
Proof.
  unfold MIMPI_Send.
  destruct (CHECK_RANK_ERROR _ _).
  { intros [= <- <- <-]. by repeat split. }
  destruct (CHECK_SELF_OP_ERROR _ _).
  { intros [= <- <- <-]. by repeat split. }
  assert (∀ p1 : Process,
            (to_send ← (if payload_bearing tag
                        then if count <? 0 then Crash
                             else Done (encode_int count ++ encode_int tag
                                          ++ take (Z.to_nat count) data)
                        else Done (encode_int count ++ encode_int tag));
             if write_ok destination
             then Done (MIMPI_SUCCESS, p1, [(destination, to_send)])
             else Done (MIMPI_ERROR_REMOTE_FINISHED, p1, []))
            = Done (rc, p', w) → p' = p1) as Hrest.
  { intros p1. destruct (payload_bearing tag); [destruct (count <? 0); [done|]|];
      cbn [mbind outcome_bind]; destruct (write_ok destination); congruence. }
  destruct (MIMPI_deadlock_enabled p && (tag >=? MIMPI_ANY_TAG)) eqn:E.
  - apply andb_prop in E as [Eon Etag].
    destruct (MIMPI_others_recv p !! destination) as [l|]; [|done].
    destruct (MIMPI_send_not_received p) as [s|]; [|done].
    cbn [deref mbind outcome_bind]. intros H. apply Hrest in H as ->.
    split; [by repeat split|]. split; [done|]. split; [done|]. split.
    + intros i Hi. cbn. by rewrite lookup_insert_ne.
    + intros [Hoff|Hlt]; [congruence|].
      destruct (Z.geb_spec tag MIMPI_ANY_TAG); [lia|done].
  - cbn [mbind outcome_bind]. intros H. apply Hrest in H as ->.
    by repeat split.
Qed.
Lemma Recv_epilogue_keeps (p : Process) (write_ok : Z → bool) (h : heap)
    (data count source tag : Z) (to_receive : option (list Z)) (w : wire)
    (st : recv_status) (p' : Process) (h' : heap) (w' : wire) :
  Recv_epilogue p write_ok h data count source tag to_receive w
    = Done (st, p', h', w') →
  st = Returned MIMPI_SUCCESS ∧ p' = p ∧
  (∀ x, x ∈ w' → x ∈ w ∨ x.1 = source) ∧
  (MIMPI_deadlock_enabled p = false → w' = w).
Proof.
  unfold Recv_epilogue.
  destruct (MIMPI_deadlock_enabled p && (tag >=? MIMPI_ANY_TAG)) eqn:E.
  - apply andb_prop in E as [Eon _].
    destruct (MIMPI_Send p write_ok (info count tag) METADATA_SIZE source
                MIMPI_RECEIVED_TAG) as [[[rc1 p1] w1]|] eqn:HS; [|done].
    cbn [mbind outcome_bind].
    destruct (Send_keeps _ _ _ _ _ _ _ _ _ HS) as (_ & _ & _ & _ & Hsame).
    rewrite Hsame by (right; done).
    destruct (if (tag <=? MIMPI_MAX_TAG) || negb (tag =? MIMPI_NO_MESSAGE_TAG)
              then _ else _) as [h1|]; [|done].
    cbn [mbind outcome_bind]. intros [= <- <- <- <-].
    split; [done|]. split; [done|]. split; [|congruence].
    intros x Hx. apply elem_of_app in Hx as [Hx|Hx]; [by left|right].
    destruct (Send_wire _ _ _ _ _ _ _ _ _ HS) as [[-> _]|(-> & _)].
    + by apply elem_of_nil in Hx.
    + by apply list_elem_of_singleton in Hx as ->.
  - cbn [mbind outcome_bind].
    destruct (if (tag <=? MIMPI_MAX_TAG) || negb (tag =? MIMPI_NO_MESSAGE_TAG)
              then _ else _) as [h1|]; [|done].
    cbn [mbind outcome_bind]. intros [= <- <- <- <-]. auto.
Qed.

Lemma remove_tail_next_other (lists lists' : gmap Z (list Message)) (i : Z) :
  remove_tail_next lists i = Done lists' →
  ∀ j, j ≠ i → lists' !! j = lists !! j.
Proof.
  unfold remove_tail_next. destruct (lists !! i) as [[|m l]|]; [| |done];
    intros [= <-] j Hj.
  - by rewrite lookup_delete_ne.
  - by rewrite lookup_insert_ne.
Qed.

Lemma Recv_after_wait_keeps (p : Process) (write_ok : Z → bool) (h : heap)
    (data count source tag : Z) (w : wire)
    (st : recv_status) (p' : Process) (h' : heap) (w' : wire) :
  Recv_after_wait p write_ok h data count source tag w = Done (st, p', h', w') →
  ∃ rc, st = Returned rc ∧ same_world p p' ∧
        MIMPI_waiting p' = MIMPI_DEFAULT_MSG ∧
        MIMPI_send_not_received p' = MIMPI_send_not_received p ∧
        (∀ i, i ≠ source →
           MIMPI_others_recv p' !! i = MIMPI_others_recv p !! i ∧
           MIMPI_received_messages p' !! i = MIMPI_received_messages p !! i) ∧
        (rc ≠ MIMPI_SUCCESS → h' = h) ∧
        (∀ x, x ∈ w' → x ∈ w ∨ x.1 = source) ∧
        (MIMPI_deadlock_enabled p = false → w' = w).
Proof.
  unfold Recv_after_wait.
  destruct (msg_tag (MIMPI_waiting p) =? MIMPI_DEADLOCK_TAG).
  { destruct (remove_tail_next _ _) as [lists|] eqn:Hrm; [|done].
    cbn [mbind outcome_bind]. intros [= <- <- <- <-].
    eexists. split; [done|]. split; [by repeat split|].
    split; [done|]. split; [done|]. split; [|by auto].
    intros i Hi. split; [|done]. cbn.
    by apply (remove_tail_next_other _ _ _ Hrm). }
  destruct (bool_decide _ && negb _).
  { intros [= <- <- <- <-].
    eexists. split; [done|]. split; [by repeat split|]. by auto 10. }
  destruct (MIMPI_received_messages p !! source) as [q|]; [|done].
  cbn [deref mbind outcome_bind].
  destruct (find_elem_in_list q _) as [i|].
  - destruct (q !! i) as [m|]; [|done]. cbn [deref mbind outcome_bind].
    destruct (if negb (tag =? MIMPI_NO_MESSAGE_TAG) then _ else _)
      as [to_receive|]; [|done].
    cbn [mbind outcome_bind]. intros H.
    apply Recv_epilogue_keeps in H as (-> & -> & Hw & Hoff).
    eexists. split; [done|]. split; [by repeat split|].
    split; [done|]. split; [done|]. split; [|by auto].
    intros j Hj. split; [done|]. cbn. by rewrite lookup_insert_ne.
  - destruct (negb (tag =? MIMPI_NO_MESSAGE_TAG)); [done|]. intros H.
    apply Recv_epilogue_keeps in H as (-> & -> & Hw & Hoff).
    eexists. split; [done|]. split; [by repeat split|].
    split; [done|]. split; [done|]. split; [|by auto].
    intros j Hj. split; [done|]. cbn. by rewrite lookup_delete_ne.
Qed.
Lemma Recv_keeps (p : Process) (write_ok : Z → bool) (h : heap)
    (data count source tag : Z)
    (st : recv_status) (p' : Process) (h' : heap) (w : wire) :
  MIMPI_Recv p write_ok h data count source tag = Done (st, p', h', w) →
  same_world p p' ∧
  MIMPI_send_not_received p' = MIMPI_send_not_received p ∧
  (∀ i, i ≠ source →
     MIMPI_others_recv p' !! i = MIMPI_others_recv p !! i ∧
     MIMPI_received_messages p' !! i = MIMPI_received_messages p !! i) ∧
  (st ≠ Returned MIMPI_SUCCESS → h' = h) ∧
  (∀ x, x ∈ w → x.1 = source) ∧
  (MIMPI_deadlock_enabled p = false → w = []) ∧
  match st with
  | Parked =>
      MIMPI_waiting p'
      = {| msg_tag := tag; msg_count := count; msg_source := source;
           msg_data := None; msg_received := false |}
  | Returned _ =>
      MIMPI_waiting p = MIMPI_DEFAULT_MSG → MIMPI_waiting p' = MIMPI_DEFAULT_MSG
  end.
Proof.
  unfold MIMPI_Recv.
  destruct (CHECK_RANK_ERROR _ _).
  { intros [= <- <- <- <-]. split; [by repeat split|]. repeat split; try done.
    intros x Hx. by apply elem_of_nil in Hx. }
  destruct (CHECK_SELF_OP_ERROR _ _).
  { intros [= <- <- <- <-]. split; [by repeat split|]. repeat split; try done.
    intros x Hx. by apply elem_of_nil in Hx. }
  destruct (MIMPI_received_messages p !! source) as [q|]; [|done].
  cbn [deref mbind outcome_bind].
  destruct (find_elem_in_list q _) as [i|].
  { destruct (q !! i) as [m|]; [|done]. cbn [deref mbind outcome_bind].
    destruct (if payload_bearing tag then _ else _) as [to_receive|]; [|done].
    cbn [mbind outcome_bind]. intros H.
    apply Recv_epilogue_keeps in H as (-> & -> & Hw & Hoff).
    split; [by repeat split|]. split; [done|]. split.
    { intros j Hj. split; [done|]. cbn. by rewrite lookup_insert_ne. }
    split; [done|]. split.
    { intros x Hx. destruct (Hw x Hx) as [Hn|]; [|done].
      by apply elem_of_nil in Hn. }
    split; [exact Hoff|done]. }
  cbv zeta.
  set (p1 := set_waiting p _).
  assert (∀ (r : recv_result + Process * wire),
            (∀ st p' h' w, r = inl (st, p', h', w) →
               (∃ rc, st = Returned rc ∧ rc ≠ MIMPI_SUCCESS) ∧
               same_world p p' ∧
               MIMPI_send_not_received p' = MIMPI_send_not_received p ∧
               (∀ i, i ≠ source →
                  MIMPI_others_recv p' !! i = MIMPI_others_recv p !! i ∧
                  MIMPI_received_messages p' !! i
                  = MIMPI_received_messages p !! i) ∧
               h' = h ∧ (∀ x, x ∈ w → x.1 = source) ∧
               MIMPI_deadlock_enabled p = true ∧
               MIMPI_waiting p' = MIMPI_DEFAULT_MSG) →
            (∀ p2 w, r = inr (p2, w) →
               (∀ x, x ∈ w → x.1 = source) ∧
               (MIMPI_deadlock_enabled p = false → w = []) ∧ p2 = p1) →
            match r with
            | inl res => Done res
            | inr (p2, w) =>
                if negb (msg_received (MIMPI_waiting p2))
                   && negb (bool_decide (source ∈ MIMPI_already_left p2))
                then Done (Parked, p2, h, w)
                else Recv_after_wait p2 write_ok h data count source tag w
            end = Done (st, p', h', w) →
            same_world p p' ∧
            MIMPI_send_not_received p' = MIMPI_send_not_received p ∧
            (∀ i, i ≠ source →
               MIMPI_others_recv p' !! i = MIMPI_others_recv p !! i ∧
               MIMPI_received_messages p' !! i
               = MIMPI_received_messages p !! i) ∧
            (st ≠ Returned MIMPI_SUCCESS → h' = h) ∧
            (∀ x, x ∈ w → x.1 = source) ∧
            (MIMPI_deadlock_enabled p = false → w = []) ∧
            match st with
            | Parked =>
                MIMPI_waiting p'
                = {| msg_tag := tag; msg_count := count; msg_source := source;
                     msg_data := None; msg_received := false |}
            | Returned _ =>
                MIMPI_waiting p = MIMPI_DEFAULT_MSG →
                MIMPI_waiting p' = MIMPI_DEFAULT_MSG
            end) as Hfinish.
  { intros [[[[st0 p0] h0] w0]|[p2 w2]] Hl Hr.
    - intros [= -> -> -> ->].
      destruct (Hl _ _ _ _ eq_refl)
        as ((rc & -> & Hrc) & Hsw & Hsnr & Hoth & -> & Hw & Hon & Hwt).
      split; [done|]. split; [done|]. split; [done|]. split; [done|].
      split; [done|]. split; [congruence|done].
    - destruct (Hr _ _ eq_refl) as (Hw & Hoff & ->).
      destruct (negb _ && negb _).
      + intros [= <- <- <- <-]. split; [by repeat split|].
        split; [done|]. split; [done|]. split; [done|]. split; [done|].
        split; [done|]. done.
      + intros H. apply Recv_after_wait_keeps in H
          as (rc & -> & Hsw & Hwt & Hsnr & Hoth & Hh & Hw' & Hoff').
        split; [done|]. split; [done|]. split; [done|].
        split; [intros Hne; apply Hh; congruence|].
        split.
        { intros x Hx. destruct (Hw' x Hx); auto. }
        split; [|done]. intros Hd. rewrite Hoff' by done. auto. }
  destruct (MIMPI_deadlock_enabled p1 && (tag >=? MIMPI_ANY_TAG)) eqn:E;
    cycle 1.
  { cbn [mbind outcome_bind]. apply (Hfinish (inr (p1, []))); [done|].
    intros p2 w2 [= <- <-]. split; [|done].
    intros x Hx. by apply elem_of_nil in Hx. }
  apply andb_prop in E as [Eon _]. change (MIMPI_deadlock_enabled p = true) in Eon.
  destruct (MIMPI_others_recv p1 !! source) as [l|]; [|done].
  cbn [deref mbind outcome_bind].
  assert (∀ r : recv_result + Process * wire,
            ('(rc, p2, w) ← MIMPI_Send p1 write_ok (info count tag)
                              METADATA_SIZE source MIMPI_WAITING_TAG;
             if decide (rc = MIMPI_ERROR_REMOTE_FINISHED) then
               lists ← remove_tail_next (MIMPI_others_recv p2) source;
               Done (inl (Returned MIMPI_ERROR_REMOTE_FINISHED,
                          set_others_recv (set_waiting p2 MIMPI_DEFAULT_MSG)
                            lists, h, w))
             else Done (inr (p2, w))) = Done r →
            (∀ st p' h' w, r = inl (st, p', h', w) →
               (∃ rc, st = Returned rc ∧ rc ≠ MIMPI_SUCCESS) ∧
               same_world p p' ∧
               MIMPI_send_not_received p' = MIMPI_send_not_received p ∧
               (∀ i, i ≠ source →
                  MIMPI_others_recv p' !! i = MIMPI_others_recv p !! i ∧
                  MIMPI_received_messages p' !! i
                  = MIMPI_received_messages p !! i) ∧
               h' = h ∧ (∀ x, x ∈ w → x.1 = source) ∧
               MIMPI_deadlock_enabled p = true ∧
               MIMPI_waiting p' = MIMPI_DEFAULT_MSG) ∧
            (∀ p2 w, r = inr (p2, w) →
               (∀ x, x ∈ w → x.1 = source) ∧
               (MIMPI_deadlock_enabled p = false → w = []) ∧ p2 = p1))
    as Hannounce.
  { intros r.
    destruct (MIMPI_Send p1 _ _ _ _ _) as [[[rc2 p2] w2]|] eqn:HS; [|done].
    cbn [mbind outcome_bind].
    destruct (Send_keeps _ _ _ _ _ _ _ _ _ HS) as (_ & _ & _ & _ & Hsame).
    rewrite Hsame in * by (right; done).
    assert (∀ x, x ∈ w2 → x.1 = source) as Hw2.
    { intros x Hx.
      destruct (Send_wire _ _ _ _ _ _ _ _ _ HS) as [[-> _]|(-> & _)].
      - by apply elem_of_nil in Hx.
      - by apply list_elem_of_singleton in Hx as ->. }
    destruct (decide (rc2 = MIMPI_ERROR_REMOTE_FINISHED)) as [->|Hrc].
    - destruct (remove_tail_next _ _) as [lists|] eqn:Hrm; [|done].
      cbn [mbind outcome_bind]. intros [= <-]. split; [|done].
      intros ? ? ? ? [= <- <- <- <-].
      split; [by eexists|]. split; [by repeat split|]. split; [done|].
      split; [|done]. intros i Hi. split; [|done]. cbn.
      by apply (remove_tail_next_other _ _ _ Hrm).
    - intros [= <-]. split; [done|]. intros ? ? [= <- <-].
      split; [done|]. split; [congruence|done]. }
  destruct l as [|msg l'].
  { destruct (_ ← MIMPI_Send p1 _ _ _ _ _; _) as [r|] eqn:Hr; [|done].
    cbn [mbind outcome_bind]. destruct (Hannounce r eq_refl) as [Hl Hrr].
    exact (Hfinish r Hl Hrr). }
  destruct (msg_tag msg >=? MIMPI_ANY_TAG); cycle 1.
  { destruct (_ ← MIMPI_Send p1 _ _ _ _ _; _) as [r|] eqn:Hr; [|done].
    cbn [mbind outcome_bind]. destruct (Hannounce r eq_refl) as [Hl Hrr].
    exact (Hfinish r Hl Hrr). }
  destruct (remove_tail_next _ _) as [lists|] eqn:Hrm; [|done].
  cbn [mbind outcome_bind].
  clear Hannounce.
  destruct (MIMPI_Send _ _ _ _ _ _) as [[[rc2 p2] w2]|] eqn:HS; [|done].
  cbn [mbind outcome_bind].
  destruct (Send_keeps _ _ _ _ _ _ _ _ _ HS) as (_ & _ & _ & _ & Hsame).
  rewrite Hsame in * by (right; done).
  apply (Hfinish (inl (Returned MIMPI_ERROR_DEADLOCK_DETECTED,
                       set_others_recv (set_waiting p1 MIMPI_DEFAULT_MSG) lists,
                       h, w2))); [|done].
  intros ? ? ? ? [= <- <- <- <-].
  split; [by eexists|]. split; [by repeat split|]. split; [done|].
  split.
  { intros i Hi. split; [|done]. cbn.
    by apply (remove_tail_next_other _ _ _ Hrm). }
  split; [done|]. split; [|done].
  intros x Hx.
  destruct (Send_wire _ _ _ _ _ _ _ _ _ HS) as [[-> _]|(-> & _)].
  - by apply elem_of_nil in Hx.
  - by apply list_elem_of_singleton in Hx as ->.
Qed.
(** X10. Whatever a call of Send returns, it leaves alone the size of the
    world, the rank, the detection flag, the peers recorded as having left,
    the waiting slot, every queue of received messages and the notifications
    of every peer other than the destination; with detection off, or for a
    tag below [ANY_TAG], it does not change the state at all.  It writes one
    frame, to the destination, exactly when it returns success, and it never
    returns deadlock-detected. *)
Theorem Send_leaves_alone (p : Process) (write_ok : Z → bool) (data : list Z)
    (count destination tag : Z) (rc : MIMPI_Retcode) (p' : Process) (w : wire) :
  MIMPI_Send p write_ok data count destination tag = Done (rc, p', w) →
  same_world p p' ∧ MIMPI_waiting p' = MIMPI_waiting p ∧
  MIMPI_received_messages p' = MIMPI_received_messages p ∧
  (∀ i, i ≠ destination →
     MIMPI_others_recv p' !! i = MIMPI_others_recv p !! i) ∧
  (MIMPI_deadlock_enabled p = false ∨ tag < MIMPI_ANY_TAG → p' = p) ∧
  (rc = MIMPI_SUCCESS ↔ w = [(destination, frame_layout data count tag)]) ∧
  (rc ≠ MIMPI_SUCCESS ↔ w = []) ∧
  rc ≠ MIMPI_ERROR_DEADLOCK_DETECTED.
Proof.
  intros HS.
  destruct (Send_keeps _ _ _ _ _ _ _ _ _ HS) as (Hw & Hwt & Hrm & Hoth & Hsame).
  do 5 (split; [done|]).
  assert (rc ≠ MIMPI_ERROR_DEADLOCK_DETECTED) as Hnd.
  { revert HS. unfold MIMPI_Send.
    destruct (CHECK_RANK_ERROR _ _); [by intros [= <- _ _]|].
    destruct (CHECK_SELF_OP_ERROR _ _); [by intros [= <- _ _]|].
    destruct (if MIMPI_deadlock_enabled p && _ then _ else _); [|done].
    cbn [mbind outcome_bind].
    destruct (if payload_bearing tag then _ else _); [|done].
    cbn [mbind outcome_bind].
    by destruct (write_ok destination); intros [= <- _ _]. }
  destruct (Send_wire _ _ _ _ _ _ _ _ _ HS) as [[-> Hrc]|(-> & -> & _)].
  - split; [split; [done|done]|]. split; [done|done].
  - split; [done|]. split; [|done]. split; [done|done].
Qed.

Lemma Send_leaves_alone_witness :
  let p := set_others_recv (MIMPI_Init 3 0 true)
             (<[1 := [create_message 7 3 1 (Some (info 3 7))]]>
                (create_lists 3 0)) in
  ∃ p',
    MIMPI_Send p (fun _ => true) [10; 20; 30] 3 1 7
      = Done (MIMPI_SUCCESS, p', [(1, frame_layout [10; 20; 30] 3 7)]) ∧
    MIMPI_others_recv p' !! 1 = Some [] ∧
    MIMPI_others_recv p' !! 2 = MIMPI_others_recv p !! 2 ∧
    MIMPI_waiting p' = MIMPI_waiting p.
Proof.
  intros p. eexists. split; [vm_compute; reflexivity|].
  split; [vm_compute; reflexivity|].
  match goal with
  | |- MIMPI_others_recv ?q !! _ = _ ∧ _ =>
      destruct (Send_leaves_alone p (fun _ => true) [10; 20; 30] 3 1 7
                  MIMPI_SUCCESS q [(1, frame_layout [10; 20; 30] 3 7)])
        as (_ & Hwt & _ & Hoth & _)
  end.
  - vm_compute. reflexivity.
  - split; [apply Hoth; lia|exact Hwt].
Defined.

(** X11. Whatever a call of Recv does on entry, return or park, and
    whatever it returns after a wait, it leaves alone the size of the world,
    the rank, the detection flag, the peers recorded as having left, the
    list of unacknowledged sends, and the queue and the notifications of
    every peer other than the one it names.  Every frame it writes goes to
    the peer it names, and it writes none when detection is off.  The
    caller's buffer is changed only by a call that returns success.  A call
    that returns leaves the waiting slot at its default value (on entry: if
    it found it so), and a call that parks leaves its filter there. *)
Theorem Recv_leaves_alone (p : Process) (write_ok : Z → bool) (h : heap)
    (data count source tag : Z) (w0 : wire)
    (st : recv_status) (p' : Process) (h' : heap) (w : wire) :
  (MIMPI_Recv p write_ok h data count source tag = Done (st, p', h', w) →
   same_world p p' ∧
   MIMPI_send_not_received p' = MIMPI_send_not_received p ∧
   (∀ i, i ≠ source →
      MIMPI_others_recv p' !! i = MIMPI_others_recv p !! i ∧
      MIMPI_received_messages p' !! i = MIMPI_received_messages p !! i) ∧
   (st ≠ Returned MIMPI_SUCCESS → h' = h) ∧
   (∀ x, x ∈ w → x.1 = source) ∧
   (MIMPI_deadlock_enabled p = false → w = []) ∧
   match st with
   | Parked =>
       MIMPI_waiting p'
       = {| msg_tag := tag; msg_count := count; msg_source := source;
            msg_data := None; msg_received := false |}
   | Returned _ =>
       MIMPI_waiting p = MIMPI_DEFAULT_MSG →
       MIMPI_waiting p' = MIMPI_DEFAULT_MSG
   end) ∧
  (Recv_after_wait p write_ok h data count source tag w0
     = Done (st, p', h', w) →
   st ≠ Parked ∧ same_world p p' ∧
   MIMPI_send_not_received p' = MIMPI_send_not_received p ∧
   (∀ i, i ≠ source →
      MIMPI_others_recv p' !! i = MIMPI_others_recv p !! i ∧
      MIMPI_received_messages p' !! i = MIMPI_received_messages p !! i) ∧
   (st ≠ Returned MIMPI_SUCCESS → h' = h) ∧
   (∀ x, x ∈ w → x ∈ w0 ∨ x.1 = source) ∧
   (MIMPI_deadlock_enabled p = false → w = w0) ∧
   MIMPI_waiting p' = MIMPI_DEFAULT_MSG).
Proof.
  split; [apply Recv_keeps|]. intros H.
  apply Recv_after_wait_keeps in H
    as (rc & -> & Hsw & Hwt & Hsnr & Hoth & Hh & Hw & Hoff).
  split; [done|]. do 3 (split; [done|]).
  split; [intros Hne; apply Hh; congruence|]. done.
Qed.

Lemma Recv_leaves_alone_witness :
  let p := set_received_messages (MIMPI_Init 3 0 true)
             (<[1 := [create_message 7 2 1 (Some [10; 20])]]>
                (create_lists 3 0)) in
  ∃ p' w,
    MIMPI_Recv p (fun _ => true) (fun _ => 0) 100 2 1 7
      = Done (Returned MIMPI_SUCCESS, p', store (fun _ => 0) 100 [10; 20], w) ∧
    MIMPI_received_messages p' !! 2 = MIMPI_received_messages p !! 2 ∧
    MIMPI_waiting p' = MIMPI_DEFAULT_MSG ∧
    ∀ x, x ∈ w → x.1 = 1.
Proof.
  intros p. eexists _, _. split; [vm_compute; reflexivity|].
  match goal with
  | |- MIMPI_received_messages ?q !! _ = _ ∧ _ ∧ ∀ x, x ∈ ?w → _ =>
      destruct (Recv_leaves_alone p (fun _ => true) (fun _ => 0) 100 2 1 7 []
                  (Returned MIMPI_SUCCESS) q
                  (store (fun _ => 0) 100 [10; 20]) w)
        as [Hentry _]
  end.
  destruct Hentry as (_ & _ & Hoth & _ & Hw & _ & Hwt).
  - vm_compute. reflexivity.
  - split; [apply Hoth; lia|]. split; [by apply Hwt|exact Hw].
Defined.
(** * Channel input and output in pieces *)

Lemma take_take_drop {A : Type} (n m : nat) (l : list A) :
  take n l ++ take m (drop n l) = take (n + m) l.
Proof.
  revert l. induction n as [|n IH]; intros [|a l]; simpl; try done.
  - by rewrite take_nil.
  - by rewrite IH.
Qed.

Lemma read_loop_total (pieces : nat → Z) (fuel : nat) :
  ∀ (k : nat) (stream : list Z) (count bytes_read : Z) (data : list Z),
    (Z.to_nat (count - bytes_read) ≤ fuel)%nat →
    ∃ rc rest,
      Pieces.read_loop fuel pieces k stream count bytes_read data
        = Some (rc, rest) ∧
      ∃ m : nat,
        readcode_data rc = data ++ take m stream ∧ rest = drop m stream ∧
        (m ≤ length stream)%nat ∧
        if error_occured rc then Z.of_nat m < count - bytes_read
        else Z.of_nat m = Z.max 0 (count - bytes_read).
Proof.
  induction fuel as [|fuel IH]; intros k stream count br data Hfuel;
    cbn [Pieces.read_loop].
  - destruct (Z.ltb_spec br count); [lia|].
    eexists _, _. split; [done|]. exists 0%nat. cbn.
    rewrite app_nil_r. repeat split; lia.
  - destruct (Z.ltb_spec br count); cycle 1.
    { eexists _, _. split; [done|]. exists 0%nat. cbn.
      rewrite app_nil_r. repeat split; lia. }
    unfold Pieces.chrecv. destruct (Z.leb_spec (pieces k) 0) as [Hp|Hp].
    { destruct (Z.leb_spec (pieces k) 0); [|lia].
      eexists _, _. split; [done|]. exists 0%nat. cbn.
      rewrite app_nil_r. repeat split; lia. }
    cbv zeta.
    set (n := Z.min (pieces k) (Z.min (count - br) (Z.of_nat (length stream)))).
    destruct (Z.leb_spec n 0) as [Hn|Hn].
    { eexists _, _. split; [done|]. exists 0%nat. cbn.
      assert (n = 0) as -> by lia. cbn. rewrite app_nil_r.
      repeat split; lia. }
    destruct (IH (S k) (drop (Z.to_nat n) stream) count (br + n)
                (data ++ take (Z.to_nat n) stream) ltac:(lia))
      as (rc & rest & -> & m & Hd & Hr & Hm & Hm').
    eexists _, _. split; [done|]. exists (Z.to_nat n + m)%nat.
    rewrite length_drop in Hm.
    split; [|split; [|split]].
    + by rewrite Hd, <- app_assoc, take_take_drop.
    + by rewrite Hr, drop_drop.
    + lia.
    + destruct (error_occured rc); lia.
Qed.

Lemma read_loop_positive (pieces : nat → Z) (fuel : nat) :
  (∀ k, 0 < pieces k) →
  ∀ (k : nat) (stream : list Z) (count bytes_read : Z) (data : list Z),
    (Z.to_nat (count - bytes_read) ≤ fuel)%nat →
    Pieces.read_loop fuel pieces k stream count bytes_read data
    = Some (if (Z.to_nat (count - bytes_read) <=? length stream)%nat
            then ({| error_occured := false;
                     readcode_data :=
                       data ++ take (Z.to_nat (count - bytes_read)) stream |},
                  drop (Z.to_nat (count - bytes_read)) stream)
            else ({| error_occured := true; readcode_data := data ++ stream |},
                  [])).
Proof.
  intros Hpos.
  induction fuel as [|fuel IH]; intros k stream count br data Hfuel;
    cbn [Pieces.read_loop].
  - destruct (Z.ltb_spec br count); [lia|].
    replace (Z.to_nat (count - br)) with 0%nat by lia. cbn.
    by rewrite app_nil_r.
  - destruct (Z.ltb_spec br count); cycle 1.
    { replace (Z.to_nat (count - br)) with 0%nat by lia. cbn.
      by rewrite app_nil_r. }
    unfold Pieces.chrecv. specialize (Hpos k) as Hp.
    destruct (Z.leb_spec (pieces k) 0); [lia|]. cbv zeta.
    set (n := Z.min (pieces k) (Z.min (count - br) (Z.of_nat (length stream)))).
    destruct (Z.leb_spec n 0) as [Hn|Hn].
    { assert (length stream = 0%nat) as Hlen by lia.
      apply nil_length_inv in Hlen as ->.
      destruct (Nat.leb_spec (Z.to_nat (count - br)) (length (@nil Z)));
        [simpl in *; lia|].
      by rewrite drop_nil, app_nil_r. }
    rewrite IH by lia. rewrite length_drop.
    replace (Z.to_nat (count - (br + n)))
      with (Z.to_nat (count - br) - Z.to_nat n)%nat by lia.
    destruct (Nat.leb_spec (Z.to_nat (count - br)) (length stream)).
    + destruct (Nat.leb_spec (Z.to_nat (count - br) - Z.to_nat n)
                  (length stream - Z.to_nat n)); [|lia].
      rewrite <- app_assoc, take_take_drop, drop_drop.
      by replace (Z.to_nat n + (Z.to_nat (count - br) - Z.to_nat n))%nat
        with (Z.to_nat (count - br)) by lia.
    + destruct (Nat.leb_spec (Z.to_nat (count - br) - Z.to_nat n)
                  (length stream - Z.to_nat n)); [lia|].
      by rewrite <- app_assoc, take_drop.
Qed.

(** X12. [read_from_channel] ends after at most [count] calls of [chrecv],
    however the stream is cut into pieces.  When it reports no error it has
    read exactly the first [count] bytes of the stream and left the rest in
    the channel; when it reports an error it has taken fewer than [count]
    bytes and lost none.  If every call moves at least one byte while the
    stream lasts, the result is that of reading the stream in one piece: an
    error is reported exactly when the stream ends before [count] bytes. *)
Theorem read_from_channel_pieces (fuel : nat) (pieces : nat → Z)
    (stream : list Z) (count : Z) :
  0 ≤ count → (Z.to_nat count ≤ fuel)%nat →
  ∃ rc rest,
    Pieces.read_from_channel fuel pieces stream count = Some (rc, rest) ∧
    readcode_data rc ++ rest = stream ∧
    (if error_occured rc then Z.of_nat (length (readcode_data rc)) < count
     else readcode_data rc = take (Z.to_nat count) stream ∧
          Z.of_nat (length (readcode_data rc)) = count) ∧
    ((∀ k, 0 < pieces k) → (rc, rest) = read_from_channel stream count).
Proof.
  intros Hcount Hfuel. unfold Pieces.read_from_channel.
  destruct (read_loop_total pieces fuel 0 stream count 0 [] ltac:(lia))
    as (rc & rest & Hloop & m & Hd & Hr & Hm & Hm').
  exists rc, rest. split; [done|]. cbn [app] in Hd. split; [|split].
  - by rewrite Hd, Hr, take_drop.
  - rewrite Hd, length_take. destruct (error_occured rc); [lia|].
    split; [f_equal|]; lia.
  - intros Hpos. rewrite (read_loop_positive pieces fuel Hpos) in Hloop by lia.
    injection Hloop as Hloop. rewrite <- Hloop. unfold read_from_channel.
    by rewrite Z.sub_0_r.
Qed.

Lemma read_from_channel_pieces_witness :
  Pieces.read_from_channel 4 (fun k => if k is O then 1 else 2)
    [1; 2; 3; 4; 5; 6] 4
  = Some ({| error_occured := false; readcode_data := [1; 2; 3; 4] |}, [5; 6]).
Proof.
  destruct (read_from_channel_pieces 4 (fun k => if k is O then 1 else 2)
              [1; 2; 3; 4; 5; 6] 4) as (rc & rest & -> & _ & _ & Hone);
    [lia|lia|].
  rewrite Hone; [reflexivity|]. intros [|k]; lia.
Defined.

Lemma write_loop_total (pieces : nat → Z) (data : list Z) (count : Z)
    (fuel : nat) :
  count ≤ Z.of_nat (length data) → count ≤ Pieces.INT_MAX →
  ∀ (k : nat) (bytes_wrote : Z) (out : list Z),
    0 ≤ bytes_wrote →
    (Z.to_nat (count - bytes_wrote) ≤ fuel)%nat →
    ∃ (ok : bool) (m : nat),
      Pieces.write_loop fuel pieces k data count bytes_wrote out
        = Some (ok, out ++ take m (drop (Z.to_nat bytes_wrote) data)) ∧
      (if ok then Z.of_nat m = Z.max 0 (count - bytes_wrote)
       else Z.of_nat m < count - bytes_wrote ∧
            ∃ j, (k ≤ j < k + S m)%nat ∧ pieces j ≤ 0) ∧
      ((∀ j, 0 < pieces j) → ok = true).
Proof.
  intros Hlen Hint.
  induction fuel as [|fuel IH]; intros k bw out Hbw Hfuel;
    cbn [Pieces.write_loop].
  - destruct (Z.ltb_spec bw count); [lia|].
    exists true, 0%nat. rewrite take_0, app_nil_r.
    split; [done|]. split; [lia|done].
  - destruct (Z.ltb_spec bw count); cycle 1.
    { exists true, 0%nat. rewrite take_0, app_nil_r.
    split; [done|]. split; [lia|done]. }
    unfold Pieces.chsend. destruct (Z.leb_spec (pieces k) 0) as [Hp|Hp].
    { destruct (Z.leb_spec (pieces k) 0); [|lia].
      exists false, 0%nat. rewrite take_0, app_nil_r.
      split; [done|]. split.
      - split; [lia|]. exists k. split; [lia|done].
      - intros Hpos. specialize (Hpos k). lia. }
    cbv zeta. set (n := Z.min (pieces k) (count - bw)).
    destruct (Z.leb_spec n 0); [lia|].
    destruct (Z.ltb_spec Pieces.INT_MAX (bw + n)); [lia|].
    destruct (IH (S k) (bw + n)
                (out ++ take (Z.to_nat n) (drop (Z.to_nat bw) data))
                ltac:(lia) ltac:(lia)) as (ok & m & -> & Hm & Hpos).
    exists ok, (Z.to_nat n + m)%nat. split; [|split; [|done]].
    + replace (Z.to_nat (bw + n)) with (Z.to_nat bw + Z.to_nat n)%nat by lia.
      by rewrite <- app_assoc, <- drop_drop, take_take_drop.
    + destruct ok; [lia|]. destruct Hm as (Hm & j & Hj & Hpj).
      split; [lia|]. exists j. split; [lia|done].
Qed.

(** X13. For a [count] of at most [INT_MAX], the range of its [int]
    counter, [write_to_channel] ends after at most [count] calls of
    [chsend], however the stream takes the bytes.  The bytes it has appended
    to the channel are always the first bytes of [data], in order; it
    returns true exactly when all [count] of them are in the channel, which
    is the case whenever every call moves at least one byte, and false as
    soon as a call of [chsend] returns zero or an error, with fewer than
    [count] bytes in the channel. *)
Theorem write_to_channel_pieces (fuel : nat) (pieces : nat → Z) (count : Z)
    (data : list Z) :
  0 ≤ count ≤ Z.of_nat (length data) → count ≤ Pieces.INT_MAX →
  (Z.to_nat count ≤ fuel)%nat →
  ∃ (ok : bool) (m : nat),
    Pieces.write_to_channel fuel pieces count data = Some (ok, take m data) ∧
    (if ok then Z.of_nat m = count
     else Z.of_nat m < count ∧ ∃ j, (j ≤ m)%nat ∧ pieces j ≤ 0) ∧
    ((∀ j, 0 < pieces j) → ok = true).
Proof.
  intros Hcount Hint Hfuel. unfold Pieces.write_to_channel.
  destruct (write_loop_total pieces data count fuel ltac:(lia) Hint 0%nat 0 []
              ltac:(lia) ltac:(lia)) as (ok & m & Hloop & Hm & Hpos).
  exists ok, m. split; [exact Hloop|]. split; [|done].
  destruct ok; [lia|]. destruct Hm as (Hm & j & Hj & Hpj).
  split; [lia|]. exists j. split; [lia|done].
Qed.

Lemma write_to_channel_pieces_witness :
  Pieces.write_to_channel 4 (fun k => if k is O then 3 else 5) 4 [1; 2; 3; 4; 5]
  = Some (true, [1; 2; 3; 4]).
Proof.
  destruct (write_to_channel_pieces 4 (fun k => if k is O then 3 else 5) 4
              [1; 2; 3; 4; 5]) as (ok & m & H & Hm & Hpos);
    try (simpl; lia); [unfold Pieces.INT_MAX; lia|].
  rewrite H. rewrite Hpos in * by (intros [|k]; lia).
  by replace m with 4%nat by lia.
Defined.
(** * The linked lists in memory *)

Lemma first_addr_app (c1 c2 : list (Z * option Message)) (after : Z) :
  Linked.first_addr (c1 ++ c2) after
  = Linked.first_addr c1 (Linked.first_addr c2 after).
Proof. by destruct c1 as [|[] ?]. Qed.

Lemma last_addr_cons (before : Z) (x : Z * option Message)
    (c : list (Z * option Message)) :
  Linked.last_addr before (x :: c) = Linked.last_addr x.1 c.
Proof.
  unfold Linked.last_addr. destruct c as [|y c]; [done|].
  cbn [fmap list_fmap]. rewrite last_cons_cons.
  by destruct (proj2 (last_is_Some (y.1 :: c.*1)) ltac:(done)) as [z ->].
Qed.

Lemma last_addr_snoc (before : Z) (c : list (Z * option Message))
    (x : Z * option Message) :
  Linked.last_addr before (c ++ [x]) = x.1.
Proof.
  unfold Linked.last_addr. rewrite fmap_app.
  change ([x].*1) with [x.1]. by rewrite last_snoc.
Qed.

Lemma linked_frame (m m' : gmap Z Linked.elem) (before after : Z)
    (c : list (Z * option Message)) :
  (∀ a, a ∈ c.*1 → m' !! a = m !! a) →
  Linked.linked m before c after → Linked.linked m' before c after.
Proof.
  revert before. induction c as [|[el msg] c IH]; intros before Hsame;
    cbn [Linked.linked]; [done|].
  intros [Hel Hrest]. split.
  - rewrite Hsame; [done|]. cbn. apply list_elem_of_here.
  - apply IH; [|done]. intros a Ha. apply Hsame. cbn.
    by apply list_elem_of_further.
Qed.

Lemma linked_app (m : gmap Z Linked.elem) (before after : Z)
    (c1 c2 : list (Z * option Message)) :
  Linked.linked m before (c1 ++ c2) after ↔
  Linked.linked m before c1 (Linked.first_addr c2 after) ∧
  Linked.linked m (Linked.last_addr before c1) c2 after.
Proof.
  revert before. induction c1 as [|[el msg] c1 IH]; intros before.
  - cbn. tauto.
  - cbn [app Linked.linked]. rewrite IH, first_addr_app, last_addr_cons.
    cbn [fst]. tauto.
Qed.

Lemma linked_lookup (m : gmap Z Linked.elem) (before after : Z)
    (c : list (Z * option Message)) (a : Z) :
  Linked.linked m before c after → a ∈ c.*1 → is_Some (m !! a).
Proof.
  revert before. induction c as [|[el msg] c IH]; intros before;
    cbn [Linked.linked fmap list_fmap fst].
  - intros _ Ha. by apply elem_of_nil in Ha.
  - intros [Hel Hrest] Ha. apply elem_of_cons in Ha as [->|Ha]; [eauto|].
    by apply (IH el).
Qed.

(** A non-empty sequence ends with an element. *)
Lemma snoc_inv {A : Type} (x : A) (l : list A) :
  ∃ l' y, x :: l = l' ++ [y].
Proof.
  revert x. induction l as [|z l IH]; intros x.
  - by exists [], x.
  - destruct (IH z) as (l' & y & ->). by exists (x :: l'), y.
Qed.

Lemma chain_of_snoc (l : Linked.dlist) (elems : list (Z * Message))
    (el : Z) (msg : Message) :
  Linked.chain_of l (elems ++ [(el, msg)])
  = ((Linked.tail l, None) :: ((fun x => (x.1, Some x.2)) <$> elems))
    ++ [(el, Some msg); (Linked.head l, None)].
Proof.
  unfold Linked.chain_of. rewrite fmap_app. cbn [fmap list_fmap fst snd].
  by rewrite <- app_assoc.
Qed.

Lemma chain_of_addrs (l : Linked.dlist) (elems : list (Z * Message)) :
  (Linked.chain_of l elems).*1 = Linked.tail l :: elems.*1 ++ [Linked.head l].
Proof.
  unfold Linked.chain_of. cbn [fmap list_fmap fst].
  rewrite fmap_app, <- list_fmap_compose. done.
Qed.

Lemma push_front_spec (m : gmap Z Linked.elem) (l : Linked.dlist)
    (elems : list (Z * Message)) (el : Z) (msg : Message) :
  Linked.is_list m l elems → m !! el = None → el ≠ NULL →
  ∃ m1 m',
    Linked.create_elem m el NULL NULL (Some msg) = Done m1 ∧
    Linked.push_front m1 l el = Done m' ∧
    Linked.is_list m' l (elems ++ [(el, msg)]) ∧
    ∀ a, a ∉ (Linked.chain_of l elems).*1 → a ≠ el → m' !! a = m !! a.
Proof.
  intros (Hnd & Hnull & Hlk) Hfresh Hel.
  assert (el ∉ (Linked.chain_of l elems).*1) as Hnotin.
  { intros Hin. destruct (linked_lookup _ _ _ _ _ Hlk Hin). congruence. }
  unfold Linked.chain_of in Hnd, Hnull, Hlk, Hnotin.
  set (E := (fun x => (x.1, Some x.2)) <$> elems) in *.
  destruct (snoc_inv (Linked.tail l, None) E) as (pre & [last ml] & Hpre).
  rewrite app_comm_cons, Hpre in Hnd, Hnull, Hlk, Hnotin.
  rewrite <- !app_assoc in Hnd, Hnull, Hlk, Hnotin.
  cbn [app] in Hnd, Hnull, Hlk, Hnotin.
  apply linked_app in Hlk as [Hlpre Hend].
  cbn [Linked.linked Linked.first_addr] in Hend.
  destruct Hend as (Hlast & Hhead & _).
  rewrite fmap_app in Hnd, Hnull, Hnotin.
  cbn [fmap list_fmap fst] in Hnd, Hnull, Hnotin.
  apply NoDup_app in Hnd as (Hndpre & Hdisj & Hnd2).
  apply NoDup_cons in Hnd2 as [Hlh _].
  rewrite list_elem_of_singleton in Hlh.
  rewrite elem_of_app, !elem_of_cons, elem_of_nil in Hnotin, Hnull.
  unfold Linked.create_elem. destruct (Z.eqb_spec el NULL); [done|].
  eexists _, _. split; [reflexivity|].
  unfold Linked.push_front, Linked.set_next, Linked.set_prev.
  rewrite lookup_insert_ne, Hhead by (intuition congruence).
  cbn [deref mbind outcome_bind Linked.prev].
  rewrite lookup_insert_ne, Hlast by (intuition congruence).
  cbn [deref mbind outcome_bind Linked.prev Linked.next Linked.message].
  rewrite lookup_insert_ne, lookup_insert_eq by (intuition congruence).
  cbn [deref mbind outcome_bind Linked.prev Linked.next Linked.message].
  rewrite lookup_insert_eq.
  cbn [deref mbind outcome_bind Linked.prev Linked.next Linked.message].
  rewrite !lookup_insert_ne, Hhead by (intuition congruence).
  cbn [deref mbind outcome_bind Linked.prev Linked.next Linked.message].
  split; [reflexivity|]. split.
  - unfold Linked.is_list. rewrite chain_of_snoc. fold E. rewrite Hpre.
    rewrite <- !app_assoc. cbn [app].
    split; [|split].
    + rewrite fmap_app. cbn [fmap list_fmap fst].
      apply NoDup_app. split; [done|]. split.
      * intros x Hx. rewrite !elem_of_cons, elem_of_nil.
        specialize (Hdisj x Hx). rewrite !elem_of_cons, elem_of_nil in Hdisj.
        intros [->|[->|[->|[]]]]; intuition congruence.
      * apply NoDup_cons. split;
          [rewrite !elem_of_cons, elem_of_nil; intuition congruence|].
        apply NoDup_cons. split;
          [rewrite !elem_of_cons, elem_of_nil; intuition congruence|].
        apply NoDup_singleton.
    + rewrite fmap_app. cbn [fmap list_fmap fst].
      rewrite elem_of_app, !elem_of_cons, elem_of_nil. intuition congruence.
    + apply linked_app. split.
      * cbn [Linked.first_addr]. apply (linked_frame m); [|done].
        intros a Ha. specialize (Hdisj a Ha).
        rewrite !elem_of_cons, elem_of_nil in Hdisj.
        rewrite !lookup_insert_ne; [done| | | | |];
          intuition congruence.
      * cbn [Linked.linked Linked.first_addr].
        split; [|split; [|split; [|done]]].
        -- rewrite !lookup_insert_ne, lookup_insert_eq by (intuition congruence).
           done.
        -- rewrite !lookup_insert_ne, lookup_insert_eq by (intuition congruence).
           done.
        -- by rewrite lookup_insert_eq.
  - intros a Ha Hael. unfold Linked.chain_of in Ha. fold E in Ha.
    rewrite app_comm_cons, Hpre, <- app_assoc, fmap_app in Ha.
    cbn [app fmap list_fmap fst] in Ha.
    rewrite elem_of_app, !elem_of_cons, elem_of_nil in Ha.
    rewrite !lookup_insert_ne; [done| | | | |]; intuition congruence.
Qed.

Lemma create_list_spec (m : gmap Z Linked.elem) (head tail : Z) :
  m !! head = None → m !! tail = None → head ≠ tail →
  head ≠ NULL → tail ≠ NULL →
  ∃ m',
    Linked.create_list m head tail
      = Done ({| Linked.head := head; Linked.tail := tail |}, m') ∧
    Linked.is_list m' {| Linked.head := head; Linked.tail := tail |} [] ∧
    ∀ a, a ≠ head → a ≠ tail → m' !! a = m !! a.
Proof.
  intros Hh Ht Hne Hh0 Ht0.
  unfold Linked.create_list, Linked.create_elem, Linked.set_next,
    Linked.set_prev.
  destruct (Z.eqb_spec head NULL); [done|].
  destruct (Z.eqb_spec tail NULL); [done|].
  cbn [mbind outcome_bind]. rewrite lookup_insert_eq.
  cbn [deref mbind outcome_bind Linked.prev Linked.next Linked.message].
  rewrite lookup_insert_ne, lookup_insert_ne, lookup_insert_eq by done.
  cbn [deref mbind outcome_bind Linked.prev Linked.next Linked.message].
  eexists. split; [reflexivity|]. split.
  - split; [|split]; cbn.
    + apply NoDup_cons. split; [|apply NoDup_singleton].
      rewrite list_elem_of_singleton. done.
    + rewrite !elem_of_cons, elem_of_nil. intuition congruence.
    + rewrite lookup_insert_ne, lookup_insert_eq by done.
      rewrite lookup_insert_eq. done.
  - intros a Hah Hat. by rewrite !lookup_insert_ne.
Qed.

Lemma find_loop_linked (m : gmap Z Linked.elem) (l : Linked.dlist)
    (b : Message) (elems : list (Z * Message)) :
  ∀ (before : Z) (fuel : nat),
    (Linked.head l ∉ elems.*1) →
    Linked.linked m before
      (((fun x => (x.1, Some x.2)) <$> elems) ++ [(Linked.head l, None)]) NULL →
    (length elems ≤ fuel)%nat →
    Linked.find_loop fuel m l b
      (Linked.first_addr
         (((fun x => (x.1, Some x.2)) <$> elems) ++ [(Linked.head l, None)])
         NULL)
    = Some (Done (match find_elem_in_list elems.*2 b with
                  | Some i => default (Linked.head l) (elems.*1 !! i)
                  | None => Linked.head l
                  end)).
Proof.
  induction elems as [|[el msg] elems IH]; intros before fuel Hhead Hlk Hfuel.
  - cbn in Hlk |- *. destruct Hlk as [Hh _].
    destruct fuel; cbn [Linked.find_loop]; by rewrite Hh.
  - cbn [fmap list_fmap app fst snd Linked.linked Linked.first_addr] in *.
    destruct Hlk as [Hel Hrest].
    apply not_elem_of_cons in Hhead as [Hne Hhead].
    destruct fuel as [|fuel]; [simpl in Hfuel; lia|].
    cbn [Linked.find_loop find_elem_in_list]. rewrite Hel.
    cbn [Linked.message Linked.next].
    destruct (Z.eqb_spec el (Linked.head l)); [congruence|]. cbn [negb].
    destruct (compare_message msg b); [done|].
    rewrite (IH el fuel Hhead Hrest) by (simpl in Hfuel; lia).
    by destruct (find_elem_in_list elems.*2 b).
Qed.

Lemma remove_linked (m : gmap Z Linked.elem) (c1 c2 : list (Z * option Message))
    (p n el : Z) (mp mn msg : option Message) :
  NoDup ((c1 ++ [(p, mp)]) ++ (el, msg) :: (n, mn) :: c2).*1 →
  p ≠ NULL → n ≠ NULL →
  Linked.linked m NULL ((c1 ++ [(p, mp)]) ++ (el, msg) :: (n, mn) :: c2) NULL →
  ∃ m',
    Linked.remove_from_list m el = Done m' ∧
    Linked.linked m' NULL ((c1 ++ [(p, mp)]) ++ (n, mn) :: c2) NULL ∧
    m' !! el = None ∧
    ∀ a, a ≠ p → a ≠ n → a ≠ el → m' !! a = m !! a.
Proof.
  intros Hnd Hp Hn Hlk.
  rewrite !fmap_app in Hnd. cbn [fmap list_fmap fst] in Hnd.
  apply NoDup_app in Hnd as (Hnd1 & Hdisj & Hnd2).
  apply NoDup_app in Hnd1 as (Hndc1 & Hdisj1 & _).
  apply NoDup_cons in Hnd2 as [Hel2 Hnd2].
  apply NoDup_cons in Hnd2 as [Hn2 Hndc2].
  apply not_elem_of_cons in Hel2 as [Heln Helc2].
  assert (p ≠ el ∧ p ≠ n ∧ p ∉ c2.*1) as (Hpel & Hpn & Hpc2).
  { assert (p ∉ el :: n :: c2.*1) as H2.
    { apply Hdisj, elem_of_app. right. apply list_elem_of_here. }
    apply not_elem_of_cons in H2 as [? H2].
    by apply not_elem_of_cons in H2 as [? ?]. }
  apply linked_app in Hlk as [Hlk1 Hlk2].
  apply linked_app in Hlk1 as [Hlkc1 Hlkp].
  rewrite last_addr_snoc in Hlk2.
  cbn [Linked.linked Linked.first_addr fst] in Hlkp, Hlk2, Hlkc1.
  destruct Hlkp as [Hmp _]. destruct Hlk2 as (Hmel & Hmn & Hlkc2).
  unfold Linked.remove_from_list, Linked.set_next, Linked.set_prev,
    Linked.delete_elem.
  rewrite Hmel. cbn [deref mbind outcome_bind Linked.prev Linked.next].
  destruct (Z.eqb_spec p NULL); [done|]. destruct (Z.eqb_spec n NULL); [done|].
  rewrite Hmp. cbn [deref mbind outcome_bind Linked.prev Linked.next
                      Linked.message].
  rewrite lookup_insert_ne, Hmn by done.
  cbn [deref mbind outcome_bind Linked.prev Linked.next Linked.message].
  rewrite !lookup_insert_ne, Hmel by congruence.
  cbn [deref mbind outcome_bind].
  eexists. split; [reflexivity|]. split; [|split].
  - apply linked_app. split; [apply linked_app; split|].
    + cbn [Linked.first_addr]. apply (linked_frame m); [|done].
      intros a Ha.
      assert (a ∉ [p]) as H1 by auto.
      assert (a ∉ el :: n :: c2.*1) as H2 by (apply Hdisj, elem_of_app; auto).
      apply not_elem_of_cons in H1 as [? _].
      apply not_elem_of_cons in H2 as [? H2].
      apply not_elem_of_cons in H2 as [? _].
      by rewrite lookup_delete_ne, !lookup_insert_ne by congruence.
    + cbn [Linked.linked Linked.first_addr]. split; [|done].
      rewrite lookup_delete_ne, lookup_insert_ne, lookup_insert_eq
        by congruence. done.
    + rewrite last_addr_snoc. cbn [Linked.linked fst]. split.
      * rewrite lookup_delete_ne, lookup_insert_eq by congruence.
        done.
      * apply (linked_frame m); [|done]. intros a Ha.
        rewrite lookup_delete_ne, !lookup_insert_ne; [done| | |];
          intros ->; done.
  - apply lookup_delete_eq.
  - intros a Hap Han Hael.
    by rewrite lookup_delete_ne, !lookup_insert_ne.
Qed.

Lemma chain_of_middle (l : Linked.dlist) (elems : list (Z * Message))
    (i : nat) (el : Z) (msg : Message) :
  elems !! i = Some (el, msg) →
  ∃ c1 p mp n mn c2,
    Linked.chain_of l elems
      = (c1 ++ [(p, mp)]) ++ (el, Some msg) :: (n, mn) :: c2 ∧
    Linked.chain_of l (delete i elems) = (c1 ++ [(p, mp)]) ++ (n, mn) :: c2.
Proof.
  intros Hi. unfold Linked.chain_of.
  pose proof (take_drop_middle elems i (el, msg) Hi) as Hs.
  rewrite delete_take_drop. revert Hs.
  generalize (take i elems) (drop (S i) elems). intros e1 e2 <-.
  rewrite !fmap_app. cbn [fmap list_fmap fst snd].
  set (E1 := (fun x => (x.1, Some x.2)) <$> e1).
  set (E2 := (fun x => (x.1, Some x.2)) <$> e2).
  destruct (snoc_inv (Linked.tail l, None) E1) as (c1 & [p mp] & Hc1).
  destruct (E2 ++ [(Linked.head l, None)]) as [|[n mn] c2] eqn:Hc2.
  { by destruct E2. }
  exists c1, p, mp, n, mn, c2.
  rewrite <- !app_assoc. cbn [app]. rewrite Hc2.
  rewrite !app_comm_cons, Hc1, <- !app_assoc. done.
Qed.

Lemma remove_from_list_spec (m : gmap Z Linked.elem) (l : Linked.dlist)
    (elems : list (Z * Message)) (i : nat) (el : Z) (msg : Message) :
  Linked.is_list m l elems → elems !! i = Some (el, msg) →
  ∃ m',
    Linked.remove_from_list m el = Done m' ∧
    Linked.is_list m' l (delete i elems) ∧ m' !! el = None ∧
    ∀ a, a ∉ (Linked.chain_of l elems).*1 → m' !! a = m !! a.
Proof.
  intros (Hnd & Hnull & Hlk) Hi.
  destruct (chain_of_middle l elems i el msg Hi)
    as (c1 & p & mp & n & mn & c2 & Hc & Hc').
  rewrite Hc in Hnd, Hnull, Hlk |- *.
  assert (p ≠ NULL ∧ n ≠ NULL) as [Hp Hn].
  { rewrite !fmap_app in Hnull. cbn [fmap list_fmap fst] in Hnull.
    apply not_elem_of_app in Hnull as [H1 H2].
    apply not_elem_of_app in H1 as [_ H1].
    apply not_elem_of_cons in H1 as [Hp _].
    apply not_elem_of_cons in H2 as [_ H2].
    apply not_elem_of_cons in H2 as [Hn _]. split; congruence. }
  destruct (remove_linked m c1 c2 p n el mp mn (Some msg) Hnd Hp Hn Hlk)
    as (m' & Hrm & Hlk' & Hel & Hframe).
  exists m'. split; [done|]. split; [|split; [done|]].
  - unfold Linked.is_list. rewrite Hc'. split; [|split; [|done]].
    + rewrite !fmap_app in Hnd |- *. cbn [fmap list_fmap fst] in Hnd |- *.
      apply NoDup_app in Hnd as (Hnd1 & Hdisj & Hnd2).
      apply NoDup_cons in Hnd2 as [_ Hnd2].
      apply NoDup_app. split; [done|]. split; [|done].
      intros x Hx Hx'. apply (Hdisj x Hx). by apply list_elem_of_further.
    + rewrite !fmap_app in Hnull |- *. cbn [fmap list_fmap fst] in Hnull |- *.
      apply not_elem_of_app in Hnull as [H1 H2].
      apply not_elem_of_cons in H2 as [_ H2].
      by apply not_elem_of_app.
  - intros a Ha. apply Hframe.
    all: intros ->; apply Ha; rewrite !fmap_app; cbn [fmap list_fmap fst];
      rewrite ?elem_of_app, ?elem_of_cons, ?elem_of_nil; auto.
Qed.

Lemma delete_loop_linked (fuel : nat) :
  ∀ (c : list (Z * option Message)) (m : gmap Z Linked.elem),
    NoDup c.*1 → NULL ∉ c.*1 → Linked.linked m NULL c NULL →
    (length c ≤ fuel)%nat →
    ∃ m',
      Linked.delete_loop fuel m (Linked.first_addr c NULL) = Some (Done m') ∧
      ∀ a, m' !! a = if bool_decide (a ∈ c.*1) then None else m !! a.
Proof.
  induction fuel as [|fuel IH]; intros c m Hnd Hnull Hlk Hfuel.
  - destruct c; [|simpl in Hfuel; lia]. exists m. split; [done|].
    intros a. by rewrite bool_decide_eq_false_2 by apply not_elem_of_nil.
  - destruct c as [|[el msg] rest].
    { exists m. split; [done|].
      intros a. by rewrite bool_decide_eq_false_2 by apply not_elem_of_nil. }
    cbn [fmap list_fmap fst Linked.linked Linked.first_addr] in *.
    apply NoDup_cons in Hnd as [Hel Hnd].
    apply not_elem_of_cons in Hnull as [Hel0 Hnull].
    destruct Hlk as [Hmel Hlk].
    cbn [Linked.delete_loop].
    destruct (Z.eqb_spec el NULL) as [|_]; [congruence|]. rewrite Hmel.
    unfold Linked.remove_from_list, Linked.set_next, Linked.set_prev,
      Linked.delete_elem.
    rewrite Hmel. cbn [deref mbind outcome_bind Linked.prev Linked.next].
    change (NULL =? NULL) with true. cbn [mbind outcome_bind].
    destruct rest as [|[n mn] rest'].
    + cbn [Linked.first_addr]. change (NULL =? NULL) with true.
      cbn [mbind outcome_bind]. rewrite Hmel. cbn [deref mbind outcome_bind].
      destruct (IH [] (delete el m)) as (m' & Hloop & Hm');
        [apply NoDup_nil_2|apply not_elem_of_nil|done|simpl; lia|].
      cbn [Linked.first_addr] in Hloop. rewrite Hloop.
      exists m'. split; [done|]. intros a. rewrite Hm'.
      rewrite bool_decide_eq_false_2 by apply not_elem_of_nil.
      destruct (decide (a = el)) as [->|Hne].
      * rewrite bool_decide_eq_true_2 by apply list_elem_of_here.
        apply lookup_delete_eq.
      * rewrite bool_decide_eq_false_2
          by (by rewrite list_elem_of_singleton).
        by apply lookup_delete_ne.
    + cbn [fmap list_fmap fst Linked.linked Linked.first_addr] in *.
      apply not_elem_of_cons in Hel as [Heln Hel].
      apply not_elem_of_cons in Hnull as [Hn0 Hnull].
      pose proof Hnd as Hnd'. apply NoDup_cons in Hnd' as [Hn Hnd'].
      destruct Hlk as [Hmn Hlk].
      destruct (Z.eqb_spec n NULL) as [|_]; [congruence|].
      rewrite Hmn. cbn [deref mbind outcome_bind Linked.prev Linked.next
                          Linked.message].
      rewrite lookup_insert_ne, Hmel by congruence.
      cbn [deref mbind outcome_bind].
      destruct (IH ((n, mn) :: rest')
                  (delete el
                     (<[n := {| Linked.next := Linked.first_addr rest' NULL;
                                Linked.prev := NULL;
                                Linked.message := mn |}]> m)))
        as (m' & Hloop & Hm').
      * done.
      * cbn. by apply not_elem_of_cons.
      * cbn [Linked.linked]. split.
        -- by rewrite lookup_delete_ne, lookup_insert_eq by congruence.
        -- apply (linked_frame m); [|done]. intros a Ha.
           rewrite lookup_delete_ne, lookup_insert_ne; [done| |];
             intros ->; done.
      * simpl in Hfuel |- *. lia.
      * cbn [Linked.first_addr] in Hloop. rewrite Hloop.
        exists m'. split; [done|]. intros a. rewrite Hm'.
        cbn [fmap list_fmap fst].
        destruct (decide (a = el)) as [->|Hne].
        -- rewrite (bool_decide_eq_true_2 (el ∈ el :: _))
             by apply list_elem_of_here.
           destruct (bool_decide _); [done|]. apply lookup_delete_eq.
        -- destruct (decide (a ∈ n :: rest'.*1)) as [Hin|Hnin].
           ++ rewrite !bool_decide_eq_true_2;
                [done|by apply list_elem_of_further|done].
           ++ rewrite !bool_decide_eq_false_2;
                [|by apply not_elem_of_cons|done].
              apply not_elem_of_cons in Hnin as [Han _].
              by rewrite lookup_delete_ne, lookup_insert_ne.
Qed.

Lemma remove_head_linked (m : gmap Z Linked.elem) (l : Linked.dlist)
    (elems : list (Z * Message)) :
  Linked.is_list m l elems →
  ∃ m',
    Linked.remove_from_list m (Linked.head l) = Done m' ∧
    m' !! Linked.head l = None ∧
    ∀ a, a ∉ (Linked.chain_of l elems).*1 → m' !! a = m !! a.
Proof.
  intros (Hnd & Hnull & Hlk). unfold Linked.chain_of in *.
  set (E := (fun x => (x.1, Some x.2)) <$> elems) in *.
  destruct (snoc_inv (Linked.tail l, None) E) as (pre & [p mp] & Hpre).
  rewrite app_comm_cons, Hpre in Hnd, Hnull, Hlk |- *.
  rewrite <- !app_assoc in Hnd, Hnull, Hlk |- *.
  cbn [app] in Hnd, Hnull, Hlk |- *.
  apply linked_app in Hlk as [_ Hend].
  cbn [Linked.linked Linked.first_addr] in Hend.
  destruct Hend as (Hp & Hhead & _).
  rewrite fmap_app in Hnd, Hnull |- *.
  cbn [fmap list_fmap fst] in Hnd, Hnull |- *.
  apply NoDup_app in Hnd as (_ & _ & Hnd2).
  apply NoDup_cons in Hnd2 as [Hph _].
  apply not_elem_of_cons in Hph as [Hph _].
  apply not_elem_of_app in Hnull as [_ Hnull].
  apply not_elem_of_cons in Hnull as [Hp0 _].
  unfold Linked.remove_from_list, Linked.set_next, Linked.set_prev,
    Linked.delete_elem.
  rewrite Hhead. cbn [deref mbind outcome_bind Linked.prev Linked.next].
  destruct (Z.eqb_spec p NULL) as [|_]; [congruence|].
  rewrite Hp. change (NULL =? NULL) with true.
  cbn [deref mbind outcome_bind Linked.prev Linked.next Linked.message].
  rewrite lookup_insert_ne, Hhead by congruence.
  cbn [deref mbind outcome_bind].
  eexists. split; [reflexivity|]. split; [apply lookup_delete_eq|].
  intros a Ha. apply not_elem_of_app in Ha as [_ Ha].
  apply not_elem_of_cons in Ha as [Hap Ha].
  apply not_elem_of_cons in Ha as [Hah _].
  by rewrite lookup_delete_ne, lookup_insert_ne.
Qed.

(** X14. [create_list], given two distinct fresh addresses by [malloc],
    builds a well-formed empty list: the two sentinels linked to each other.
    No other cell of the heap is touched, and a search of the new list ends
    at once on the [head] sentinel.  When [malloc] returns [NULL] the
    process stops. *)
Theorem create_list_empty (m : gmap Z Linked.elem) (head tail : Z)
    (b : Message) (fuel : nat) :
  m !! head = None → m !! tail = None → head ≠ tail →
  (head ≠ NULL ∧ tail ≠ NULL →
   ∃ l m',
     Linked.create_list m head tail = Done (l, m') ∧
     Linked.head l = head ∧ Linked.tail l = tail ∧
     Linked.is_list m' l [] ∧
     (∀ a, a ≠ head → a ≠ tail → m' !! a = m !! a) ∧
     Linked.find_elem_in_list fuel m' l b = Some (Done head)) ∧
  (head = NULL ∨ tail = NULL → Linked.create_list m head tail = Crash).
Proof.
  intros Hh Ht Hne. split.
  - intros [Hh0 Ht0].
    destruct (create_list_spec m head tail Hh Ht Hne Hh0 Ht0)
      as (m' & Hc & Hl & Hframe).
    eexists _, m'. split; [exact Hc|]. split; [done|]. split; [done|].
    split; [done|]. split; [done|].
    destruct Hl as (_ & _ & Hlk). cbn in Hlk. destruct Hlk as (Htl & Hhd & _).
    unfold Linked.find_elem_in_list. cbn [Linked.tail]. rewrite Htl.
    cbn [Linked.next]. destruct fuel; cbn [Linked.find_loop]; by rewrite Hhd.
  - unfold Linked.create_list, Linked.create_elem.
    intros [->| ->]; [done|]. by destruct (head =? NULL).
Qed.

Lemma create_list_empty_witness :
  ∃ m',
    Linked.create_list ∅ 8 16
      = Done ({| Linked.head := 8; Linked.tail := 16 |}, m') ∧
    m' !! 16 = Some {| Linked.next := 8; Linked.prev := NULL;
                       Linked.message := None |} ∧
    m' !! 8 = Some {| Linked.next := NULL; Linked.prev := 16;
                      Linked.message := None |}.
Proof.
  destruct (create_list_empty ∅ 8 16 MIMPI_DEFAULT_MSG 0)
    as [Hok _]; [reflexivity|reflexivity|lia|].
  destruct Hok as (l & m' & Hc & Hh & Ht & _); [unfold NULL; lia|].
  vm_compute in Hc. injection Hc as <- <-.
  eexists. split; [vm_compute; reflexivity|]. split; reflexivity.
Defined.

(** X15. [push_front] of an element just made by [create_elem] links it in
    as the last element of the list, next to the [head] sentinel: the list
    is well formed again and its messages are those of [push_front] on
    sequences, the earlier ones in the same order followed by the new one.
    No cell outside the list is touched. *)
Theorem push_front_appends (m : gmap Z Linked.elem) (l : Linked.dlist)
    (elems : list (Z * Message)) (el : Z) (msg : Message) :
  Linked.is_list m l elems → m !! el = None → el ≠ NULL →
  ∃ m1 m',
    Linked.create_elem m el NULL NULL (Some msg) = Done m1 ∧
    Linked.push_front m1 l el = Done m' ∧
    Linked.is_list m' l (elems ++ [(el, msg)]) ∧
    (elems ++ [(el, msg)]).*2 = push_front elems.*2 msg ∧
    ∀ a, a ∉ (Linked.chain_of l elems).*1 → a ≠ el → m' !! a = m !! a.
Proof.
  intros Hl Hfresh Hel.
  destruct (push_front_spec m l elems el msg Hl Hfresh Hel)
    as (m1 & m' & Hc & Hp & Hl' & Hframe).
  exists m1, m'. split; [done|]. split; [done|]. split; [done|].
  split; [|done]. unfold push_front. by rewrite fmap_app.
Qed.

Lemma push_front_appends_witness :
  let l := {| Linked.head := 8; Linked.tail := 16 |} in
  let m : gmap Z Linked.elem :=
    {[16 := {| Linked.next := 8; Linked.prev := NULL;
               Linked.message := None |};
      8 := {| Linked.next := NULL; Linked.prev := 16;
              Linked.message := None |}]} in
  ∃ m1 m',
    Linked.create_elem m 24 NULL NULL (Some MIMPI_DEFAULT_MSG) = Done m1 ∧
    Linked.push_front m1 l 24 = Done m' ∧
    Linked.is_list m' l [(24, MIMPI_DEFAULT_MSG)].
Proof.
  intros l m.
  destruct (push_front_appends m l [] 24 MIMPI_DEFAULT_MSG)
    as (m1 & m' & Hc & Hp & Hl & _).
  - split; [|split].
    + by apply (bool_decide_unpack _).
    + by apply (bool_decide_unpack _).
    + cbn. repeat split; reflexivity.
  - reflexivity.
  - unfold NULL. lia.
  - exists m1, m'. split; [done|]. split; done.
Defined.

(** X16. [find_elem_in_list] walks a well-formed list from [tail->next] and
    ends within as many steps as the list has elements: it returns the
    address of the first element whose message matches the filter, the one
    at the position [find_elem_in_list] gives on the sequence of messages,
    and the [head] sentinel when no message matches. *)
Theorem find_elem_in_list_first (m : gmap Z Linked.elem) (l : Linked.dlist)
    (elems : list (Z * Message)) (b : Message) (fuel : nat) :
  Linked.is_list m l elems → (length elems ≤ fuel)%nat →
  ∃ el,
    Linked.find_elem_in_list fuel m l b = Some (Done el) ∧
    match find_elem_in_list elems.*2 b with
    | Some i =>
        ∃ msg, elems !! i = Some (el, msg) ∧ compare_message msg b = true ∧
               ∀ j x, (j < i)%nat → elems !! j = Some x →
                      compare_message x.2 b = false
    | None =>
        el = Linked.head l ∧
        ∀ x, x ∈ elems → compare_message x.2 b = false
    end.
Proof.
  intros (Hnd & Hnull & Hlk) Hfuel.
  rewrite chain_of_addrs in Hnd. unfold Linked.chain_of in Hlk.
  cbn [Linked.linked] in Hlk. destruct Hlk as [Htl Hlk].
  apply NoDup_cons in Hnd as [_ Hnd]. apply NoDup_app in Hnd as (_ & Hdisj & _).
  assert (Linked.head l ∉ elems.*1) as Hhead.
  { intros Hin. apply (Hdisj _ Hin), list_elem_of_here. }
  unfold Linked.find_elem_in_list. rewrite Htl. cbn [Linked.next].
  rewrite (find_loop_linked m l b elems (Linked.tail l) fuel Hhead Hlk Hfuel).
  eexists. split; [reflexivity|].
  destruct (find_elem_in_list elems.*2 b) as [i|] eqn:Hfind.
  - apply find_elem_in_list_Some in Hfind as [(a & Ha & Hcmp) Hfirst].
    rewrite list_lookup_fmap in Ha.
    destruct (elems !! i) as [[el msg]|] eqn:Hi; [|done].
    injection Ha as <-. exists msg. rewrite list_lookup_fmap, Hi.
    split; [done|]. split; [done|]. intros j x Hj Hx.
    apply (Hfirst j); [done|]. by rewrite list_lookup_fmap, Hx.
  - split; [done|]. intros x Hx.
    destruct (compare_message x.2 b) eqn:Hcmp; [|done].
    apply list_elem_of_lookup in Hx as [i Hi].
    assert (∃ k, find_elem_in_list elems.*2 b = Some k) as [k Hk]; [|congruence].
    clear -Hi Hcmp. revert i Hi.
    induction elems as [|y elems IH]; intros i Hi; [done|].
    cbn [fmap list_fmap find_elem_in_list].
    destruct (compare_message y.2 b) eqn:Hy; [eauto|].
    destruct i as [|i]; [simpl in Hi; congruence|].
    destruct (IH i Hi) as [k ->]. eauto.
Qed.

Lemma find_elem_in_list_first_witness :
  let l := {| Linked.head := 8; Linked.tail := 16 |} in
  let m : gmap Z Linked.elem :=
    {[16 := {| Linked.next := 24; Linked.prev := NULL;
               Linked.message := None |};
      24 := {| Linked.next := 8; Linked.prev := 16;
               Linked.message := Some (create_message 7 3 1 None) |};
      8 := {| Linked.next := NULL; Linked.prev := 24;
              Linked.message := None |}]} in
  Linked.find_elem_in_list 1 m l (create_message MIMPI_ANY_TAG 3 1 None)
  = Some (Done 24).
Proof.
  intros l m.
  destruct (find_elem_in_list_first m l [(24, create_message 7 3 1 None)]
              (create_message MIMPI_ANY_TAG 3 1 None) 1)
    as (el & -> & Hel).
  - split; [|split].
    + by apply (bool_decide_unpack _).
    + by apply (bool_decide_unpack _).
    + cbn. repeat split; reflexivity.
  - simpl. lia.
  - cbn in Hel. destruct Hel as (msg & Hmsg & _). by injection Hmsg as <- _.
Defined.

(** X17. [remove_from_list] applied to an element of a well-formed list
    unlinks and frees that element alone: the list is well formed again,
    its messages are those of [remove_from_list] on sequences (the others,
    in the same order), and no cell outside the list is touched. *)
Theorem remove_from_list_unlinks (m : gmap Z Linked.elem) (l : Linked.dlist)
    (elems : list (Z * Message)) (i : nat) (el : Z) (msg : Message) :
  Linked.is_list m l elems → elems !! i = Some (el, msg) →
  ∃ m',
    Linked.remove_from_list m el = Done m' ∧
    Linked.is_list m' l (delete i elems) ∧
    (delete i elems).*2 = remove_from_list elems.*2 i ∧
    m' !! el = None ∧
    ∀ a, a ∉ (Linked.chain_of l elems).*1 → m' !! a = m !! a.
Proof.
  intros Hl Hi.
  destruct (remove_from_list_spec m l elems i el msg Hl Hi)
    as (m' & Hrm & Hl' & Hel & Hframe).
  exists m'. split; [done|]. split; [done|]. split; [|done].
  unfold remove_from_list. by rewrite list_fmap_delete.
Qed.

Lemma remove_from_list_unlinks_witness :
  let l := {| Linked.head := 8; Linked.tail := 16 |} in
  let m : gmap Z Linked.elem :=
    {[16 := {| Linked.next := 24; Linked.prev := NULL;
               Linked.message := None |};
      24 := {| Linked.next := 8; Linked.prev := 16;
               Linked.message := Some (create_message 7 3 1 None) |};
      8 := {| Linked.next := NULL; Linked.prev := 24;
              Linked.message := None |}]} in
  ∃ m', Linked.remove_from_list m 24 = Done m' ∧ Linked.is_list m' l [].
Proof.
  intros l m.
  destruct (remove_from_list_unlinks m l [(24, create_message 7 3 1 None)]
              0 24 (create_message 7 3 1 None))
    as (m' & Hrm & Hl & _).
  - split; [|split].
    + by apply (bool_decide_unpack _).
    + by apply (bool_decide_unpack _).
    + cbn. repeat split; reflexivity.
  - reflexivity.
  - exists m'. split; done.
Defined.

(** X18. [delete_list] on a well-formed list ends after as many turns of
    its loop as the list has cells, the two sentinels included, and frees
    every one of them; no cell outside the list is touched. *)
Theorem delete_list_frees (m : gmap Z Linked.elem) (l : Linked.dlist)
    (elems : list (Z * Message)) (fuel : nat) :
  Linked.is_list m l elems → (length elems + 2 ≤ fuel)%nat →
  ∃ m',
    Linked.delete_list fuel m l = Some (Done m') ∧
    m' !! Linked.head l = None ∧ m' !! Linked.tail l = None ∧
    (∀ x, x ∈ elems → m' !! x.1 = None) ∧
    ∀ a, a ∉ (Linked.chain_of l elems).*1 → m' !! a = m !! a.
Proof.
  intros (Hnd & Hnull & Hlk) Hfuel.
  destruct (delete_loop_linked fuel (Linked.chain_of l elems) m Hnd Hnull Hlk)
    as (m' & Hloop & Hm').
  { unfold Linked.chain_of. cbn [length].
    rewrite length_app, length_fmap. simpl. lia. }
  exists m'. split; [exact Hloop|].
  rewrite chain_of_addrs in Hm' |- *.
  split; [|split; [|split]].
  - rewrite Hm', bool_decide_eq_true_2; [done|].
    apply list_elem_of_further, elem_of_app. right. apply list_elem_of_here.
  - rewrite Hm', bool_decide_eq_true_2; [done|]. apply list_elem_of_here.
  - intros x Hx. rewrite Hm', bool_decide_eq_true_2; [done|].
    apply list_elem_of_further, elem_of_app. left.
    apply list_elem_of_fmap. by exists x.
  - intros a Ha. by rewrite Hm', bool_decide_eq_false_2.
Qed.

Lemma delete_list_frees_witness :
  let l := {| Linked.head := 8; Linked.tail := 16 |} in
  let m : gmap Z Linked.elem :=
    {[16 := {| Linked.next := 24; Linked.prev := NULL;
               Linked.message := None |};
      24 := {| Linked.next := 8; Linked.prev := 16;
               Linked.message := Some (create_message 7 3 1 None) |};
      8 := {| Linked.next := NULL; Linked.prev := 24;
              Linked.message := None |};
      32 := {| Linked.next := NULL; Linked.prev := NULL;
               Linked.message := None |}]} in
  ∃ m', Linked.delete_list 3 m l = Some (Done m') ∧
        m' !! 24 = None ∧ m' !! 32 = m !! 32.
Proof.
  intros l m.
  destruct (delete_list_frees m l [(24, create_message 7 3 1 None)] 3)
    as (m' & Hd & _ & _ & Hel & Hframe).
  - split; [|split].
    + by apply (bool_decide_unpack _).
    + by apply (bool_decide_unpack _).
    + cbn. repeat split; reflexivity.
  - simpl. lia.
  - exists m'. split; [done|]. split.
    + apply (Hel (24, create_message 7 3 1 None)), list_elem_of_here.
    + apply Hframe. by apply (bool_decide_unpack _).
Defined.

(** X19. On an empty list [tail->next] is the [head] sentinel itself, and
    [find_elem_in_list] returns that sentinel whenever no message matches.
    [remove_from_list] applied to the [head] sentinel of a well-formed list
    unlinks and frees it like any element, so that the [head] pointer of
    the list is left dangling: a later [push_front] on that list, or a
    second removal of its [head], dereferences the freed cell. *)
Theorem remove_head_sentinel (m : gmap Z Linked.elem) (l : Linked.dlist)
    (elems : list (Z * Message)) (el : Z) :
  Linked.is_list m l elems →
  (elems = [] →
   ∃ t, m !! Linked.tail l = Some t ∧ Linked.next t = Linked.head l) ∧
  ∃ m',
    Linked.remove_from_list m (Linked.head l) = Done m' ∧
    m' !! Linked.head l = None ∧
    (∀ a, a ∉ (Linked.chain_of l elems).*1 → m' !! a = m !! a) ∧
    Linked.push_front m' l el = Crash ∧
    Linked.remove_from_list m' (Linked.head l) = Crash.
Proof.
  intros Hl. split.
  - intros ->. destruct Hl as (_ & _ & Hlk). cbn in Hlk.
    destruct Hlk as [Ht _]. eauto.
  - destruct (remove_head_linked m l elems Hl) as (m' & Hrm & Hh & Hframe).
    exists m'. split; [done|]. split; [done|]. split; [done|].
    unfold Linked.push_front, Linked.remove_from_list. by rewrite Hh.
Qed.

Lemma remove_head_sentinel_witness :
  let l := {| Linked.head := 8; Linked.tail := 16 |} in
  let m : gmap Z Linked.elem :=
    {[16 := {| Linked.next := 8; Linked.prev := NULL;
               Linked.message := None |};
      8 := {| Linked.next := NULL; Linked.prev := 16;
              Linked.message := None |}]} in
  ∃ m',
    Linked.remove_from_list m 8 = Done m' ∧ m' !! 8 = None ∧
    Linked.push_front m' l 24 = Crash.
Proof.
  intros l m.
  destruct (remove_head_sentinel m l [] 24) as [_ (m' & Hrm & Hh & _ & Hp & _)].
  - split; [|split].
    + by apply (bool_decide_unpack _).
    + by apply (bool_decide_unpack _).
    + cbn. repeat split; reflexivity.
  - exists m'. split; [done|]. split; done.
Defined.

(** * A world of processes in a collective *)

Lemma filter_take_le {A : Type} (P : A → Prop) `{!∀ x, Decision (P x)}
    (n m : nat) (l : list A) :
  (n ≤ m)%nat →
  (length (filter P (take n l)) ≤ length (filter P (take m l)))%nat.
Proof.
  intros Hnm. replace m with (n + (m - n))%nat by lia.
  rewrite <- take_take_drop, filter_app, length_app. lia.
Qed.

Lemma ready_monotone (table : list (list event)) (v u : nat → nat) (i : nat) :
  ready table v i = true → (∀ k, (v k ≤ u k)%nat) → v i = u i →
  ready table u i = true.
Proof.
  unfold ready. intros Hr Hle Hi. rewrite <- Hi.
  destruct (script table i !! v i) as [[d c dst t|d c src t]|]; [done| |done].
  apply Nat.ltb_lt in Hr. apply Nat.ltb_lt.
  eapply Nat.lt_le_trans; [exact Hr|]. unfold sent.
  apply filter_take_le, Hle.
Qed.

Lemma ready_within (table : list (list event)) (v : nat → nat) (i : nat) :
  ready table v i = true →
  (v i < length (script table i))%nat ∧ (i < length table)%nat.
Proof.
  unfold ready. destruct (script table i !! v i) as [e|] eqn:He; [|done].
  intros _. apply lookup_lt_Some in He. split; [done|].
  unfold script in He. destruct (table !! i) eqn:Hi; [|simpl in He; lia].
  by apply lookup_lt_Some in Hi.
Qed.

Lemma world_run_progress (table : list (list event)) (pos : nat → nat)
    (schedule : list nat) :
  ∀ v v' : nat → nat,
    (∀ k, (v k ≤ pos k)%nat) → world_run table schedule v = Some v' →
    (∃ k, (pos k < v' k)%nat) → ∃ i, ready table pos i = true.
Proof.
  induction schedule as [|i rest IH]; intros v v' Hle Hrun [k Hk];
    cbn [world_run] in Hrun.
  - injection Hrun as <-. specialize (Hle k). lia.
  - unfold world_step in Hrun.
    destruct (ready table v i) eqn:Hr; [|done].
    destruct (decide (v i < pos i)%nat) as [Hlt|Hge].
    + apply (IH (advance v i) v'); [|done|by exists k].
      intros j. unfold advance. destruct (decide (j = i)) as [->|]; [lia|done].
    + exists i. apply (ready_monotone table v); [done|done|].
      specialize (Hle i). lia.
Qed.

Lemma world_run_bound (table : list (list event)) (u : nat → nat) (j : nat)
    (schedule : list nat) :
  (∀ i, i ≠ j → ready table u i = false) →
  ∀ v v' : nat → nat,
    (∀ k, (v k ≤ u k)%nat) → j ∉ schedule →
    world_run table schedule v = Some v' → ∀ k, (v' k ≤ u k)%nat.
Proof.
  intros Hstuck.
  induction schedule as [|i rest IH]; intros v v' Hle Hj Hrun;
    cbn [world_run] in Hrun.
  - by injection Hrun as <-.
  - apply not_elem_of_cons in Hj as [Hji Hj].
    unfold world_step in Hrun. destruct (ready table v i) eqn:Hr; [|done].
    apply (IH (advance v i) v'); [|done|done].
    intros k. unfold advance. destruct (decide (k = i)) as [->|]; [|done].
    destruct (decide (v i < u i)%nat) as [|Hge]; [lia|].
    assert (ready table u i = true) as Hru.
    { apply (ready_monotone table v); [done|done|]. specialize (Hle i). lia. }
    rewrite Hstuck in Hru by congruence. done.
Qed.

Lemma world_run_grows (table : list (list event)) (schedule : list nat) :
  ∀ v v' : nat → nat,
    world_run table schedule v = Some v' →
    ∀ k, (v k ≤ v' k)%nat ∧ (k ∈ schedule → (v k < v' k)%nat).
Proof.
  induction schedule as [|i rest IH]; intros v v' Hrun k;
    cbn [world_run] in Hrun.
  - injection Hrun as <-. split; [done|]. intros H. by apply elem_of_nil in H.
  - unfold world_step in Hrun. destruct (ready table v i); [|done].
    destruct (IH _ _ Hrun k) as [Hle Hin]. unfold advance in Hle, Hin.
    destruct (decide (k = i)) as [->|Hne].
    + split; lia.
    + split; [done|]. intros H. apply elem_of_cons in H as [|H]; [done|auto].
Qed.

Lemma world_run_within (table : list (list event)) (schedule : list nat) :
  ∀ v v' : nat → nat,
    (∀ k, (v k ≤ length (script table k))%nat) →
    world_run table schedule v = Some v' →
    ∀ k, (v' k ≤ length (script table k))%nat.
Proof.
  induction schedule as [|i rest IH]; intros v v' Hle Hrun;
    cbn [world_run] in Hrun.
  - by injection Hrun as <-.
  - unfold world_step in Hrun. destruct (ready table v i) eqn:Hr; [|done].
    apply ready_within in Hr as [Hr _].
    apply (IH (advance v i) v'); [|done].
    intros k. unfold advance. destruct (decide (k = i)) as [->|]; [lia|done].
Qed.

Lemma first_ready_Some (table : list (list event)) (pos : nat → nat)
    (R : list nat) (i : nat) :
  first_ready table pos R = Some i → i ∈ R ∧ ready table pos i = true.
Proof.
  unfold first_ready.
  destruct (list_find _ R) as [[k x]|] eqn:Hf; [|done].
  cbn. intros [= <-]. apply list_find_Some in Hf as (Hk & Hr & _).
  split; [|done]. by eapply list_elem_of_lookup_2.
Qed.

Lemma first_ready_None (table : list (list event)) (pos : nat → nat)
    (R : list nat) (i : nat) :
  first_ready table pos R = None → i ∈ R → ready table pos i = false.
Proof.
  unfold first_ready.
  destruct (list_find _ R) as [[k x]|] eqn:Hf; [done|]. intros _ Hi.
  apply list_find_None in Hf. rewrite Forall_forall in Hf.
  specialize (Hf i Hi). by destruct (ready table pos i).
Qed.

Lemma eager_schedule_run (table : list (list event)) (R : list nat)
    (fuel : nat) :
  ∀ (pos : nat → nat) (s : list nat) (pos' : nat → nat),
    eager_schedule fuel table R pos = (s, pos') →
    world_run table s pos = Some pos' ∧ ∀ i, i ∈ s → i ∈ R.
Proof.
  induction fuel as [|fuel IH]; intros pos s pos'; cbn [eager_schedule].
  - intros [= <- <-]. split; [done|]. intros i H. by apply elem_of_nil in H.
  - destruct (first_ready table pos R) as [i|] eqn:Hf; cycle 1.
    { intros [= <- <-]. split; [done|]. intros i H. by apply elem_of_nil in H. }
    destruct (eager_schedule fuel table R (advance pos i)) as [s1 pos1] eqn:He.
    intros [= <- <-]. apply first_ready_Some in Hf as [HiR Hr].
    destruct (IH _ _ _ He) as [Hrun HR]. split.
    + cbn [world_run]. unfold world_step. by rewrite Hr.
    + intros k Hk. apply elem_of_cons in Hk as [->|Hk]; auto.
Qed.

Lemma sum_list_snoc (l : list nat) (x : nat) :
  sum_list (l ++ [x]) = (sum_list l + x)%nat.
Proof. induction l as [|y l IH]; simpl; lia. Qed.

Lemma sum_advance (v : nat → nat) (i n : nat) :
  sum_list (advance v i <$> seq 0 n)
  = (sum_list (v <$> seq 0 n) + if decide (i < n)%nat then 1 else 0)%nat.
Proof.
  induction n as [|n IH]; [done|].
  rewrite seq_S, !fmap_app. cbn [fmap list_fmap].
  rewrite !sum_list_snoc, IH. cbn. unfold advance.
  destruct (decide (n = i)) as [->|];
    repeat destruct (decide _); lia.
Qed.

Lemma sum_le (v u : nat → nat) (n : nat) :
  (∀ k, (v k ≤ u k)%nat) →
  (sum_list (v <$> seq 0 n) ≤ sum_list (u <$> seq 0 n))%nat.
Proof.
  intros Hle. induction n as [|n IH]; [done|].
  rewrite seq_S, !fmap_app. cbn [fmap list_fmap].
  rewrite !sum_list_snoc. cbn. specialize (Hle n). lia.
Qed.

Lemma script_lengths (table : list (list event)) :
  (fun k => length (script table k)) <$> seq 0 (length table)
  = length <$> table.
Proof.
  apply list_eq. intros k. rewrite !list_lookup_fmap.
  destruct (decide (k < length table)%nat) as [Hk|Hk].
  - rewrite lookup_seq_lt by done. cbn. unfold script.
    destruct (lookup_lt_is_Some_2 table k Hk) as [x ->]. done.
  - rewrite lookup_seq_ge, lookup_ge_None_2 by lia. done.
Qed.

Lemma world_run_length (table : list (list event)) (schedule : list nat) :
  ∀ v v' : nat → nat,
    world_run table schedule v = Some v' →
    sum_list (v' <$> seq 0 (length table))
    = (sum_list (v <$> seq 0 (length table)) + length schedule)%nat.
Proof.
  induction schedule as [|i rest IH]; intros v v' Hrun; cbn [world_run] in Hrun.
  - injection Hrun as <-. simpl. lia.
  - unfold world_step in Hrun. destruct (ready table v i) eqn:Hr; [|done].
    apply ready_within in Hr as [_ Hi]. rewrite (IH _ _ Hrun), sum_advance.
    destruct (decide (i < length table)%nat); [|done]. simpl. lia.
Qed.

Lemma forallb_false {A : Type} (f : A → bool) (l : list A) :
  forallb f l = false → ∃ x, x ∈ l ∧ f x = false.
Proof.
  induction l as [|y l IH]; [done|]. cbn [forallb].
  destruct (f y) eqn:Hy.
  - intros H. destruct (IH H) as (x & Hx & Hfx).
    exists x. split; [by apply list_elem_of_further|done].
  - intros _. exists y. split; [apply list_elem_of_here|done].
Qed.

(** What the two checks on a world give for all its executions. *)
Lemma world_checked (table : list (list event)) (schedule : list nat)
    (pos : nat → nat) :
  completes table = true →
  world_run table schedule (fun _ => O) = Some pos →
  (length schedule ≤ total_calls table)%nat ∧
  (all_done table pos = false → ∃ i, ready table pos i = true) ∧
  (waits_for_all table = true →
   (∃ i, (i < length table)%nat ∧ pos i = length (script table i)) →
   ∀ j, (j < length table)%nat → (1 ≤ pos j)%nat).
Proof.
  intros Hc Hrun.
  assert (∀ k, (pos k ≤ length (script table k))%nat) as Hwithin.
  { apply (world_run_within table schedule (fun _ => O)); [|done].
    intros k. lia. }
  split; [|split].
  - pose proof (world_run_length _ _ _ _ Hrun) as Hlen.
    pose proof (sum_le pos (fun k => length (script table k)) (length table)
                  Hwithin) as Hsum.
    rewrite script_lengths in Hsum. unfold total_calls.
    assert (sum_list ((fun _ : nat => O) <$> seq 0 (length table)) = O) as Hz.
    { rewrite sum_list_fmap_const. lia. }
    lia.
  - intros Hnot. unfold completes in Hc.
    destruct (eager_schedule _ _ _ _) as [s final] eqn:He.
    apply eager_schedule_run in He as [Hfinal _].
    apply (world_run_progress table pos s (fun _ => O) final);
      [intros; lia|done|].
    unfold all_done in Hc, Hnot.
    rewrite forallb_forall in Hc.
    apply forallb_false in Hnot as (k & Hin & Hk).
    apply list_elem_of_In in Hin.
    specialize (Hc k Hin). apply Nat.eqb_eq in Hc. apply Nat.eqb_neq in Hk.
    exists k. specialize (Hwithin k). lia.
  - intros Hw [i [Hi Hdone]] j Hj.
    destruct (decide (1 ≤ pos j)%nat) as [|Hzero]; [done|]. exfalso.
    unfold waits_for_all in Hw. rewrite forallb_forall in Hw.
    specialize (Hw j). unfold ranks in Hw.
    rewrite <- list_elem_of_In, elem_of_seq in Hw.
    specialize (Hw ltac:(lia)).
    destruct (eager_schedule _ _ _ _) as [s u] eqn:He.
    apply andb_prop in Hw as [Hstuck Hshort].
    rewrite forallb_forall in Hstuck, Hshort.
    assert (j ∉ schedule) as Hjs.
    { intros Hin.
      destruct (world_run_grows _ _ _ _ Hrun j) as [_ Hlt].
      specialize (Hlt Hin). lia. }
    assert (∀ k, (pos k ≤ u k)%nat) as Hbound.
    { apply (world_run_bound table u j schedule) with (v := fun _ => O);
        [|intros; lia|done|done].
      intros k Hk. destruct (decide (k < length table)%nat) as [Hlt|Hge].
      - specialize (Hstuck k).
        rewrite <- list_elem_of_In, elem_of_seq in Hstuck.
        specialize (Hstuck ltac:(lia)).
        apply orb_prop in Hstuck as [Hn|He'].
        + by apply negb_true_iff in Hn.
        + apply Nat.eqb_eq in He'. congruence.
      - destruct (ready table u k) eqn:Hr; [|done].
        apply ready_within in Hr as [_ Hr]. lia. }
    specialize (Hshort i). rewrite <- list_elem_of_In, elem_of_seq in Hshort.
    specialize (Hshort ltac:(lia)). apply Nat.ltb_lt in Hshort.
    specialize (Hbound i). lia.
Qed.

Lemma Barrier_checked_all :
  forallb Barrier_checked (seqZ 2 15) = true.
Proof. vm_compute. reflexivity. Qed.

(** X20. A world of [W] processes, [2 <= W <= 16], that all call
    [MIMPI_Barrier] while none leaves: the run of every rank returns
    success, and in every interleaving of the calls of the ranks, however
    far it has gone, no rank has completed its Barrier unless every rank
    has completed at least the first call of its own (so every rank has
    entered the Barrier); as long as some rank has not completed its
    Barrier some rank can make its next call; and no interleaving is longer
    than the number of calls in all the runs.  Every rank thus leaves the
    Barrier, and none before all have entered. *)
Theorem Barrier_synchronises (W : Z) (schedule : list nat) (pos : nat → nat) :
  2 ≤ W ≤ MAXSIZE →
  ∃ table,
    Barrier_world W = Some table ∧ length table = Z.to_nat W ∧
    (world_run table schedule (fun _ => O) = Some pos →
     (length schedule ≤ total_calls table)%nat ∧
     (all_done table pos = false → ∃ i, ready table pos i = true) ∧
     ((∃ i, (i < length table)%nat ∧ pos i = length (script table i)) →
      ∀ j, (j < length table)%nat → (1 ≤ pos j)%nat)).
Proof.
  intros HW. pose proof Barrier_checked_all as Hall.
  rewrite forallb_forall in Hall. specialize (Hall W).
  rewrite <- list_elem_of_In, elem_of_seqZ in Hall.
  unfold MAXSIZE in HW. specialize (Hall ltac:(lia)).
  unfold Barrier_checked in Hall.
  destruct (Barrier_world W) as [table|]; [|done].
  apply andb_prop in Hall as [Hall Hw]. apply andb_prop in Hall as [Hlen Hc].
  apply Nat.eqb_eq in Hlen.
  exists table. split; [done|]. split; [done|]. intros Hrun.
  destruct (world_checked table schedule pos Hc Hrun) as (H1 & H2 & H3).
  auto.
Qed.

Lemma Barrier_synchronises_witness :
  ∃ table pos,
    Barrier_world 3 = Some table ∧
    world_run table [2; 1; 0; 0; 0; 0; 1; 2]%nat (fun _ => O) = Some pos ∧
    all_done table pos = true ∧
    world_run table [2; 2]%nat (fun _ => O) = None.
Proof.
  destruct (Barrier_synchronises 3 [2; 1; 0; 0; 0; 0; 1; 2]%nat
              (fun k => match k with
                        | 0 => 4 | 1 => 2 | 2 => 2 | _ => 0
                        end)%nat)
    as (table & Ht & _ & _); [unfold MAXSIZE; lia|].
  vm_compute in Ht. injection Ht as <-.
  eexists _, _. split; [vm_compute; reflexivity|].
  split; [vm_compute; reflexivity|]. split; vm_compute; reflexivity.
Defined.

Lemma exec_calls_sat (P : event → Prop) (p : prog MIMPI_Retcode) :
  calls_sat P p →
  ∀ (env : nat → response) (alloc : Z → Z) (n : nat) (h : heap)
    (rc : MIMPI_Retcode) (h' : heap) (tr : list event),
    exec p env alloc n h = Some (rc, h', tr) → Forall P tr.
Proof.
  induction 1 as [rc0|d c dst t k HP Hk IH|d c src t k HP Hk IH|s k Hk IH
                 |d s m k Hk IH|q k Hk IH|];
    intros env alloc n h rc h' tr Hexec; cbn [exec] in Hexec.
  - injection Hexec as <- <- <-. constructor.
  - destruct (exec (k _) env alloc (S n) h) as [[[a h1] tr1]|] eqn:He; [|done].
    injection Hexec as <- <- <-. constructor; [done|]. by eapply IH.
  - destruct (exec (k _) env alloc (S n) _) as [[[a h1] tr1]|] eqn:He; [|done].
    injection Hexec as <- <- <-. constructor; [done|]. by eapply IH.
  - destruct ((s <? 0) || (alloc s =? NULL)); [done|]. by eapply IH.
  - by eapply IH.
  - by eapply IH.
  - done.
Qed.

Lemma cs_bind (P : event → Prop) (p : prog MIMPI_Retcode)
    (f : MIMPI_Retcode → prog MIMPI_Retcode) :
  calls_sat P p → (∀ rc, calls_sat P (f rc)) → calls_sat P (bind p f).
Proof. induction 1; intros Hf; cbn [bind]; try constructor; auto. Qed.

Lemma cs_handle (P : event → Prop) (p rest : prog MIMPI_Retcode) :
  calls_sat P p → calls_sat P rest → calls_sat P (HANDLE_REMOTE_FINISHED p rest).
Proof.
  intros Hp Hrest. unfold HANDLE_REMOTE_FINISHED. apply cs_bind; [done|].
  intros rc. destruct (decide _); [constructor|done].
Qed.

Lemma cs_children_loop (P : event → Prop) (call : Z → prog MIMPI_Retcode)
    (root W : Z) (rest : prog MIMPI_Retcode) :
  (∀ helper, calls_sat P (call helper)) → calls_sat P rest →
  ∀ (fuel : nat) (start_from power : Z),
    calls_sat P (children_loop fuel call root start_from power W rest).
Proof.
  intros Hcall Hrest. induction fuel as [|fuel IH]; intros sf pw;
    cbn [children_loop]; destruct (sf <? W); try done; [constructor|].
  by apply cs_handle.
Qed.

Lemma cs_communication_loop (fuel : nat) (data count root tag rank W : Z)
    (begin : bool) (tag0 count0 : Z) :
  carries tag0 count0 (EvSend data count 0 tag) →
  calls_sat (carries tag0 count0)
    (communication_loop fuel data count root tag rank W begin).
Proof.
  intros Hc.
  assert (∀ dst, carries tag0 count0 (EvSend data count dst tag)) as Hs by done.
  assert (∀ src, carries tag0 count0 (EvRecv data count src tag)) as Hr by done.
  unfold communication_loop.
  destruct (tree_init rank root) as [[receive_from power] start_from].
  destruct begin.
  - apply cs_children_loop.
    + intros helper. constructor; [done|]. constructor.
    + destruct (negb _); [|constructor].
      apply cs_handle; [|constructor]. constructor; [done|]. constructor.
  - destruct (negb _).
    + apply cs_handle.
      * constructor; [done|]. constructor.
      * apply cs_children_loop; [|constructor].
        intros helper. constructor; [done|]. constructor.
    + apply cs_children_loop; [|constructor].
      intros helper. constructor; [done|]. constructor.
Qed.

Lemma carries_sentinel (tag count d dst : Z) :
  carries tag count (EvSend d MIMPI_DEFAULT_COUNT dst MIMPI_NO_MESSAGE_TAG).
Proof. by left. Qed.

Lemma carries_payload (tag count d dst : Z) :
  carries tag count (EvSend d count dst tag).
Proof. by right. Qed.

Lemma cs_Barrier (W rank : Z) (fuel : nat) (tag count : Z) :
  calls_sat (carries tag count) (MIMPI_Barrier W rank fuel).
Proof.
  apply cs_handle; apply cs_communication_loop, carries_sentinel.
Qed.

Lemma cs_Bcast (W rank : Z) (fuel : nat) (data count root : Z) :
  calls_sat (carries MIMPI_BROADCAST_TAG count)
    (MIMPI_Bcast W rank fuel data count root).
Proof.
  unfold MIMPI_Bcast. destruct (CHECK_RANK_ERROR W root); [constructor|].
  apply cs_handle; apply cs_communication_loop;
    [apply carries_sentinel|apply carries_payload].
Qed.


Lemma world_of_calls (P : event → Prop) (W : Z) (p : Z → prog MIMPI_Retcode)
    (table : list (list event)) :
  (∀ rank, calls_sat P (p rank)) → world_of W p = Some table →
  ∀ e, e ∈ mjoin table → P e.
Proof.
  intros Hp Hw e He. unfold world_of in Hw. apply mapM_Some in Hw.
  apply list_elem_of_join in He as (evs & He & Hevs).
  apply list_elem_of_lookup in Hevs as [i Hi].
  destruct (Forall2_lookup_r _ _ _ _ _ Hw Hi) as (rank & _ & Hrank).
  unfold calls_of in Hrank.
  destruct (exec (p rank) _ _ _ _) as [[[rc h'] tr]|] eqn:Hexec; [|done].
  cbn in Hrank. destruct (decide (rc = MIMPI_SUCCESS)); [|done].
  injection Hrank as <-.
  pose proof (exec_calls_sat P _ (Hp rank) _ _ _ _ _ _ _ Hexec) as Hall.
  rewrite Forall_forall in Hall. by apply Hall.
Qed.

Lemma carries_uniform (tag count : Z) (table : list (list event)) :
  tag ≠ MIMPI_NO_MESSAGE_TAG →
  (∀ e, e ∈ mjoin table → carries tag count e) → uniform table.
Proof.
  intros Htag Hc e e' He He' Heq.
  destruct (Hc e He) as [[Ht Hn]|[Ht Hn]], (Hc e' He') as [[Ht' Hn']|[Ht' Hn']];
    congruence.
Qed.

Lemma script_erase (table : list (list event)) (i : nat) :
  script (erase_all table) i = erase <$> script table i.
Proof.
  unfold script, erase_all. rewrite list_lookup_fmap.
  by destruct (table !! i).
Qed.

Lemma script_elem (table : list (list event)) (i : nat) (e : event) :
  e ∈ script table i → e ∈ mjoin table.
Proof.
  unfold script. destruct (table !! i) as [evs|] eqn:Hi; cbn.
  - intros He. apply list_elem_of_join. exists evs. split; [done|].
    by eapply list_elem_of_lookup_2.
  - intros He. by apply elem_of_nil in He.
Qed.

Lemma length_filter_fmap {A B : Type} (f : A → B) (P : A → Prop)
    (Q : B → Prop) `{!∀ x, Decision (P x)} `{!∀ y, Decision (Q y)}
    (l : list A) :
  (∀ x, x ∈ l → P x ↔ Q (f x)) →
  length (filter P l) = length (filter Q (f <$> l)).
Proof.
  induction l as [|x l IH]; intros Hiff; [done|].
  cbn [fmap list_fmap]. rewrite !filter_cons.
  pose proof (Hiff x (list_elem_of_here _ _)) as Hx.
  assert (length (filter P l) = length (filter Q (f <$> l))) as IH'
    by (apply IH; intros y Hy; apply Hiff; by apply list_elem_of_further).
  destruct (decide (P x)), (decide (Q (f x))); cbn; try tauto.
  by rewrite IH'.
Qed.

Lemma elem_of_take_in {A : Type} (x : A) (n : nat) (l : list A) :
  x ∈ take n l → x ∈ l.
Proof.
  intros H. apply elem_of_take in H as (j & Hj & _).
  by eapply list_elem_of_lookup_2.
Qed.

Lemma sent_erase (table : list (list event)) (evs : list event)
    (e : event) (destination : Z) (n : nat) :
  uniform table → e ∈ mjoin table → (∀ x, x ∈ evs → x ∈ mjoin table) →
  sent (take n evs) destination (event_tag e) (event_count e)
  = sent (take n (erase <$> evs)) destination (event_tag e) 0.
Proof.
  intros Hu He Hevs. unfold sent. rewrite <- fmap_take.
  apply length_filter_fmap. intros x Hx.
  assert (x ∈ mjoin table) as Hxt
    by (apply Hevs; by eapply elem_of_take_in).
  destruct x as [d c dst t|d c src t]; cbn; [|done].
  destruct (Z.eqb_spec dst destination); [|done].
  destruct (Z.eqb_spec t (event_tag e)) as [Ht|]; [|done]. cbn.
  rewrite (Hu _ _ Hxt He Ht : c = event_count e). by rewrite Z.eqb_refl.
Qed.

Lemma taken_erase (table : list (list event)) (evs : list event)
    (e : event) (source : Z) (n : nat) :
  uniform table → e ∈ mjoin table → (∀ x, x ∈ evs → x ∈ mjoin table) →
  taken (take n evs) source (event_tag e) (event_count e)
  = taken (take n (erase <$> evs)) source (event_tag e) 0.
Proof.
  intros Hu He Hevs. unfold taken. rewrite <- fmap_take.
  apply length_filter_fmap. intros x Hx.
  assert (x ∈ mjoin table) as Hxt
    by (apply Hevs; by eapply elem_of_take_in).
  destruct x as [d c dst t|d c src t]; cbn; [done|].
  destruct (Z.eqb_spec src source); [|done].
  destruct (Z.eqb_spec t (event_tag e)) as [Ht|]; [|done]. cbn.
  rewrite (Hu _ _ Hxt He Ht : c = event_count e). by rewrite Z.eqb_refl.
Qed.

Lemma ready_erase (table : list (list event)) (pos : nat → nat) (i : nat) :
  uniform table → ready (erase_all table) pos i = ready table pos i.
Proof.
  intros Hu. unfold ready. rewrite !script_erase, list_lookup_fmap.
  destruct (script table i !! pos i) as [e|] eqn:He; [|done].
  assert (e ∈ mjoin table) as Het
    by (eapply script_elem, list_elem_of_lookup_2, He).
  destruct e as [d c dst t|d c src t]; cbn [fmap option_fmap option_map erase];
    [done|].
  pose proof (taken_erase table (script table i) (EvRecv d c src t) src
                (pos i) Hu Het (script_elem table i)) as H1.
  pose proof (sent_erase table (script table (Z.to_nat src))
                (EvRecv d c src t) (Z.of_nat i) (pos (Z.to_nat src)) Hu Het
                (script_elem table (Z.to_nat src))) as H2.
  cbn [event_tag event_count] in H1, H2.
  by rewrite ?script_erase, <- H1, <- H2.
Qed.

Lemma world_run_erase (table : list (list event)) (schedule : list nat) :
  uniform table →
  ∀ pos, world_run (erase_all table) schedule pos = world_run table schedule pos.
Proof.
  intros Hu. induction schedule as [|i rest IH]; intros pos; [done|].
  cbn [world_run]. unfold world_step. rewrite ready_erase by done.
  destruct (ready table pos i); [apply IH|done].
Qed.

Lemma all_done_erase (table : list (list event)) (pos : nat → nat) :
  all_done (erase_all table) pos = all_done table pos.
Proof.
  unfold all_done. replace (length (erase_all table)) with (length table)
    by (unfold erase_all; by rewrite length_fmap).
  induction (ranks (length table)) as [|i l IH]; [done|].
  cbn [forallb]. by rewrite IH, script_erase, length_fmap.
Qed.

Lemma total_calls_erase (table : list (list event)) :
  total_calls (erase_all table) = total_calls table.
Proof.
  unfold total_calls, erase_all. rewrite <- list_fmap_compose. f_equal.
  apply list_fmap_ext. intros ? evs _. cbn. apply length_fmap.
Qed.

(** What the checks on the erased calls of a world give for the world. *)
Lemma world_checked_uniform (W : Z) (world : option (list (list event)))
    (schedule : list nat) (pos : nat → nat) :
  world_checked_erased W world = true →
  (∀ table, world = Some table → uniform table) →
  ∃ table,
    world = Some table ∧ length table = Z.to_nat W ∧
    (world_run table schedule (fun _ => O) = Some pos →
     (length schedule ≤ total_calls table)%nat ∧
     (all_done table pos = false → ∃ i, ready table pos i = true) ∧
     ((∃ i, (i < length table)%nat ∧ pos i = length (script table i)) →
      ∀ j, (j < length table)%nat → (1 ≤ pos j)%nat)).
Proof.
  intros Hcheck Hu. unfold world_checked_erased in Hcheck.
  destruct world as [table|]; [|done]. specialize (Hu table eq_refl).
  apply andb_prop in Hcheck as [Hcheck Hw].
  apply andb_prop in Hcheck as [Hlen Hc]. apply Nat.eqb_eq in Hlen.
  exists table. split; [done|]. split; [done|]. intros Hrun.
  rewrite <- (world_run_erase table schedule Hu) in Hrun.
  destruct (world_checked (erase_all table) schedule pos Hc Hrun)
    as (H1 & H2 & H3).
  rewrite total_calls_erase in H1. rewrite all_done_erase in H2.
  split; [done|]. split.
  - intros Hnot. destruct (H2 Hnot) as [i Hi]. exists i.
    by rewrite <- ready_erase.
  - intros [i [Hi Hdone]] j Hj. apply (H3 Hw).
    + exists i. split; [unfold erase_all; by rewrite length_fmap|].
      by rewrite script_erase, length_fmap.
    + unfold erase_all. by rewrite length_fmap.
Qed.

Lemma Bcast_checked_all (data count : Z) :
  forallb (fun x => world_checked_erased x.1 (Bcast_world x.1 x.2 data count))
    sizes_and_roots = true.
Proof. vm_compute. reflexivity. Qed.


Lemma length_table_of (alloc : Z → Z) (W : Z)
    (progs : Z → prog MIMPI_Retcode) :
  length (table_of alloc W progs) = Z.to_nat W.
Proof. unfold table_of. by rewrite length_fmap, length_seqZ. Qed.

Lemma script_table_of (alloc : Z → Z) (W : Z)
    (progs : Z → prog MIMPI_Retcode) (i : Z) :
  0 ≤ i < W →
  script (table_of alloc W progs) (Z.to_nat i) = calls_left alloc (progs i).
Proof.
  intros Hi. unfold script, table_of. rewrite list_lookup_fmap.
  rewrite (proj2 (lookup_seqZ 0 W (Z.to_nat i) i)) by lia. done.
Qed.





Lemma sizes_and_roots_all (W root : Z) :
  2 ≤ W ≤ MAXSIZE → 0 ≤ root < W → (W, root) ∈ sizes_and_roots.
Proof.
  intros HW Hroot. unfold sizes_and_roots, MAXSIZE in *.
  apply list_elem_of_bind. exists W. split.
  - apply list_elem_of_fmap. exists root. split; [done|].
    apply elem_of_seqZ. lia.
  - apply elem_of_seqZ. lia.
Qed.



(** *** The library on the tags of the collectives *)

Lemma collective_tag_tests (t : Z) :
  collective_tag t →
  (t >=? MIMPI_ANY_TAG) = false ∧ (t =? MIMPI_DEADLOCK_TAG) = false ∧
  (t =? MIMPI_WAITING_TAG) = false ∧ (t =? MIMPI_RECEIVED_TAG) = false ∧
  (t =? MIMPI_ANY_TAG) = false ∧
  payload_bearing t = negb (t =? MIMPI_NO_MESSAGE_TAG).
Proof.
  unfold collective_tag, payload_bearing, MIMPI_ANY_TAG, MIMPI_DEADLOCK_TAG,
    MIMPI_WAITING_TAG, MIMPI_RECEIVED_TAG.
  intros (Ht & H1 & H2 & H3).
  split; [rewrite Z.geb_leb; apply Z.leb_gt; lia|].
  repeat split; try (apply Z.eqb_neq; lia).
  replace (t =? -4) with false by (symmetry; apply Z.eqb_neq; lia).
  by destruct (t =? MIMPI_NO_MESSAGE_TAG).
Qed.

Lemma Recv_deliver_sentinel (h : heap) (d c : Z) (x : list Z) :
  Recv_deliver h d c MIMPI_NO_MESSAGE_TAG x = h.
Proof. reflexivity. Qed.

Lemma Recv_epilogue_collective (p : Process) (h : heap)
    (data count source tag : Z) (x : list Z) :
  collective_tag tag →
  Recv_epilogue p always_ok h data count source tag
    (if payload_bearing tag then Some x else None) []
  = Done (Returned MIMPI_SUCCESS, p, Recv_deliver h data count tag x, []).
Proof.
  intros Ht. destruct (collective_tag_tests tag Ht) as (H1 & H2 & H3 & H4 & H5 & H6).
  unfold Recv_epilogue. rewrite H1, andb_false_r. cbn [mbind outcome_bind].
  rewrite H6. destruct (Z.eqb_spec tag MIMPI_NO_MESSAGE_TAG) as [->|Hn].
  - reflexivity.
  - cbn [negb]. rewrite orb_true_r. reflexivity.
Qed.

Lemma matched_message (q : list Message) (t c src : Z) (idx : nat)
    (m : Message) :
  t ≠ MIMPI_ANY_TAG →
  find_elem_in_list q (create_message t c src None) = Some idx →
  q !! idx = Some m →
  msg_source m = src ∧ msg_count m = c ∧ msg_tag m = t.
Proof.
  intros Ht Hf Hm. apply find_elem_in_list_Some in Hf as [(a & Ha & Hc) _].
  rewrite Hm in Ha. injection Ha as <-.
  apply compare_message_iff in Hc as (? & ? & [?|?]); cbn in *; done.
Qed.

Lemma find_elem_in_list_lookup (q : list Message) (b : Message) (idx : nat) :
  find_elem_in_list q b = Some idx → is_Some (q !! idx).
Proof.
  intros Hf. apply find_elem_in_list_Some in Hf as [(a & Ha & _) _]. by exists a.
Qed.

Lemma payload_of_message (s : Z) (m : Message) (c : Z) :
  message_ok s m → msg_count m = c →
  (if payload_bearing (msg_tag m)
   then copy_payload c m
        = Done (take (Z.to_nat c) (default [] (msg_data m)))
   else True).
Proof.
  intros (_ & _ & _ & _ & Hd) <-. destruct (payload_bearing (msg_tag m)); [|done].
  destruct Hd as (Hc & d & Hd & _). unfold copy_payload.
  destruct (Z.ltb_spec (msg_count m) 0); [lia|]. by rewrite Hd.
Qed.

Lemma Recv_collective_found (p : Process) (h : heap) (d c src t : Z)
    (q : list Message) (idx : nat) (m : Message) :
  0 ≤ src < MIMPI_World_size p → src ≠ MIMPI_World_rank p →
  collective_tag t →
  MIMPI_received_messages p !! src = Some q →
  find_elem_in_list q (create_message t c src None) = Some idx →
  q !! idx = Some m → message_ok src m →
  MIMPI_Recv p always_ok h d c src t
  = Done (Returned MIMPI_SUCCESS,
          set_received_messages p
            (<[src := delete idx q]> (MIMPI_received_messages p)),
          Recv_deliver h d c t (take (Z.to_nat c) (default [] (msg_data m))),
          []).
Proof.
  intros Hs Hne Ht Hq Hf Hm Hok.
  destruct (rank_checks_pass _ _ _ Hs Hne) as [Hc1 Hc2].
  destruct (collective_tag_tests t Ht) as (H1 & H2 & H3 & H4 & H5 & H6).
  assert (t ≠ MIMPI_ANY_TAG) as Hany by (by apply Z.eqb_neq).
  destruct (matched_message q t c src idx m Hany Hf Hm) as (Hms & Hmc & Hmt).
  pose proof (payload_of_message src m c Hok Hmc) as Hpay. rewrite Hmt in Hpay.
  unfold MIMPI_Recv. rewrite Hc1, Hc2, Hq. cbn [deref mbind outcome_bind].
  rewrite Hf, Hm. cbn [deref mbind outcome_bind].
  unfold remove_from_list.
  destruct (payload_bearing t) eqn:Hpb.
  - rewrite Hpay. cbn [mbind outcome_bind].
    pose proof (Recv_epilogue_collective
                  (set_received_messages p
                     (<[src:=delete idx q]> (MIMPI_received_messages p)))
                  h d c src t
                  (take (Z.to_nat c) (default [] (msg_data m))) Ht) as He.
    rewrite Hpb in He. exact He.
  - cbn [mbind outcome_bind].
    pose proof (Recv_epilogue_collective
                  (set_received_messages p
                     (<[src:=delete idx q]> (MIMPI_received_messages p)))
                  h d c src t
                  (take (Z.to_nat c) (default [] (msg_data m))) Ht) as He.
    rewrite Hpb in He. exact He.
Qed.

Lemma Recv_collective_parks (p : Process) (h : heap) (d c src t : Z)
    (q : list Message) :
  0 ≤ src < MIMPI_World_size p → src ≠ MIMPI_World_rank p →
  collective_tag t → MIMPI_already_left p = ∅ →
  MIMPI_received_messages p !! src = Some q →
  find_elem_in_list q (create_message t c src None) = None →
  MIMPI_Recv p always_ok h d c src t
  = Done (Parked,
          set_waiting p
            {| msg_tag := t; msg_count := c; msg_source := src;
               msg_data := None; msg_received := false |},
          h, []).
Proof.
  intros Hs Hne Ht Hleft Hq Hf.
  destruct (collective_tag_tests t Ht) as (H1 & H2 & H3 & H4 & H5 & H6).
  rewrite (Recv_parks_eq p always_ok h d c src t q Hs Hne); try done.
  - by rewrite H1, andb_false_r.
  - rewrite Hleft. set_solver.
  - intros _ Hge. unfold collective_tag in Ht. lia.
Qed.

Lemma Recv_collective_woken (p : Process) (h : heap) (d c src t : Z)
    (q : list Message) (idx : nat) (m : Message) :
  collective_tag t → MIMPI_already_left p = ∅ →
  msg_tag (MIMPI_waiting p) = t →
  MIMPI_received_messages p !! src = Some q →
  find_elem_in_list q (create_message t c src None) = Some idx →
  q !! idx = Some m → message_ok src m →
  Recv_after_wait p always_ok h d c src t []
  = Done (Returned MIMPI_SUCCESS,
          set_waiting
            (set_received_messages p
               (<[src := delete idx q]> (MIMPI_received_messages p)))
            MIMPI_DEFAULT_MSG,
          Recv_deliver h d c t (take (Z.to_nat c) (default [] (msg_data m))),
          []).
Proof.
  intros Ht Hleft Hw Hq Hf Hm Hok.
  destruct (collective_tag_tests t Ht) as (H1 & H2 & H3 & H4 & H5 & H6).
  assert (t ≠ MIMPI_ANY_TAG) as Hany by (by apply Z.eqb_neq).
  destruct (matched_message q t c src idx m Hany Hf Hm) as (Hms & Hmc & Hmt).
  pose proof (payload_of_message src m c Hok Hmc) as Hpay. rewrite Hmt in Hpay.
  unfold Recv_after_wait. rewrite Hw, H2, Hleft.
  rewrite bool_decide_eq_false_2 by set_solver. cbn [andb].
  rewrite Hq. cbn [deref mbind outcome_bind]. rewrite Hf, Hm.
  cbn [deref mbind outcome_bind]. unfold remove_from_list.
  rewrite H6 in Hpay.
  pose proof (Recv_epilogue_collective
                (set_waiting
                   (set_received_messages p
                      (<[src:=delete idx q]> (MIMPI_received_messages p)))
                   MIMPI_DEFAULT_MSG)
                h d c src t
                (take (Z.to_nat c) (default [] (msg_data m))) Ht) as He.
  rewrite H6 in He.
  destruct (negb (t =? MIMPI_NO_MESSAGE_TAG)).
  - rewrite Hpay. cbn [mbind outcome_bind]. exact He.
  - cbn [mbind outcome_bind]. exact He.
Qed.

Lemma message_is_created (s : Z) (m : Message) :
  message_ok s m →
  create_message (msg_tag m) (msg_count m) s
    (if payload_bearing (msg_tag m)
     then Some (take (Z.to_nat (msg_count m)) (default [] (msg_data m)))
     else None) = m.
Proof.
  intros (Hs & Hr & _ & _ & Hd). destruct m as [t c s' d r]. cbn in *.
  subst. unfold create_message. f_equal.
  destruct (payload_bearing t).
  - destruct Hd as (_ & x & -> & Hl). cbn. f_equal. apply take_ge. lia.
  - done.
Qed.

Lemma turn_collective_message (p : Process) (s : Z) (m : Message)
    (rest : list Z) (q : list Message) :
  message_ok s m → MIMPI_received_messages p !! s = Some q →
  handle_channel_turn p s (frame_bytes m ++ rest)
  = Done (let p1 := set_received_messages p
                      (<[s := push_front q m]> (MIMPI_received_messages p)) in
          if compare_message m (MIMPI_waiting p)
          then set_waiting p1
                 {| msg_tag := msg_tag m; msg_count := msg_count m;
                    msg_source := msg_source m; msg_data := msg_data m;
                    msg_received := true |}
          else p1, rest).
Proof.
  intros Hok Hq. pose proof Hok as (Hs & Hr & Ht & Hc & Hd).
  destruct (collective_tag_tests _ Ht) as (H1 & H2 & H3 & H4 & H5 & H6).
  unfold handle_channel_turn, frame_bytes.
  rewrite read_frame_layout; try done.
  - cbn [mbind outcome_bind]. unfold decoded. rewrite H3, H4. cbn [orb].
    rewrite (message_is_created s m Hok).
    unfold dispatch. rewrite H2. cbn [mbind outcome_bind].
    rewrite Hq. cbn [deref mbind outcome_bind].
    cbn [MIMPI_waiting set_received_messages].
    by destruct (compare_message m (MIMPI_waiting p)).
  - unfold collective_tag, MIMPI_ANY_TAG in Ht. lia.
  - intros Hp. rewrite Hp in Hd. destruct Hd as (? & x & -> & Hl). cbn. lia.
Qed.

Lemma frame_bytes_cons (m : Message) : ∃ b l, frame_bytes m = b :: l.
Proof.
  unfold frame_bytes, frame_layout, encode_int. cbn [app]. eauto.
Qed.

Lemma Send_collective (p : Process) (data : list Z) (c dst t : Z) :
  0 ≤ dst < MIMPI_World_size p → dst ≠ MIMPI_World_rank p →
  collective_tag t → (payload_bearing t = true → 0 ≤ c) →
  MIMPI_Send p always_ok data c dst t
  = Done (MIMPI_SUCCESS, p, [(dst, frame_layout data c t)]).
Proof.
  intros Hd Hne Ht Hc. rewrite Send_internal; try done.
  unfold collective_tag in Ht. lia.
Qed.

(** *** The world and its messages *)

Lemma upd_eq {K A : Type} `{EqDecision K} (f : K → A) (k : K) (v : A) :
  upd f k v k = v.
Proof. unfold upd. by rewrite decide_True. Qed.

Lemma upd_ne {K A : Type} `{EqDecision K} (f : K → A) (k k' : K) (v : A) :
  k' ≠ k → upd f k v k' = f k'.
Proof. intros. unfold upd. by rewrite decide_False. Qed.

Lemma in_world_spec (W i : Z) : in_world W i = true ↔ 0 ≤ i < W.
Proof. unfold in_world. rewrite andb_true_iff, Z.leb_le, Z.ltb_lt. done. Qed.

Lemma frame_layout_no_payload (data data' : list Z) (c t : Z) :
  payload_bearing t = false → frame_layout data c t = frame_layout data' c t.
Proof. intros H. unfold frame_layout. by rewrite H. Qed.

Lemma frame_bytes_sent (h : heap) (d c i t : Z) :
  frame_bytes (sent_message h d c i t) = frame_layout (load h d c) c t.
Proof.
  unfold frame_bytes, sent_message.
  cbn [msg_data msg_count msg_tag create_message].
  destruct (payload_bearing t) eqn:Hp; [done|].
  by apply frame_layout_no_payload.
Qed.

Lemma sent_message_ok (W i : Z) (h : heap) (d c dst t : Z) :
  valid_call W i (EvSend d c dst t) → message_ok i (sent_message h d c i t).
Proof.
  intros (_ & _ & Ht & Hc & Hp). cbn [event_tag event_count] in *.
  unfold message_ok, sent_message.
  cbn [msg_data msg_count msg_tag msg_source msg_received create_message].
  split; [done|]. split; [done|]. split; [done|]. split; [done|].
  destruct (payload_bearing t); [|done].
  split; [auto|]. eexists. split; [done|]. apply length_load.
Qed.

Lemma library_of_other (W j : Z) (a a' : Mail) (r : Rank) :
  (∀ s, queued a' (s, j) = queued a (s, j)) →
  library_of W j a r → library_of W j a' r.
Proof.
  intros Hq (H1 & H2 & H3 & H4 & H5). repeat split; try done.
  - intros s Hs Hne. rewrite Hq. by apply H4.
  - destruct (asleep r); [|done].
    destruct H5 as (d & c & src & t & k & Hc & ? & ? & ? & Hr).
    exists d, c, src, t, k. rewrite Hq. done.
Qed.

Lemma find_push_front (q : list Message) (m b : Message) :
  is_Some (find_elem_in_list (push_front q m) b)
  ↔ is_Some (find_elem_in_list q b) ∨ compare_message m b = true.
Proof.
  unfold push_front. destruct (find_elem_in_list q b) as [i|] eqn:Hf.
  - rewrite (find_elem_in_list_app_l q [m] b i Hf). split; eauto.
  - rewrite (find_elem_in_list_app q m b Hf).
    destruct (compare_message m b); split; eauto.
    intros [[? ?]|?]; done.
Qed.

Lemma mail_of_update (W : Z) (a a' : Mail) (w : World) (i : Z) (r' : Rank)
    (ch' : Z * Z → list Z) :
  mail_of W a w → 0 ≤ i < W →
  (∀ j, desk a' j = upd (desk a) i (memory r', code r', asleep r') j) →
  (∀ s j, j ≠ i → queued a' (s, j) = queued a (s, j)) →
  library_of W i a' r' →
  (∀ s j, ch' (s, j) = mjoin (frame_bytes <$> flying a' (s, j))) →
  mail_of W a'
    {| size := W; member := upd (member w) i r'; channel := ch' |}.
Proof.
  intros (Hsize & Hmem & Hch) Hi Hdesk Hq Hlib Hch'.
  split; [done|]. split; [|done].
  intros j Hj. cbn [member]. rewrite Hdesk.
  destruct (decide (j = i)) as [->|Hne].
  - rewrite !upd_eq. done.
  - rewrite !upd_ne by done. destruct (Hmem j Hj) as [Hd Hl].
    split; [done|]. apply (library_of_other W j a a'); [|done].
    intros s. by apply Hq.
Qed.

Lemma mjoin_snoc {A : Type} (l : list (list A)) (x : list A) :
  mjoin (l ++ [x]) = mjoin l ++ x.
Proof. rewrite join_app. cbn. by rewrite app_nil_r. Qed.

Lemma library_of_awake (W i : Z) (a a' : Mail) (r : Rank)
    (k : prog MIMPI_Retcode) (h : heap) :
  asleep r = false →
  (∀ s, queued a' (s, i) = queued a (s, i)) →
  library_of W i a r →
  library_of W i a'
    {| library := library r; memory := h; code := k; asleep := false |}.
Proof.
  intros Hz Hq (H1 & H2 & H3 & H4 & H5). rewrite Hz in H5.
  repeat split; try done. intros s Hs Hne. cbn. rewrite Hq. by apply H4.
Qed.

Lemma move_simulated (alloc : Z → Z) (W : Z) (a : Mail) (w : World)
    (m : move) :
  mail_of W a w → mail_ok a →
  (∀ i, 0 ≤ i < W → pending_valid alloc W i (desk a i).1.2) →
  match mail_move alloc W a m with
  | Some a' =>
      ∃ w', processes_move alloc w m = Some (Done w') ∧
            mail_of W a' w' ∧ mail_ok a'
  | None => processes_move alloc w m = None
  end.
Proof.
  intros Hof Hok Hval. pose proof Hof as (Hsize & Hmem & Hch).
  destruct m as [i|i|i s].
  - (* the caller thread makes its next call *)
    unfold mail_move, processes_move. rewrite Hsize.
    destruct (in_world W i) eqn:Hin; [|done]. apply in_world_spec in Hin.
    destruct (Hmem i Hin) as [Hdesk Hlib]. specialize (Hval i Hin).
    rewrite Hdesk in Hval |- *. cbn [fst snd] in Hval.
    remember (member w i) as r eqn:Hr.
    unfold call_move. destruct (asleep r) eqn:Hz; [done|].
    pose proof Hlib as (L1 & L2 & L3 & L4 & L5). rewrite Hz in L5.
    destruct (code r) as [rc|d c dst t k|d c src t k|n k|d s n k|p k|]
      eqn:Hcode; try done.
    + (* MIMPI_Send *)
      pose proof Hval as Hvalid.
      destruct Hval as (Hdst & Hne & Ht & Hc & Hp).
      cbn [event_peer event_tag event_count] in *.
      rewrite Send_collective by (rewrite ?L1, ?L2; done).
      cbn [mbind option_bind outcome_bind write_frames foldl fst snd].
      eexists. split; [reflexivity|]. split.
      * apply (mail_of_update W a _ w i _ _ Hof Hin).
        -- done.
        -- done.
        -- by apply (library_of_awake W i a).
        -- intros s j. cbn [flying]. unfold upd.
           destruct (decide ((s, j) = (i, dst))) as [Heq|Hneq].
           ++ injection Heq as -> ->.
              rewrite fmap_app, list_fmap_singleton, mjoin_snoc.
              rewrite frame_bytes_sent, Hch. done.
           ++ apply Hch.
      * intros s j. cbn [queued flying]. split; [apply Hok|].
        unfold upd. destruct (decide ((s, j) = (i, dst))) as [Heq|Hneq].
        -- injection Heq as -> ->. apply Forall_app. split; [apply Hok|].
           apply Forall_singleton.
           exact (sent_message_ok W i (memory r) d c dst t Hvalid).
        -- apply Hok.
    + (* MIMPI_Recv *)
      destruct Hval as (Hsrc & Hne & Ht & Hc & Hp).
      cbn [event_peer event_tag event_count] in *.
      pose proof (L4 src Hsrc Hne) as Hq.
      destruct (find_elem_in_list (queued a (src, i))
                  (create_message t c src None)) as [idx|] eqn:Hf.
      * destruct (find_elem_in_list_lookup _ _ _ Hf) as [msg Hmsg].
        assert (message_ok src msg) as Hmok.
        { destruct (Hok src i) as [Hqok _].
          by apply (Forall_lookup_1 _ _ _ _ Hqok Hmsg). }
        rewrite (Recv_collective_found (library r) (memory r) d c src t
                   (queued a (src, i)) idx msg) by (rewrite ?L1, ?L2; done).
        cbn [mbind option_bind outcome_bind after_recv write_frames foldl].
        eexists. split; [reflexivity|]. split.
        -- apply (mail_of_update W a _ w i _ _ Hof Hin).
           ++ intros j. unfold take_message. cbn [desk memory code asleep].
              rewrite Hmsg. done.
           ++ intros s j Hj. cbn. rewrite upd_ne; [done|]. congruence.
           ++ split; [done|]. split; [done|]. split; [done|].
              split; [|done]. cbn.
              intros s Hs Hs'. unfold upd.
              destruct (decide ((s, i) = (src, i))) as [Heq|Hneq].
              ** injection Heq as ->. by rewrite lookup_insert_eq.
              ** rewrite lookup_insert_ne by congruence. by apply L4.
           ++ done.
        -- intros s j. cbn [take_message queued flying]. split; [|apply Hok].
           unfold upd. destruct (decide ((s, j) = (src, i))) as [Heq|Hneq].
           ++ injection Heq as -> ->. apply Forall_delete, Hok.
           ++ apply Hok.
      * rewrite (Recv_collective_parks (library r) (memory r) d c src t
                   (queued a (src, i))) by (rewrite ?L1, ?L2; done).
        cbn [mbind option_bind outcome_bind after_recv write_frames foldl].
        eexists. split; [reflexivity|]. split.
        -- apply (mail_of_update W a _ w i _ _ Hof Hin).
           ++ intros j. cbn. by rewrite Hcode.
           ++ done.
           ++ split; [done|]. split; [done|]. split; [done|].
              split; [done|]. cbn.
              exists d, c, src, t, k. rewrite Hf.
              split; [done|]. split; [done|]. split; [done|].
              split; [done|]. split; [done|]. intros [? ?]; done.
           ++ done.
        -- done.
    + (* malloc *)
      cbn in Hval. destruct Hval as [Hn Halloc].
      destruct (Z.ltb_spec n 0); [lia|].
      destruct (Z.eqb_spec (alloc n) NULL); [done|].
      cbn [orb mbind option_bind outcome_bind write_frames foldl].
      eexists. split; [reflexivity|]. split; [|done].
      apply (mail_of_update W a _ w i _ _ Hof Hin); try done;
        by apply (library_of_awake W i a).
    + (* memcpy *)
      cbn [mbind option_bind outcome_bind write_frames foldl].
      eexists. split; [reflexivity|]. split; [|done].
      apply (mail_of_update W a _ w i _ _ Hof Hin); try done;
        by apply (library_of_awake W i a).
    + (* free *)
      cbn [mbind option_bind outcome_bind write_frames foldl].
      eexists. split; [reflexivity|]. split; [|done].
      apply (mail_of_update W a _ w i _ _ Hof Hin); try done;
        by apply (library_of_awake W i a).
  - (* a parked caller thread leaves the wait loop *)
    unfold mail_move, processes_move. rewrite Hsize.
    destruct (in_world W i) eqn:Hin; [|done]. apply in_world_spec in Hin.
    destruct (Hmem i Hin) as [Hdesk Hlib]. specialize (Hval i Hin).
    rewrite Hdesk in Hval |- *. cbn [fst snd] in Hval.
    remember (member w i) as r eqn:Hr.
    unfold wake_move. destruct (asleep r) eqn:Hz; [|done].
    pose proof Hlib as (L1 & L2 & L3 & L4 & L5). rewrite Hz in L5.
    destruct L5 as (d' & c' & src' & t' & k' & Hcode & W1 & W2 & W3 & W4).
    rewrite Hcode in Hval |- *.
    destruct Hval as (Hsrc & Hne & Ht & Hc & Hp).
    cbn [event_peer event_tag event_count] in *.
    pose proof (L4 src' Hsrc Hne) as Hq.
    unfold wait_over. rewrite L3.
    rewrite (bool_decide_eq_false_2 (src' ∈ (∅ : gset Z))) by set_solver.
    rewrite orb_false_r.
    destruct (find_elem_in_list (queued a (src', i))
                (create_message t' c' src' None)) as [idx|] eqn:Hf.
    + assert (msg_received (MIMPI_waiting (library r)) = true) as ->
        by (apply W4; eauto).
      destruct (find_elem_in_list_lookup _ _ _ Hf) as [msg Hmsg].
      assert (message_ok src' msg) as Hmok.
      { destruct (Hok src' i) as [Hqok _].
        by apply (Forall_lookup_1 _ _ _ _ Hqok Hmsg). }
      rewrite (Recv_collective_woken (library r) (memory r) d' c' src' t'
                 (queued a (src', i)) idx msg) by done.
      cbn [mbind option_bind outcome_bind after_recv write_frames foldl].
      eexists. split; [reflexivity|]. split.
      * apply (mail_of_update W a _ w i _ _ Hof Hin).
        -- intros j. unfold take_message. cbn [desk memory code asleep].
           rewrite Hmsg. done.
        -- intros s j Hj. cbn. rewrite upd_ne; [done|]. congruence.
        -- split; [done|]. split; [done|]. split; [done|].
           split; [|done]. cbn.
           intros s Hs Hs'. unfold upd.
           destruct (decide ((s, i) = (src', i))) as [Heq|Hneq].
           ++ injection Heq as ->. by rewrite lookup_insert_eq.
           ++ rewrite lookup_insert_ne by congruence. by apply L4.
        -- done.
      * intros s j. cbn [take_message queued flying]. split; [|apply Hok].
        unfold upd. destruct (decide ((s, j) = (src', i))) as [Heq|Hneq].
        -- injection Heq as -> ->. apply Forall_delete, Hok.
        -- apply Hok.
    + destruct (msg_received (MIMPI_waiting (library r))) eqn:Hrec; [|done].
      destruct W4 as [W4 _]. destruct (W4 eq_refl); done.
  - (* a reader thread handles a frame *)
    unfold mail_move, processes_move. rewrite Hsize.
    destruct (in_world W i && in_world W s && negb (s =? i)) eqn:Hin;
      [|done].
    apply andb_true_iff in Hin as [Hin Hne].
    apply andb_true_iff in Hin as [Hi Hs].
    apply in_world_spec in Hi, Hs. apply negb_true_iff, Z.eqb_neq in Hne.
    destruct (Hmem i Hi) as [Hdesk Hlib]. specialize (Hval i Hi).
    rewrite Hdesk in Hval. cbn [fst snd] in Hval.
    remember (member w i) as r eqn:Hr.
    pose proof Hlib as (L1 & L2 & L3 & L4 & L5).
    rewrite Hch. destruct (flying a (s, i)) as [|msg rest] eqn:Hfl; [done|].
    destruct (Hok s i) as [Hqok Hfok]. rewrite Hfl in Hfok.
    apply Forall_cons in Hfok as [Hmok Hrok].
    change (mjoin (frame_bytes <$> msg :: rest))
      with (frame_bytes msg ++ mjoin (frame_bytes <$> rest)).
    unfold read_move.
    destruct (frame_bytes msg ++ mjoin (frame_bytes <$> rest))
      as [|b0 l0] eqn:Hstream.
    { destruct (frame_bytes_cons msg) as (b & l & Hb). by rewrite Hb in Hstream. }
    rewrite <- Hstream.
    rewrite (turn_collective_message (library r) s msg _ (queued a (s, i)))
      by (try done; by apply L4).
    cbn [mbind option_bind outcome_bind].
    eexists. split; [reflexivity|]. split.
    + apply (mail_of_update W a _ w i _ _ Hof Hi).
      * intros j. cbn. unfold upd. destruct (decide (j = i)) as [->|]; [|done].
        by rewrite Hdesk.
      * intros s' j Hj. cbn. rewrite upd_ne; [done|]. congruence.
      * assert (∀ s', 0 ≤ s' < W → s' ≠ i →
                  <[s:=push_front (queued a (s, i)) msg]>
                    (MIMPI_received_messages (library r)) !! s'
                  = Some (upd (queued a) (s, i)
                            (push_front (queued a (s, i)) msg) (s', i)))
          as Hq'.
        { intros s' Hs' Hs''. unfold upd.
          destruct (decide ((s', i) = (s, i))) as [Heq|Hneq].
          - injection Heq as ->. by rewrite lookup_insert_eq.
          - rewrite lookup_insert_ne by congruence. by apply L4. }
        destruct (asleep r) eqn:Hz.
        -- destruct L5 as (d' & c' & src' & t' & k' & Hcode & W1 & W2 & W3
                           & W4).
           rewrite Hcode in Hval.
           destruct Hval as (Hsrc & Hne' & Ht & Hc & Hp).
           cbn [event_peer event_tag event_count] in *.
           destruct (collective_tag_tests t' Ht) as (_ & _ & _ & _ & T5 & _).
           apply Z.eqb_neq in T5.
           rewrite (compare_message_filter_ext msg (MIMPI_waiting (library r))
                      (create_message t' c' src' None)) by done.
           destruct (compare_message msg (create_message t' c' src' None))
             eqn:Hcmp.
           ++ apply compare_message_iff in Hcmp as (C1 & C2 & C3).
              cbn in C1, C2, C3. destruct C3 as [C3|C3]; [done|].
              split; [done|]. split; [done|]. split; [done|].
              split; [done|]. cbn.
              exists d', c', src', t', k'.
              split; [done|]. split; [done|]. split; [done|].
              split; [done|]. split; [|done].
              intros _. destruct Hmok as [Hms _]. rewrite C1 in Hms.
              subst s. rewrite upd_eq. apply find_push_front. right.
              apply compare_message_iff. cbn. auto.
           ++ split; [done|]. split; [done|]. split; [done|].
              split; [done|]. cbn.
              exists d', c', src', t', k'.
              split; [done|]. split; [done|]. split; [done|].
              split; [done|]. split.
              ** intros Hrec. unfold upd.
                 destruct (decide ((src', i) = (s, i))) as [Heq|Hneq].
                 --- injection Heq as ->. apply find_push_front. left.
                     by apply W4.
                 --- by apply W4.
              ** unfold upd.
                 destruct (decide ((src', i) = (s, i))) as [Heq|Hneq].
                 --- injection Heq as ->. intros Hsome.
                     apply find_push_front in Hsome as [Hsome|Hsome].
                     +++ by apply W4.
                     +++ congruence.
                 --- apply W4.
        -- rewrite L5, compare_default
             by (destruct Hmok as [-> _]; lia).
           split; [done|]. split; [done|]. split; [done|].
           split; [done|]. done.
      * intros s' j. cbn [flying]. unfold upd.
        destruct (decide ((s', j) = (s, i))) as [Heq|Hneq]; [done|].
        apply Hch.
    + intros s' j. cbn [queued flying]. unfold upd.
      destruct (decide ((s', j) = (s, i))) as [Heq|Hneq].
      * injection Heq as -> ->. split; [|done].
        apply Forall_app. split; [done|]. by apply Forall_singleton.
      * apply Hok.
Qed.

Lemma create_lists_lookup (W i s : Z) :
  0 ≤ s < W → s ≠ i → create_lists W i !! s = Some [].
Proof.
  intros Hs Hne. unfold create_lists.
  apply elem_of_list_to_map_1.
  - rewrite <- list_fmap_compose.
    replace (fst ∘ (fun i0 : Z => (i0, @nil Message))) with (@id Z) by done.
    rewrite list_fmap_id. unfold peers. apply NoDup_filter, NoDup_seqZ.
  - apply list_elem_of_fmap. exists s. split; [done|].
    unfold peers. apply list_elem_of_filter. split; [done|].
    apply elem_of_seqZ. lia.
Qed.

Lemma start_mail_of (W : Z) (detection : Z → bool) (heaps : Z → heap)
    (progs : Z → prog MIMPI_Retcode) :
  mail_of W (start_mail heaps progs) (start_world W detection heaps progs).
Proof.
  split; [done|]. split; [|done]. intros i Hi. split; [done|].
  split; [done|]. split; [done|]. split; [done|]. split; [|done].
  intros s Hs Hne. cbn. by apply create_lists_lookup.
Qed.

Lemma start_mail_ok (heaps : Z → heap) (progs : Z → prog MIMPI_Retcode) :
  mail_ok (start_mail heaps progs).
Proof. intros s i. split; constructor. Qed.

Lemma on_script_pending (alloc : Z → Z) (W : Z) (a : Mail) :
  on_script alloc W a → ∀ i, 0 ≤ i < W → pending_valid alloc W i (desk a i).1.2.
Proof.
  intros Hon i Hi. destruct (Hon i Hi) as [Hs Hv].
  destruct ((desk a i).1.2); cbn in *; try done.
  - by apply Forall_cons in Hv as [? _].
  - by apply Forall_cons in Hv as [? _].
  - by destruct Hs as (? & ? & _).
Qed.

Lemma on_script_update (alloc : Z → Z) (W : Z) (a a' : Mail) (i : Z)
    (h : heap) (p : prog MIMPI_Retcode) (z : bool) :
  on_script alloc W a →
  (∀ j, desk a' j = upd (desk a) i (h, p, z) j) →
  (0 ≤ i < W → succeeds alloc (desk a i).1.2 →
   Forall (valid_call W i) (calls_left alloc (desk a i).1.2) →
   succeeds alloc p ∧ Forall (valid_call W i) (calls_left alloc p)) →
  on_script alloc W a'.
Proof.
  intros Hon Hdesk Hp j Hj. rewrite Hdesk. unfold upd.
  destruct (decide (j = i)) as [->|Hne]; [|by apply Hon].
  destruct (Hon i Hj) as [H1 H2]. by apply Hp.
Qed.

Lemma on_script_move (alloc : Z → Z) (W : Z) (a a' : Mail) (m : move) :
  on_script alloc W a → mail_move alloc W a m = Some a' →
  on_script alloc W a'.
Proof.
  intros Hon Hm. destruct m as [i|i|i s]; unfold mail_move in Hm.
  - destruct (in_world W i); [|done].
    destruct (desk a i) as [[h p] z] eqn:Hd. destruct z; [done|].
    destruct p as [rc|d c dst t k|d c src t k|n k|d s n k|q k|]; try done.
    + injection Hm as <-.
      apply (on_script_update alloc W a _ i h (k MIMPI_SUCCESS) false Hon);
        [done|].
      rewrite Hd. cbn. intros _ Hs Hv. apply Forall_cons in Hv as [_ Hv]. done.
    + destruct (find_elem_in_list _ _) as [idx|].
      * injection Hm as <-.
        eapply (on_script_update alloc W a _ i _ (k MIMPI_SUCCESS) false Hon).
        -- intros j. reflexivity.
        -- rewrite Hd. cbn. intros _ Hs Hv.
           apply Forall_cons in Hv as [_ Hv]. done.
      * injection Hm as <-.
        apply (on_script_update alloc W a _ i h (CallRecv d c src t k) true
                 Hon); [done|].
        rewrite Hd. cbn. done.
    + destruct ((n <? 0) || (alloc n =? NULL)); [done|].
      injection Hm as <-.
      apply (on_script_update alloc W a _ i h (k (alloc n)) false Hon);
        [done|].
      rewrite Hd. cbn. intros _ (_ & _ & Hs) Hv. done.
    + injection Hm as <-.
      apply (on_script_update alloc W a _ i (memcpy h d s n) k false Hon);
        [done|].
      rewrite Hd. cbn. done.
    + injection Hm as <-.
      apply (on_script_update alloc W a _ i h k false Hon); [done|].
      rewrite Hd. cbn. done.
  - destruct (in_world W i); [|done].
    destruct (desk a i) as [[h p] z] eqn:Hd. destruct z; [|done].
    destruct p as [rc|d c dst t k|d c src t k|n k|d s n k|q k|]; try done.
    destruct (find_elem_in_list _ _) as [idx|]; [|done].
    injection Hm as <-.
    eapply (on_script_update alloc W a _ i _ (k MIMPI_SUCCESS) false Hon).
    + intros j. reflexivity.
    + rewrite Hd. cbn. intros _ Hs Hv.
      apply Forall_cons in Hv as [_ Hv]. done.
  - destruct (in_world W i && in_world W s && negb (s =? i)); [|done].
    destruct (flying a (s, i)) as [|msg rest]; [done|].
    injection Hm as <-. intros j Hj. cbn. by apply Hon.
Qed.

(** A run of the processes of a world is a run of its messages. *)
Lemma run_simulated (alloc : Z → Z) (W : Z) (schedule : list move) :
  ∀ (a : Mail) (w : World),
    mail_of W a w → mail_ok a → on_script alloc W a →
    match mail_run alloc W schedule a with
    | Some a' =>
        ∃ w', processes_run alloc schedule w = Some (Done w') ∧
              mail_of W a' w' ∧ mail_ok a' ∧ on_script alloc W a'
    | None => processes_run alloc schedule w = None
    end.
Proof.
  induction schedule as [|m schedule IH]; intros a w Hof Hok Hon.
  - cbn. eauto.
  - cbn [mail_run processes_run].
    pose proof (move_simulated alloc W a w m Hof Hok
                  (on_script_pending alloc W a Hon)) as Hsim.
    destruct (mail_move alloc W a m) as [a'|] eqn:Hm.
    + destruct Hsim as (w' & -> & Hof' & Hok').
      apply (IH a' w'); [done|done|].
      by apply (on_script_move alloc W a a' m).
    + by rewrite Hsim.
Qed.

(** *** The calls of the collectives *)

Lemma plain_bind (P : event → Prop) (p : prog MIMPI_Retcode)
    (f : MIMPI_Retcode → prog MIMPI_Retcode) :
  plain P p → (∀ rc, plain P (f rc)) → plain P (bind p f).
Proof. induction 1; intros Hf; cbn [bind]; try constructor; auto. Qed.

Lemma plain_handle (P : event → Prop) (p rest : prog MIMPI_Retcode) :
  plain P p → plain P rest → plain P (HANDLE_REMOTE_FINISHED p rest).
Proof.
  intros Hp Hrest. unfold HANDLE_REMOTE_FINISHED. apply plain_bind; [done|].
  intros rc. destruct (decide _); [constructor|done].
Qed.

Lemma plain_children_loop (P : event → Prop) (call : Z → prog MIMPI_Retcode)
    (root W : Z) (rest : prog MIMPI_Retcode) :
  (∀ helper, plain P (call helper)) → plain P rest →
  ∀ (fuel : nat) (start_from power : Z),
    plain P (children_loop fuel call root start_from power W rest).
Proof.
  intros Hcall Hrest. induction fuel as [|fuel IH]; intros sf pw;
    cbn [children_loop]; destruct (sf <? W); try done; [constructor|].
  by apply plain_handle.
Qed.

Lemma plain_communication_loop (P : event → Prop) (fuel : nat)
    (data count root tag rank W : Z) (begin : bool) :
  (∀ peer, P (EvSend data count peer tag)) →
  (∀ peer, P (EvRecv data count peer tag)) →
  plain P (communication_loop fuel data count root tag rank W begin).
Proof.
  intros Hs Hr. unfold communication_loop.
  destruct (tree_init rank root) as [[receive_from power] start_from].
  destruct begin.
  - apply plain_children_loop.
    + intros helper. constructor; [done|]. constructor.
    + destruct (negb _); [|constructor].
      apply plain_handle; [|constructor]. constructor; [done|]. constructor.
  - destruct (negb _).
    + apply plain_handle.
      * constructor; [done|]. constructor.
      * apply plain_children_loop; [|constructor].
        intros helper. constructor; [done|]. constructor.
    + apply plain_children_loop; [|constructor].
      intros helper. constructor; [done|]. constructor.
Qed.

Lemma plain_Barrier (W rank : Z) (fuel : nat) :
  plain Barrier_call (MIMPI_Barrier W rank fuel).
Proof.
  unfold MIMPI_Barrier.
  apply plain_handle; apply plain_communication_loop; done.
Qed.

Lemma plain_Bcast (W rank : Z) (fuel : nat) (data count root : Z) :
  plain (Bcast_call data count) (MIMPI_Bcast W rank fuel data count root).
Proof.
  unfold MIMPI_Bcast. destruct (CHECK_RANK_ERROR W root); [constructor|].
  apply plain_handle; apply plain_communication_loop; intros peer;
    first [by left | by right].
Qed.

Lemma plain_impl (P Q : event → Prop) (p : prog MIMPI_Retcode) :
  (∀ e, P e → Q e) → plain P p → plain Q p.
Proof. intros HPQ. induction 1; constructor; auto. Qed.

Lemma plain_left (P : event → Prop) (alloc : Z → Z)
    (p : prog MIMPI_Retcode) :
  plain P p → Forall P (calls_left alloc p).
Proof. induction 1; cbn [calls_left]; try constructor; auto. Qed.

(** The calls of a run in which every call succeeds are those that are
    left to make at its start. *)
Lemma exec_plain (P : event → Prop) (alloc alloc' : Z → Z)
    (p : prog MIMPI_Retcode) :
  plain P p →
  ∀ (n : nat) (h h' : heap) (rc : MIMPI_Retcode) (tr : list event),
    exec p all_succeed alloc' n h = Some (rc, h', tr) →
    calls_left alloc p = tr ∧ (rc = MIMPI_SUCCESS → succeeds alloc p).
Proof.
  induction 1 as [rc0|d c dst t k HP Hk IH|d c src t k HP Hk IH|];
    intros n h h' rc tr He; cbn [exec calls_left succeeds] in *.
  - injection He as <- <- <-. done.
  - change (resp_rc (all_succeed n)) with MIMPI_SUCCESS in He.
    destruct (exec (k MIMPI_SUCCESS) all_succeed alloc' (S n) h)
      as [[[a h1] tr1]|] eqn:Hk1; [|done].
    injection He as <- <- <-.
    destruct (IH MIMPI_SUCCESS _ _ _ _ _ Hk1) as [-> Hs]. done.
  - change (resp_rc (all_succeed n)) with MIMPI_SUCCESS in He.
    destruct (exec (k MIMPI_SUCCESS) all_succeed alloc' (S n) _)
      as [[[a h1] tr1]|] eqn:Hk1; [|done].
    injection He as <- <- <-.
    destruct (IH MIMPI_SUCCESS _ _ _ _ _ Hk1) as [-> Hs]. done.
  - done.
Qed.

(** The run of every rank of a world. *)
Lemma world_of_script (W : Z) (p : Z → prog MIMPI_Retcode)
    (table : list (list event)) (i : Z) :
  world_of W p = Some table → 0 ≤ i < W →
  length table = Z.to_nat W ∧
  calls_of (p i) = Some (MIMPI_SUCCESS, script table (Z.to_nat i)).
Proof.
  intros Hw Hi. unfold world_of in Hw. apply mapM_Some in Hw.
  pose proof (Forall2_length _ _ _ Hw) as Hlen. rewrite length_seqZ in Hlen.
  split; [lia|].
  assert (seqZ 0 W !! Z.to_nat i = Some i) as Hl.
  { apply lookup_seqZ. lia. }
  destruct (Forall2_lookup_l _ _ _ _ _ Hw Hl) as (tr & Ht & Hc).
  unfold script. rewrite Ht. cbn.
  destruct (calls_of (p i)) as [[rc tr']|]; [|done]. cbn in Hc.
  destruct (decide (rc = MIMPI_SUCCESS)) as [->|]; [|done].
  by injection Hc as ->.
Qed.

Lemma plain_script (P : event → Prop) (alloc : Z → Z) (W : Z)
    (p : Z → prog MIMPI_Retcode) (table : list (list event)) (i : Z) :
  world_of W p = Some table → 0 ≤ i < W → plain P (p i) →
  calls_left alloc (p i) = script table (Z.to_nat i) ∧
  succeeds alloc (p i).
Proof.
  intros Hw Hi Hp. destruct (world_of_script W p table i Hw Hi) as [_ Hc].
  unfold calls_of in Hc.
  destruct (exec (p i) all_succeed (λ _ : Z, NULL) 0 no_memory)
    as [[[rc h'] tr]|] eqn:He; [|done].
  injection Hc as -> ->.
  destruct (exec_plain P alloc _ (p i) Hp _ _ _ _ _ He) as [H1 H2]. auto.
Qed.

(** *** A broadcast in the world *)

Lemma awaits_cons (e : event) (evs : list event) :
  event_tag e ≠ MIMPI_BROADCAST_TAG → awaits (e :: evs) = awaits evs.
Proof. intros Hne. unfold awaits. by rewrite filter_cons_False. Qed.

Lemma awaits_send (d c dst : Z) (evs : list event) :
  awaits (EvSend d c dst MIMPI_BROADCAST_TAG :: evs) = false.
Proof. unfold awaits. by rewrite filter_cons_True. Qed.

Lemma load_store_count (h : heap) (p n : Z) (bytes : list Z) :
  length bytes = Z.to_nat n → 0 ≤ n →
  load (store h p (take (Z.to_nat n) bytes)) p n = bytes.
Proof.
  intros Hl Hn. rewrite take_ge by lia.
  replace n with (Z.of_nat (length bytes)) at 1 by lia. apply load_store.
Qed.

Lemma Recv_deliver_broadcast (h : heap) (d c : Z) (x : list Z) :
  Recv_deliver h d c MIMPI_BROADCAST_TAG x = store h d (take (Z.to_nat c) x).
Proof. reflexivity. Qed.

Lemma Bcast_state_take (W root data count : Z) (heaps : Z → heap)
    (alloc : Z → Z) (a : Mail) (i : Z) (h : heap) (d c src t : Z)
    (k : MIMPI_Retcode → prog MIMPI_Retcode) (z : bool) (idx : nat) :
  0 ≤ count → 0 ≤ i < W →
  Bcast_state W root data count heaps alloc a →
  desk a i = (h, CallRecv d c src t k, z) →
  find_elem_in_list (queued a (src, i)) (create_message t c src None)
    = Some idx →
  Bcast_state W root data count heaps alloc
    (take_message a i h d c src t k idx).
Proof.
  intros Hcount Hi [B1 B2] Hd Hf. split.
  - intros s j m Hm Ht. apply (B1 s j m); [|done].
    cbn [take_message queued flying] in Hm. unfold upd in Hm.
    destruct (decide ((s, j) = (src, i))) as [Heq|Hneq]; [|done].
    injection Heq as -> ->. destruct Hm as [Hm|Hm]; [|by right].
    left. by apply list_elem_of_delete_inv in Hm.
  - intros j Hj. cbn [take_message desk]. unfold upd.
    destruct (decide (j = i)) as [->|Hne]; [|by apply B2].
    specialize (B2 i Hi). rewrite Hd in B2. destruct B2 as (Hp & Hfr & Hb).
    inversion Hp as [|?|? ? ? ? ? HP Hk|]; subst.
    split; [apply Hk|].
    destruct (find_elem_in_list_lookup _ _ _ Hf) as [m Hm]. rewrite Hm.
    cbn [mbind option_bind].
    destruct HP as [[Ht Hc]|(Ht & Hdata & Hc)]; cbn in Ht, Hc.
    + subst t. rewrite Recv_deliver_sentinel. split; [done|].
      destruct Hb as [Hb|Hb]; [by left|right].
      cbn [calls_left] in Hb. by rewrite awaits_cons in Hb.
    + cbn in Hdata. subst t d c.
      assert (msg_tag m = MIMPI_BROADCAST_TAG) as Hmt.
      { assert (MIMPI_BROADCAST_TAG ≠ MIMPI_ANY_TAG) as Hany by done.
        by destruct (matched_message _ _ _ _ _ _ Hany Hf Hm) as (_ & _ & ?). }
      assert (msg_data m = Some (load (heaps root) data count)) as Hmd.
      { apply (B1 src i m); [left|done]. by apply list_elem_of_lookup_2 in Hm. }
      rewrite Hmd. cbn [default from_option id].
      rewrite Recv_deliver_broadcast, take_take, Nat.min_id. split.
      * intros x Hx. rewrite store_outside; [by apply Hfr|].
        rewrite length_take, length_load. lia.
      * left. apply load_store_count; [apply length_load|done].
Qed.

Lemma Bcast_state_move (W root data count : Z) (heaps : Z → heap)
    (alloc : Z → Z) (a a' : Mail) (m : move) :
  0 ≤ count →
  Bcast_state W root data count heaps alloc a →
  mail_move alloc W a m = Some a' →
  Bcast_state W root data count heaps alloc a'.
Proof.
  intros Hcount HB Hm. pose proof HB as [B1 B2].
  destruct m as [i|i|i s]; unfold mail_move in Hm.
  - destruct (in_world W i) eqn:Hin; [|done]. apply in_world_spec in Hin.
    destruct (desk a i) as [[h p] z] eqn:Hd. destruct z; [done|].
    pose proof (B2 i Hin) as B2i. rewrite Hd in B2i.
    destruct B2i as (Hp & Hfr & Hb).
    destruct p as [rc|d c dst t k|d c src t k|n k|d s n k|q k|]; try done;
      try (by inversion Hp).
    + injection Hm as <-.
      inversion Hp as [|? ? ? ? ? HP Hk|?|]; subst. split.
      * intros s j m Hm Ht. cbn [queued flying] in Hm. unfold upd in Hm.
        destruct (decide ((s, j) = (i, dst))) as [Heq|Hneq];
          [|by apply (B1 s j m)].
        injection Heq as -> ->. destruct Hm as [Hm|Hm].
        { apply (B1 i dst m); [by left|done]. }
        apply elem_of_app in Hm as [Hm|Hm].
        { apply (B1 i dst m); [by right|done]. }
        apply list_elem_of_singleton in Hm. subst m. cbn in Ht. subst t.
        destruct HP as [[Ht _]|(_ & Hdata & Hc)]; [done|].
        cbn in Hdata, Hc. subst d c. unfold sent_message. cbn.
        destruct Hb as [->|Hb]; [done|].
        cbn [calls_left] in Hb. by rewrite awaits_send in Hb.
      * intros j Hj. cbn [desk]. unfold upd.
        destruct (decide (j = i)) as [->|Hne]; [|by apply B2].
        split; [apply Hk|]. split; [done|].
        destruct Hb as [Hb|Hb]; [by left|right].
        cbn [calls_left] in Hb.
        destruct HP as [[Ht _]|(Ht & _ & _)]; cbn in Ht; subst t.
        -- by rewrite awaits_cons in Hb.
        -- by rewrite awaits_send in Hb.
    + destruct (find_elem_in_list _ _) as [idx|] eqn:Hf.
      * injection Hm as <-.
        by apply (Bcast_state_take W root data count heaps alloc a i h d c
                    src t k false idx).
      * injection Hm as <-. split; [done|].
        intros j Hj. cbn [desk]. unfold upd.
        destruct (decide (j = i)) as [->|Hne]; [|by apply B2]. done.
  - destruct (in_world W i) eqn:Hin; [|done]. apply in_world_spec in Hin.
    destruct (desk a i) as [[h p] z] eqn:Hd. destruct z; [|done].
    destruct p as [rc|d c dst t k|d c src t k|n k|d s n k|q k|]; try done.
    destruct (find_elem_in_list _ _) as [idx|] eqn:Hf; [|done].
    injection Hm as <-.
    by apply (Bcast_state_take W root data count heaps alloc a i h d c
                src t k true idx).
  - destruct (in_world W i && in_world W s && negb (s =? i)); [|done].
    destruct (flying a (s, i)) as [|msg rest] eqn:Hfl; [done|].
    injection Hm as <-. split; [|done].
    intros s' j m Hm Ht. cbn [queued flying] in Hm. unfold upd in Hm.
    destruct (decide ((s', j) = (s, i))) as [Heq|Hneq];
      [|by apply (B1 s' j m)].
    injection Heq as -> ->. destruct Hm as [Hm|Hm].
    + unfold push_front in Hm. apply elem_of_app in Hm as [Hm|Hm].
      * apply (B1 s i m); [by left|done].
      * apply list_elem_of_singleton in Hm. subst m.
        apply (B1 s i msg); [right|done]. rewrite Hfl. constructor.
    + apply (B1 s i m); [right|done]. rewrite Hfl. by constructor.
Qed.

Lemma Bcast_state_run (W root data count : Z) (heaps : Z → heap)
    (alloc : Z → Z) (schedule : list move) :
  0 ≤ count →
  ∀ a a' : Mail,
    Bcast_state W root data count heaps alloc a →
    mail_run alloc W schedule a = Some a' →
    Bcast_state W root data count heaps alloc a'.
Proof.
  intros Hcount. induction schedule as [|m schedule IH]; intros a a' HB Hr.
  - by injection Hr as <-.
  - cbn [mail_run] in Hr.
    destruct (mail_move alloc W a m) as [a1|] eqn:Hm; [|done].
    apply (IH a1 a'); [|done].
    by apply (Bcast_state_move W root data count heaps alloc a a1 m).
Qed.

Lemma Bcast_scripts_all (data count : Z) :
  forallb (fun x => Bcast_scripts_checked x.1 x.2
                      (Bcast_world x.1 x.2 data count))
    sizes_and_roots = true.
Proof. vm_compute. reflexivity. Qed.

Lemma peers_valid_spec (W : Z) (table : list (list event)) (i : nat)
    (e : event) :
  peers_valid W table = true → (i < length table)%nat →
  e ∈ script table i →
  0 ≤ event_peer e < W ∧ event_peer e ≠ Z.of_nat i.
Proof.
  intros Hv Hi He. unfold peers_valid in Hv. rewrite forallb_forall in Hv.
  assert (In i (ranks (length table))) as Hin.
  { apply list_elem_of_In, elem_of_seq. lia. }
  specialize (Hv i Hin). rewrite forallb_forall in Hv.
  apply list_elem_of_In in He. specialize (Hv e He).
  apply andb_true_iff in Hv as [Hv H3]. apply andb_true_iff in Hv as [H1 H2].
  apply Z.leb_le in H1. apply Z.ltb_lt in H2.
  apply negb_true_iff, Z.eqb_neq in H3. done.
Qed.

Lemma Bcast_call_valid (W i data count : Z) (e : event) :
  0 ≤ count < 2 ^ 31 → Bcast_call data count e →
  0 ≤ event_peer e < W → event_peer e ≠ i → valid_call W i e.
Proof.
  intros Hc HB Hp Hne. split; [done|]. split; [done|].
  destruct HB as [[-> ->]|(-> & _ & ->)].
  - split; [by vm_compute|]. split; [by vm_compute|]. by vm_compute.
  - split; [by vm_compute|]. split; [lia|]. intros _. lia.
Qed.

Lemma Barrier_call_valid (W i : Z) (e : event) :
  Barrier_call e → 0 ≤ event_peer e < W → event_peer e ≠ i →
  valid_call W i e.
Proof.
  intros [Ht Hc] Hp Hne. split; [done|]. split; [done|].
  rewrite Ht, Hc.
  split; [by vm_compute|]. split; [by vm_compute|]. by vm_compute.
Qed.

(** The processes of a world that all call [MIMPI_Bcast] with the same
    buffer address, count and root. *)
Lemma Bcast_start (W root data count : Z) (heaps : Z → heap)
    (alloc : Z → Z) :
  2 ≤ W ≤ MAXSIZE → 0 ≤ root < W → 0 ≤ count < 2 ^ 31 →
  let progs := fun i => MIMPI_Bcast W i (Z.to_nat W) data count root in
  ∃ table,
    Bcast_world W root data count = Some table ∧
    length table = Z.to_nat W ∧
    (∀ i, 0 ≤ i < W → calls_left alloc (progs i) = script table (Z.to_nat i)) ∧
    on_script alloc W (start_mail heaps progs) ∧
    Bcast_state W root data count heaps alloc (start_mail heaps progs).
Proof.
  intros HW Hroot Hcount progs.
  pose proof (sizes_and_roots_all W root HW Hroot) as Hin.
  apply list_elem_of_In in Hin.
  pose proof (Bcast_scripts_all data count) as Hall.
  rewrite forallb_forall in Hall. specialize (Hall _ Hin). cbn [fst snd] in Hall.
  unfold Bcast_scripts_checked in Hall.
  destruct (Bcast_world W root data count) as [table|] eqn:Ht; [|done].
  apply andb_true_iff in Hall as [Hpeers Horder].
  assert (∀ i, 0 ≤ i < W →
            length table = Z.to_nat W ∧
            calls_left alloc (progs i) = script table (Z.to_nat i) ∧
            succeeds alloc (progs i)) as Hscript.
  { intros i Hi. destruct (world_of_script W progs table i Ht Hi) as [Hl _].
    destruct (plain_script (Bcast_call data count) alloc W progs table i Ht Hi)
      as [H1 H2]; [apply plain_Bcast|]. done. }
  exists table. split; [done|].
  split; [by destruct (Hscript root Hroot)|].
  split; [intros i Hi; by destruct (Hscript i Hi) as (_ & ? & _)|]. split.
  - intros i Hi. cbn. destruct (Hscript i Hi) as (Hl & Hs & Hok).
    split; [done|]. apply Forall_forall. intros e He.
    pose proof (plain_left _ alloc _ (plain_Bcast W i (Z.to_nat W) data count
                                        root)) as HP.
    rewrite Forall_forall in HP. specialize (HP e He).
    fold (progs i) in He. rewrite Hs in He.
    destruct (peers_valid_spec W table (Z.to_nat i) e Hpeers ltac:(lia) He)
      as [Hp Hne].
    apply (Bcast_call_valid W i data count e); [done|done|done|lia].
  - split; [intros s i m [Hm|Hm]; by apply elem_of_nil in Hm|].
    intros i Hi. cbn. split; [apply plain_Bcast|]. split; [done|].
    destruct (decide (i = root)) as [->|Hne]; [by left|right].
    destruct (Hscript i Hi) as (Hl & Hs & _). fold (progs i). rewrite Hs.
    unfold Bcast_order in Horder. rewrite forallb_forall in Horder.
    assert (In (Z.to_nat i) (ranks (length table))) as Hini.
    { apply list_elem_of_In, elem_of_seq. lia. }
    specialize (Horder _ Hini). apply orb_true_iff in Horder as [Hr|Hr]; [|done].
    apply Z.eqb_eq in Hr. lia.
Qed.

Lemma code_returned (alloc : Z → Z) (rc : MIMPI_Retcode) :
  succeeds alloc (Ret rc) → rc = MIMPI_SUCCESS.
Proof. done. Qed.

(** X22. A world of [W] processes, [2 <= W <= 16], that all call
    [MIMPI_Bcast] with the same buffer address, the same count and the same
    root, each on its own memory, run on the library in any interleaving of
    their caller and reader threads: no step stops a process; the memory of
    every process outside its buffer is never changed; and a process that
    has returned from the call has returned success and holds in its buffer
    the bytes that the buffer of the root held when the world started. *)
Theorem Bcast_delivers (W root data count : Z) (alloc : Z → Z)
    (detection : Z → bool) (heaps : Z → heap) (schedule : list move)
    (o : outcome World) :
  2 ≤ W ≤ MAXSIZE → 0 ≤ root < W → 0 ≤ count < 2 ^ 31 →
  processes_run alloc schedule
    (start_world W detection heaps
       (fun i => MIMPI_Bcast W i (Z.to_nat W) data count root)) = Some o →
  ∃ w,
    o = Done w ∧
    ∀ i, 0 ≤ i < W →
      (∀ x, ¬ (data ≤ x < data + count) →
         memory (member w i) x = heaps i x) ∧
      (∀ rc, code (member w i) = Ret rc →
         rc = MIMPI_SUCCESS ∧
         load (memory (member w i)) data count
         = load (heaps root) data count).
Proof.
  intros HW Hroot Hcount Hrun.
  set (progs := fun i => MIMPI_Bcast W i (Z.to_nat W) data count root) in *.
  destruct (Bcast_start W root data count heaps alloc HW Hroot Hcount)
    as (table & _ & _ & _ & Hon & HB).
  fold progs in Hon, HB.
  pose proof (run_simulated alloc W schedule (start_mail heaps progs)
                (start_world W detection heaps progs)
                (start_mail_of W detection heaps progs)
                (start_mail_ok heaps progs) Hon) as Hsim.
  destruct (mail_run alloc W schedule (start_mail heaps progs))
    as [a|] eqn:Hmail; [|congruence].
  destruct Hsim as (w & Hw & Hof & Hok & Hon').
  rewrite Hw in Hrun. injection Hrun as <-. exists w. split; [done|].
  intros i Hi.
  pose proof (Bcast_state_run W root data count heaps alloc schedule
                ltac:(lia) _ _ HB Hmail) as [_ B2].
  specialize (B2 i Hi). destruct Hof as (_ & Hmem & _).
  destruct (Hmem i Hi) as [Hd _]. rewrite Hd in B2.
  destruct B2 as (Hp & Hfr & Hb). split; [done|].
  intros rc Hrc. specialize (Hon' i Hi). rewrite Hd in Hon'. cbn in Hon'.
  rewrite Hrc in Hon', Hb. destruct Hon' as [Hs _]. split; [done|].
  by destruct Hb as [Hb|Hb].
Qed.

Lemma Bcast_delivers_witness :
  ∃ w,
    processes_run (fun _ => 0)
      [Call 0; Call 1; Call 1; Read 0 1; Wake 0; Call 0; Read 1 0; Wake 1]
      (start_world 2 (fun _ => true)
         (fun i => if i =? 0 then store no_memory 100 [7; 9] else no_memory)
         (fun i => MIMPI_Bcast 2 i 2 100 2 0)) = Some (Done w) ∧
    code (member w 1) = Ret MIMPI_SUCCESS ∧
    load (memory (member w 1)) 100 2 = [7; 9].
Proof.
  assert (match
            processes_run (fun _ => 0)
              [Call 0; Call 1; Call 1; Read 0 1; Wake 0; Call 0; Read 1 0;
               Wake 1]
              (start_world 2 (fun _ => true)
                 (fun i => if i =? 0 then store no_memory 100 [7; 9]
                           else no_memory)
                 (fun i => MIMPI_Bcast 2 i 2 100 2 0))
          with
          | Some (Done w) => code (member w 1)
          | _ => OutOfFuel
          end = Ret MIMPI_SUCCESS) as Hcode by (vm_compute; reflexivity).
  destruct (processes_run _ _ _) as [[w|]|] eqn:Hrun; [|done|done].
  exists w. split; [done|]. split; [done|].
  destruct (Bcast_delivers 2 0 100 2 _ _ _ _ _ ltac:(unfold MAXSIZE; lia)
              ltac:(lia) ltac:(lia) Hrun) as (w' & Hw & Hall).
  injection Hw as <-. destruct (Hall 1 ltac:(lia)) as [_ Hret].
  by destruct (Hret _ Hcode) as [_ ->].
Defined.

(** *** Counting messages and calls *)

Lemma sent_snoc (evs : list event) (e : event) (d t c : Z) :
  sent (evs ++ [e]) d t c
  = (sent evs d t c + if is_send d t c e then 1 else 0)%nat.
Proof.
  unfold sent. rewrite filter_app, length_app. f_equal.
  destruct (is_send d t c e) eqn:He.
  - by rewrite filter_cons_True.
  - rewrite filter_cons_False; [done|]. by rewrite He.
Qed.

Lemma taken_snoc (evs : list event) (e : event) (s t c : Z) :
  taken (evs ++ [e]) s t c
  = (taken evs s t c + if is_recv s t c e then 1 else 0)%nat.
Proof.
  unfold taken. rewrite filter_app, length_app. f_equal.
  destruct (is_recv s t c e) eqn:He.
  - by rewrite filter_cons_True.
  - rewrite filter_cons_False; [done|]. by rewrite He.
Qed.

Lemma count_of_cons (t c : Z) (m : Message) (l : list Message) :
  count_of t c (m :: l)
  = ((if decide (msg_tag m = t ∧ msg_count m = c) then 1 else 0)
     + count_of t c l)%nat.
Proof.
  unfold count_of. rewrite filter_cons.
  by destruct (decide (msg_tag m = t ∧ msg_count m = c)).
Qed.

Lemma count_of_snoc (t c : Z) (l : list Message) (m : Message) :
  count_of t c (l ++ [m])
  = (count_of t c l
     + if decide (msg_tag m = t ∧ msg_count m = c) then 1 else 0)%nat.
Proof.
  unfold count_of. rewrite filter_app, length_app. f_equal.
  rewrite filter_cons. by destruct (decide (msg_tag m = t ∧ msg_count m = c)).
Qed.

Lemma count_of_delete (t c : Z) (l : list Message) (idx : nat) (m : Message) :
  l !! idx = Some m →
  (count_of t c (delete idx l)
   + (if decide (msg_tag m = t ∧ msg_count m = c) then 1 else 0)
   = count_of t c l)%nat.
Proof.
  revert idx. induction l as [|x l IH]; intros idx Hm; [done|].
  destruct idx as [|idx]; cbn in Hm.
  - injection Hm as ->. cbn [delete list_delete]. rewrite count_of_cons.
    apply Nat.add_comm.
  - change (delete (S idx) (x :: l)) with (x :: delete idx l).
    rewrite !count_of_cons. specialize (IH idx Hm).
    destruct (decide (msg_tag x = t ∧ msg_count x = c));
      destruct (decide (msg_tag m = t ∧ msg_count m = c)); lia.
Qed.

Lemma count_of_none (t c src : Z) (l : list Message) :
  t ≠ MIMPI_ANY_TAG → Forall (message_ok src) l →
  find_elem_in_list l (create_message t c src None) = None →
  count_of t c l = O.
Proof.
  intros Ht Hok Hf. induction l as [|m l IH]; [done|].
  apply Forall_cons in Hok as [Hm Hok]. cbn [find_elem_in_list] in Hf.
  destruct (compare_message m (create_message t c src None)) eqn:Hc; [done|].
  destruct (find_elem_in_list l _); [done|].
  rewrite count_of_cons, IH by done.
  destruct (decide (msg_tag m = t ∧ msg_count m = c)) as [[H1 H2]|]; [|done].
  assert (compare_message m (create_message t c src None) = true); [|congruence].
  apply compare_message_iff. destruct Hm as [Hs _]. cbn. auto.
Qed.

Lemma drop_head {A : Type} (l : list A) (n : nat) (x : A) (rest : list A) :
  drop n l = x :: rest →
  l !! n = Some x ∧ drop (S n) l = rest ∧ take (S n) l = take n l ++ [x].
Proof.
  intros Hd.
  assert (l !! n = Some x) as Hl.
  { replace n with (n + 0)%nat by lia. rewrite <- lookup_drop, Hd. done. }
  split; [done|]. split.
  - rewrite (drop_S l x n Hl) in Hd. by injection Hd.
  - by apply take_S_r.
Qed.

Lemma world_run_snoc (table : list (list event)) (schedule : list nat)
    (i : nat) :
  ∀ v pos : nat → nat,
    world_run table schedule v = Some pos →
    ready table pos i = true →
    world_run table (schedule ++ [i]) v = Some (advance pos i).
Proof.
  induction schedule as [|j schedule IH]; intros v pos Hr Hready.
  - injection Hr as ->. cbn. unfold world_step. by rewrite Hready.
  - cbn [app world_run] in Hr |- *.
    destruct (world_step table v j) as [v1|]; [|done]. by apply IH.
Qed.

Lemma advance_at (pos : nat → nat) (i j : Z) :
  0 ≤ i → 0 ≤ j →
  advance pos (Z.to_nat i) (Z.to_nat j)
  = if decide (j = i) then S (pos (Z.to_nat j)) else pos (Z.to_nat j).
Proof.
  intros Hi Hj. unfold advance.
  destruct (decide (j = i)) as [->|Hne].
  - by rewrite decide_True.
  - rewrite decide_False; [done|]. lia.
Qed.

(** *** The calls completed in a world *)

Lemma tracks_send (alloc : Z → Z) (W : Z) (table : list (list event))
    (pos : nat → nat) (a : Mail) (i : Z) (h : heap) (d c dst t : Z)
    (k : MIMPI_Retcode → prog MIMPI_Retcode) :
  tracks alloc W table pos a → 0 ≤ i < W →
  desk a i = (h, CallSend d c dst t k, false) → 0 ≤ dst < W → dst ≠ i →
  tracks alloc W table (advance pos (Z.to_nat i))
    {| desk := upd (desk a) i (h, k MIMPI_SUCCESS, false);
       queued := queued a;
       flying := upd (flying a) (i, dst)
                   (flying a (i, dst) ++ [sent_message h d c i t]) |}.
Proof.
  intros ([sched Hrun] & K1 & K2) Hi Hd Hdst Hne.
  destruct (K1 i Hi) as [Hleft Hz]. rewrite Hd in Hleft. cbn in Hleft.
  symmetry in Hleft.
  destruct (drop_head _ _ _ _ Hleft) as (Hlook & Hdrop & Htake).
  split; [|split].
  - exists (sched ++ [Z.to_nat i]). apply world_run_snoc; [done|].
    unfold ready. by rewrite Hlook.
  - intros j Hj. cbn [desk]. rewrite advance_at by lia. unfold upd.
    destruct (decide (j = i)) as [->|Hne']; [|by apply K1].
    cbn. by rewrite Hdrop.
  - intros s' i' t' c' Hs' Hi' Hne'. cbn [queued flying].
    rewrite !advance_at by lia.
    specialize (K2 s' i' t' c' Hs' Hi' Hne'). unfold upd.
    destruct (decide (i' = i)) as [->|Hi'i];
      destruct (decide (s' = i)) as [->|Hs'i]; try done.
    + rewrite decide_False by congruence.
      rewrite Htake, taken_snoc. cbn [is_recv]. lia.
    + rewrite Htake, sent_snoc. cbn [is_send].
      destruct (decide ((i, i') = (i, dst))) as [Heq|Hneq].
      * injection Heq as ->. rewrite count_of_snoc. cbn.
        rewrite Z.eqb_refl. cbn [andb].
        destruct (decide (t = t' ∧ c = c')) as [[-> ->]|Hn].
        -- rewrite !Z.eqb_refl. cbn. lia.
        -- destruct (Z.eqb_spec t t'); destruct (Z.eqb_spec c c'); cbn; lia.
      * destruct (Z.eqb_spec dst i'); [congruence|]. cbn. lia.
    + rewrite decide_False by congruence. done.
Qed.

Lemma tracks_take (alloc : Z → Z) (W : Z) (table : list (list event))
    (pos : nat → nat) (a : Mail) (i : Z) (h : heap) (d c src t : Z)
    (k : MIMPI_Retcode → prog MIMPI_Retcode) (z : bool) (idx : nat) :
  tracks alloc W table pos a → 0 ≤ i < W →
  desk a i = (h, CallRecv d c src t k, z) →
  0 ≤ src < W → src ≠ i → t ≠ MIMPI_ANY_TAG →
  find_elem_in_list (queued a (src, i)) (create_message t c src None)
    = Some idx →
  tracks alloc W table (advance pos (Z.to_nat i))
    (take_message a i h d c src t k idx).
Proof.
  intros ([sched Hrun] & K1 & K2) Hi Hd Hsrc Hne Ht Hf.
  destruct (K1 i Hi) as [Hleft Hz]. rewrite Hd in Hleft. cbn in Hleft.
  symmetry in Hleft.
  destruct (drop_head _ _ _ _ Hleft) as (Hlook & Hdrop & Htake).
  destruct (find_elem_in_list_lookup _ _ _ Hf) as [m Hm].
  destruct (matched_message _ _ _ _ _ _ Ht Hf Hm) as (Hms & Hmc & Hmt).
  pose proof (λ t' c', count_of_delete t' c' _ _ _ Hm) as Hdel.
  split; [|split].
  - exists (sched ++ [Z.to_nat i]). apply world_run_snoc; [done|].
    unfold ready. rewrite Hlook.
    specialize (K2 src i t c Hsrc Hi Hne). specialize (Hdel t c).
    rewrite decide_True in Hdel by done.
    rewrite !Z2Nat.id by lia. apply Nat.ltb_lt. lia.
  - intros j Hj. cbn [take_message desk]. rewrite advance_at by lia.
    unfold upd.
    destruct (decide (j = i)) as [->|Hne']; [|by apply K1].
    cbn. by rewrite Hdrop.
  - intros s' i' t' c' Hs' Hi' Hne'. cbn [take_message queued flying].
    rewrite !advance_at by lia.
    specialize (K2 s' i' t' c' Hs' Hi' Hne'). unfold upd.
    destruct (decide (i' = i)) as [->|Hi'i];
      destruct (decide (s' = i)) as [->|Hs'i]; try done.
    + rewrite Htake, taken_snoc. cbn [is_recv].
      destruct (decide ((s', i) = (src, i))) as [Heq|Hneq].
      * injection Heq as ->. specialize (Hdel t' c').
        rewrite Hmt, Hmc in Hdel. rewrite Z.eqb_refl. cbn [andb].
        destruct (decide (t = t' ∧ c = c')) as [[-> ->]|Hn].
        -- rewrite !Z.eqb_refl. cbn. lia.
        -- destruct (Z.eqb_spec t t'); destruct (Z.eqb_spec c c'); cbn; lia.
      * destruct (Z.eqb_spec src s'); [congruence|]. cbn. lia.
    + rewrite decide_False by congruence.
      rewrite Htake, sent_snoc. cbn [is_send]. lia.
    + rewrite decide_False by congruence. done.
Qed.

Lemma tracks_stay (alloc : Z → Z) (W : Z) (table : list (list event))
    (pos : nat → nat) (a a' : Mail) (i : Z) (h : heap)
    (p : prog MIMPI_Retcode) (z : bool) :
  tracks alloc W table pos a →
  (∀ j, desk a' j = upd (desk a) i (h, p, z) j) →
  calls_left alloc p = calls_left alloc (desk a i).1.2 →
  (z = true → ∃ d c src t k, p = CallRecv d c src t k) →
  (∀ x, queued a' x = queued a x) → (∀ x, flying a' x = flying a x) →
  tracks alloc W table pos a'.
Proof.
  intros (Hrun & K1 & K2) Hd Hp Hz Hq Hf. split; [done|]. split.
  - intros j Hj. rewrite Hd. unfold upd.
    destruct (decide (j = i)) as [->|Hne]; [|by apply K1].
    cbn. destruct (K1 i Hj) as [H1 _]. by rewrite Hp.
  - intros s j t c Hs Hj Hne. rewrite Hq, Hf. by apply K2.
Qed.

Lemma tracks_read (alloc : Z → Z) (W : Z) (table : list (list event))
    (pos : nat → nat) (a : Mail) (i s : Z) (m : Message)
    (rest : list Message) :
  tracks alloc W table pos a → flying a (s, i) = m :: rest →
  tracks alloc W table pos
    {| desk := desk a;
       queued := upd (queued a) (s, i) (push_front (queued a (s, i)) m);
       flying := upd (flying a) (s, i) rest |}.
Proof.
  intros (Hrun & K1 & K2) Hfl. split; [done|]. split; [done|].
  intros s' i' t c Hs' Hi' Hne. cbn [queued flying]. unfold upd.
  specialize (K2 s' i' t c Hs' Hi' Hne).
  destruct (decide ((s', i') = (s, i))) as [Heq|Hneq]; [|done].
  injection Heq as -> ->. rewrite Hfl, count_of_cons in K2.
  unfold push_front. rewrite count_of_snoc.
  destruct (decide (msg_tag m = t ∧ msg_count m = c)); lia.
Qed.

(** Every step of a world whose processes make valid calls keeps them on
    the runs of the table. *)
Lemma tracks_move (alloc : Z → Z) (W : Z) (table : list (list event))
    (pos : nat → nat) (a a' : Mail) (m : move) :
  on_script alloc W a → tracks alloc W table pos a →
  mail_move alloc W a m = Some a' →
  ∃ pos', tracks alloc W table pos' a'.
Proof.
  intros Hon Htr Hm.
  destruct m as [i|i|i s]; unfold mail_move in Hm.
  - destruct (in_world W i) eqn:Hin; [|done]. apply in_world_spec in Hin.
    pose proof (on_script_pending alloc W a Hon i Hin) as Hval.
    destruct (desk a i) as [[h p] z] eqn:Hd. destruct z; [done|].
    cbn [fst snd] in Hval.
    destruct p as [rc|d c dst t k|d c src t k|n k|d s n k|q k|]; try done.
    + injection Hm as <-. destruct Hval as (Hdst & Hne & _).
      eexists. by apply (tracks_send alloc W table pos a i h d c dst t k).
    + destruct Hval as (Hsrc & Hne & Ht & _).
      cbn [event_peer event_tag] in *.
      destruct (collective_tag_tests t Ht) as (_ & _ & _ & _ & T5 & _).
      apply Z.eqb_neq in T5.
      destruct (find_elem_in_list _ _) as [idx|] eqn:Hf.
      * injection Hm as <-. eexists.
        by apply (tracks_take alloc W table pos a i h d c src t k false idx).
      * injection Hm as <-. exists pos.
        apply (tracks_stay alloc W table pos a _ i h (CallRecv d c src t k)
                 true Htr); try done.
        -- by rewrite Hd.
        -- intros _. eauto 6.
    + destruct ((n <? 0) || (alloc n =? NULL)); [done|].
      injection Hm as <-. exists pos.
      apply (tracks_stay alloc W table pos a _ i h (k (alloc n)) false Htr);
        try done. by rewrite Hd.
    + injection Hm as <-. exists pos.
      apply (tracks_stay alloc W table pos a _ i (memcpy h d s n) k false Htr);
        try done. by rewrite Hd.
    + injection Hm as <-. exists pos.
      apply (tracks_stay alloc W table pos a _ i h k false Htr);
        try done. by rewrite Hd.
  - destruct (in_world W i) eqn:Hin; [|done]. apply in_world_spec in Hin.
    pose proof (on_script_pending alloc W a Hon i Hin) as Hval.
    destruct (desk a i) as [[h p] z] eqn:Hd. destruct z; [|done].
    cbn [fst snd] in Hval.
    destruct p as [rc|d c dst t k|d c src t k|n k|d s n k|q k|]; try done.
    destruct Hval as (Hsrc & Hne & Ht & _).
    cbn [event_peer event_tag] in *.
    destruct (collective_tag_tests t Ht) as (_ & _ & _ & _ & T5 & _).
    apply Z.eqb_neq in T5.
    destruct (find_elem_in_list _ _) as [idx|] eqn:Hf; [|done].
    injection Hm as <-. eexists.
    by apply (tracks_take alloc W table pos a i h d c src t k true idx).
  - destruct (in_world W i && in_world W s && negb (s =? i)); [|done].
    destruct (flying a (s, i)) as [|msg rest] eqn:Hfl; [done|].
    injection Hm as <-. exists pos. by apply tracks_read.
Qed.

Lemma tracks_start (alloc : Z → Z) (W : Z) (table : list (list event))
    (heaps : Z → heap) (progs : Z → prog MIMPI_Retcode) :
  (∀ i, 0 ≤ i < W → calls_left alloc (progs i) = script table (Z.to_nat i)) →
  tracks alloc W table (fun _ => O) (start_mail heaps progs).
Proof.
  intros Hs. split; [by exists []|]. split.
  - intros i Hi. cbn. split; [by apply Hs|done].
  - intros s i t c _ _ _. reflexivity.
Qed.

Lemma tracks_run (alloc : Z → Z) (W : Z) (table : list (list event))
    (schedule : list move) :
  ∀ (pos : nat → nat) (a a' : Mail),
    on_script alloc W a → tracks alloc W table pos a →
    mail_run alloc W schedule a = Some a' →
    ∃ pos', tracks alloc W table pos' a'.
Proof.
  induction schedule as [|m schedule IH]; intros pos a a' Hon Htr Hr.
  - injection Hr as <-. by exists pos.
  - cbn [mail_run] in Hr.
    destruct (mail_move alloc W a m) as [a1|] eqn:Hm; [|done].
    destruct (tracks_move alloc W table pos a a1 m Hon Htr Hm) as [pos1 Htr1].
    apply (IH pos1 a1 a'); [|done|done].
    by apply (on_script_move alloc W a a1 m).
Qed.

(** When a process can complete its next call, some thread of the world
    can move. *)
Lemma tracks_ready (alloc : Z → Z) (W : Z) (table : list (list event))
    (pos : nat → nat) (a : Mail) (n : nat) :
  length table = Z.to_nat W →
  on_script alloc W a → mail_ok a → tracks alloc W table pos a →
  ready table pos n = true →
  ∃ m, is_Some (mail_move alloc W a m).
Proof.
  intros Hlen Hon Hok (_ & K1 & K2) Hready.
  destruct (ready_within table pos n Hready) as [Hpos Hn].
  assert (0 ≤ Z.of_nat n < W) as Hi by lia.
  set (i := Z.of_nat n) in *.
  destruct (K1 i Hi) as [Hleft Hz]. unfold i in Hleft. rewrite Nat2Z.id in Hleft.
  fold i in Hleft.
  pose proof (on_script_pending alloc W a Hon i Hi) as Hval.
  assert (in_world W i = true) as Hin by (by apply in_world_spec).
  unfold ready in Hready.
  destruct (script table n !! pos n) as [e|] eqn:He; [|done].
  rewrite (drop_S _ _ _ He) in Hleft.
  destruct (desk a i) as [[h p] z] eqn:Hd. cbn [fst snd] in *.
  destruct z.
  - destruct (Hz eq_refl) as (d & c & src & t & k & ->).
    cbn [calls_left] in Hleft. injection Hleft as <- _.
    destruct Hval as (Hsrc & Hne & Ht & _).
    cbn [event_peer event_tag] in *.
    destruct (collective_tag_tests t Ht) as (_ & _ & _ & _ & T5 & _).
    apply Z.eqb_neq in T5.
    destruct (find_elem_in_list (queued a (src, i))
                (create_message t c src None)) as [idx|] eqn:Hf.
    + exists (Wake i). unfold mail_move. rewrite Hin, Hd, Hf. eauto.
    + exists (Read i src). unfold mail_move.
      assert (in_world W src = true) as -> by (by apply in_world_spec).
      rewrite Hin. destruct (Z.eqb_spec src i); [done|]. cbn [andb negb].
      specialize (K2 src i t c Hsrc Hi Hne).
      destruct (Hok src i) as [Hqok _].
      rewrite (count_of_none t c src _ T5 Hqok Hf) in K2.
      unfold i in K2. rewrite Nat2Z.id in K2. fold i in K2.
      apply Nat.ltb_lt in Hready.
      destruct (flying a (src, i)) as [|msg rest]; [|eauto].
      change (count_of t c []) with O in K2. subst i. lia.
  - exists (Call i). unfold mail_move. rewrite Hin, Hd.
    destruct p as [rc|d c dst t k|d c src t k|s k|d s sz k|q k|];
      cbn [calls_left] in Hleft; try done; eauto.
    + destruct (find_elem_in_list _ _); eauto.
    + cbn in Hval. destruct Hval as [Hs Halloc].
      destruct (Z.ltb_spec s 0); [lia|].
      destruct (Z.eqb_spec (alloc s) NULL); [done|]. eauto.
Qed.

(** *** The number of steps of a world *)

Lemma sum_fmap_change {K : Type} (f g : K → nat) (l : list K) (k : K) :
  NoDup l → k ∈ l → (∀ k', k' ∈ l → k' ≠ k → g k' = f k') →
  (sum_list (g <$> l) + f k = sum_list (f <$> l) + g k)%nat.
Proof.
  induction l as [|x l IH]; intros Hnd Hk Hsame; [by apply elem_of_nil in Hk|].
  apply NoDup_cons in Hnd as [Hx Hnd]. rewrite !fmap_cons.
  cbn [sum_list_with]. unfold id at 1 3.
  apply elem_of_cons in Hk as [->|Hk].
  - assert (sum_list (g <$> l) = sum_list (f <$> l)) as ->; [|lia].
    f_equal. apply list_fmap_ext. intros j y Hy.
    apply Hsame; [right; by apply list_elem_of_lookup_2 in Hy|].
    intros ->. by apply list_elem_of_lookup_2 in Hy.
  - assert (g x = f x) as ->.
    { apply Hsame; [by left|]. by intros ->. }
    assert (∀ k', k' ∈ l → k' ≠ k → g k' = f k') as Hsame'.
    { intros k' Hk' Hne. apply Hsame; [by right|done]. }
    specialize (IH Hnd Hk Hsame'). lia.
Qed.

Lemma sum_fmap_same {K : Type} (f g : K → nat) (l : list K) :
  (∀ k, k ∈ l → g k = f k) → sum_list (g <$> l) = sum_list (f <$> l).
Proof.
  intros Hsame. f_equal. apply list_fmap_ext. intros j y Hy.
  apply Hsame. by apply list_elem_of_lookup_2 in Hy.
Qed.

Lemma elem_of_pairs (W s i : Z) :
  (s, i) ∈ pairs W ↔ 0 ≤ s < W ∧ 0 ≤ i < W.
Proof.
  unfold pairs. rewrite list_elem_of_bind. split.
  - intros (x & Hx & Hs). apply list_elem_of_fmap in Hx as (y & Heq & Hy).
    injection Heq as -> ->. apply elem_of_seqZ in Hs, Hy. lia.
  - intros [Hs Hi]. exists s. split; [|apply elem_of_seqZ; lia].
    apply list_elem_of_fmap. exists i. split; [done|]. apply elem_of_seqZ; lia.
Qed.

Lemma NoDup_pairs (W : Z) : NoDup (pairs W).
Proof.
  unfold pairs. apply NoDup_bind.
  - intros x1 x2 y _ _ H1 H2.
    apply list_elem_of_fmap in H1 as (y1 & -> & _).
    apply list_elem_of_fmap in H2 as (y2 & Heq & _). by injection Heq.
  - intros x _. apply NoDup_fmap_2; [|apply NoDup_seqZ].
    intros y1 y2 Heq. by injection Heq.
  - apply NoDup_seqZ.
Qed.

Lemma weight_desk (alloc : Z → Z) (W : Z) (a a' : Mail) (i : Z)
    (x : heap * prog MIMPI_Retcode * bool) :
  0 ≤ i < W → (∀ j, desk a' j = upd (desk a) i x j) →
  (callers_weight alloc W a' + rank_weight alloc (desk a i)
   = callers_weight alloc W a + rank_weight alloc x)%nat.
Proof.
  intros Hi Hd. unfold callers_weight.
  rewrite (sum_fmap_change (fun j => rank_weight alloc (desk a j))
             (fun j => rank_weight alloc (desk a' j)) (seqZ 0 W) i).
  - by rewrite Hd, upd_eq.
  - apply NoDup_seqZ.
  - apply elem_of_seqZ. lia.
  - intros j _ Hne. by rewrite Hd, upd_ne.
Qed.

Lemma weight_flying (W : Z) (a a' : Mail) (s i : Z) (l : list Message) :
  0 ≤ s < W → 0 ≤ i < W →
  (∀ x, flying a' x = upd (flying a) (s, i) l x) →
  (flying_weight W a' + length (flying a (s, i))
   = flying_weight W a + length l)%nat.
Proof.
  intros Hs Hi Hf. unfold flying_weight.
  rewrite (sum_fmap_change (fun p => length (flying a p))
             (fun p => length (flying a' p)) (pairs W) (s, i)).
  - by rewrite Hf, upd_eq.
  - apply NoDup_pairs.
  - by apply elem_of_pairs.
  - intros p _ Hne. by rewrite Hf, upd_ne.
Qed.

(** Every step of a world leaves it fewer steps to make. *)
Lemma weight_move (alloc : Z → Z) (W : Z) (table : list (list event))
    (pos : nat → nat) (a a' : Mail) (m : move) :
  on_script alloc W a → tracks alloc W table pos a →
  mail_move alloc W a m = Some a' →
  (weight alloc W a' < weight alloc W a)%nat.
Proof.
  intros Hon (_ & K1 & _) Hm. unfold weight.
  destruct m as [i|i|i s]; unfold mail_move in Hm.
  - destruct (in_world W i) eqn:Hin; [|done]. apply in_world_spec in Hin.
    pose proof (on_script_pending alloc W a Hon i Hin) as Hval.
    destruct (desk a i) as [[h p] z] eqn:Hd. destruct z; [done|].
    cbn [fst snd] in Hval.
    destruct p as [rc|d c dst t k|d c src t k|n k|d s n k|q k|]; try done.
    + injection Hm as <-. destruct Hval as (Hdst & Hne & _).
      cbn [event_peer] in *.
      pose proof (weight_desk alloc W a
                    {| desk := upd (desk a) i (h, k MIMPI_SUCCESS, false);
                       queued := queued a;
                       flying := upd (flying a) (i, dst)
                                   (flying a (i, dst)
                                    ++ [sent_message h d c i t]) |}
                    i _ Hin ltac:(done)) as HA.
      pose proof (weight_flying W a
                    {| desk := upd (desk a) i (h, k MIMPI_SUCCESS, false);
                       queued := queued a;
                       flying := upd (flying a) (i, dst)
                                   (flying a (i, dst)
                                    ++ [sent_message h d c i t]) |}
                    i dst _ Hin Hdst ltac:(done)) as HB.
      rewrite Hd in HA. unfold rank_weight in HA.
      cbn [fst snd work] in HA. rewrite length_app in HB. cbn in HB. lia.
    + destruct (find_elem_in_list _ _) as [idx|] eqn:Hf.
      * injection Hm as <-.
        pose proof (weight_desk alloc W a
                      (take_message a i h d c src t k idx) i _ Hin
                      ltac:(done)) as HA.
        rewrite Hd in HA. unfold rank_weight in HA.
        cbn [fst snd work] in HA.
        change (flying_weight W (take_message a i h d c src t k idx))
          with (flying_weight W a). lia.
      * injection Hm as <-.
        pose proof (weight_desk alloc W a
                      {| desk := upd (desk a) i (h, CallRecv d c src t k, true);
                         queued := queued a; flying := flying a |} i _ Hin
                      ltac:(done)) as HA.
        rewrite Hd in HA. unfold rank_weight in HA.
        cbn [fst snd work] in HA.
      match goal with
      | |- context [flying_weight W ?x] =>
          change (flying_weight W x) with (flying_weight W a)
      end. lia.
    + destruct ((n <? 0) || (alloc n =? NULL)); [done|].
      injection Hm as <-.
      pose proof (weight_desk alloc W a
                    {| desk := upd (desk a) i (h, k (alloc n), false);
                       queued := queued a; flying := flying a |} i _ Hin
                    ltac:(done)) as HA.
      rewrite Hd in HA. unfold rank_weight in HA.
      cbn [fst snd work] in HA.
      match goal with
      | |- context [flying_weight W ?x] =>
          change (flying_weight W x) with (flying_weight W a)
      end. lia.
    + injection Hm as <-.
      pose proof (weight_desk alloc W a
                    {| desk := upd (desk a) i (memcpy h d s n, k, false);
                       queued := queued a; flying := flying a |} i _ Hin
                    ltac:(done)) as HA.
      rewrite Hd in HA. unfold rank_weight in HA.
      cbn [fst snd work] in HA.
      match goal with
      | |- context [flying_weight W ?x] =>
          change (flying_weight W x) with (flying_weight W a)
      end. lia.
    + injection Hm as <-.
      pose proof (weight_desk alloc W a
                    {| desk := upd (desk a) i (h, k, false);
                       queued := queued a; flying := flying a |} i _ Hin
                    ltac:(done)) as HA.
      rewrite Hd in HA. unfold rank_weight in HA.
      cbn [fst snd work] in HA.
      match goal with
      | |- context [flying_weight W ?x] =>
          change (flying_weight W x) with (flying_weight W a)
      end. lia.
  - destruct (in_world W i) eqn:Hin; [|done]. apply in_world_spec in Hin.
    destruct (desk a i) as [[h p] z] eqn:Hd. destruct z; [|done].
    destruct p as [rc|d c dst t k|d c src t k|n k|d s n k|q k|]; try done.
    destruct (find_elem_in_list _ _) as [idx|] eqn:Hf; [|done].
    injection Hm as <-.
    pose proof (weight_desk alloc W a
                  (take_message a i h d c src t k idx) i _ Hin
                  ltac:(done)) as HA.
    rewrite Hd in HA. unfold rank_weight in HA.
    cbn [fst snd work] in HA.
    change (flying_weight W (take_message a i h d c src t k idx))
      with (flying_weight W a). lia.
  - destruct (in_world W i && in_world W s && negb (s =? i)) eqn:Hin;
      [|done].
    apply andb_true_iff in Hin as [Hin _].
    apply andb_true_iff in Hin as [Hi Hs]. apply in_world_spec in Hi, Hs.
    destruct (flying a (s, i)) as [|msg rest] eqn:Hfl; [done|].
    injection Hm as <-.
    pose proof (weight_flying W a
                  {| desk := desk a;
                     queued := upd (queued a) (s, i)
                                 (push_front (queued a (s, i)) msg);
                     flying := upd (flying a) (s, i) rest |}
                  s i _ Hs Hi ltac:(done)) as HB.
    rewrite Hfl in HB. cbn [length] in HB.
    match goal with
    | |- context [callers_weight alloc W ?x] =>
        change (callers_weight alloc W x) with (callers_weight alloc W a)
    end. lia.
Qed.

Lemma weight_run (alloc : Z → Z) (W : Z) (table : list (list event))
    (schedule : list move) :
  ∀ (pos : nat → nat) (a a' : Mail),
    on_script alloc W a → tracks alloc W table pos a →
    mail_run alloc W schedule a = Some a' →
    (length schedule + weight alloc W a' ≤ weight alloc W a)%nat.
Proof.
  induction schedule as [|m schedule IH]; intros pos a a' Hon Htr Hr.
  - injection Hr as <-. cbn. lia.
  - cbn [mail_run] in Hr.
    destruct (mail_move alloc W a m) as [a1|] eqn:Hm; [|done].
    destruct (tracks_move alloc W table pos a a1 m Hon Htr Hm) as [pos1 Htr1].
    pose proof (weight_move alloc W table pos a a1 m Hon Htr Hm) as Hlt.
    pose proof (IH pos1 a1 a' (on_script_move alloc W a a1 m Hon Hm) Htr1 Hr).
    cbn [length]. lia.
Qed.

Lemma work_plain (P : event → Prop) (alloc : Z → Z) (p : prog MIMPI_Retcode) :
  plain P p → work alloc p = (2 * length (calls_left alloc p))%nat.
Proof.
  induction 1 as [rc|d c dst t k HP Hk IH|d c src t k HP Hk IH|];
    cbn [work calls_left length]; try done.
  - rewrite (IH MIMPI_SUCCESS). lia.
  - rewrite (IH MIMPI_SUCCESS). lia.
Qed.

Lemma sum_list_affine {A : Type} (f : A → nat) (l : list A) :
  sum_list ((fun x => 2 * f x + 1)%nat <$> l)
  = (2 * sum_list (f <$> l) + length l)%nat.
Proof.
  induction l as [|x l IH]; [done|].
  rewrite !fmap_cons. cbn [sum_list_with length]. unfold id at 1 3.
  rewrite IH. lia.
Qed.

Lemma weight_start (P : event → Prop) (alloc : Z → Z) (W : Z)
    (table : list (list event)) (heaps : Z → heap)
    (progs : Z → prog MIMPI_Retcode) :
  0 ≤ W → length table = Z.to_nat W →
  (∀ i, plain P (progs i)) →
  (∀ i, 0 ≤ i < W → calls_left alloc (progs i) = script table (Z.to_nat i)) →
  weight alloc W (start_mail heaps progs)
  = (2 * total_calls table + Z.to_nat W)%nat.
Proof.
  intros HW Hlen Hp Hs. unfold weight, callers_weight, flying_weight.
  assert (sum_list ((fun p => length (flying (start_mail heaps progs) p))
                      <$> pairs W) = O) as ->.
  { cbn. induction (pairs W) as [|x l IH]; [done|]. by rewrite fmap_cons. }
  rewrite Nat.add_0_r.
  rewrite (sum_fmap_same
             (fun i => (2 * length (script table (Z.to_nat i)) + 1)%nat)
             (fun i => rank_weight alloc (desk (start_mail heaps progs) i))).
  - rewrite (sum_list_affine (fun i => length (script table (Z.to_nat i)))).
    rewrite length_seqZ. f_equal. f_equal. unfold total_calls.
    rewrite <- script_lengths, Hlen. f_equal. unfold seqZ.
    rewrite <- list_fmap_compose. apply list_fmap_ext.
    intros j x Hx. cbn. f_equal. f_equal. lia.
  - intros i Hi. apply elem_of_seqZ in Hi. unfold rank_weight. cbn.
    rewrite (work_plain P alloc (progs i) (Hp i)), Hs by lia. lia.
Qed.

(** What the calls of the processes being completed one after another
    gives for a world on the library. *)
Lemma world_completes (P : event → Prop) (alloc : Z → Z) (W : Z)
    (table : list (list event)) (detection : Z → bool) (heaps : Z → heap)
    (progs : Z → prog MIMPI_Retcode) (schedule : list move)
    (o : outcome World) :
  0 ≤ W → length table = Z.to_nat W →
  (∀ i, plain P (progs i)) →
  (∀ i, 0 ≤ i < W → calls_left alloc (progs i) = script table (Z.to_nat i)) →
  on_script alloc W (start_mail heaps progs) →
  (∀ sched pos,
     world_run table sched (fun _ => O) = Some pos →
     (all_done table pos = false → ∃ i, ready table pos i = true) ∧
     ((∃ i, (i < length table)%nat ∧ pos i = length (script table i)) →
      ∀ j, (j < length table)%nat → (1 ≤ pos j)%nat)) →
  processes_run alloc schedule (start_world W detection heaps progs)
    = Some o →
  ∃ w,
    o = Done w ∧
    (length schedule ≤ 2 * total_calls table + Z.to_nat W)%nat ∧
    ((∀ m, processes_move alloc w m = None) →
     ∀ i, 0 ≤ i < W →
       code (member w i) = Ret MIMPI_SUCCESS ∧ asleep (member w i) = false) ∧
    ((∃ i rc, 0 ≤ i < W ∧ code (member w i) = Ret rc) →
     ∀ j, 0 ≤ j < W →
       (length (calls_left alloc (code (member w j)))
        < length (calls_left alloc (progs j)))%nat).
Proof.
  intros HW Hlen Hp Hs Hon Hcheck Hrun.
  pose proof (run_simulated alloc W schedule (start_mail heaps progs)
                (start_world W detection heaps progs)
                (start_mail_of W detection heaps progs)
                (start_mail_ok heaps progs) Hon) as Hsim.
  destruct (mail_run alloc W schedule (start_mail heaps progs))
    as [a|] eqn:Hmail; [|congruence].
  destruct Hsim as (w & Hw & Hof & Hok & Hon').
  rewrite Hw in Hrun. injection Hrun as <-. exists w. split; [done|].
  pose proof (tracks_start alloc W table heaps progs Hs) as Htr0.
  destruct (tracks_run alloc W table schedule _ _ _ Hon Htr0 Hmail)
    as [pos Htr].
  pose proof (weight_run alloc W table schedule _ _ _ Hon Htr0 Hmail) as Hwt.
  rewrite (weight_start P alloc W table heaps progs HW Hlen Hp Hs) in Hwt.
  split; [lia|].
  pose proof Htr as ([sched Hsched] & K1 & K2).
  destruct (Hcheck sched pos Hsched) as [Hready Hsync].
  pose proof Hof as (_ & Hmem & _).
  assert (∀ k, (pos k ≤ length (script table k))%nat) as Hwithin.
  { apply (world_run_within table sched (fun _ => O)); [|done]. intros; lia. }
  split.
  - intros Hstuck.
    assert (∀ m, mail_move alloc W a m = None) as Hstuck'.
    { intros m.
      pose proof (move_simulated alloc W a w m Hof Hok
                    (on_script_pending alloc W a Hon')) as Hm.
      destruct (mail_move alloc W a m); [|done].
      destruct Hm as (w' & Hm & _). by rewrite Hstuck in Hm. }
    assert (all_done table pos = true) as Hdone.
    { destruct (all_done table pos) eqn:Hd; [done|].
      destruct (Hready eq_refl) as [n Hn].
      destruct (tracks_ready alloc W table pos a n Hlen Hon' Hok Htr Hn)
        as [m [a' Hm]].
      by rewrite Hstuck' in Hm. }
    intros i Hi. unfold all_done in Hdone. rewrite forallb_forall in Hdone.
    assert (In (Z.to_nat i) (ranks (length table))) as Hin.
    { apply list_elem_of_In, elem_of_seq. lia. }
    specialize (Hdone _ Hin). apply Nat.eqb_eq in Hdone.
    destruct (K1 i Hi) as [Hleft Hz]. destruct (Hmem i Hi) as [Hd _].
    destruct (Hon' i Hi) as [Hsucc _].
    rewrite Hd in Hleft, Hz, Hsucc. cbn [fst snd] in *.
    rewrite Hdone, drop_all in Hleft.
    destruct (asleep (member w i)) eqn:Hasleep.
    { destruct (Hz eq_refl) as (d & c & src & t & k & Hc).
      by rewrite Hc in Hleft. }
    split; [|done].
    pose proof (Hstuck' (Call i)) as Hcall. unfold mail_move in Hcall.
    assert (in_world W i = true) as Hin' by (by apply in_world_spec).
    rewrite Hin', Hd in Hcall.
    destruct (code (member w i)) as [rc|?|?|s k|?|?|]; try done.
    + cbn in Hsucc. by rewrite Hsucc.
    + cbn in Hsucc. destruct Hsucc as (Hs0 & Halloc & _).
      destruct (Z.ltb_spec s 0); [lia|].
      by destruct (Z.eqb_spec (alloc s) NULL).
  - intros (i & rc & Hi & Hrc) j Hj.
    destruct (K1 i Hi) as [Hleft _]. destruct (Hmem i Hi) as [Hd _].
    rewrite Hd in Hleft. cbn [fst snd] in Hleft. rewrite Hrc in Hleft.
    cbn [calls_left] in Hleft. symmetry in Hleft.
    apply (f_equal length) in Hleft. rewrite length_drop in Hleft.
    cbn [length] in Hleft.
    assert (∀ j, (j < length table)%nat → (1 ≤ pos j)%nat) as Hall.
    { apply Hsync. exists (Z.to_nat i). split; [lia|].
      specialize (Hwithin (Z.to_nat i)). lia. }
    destruct (K1 j Hj) as [Hleftj _]. destruct (Hmem j Hj) as [Hdj _].
    rewrite Hdj in Hleftj. cbn [fst snd] in Hleftj.
    rewrite Hleftj, (Hs j Hj), length_drop.
    specialize (Hall (Z.to_nat j) ltac:(lia)).
    specialize (Hwithin (Z.to_nat j)). lia.
Qed.

Lemma Barrier_calls_all :
  forallb (fun W => calls_checked W (Barrier_world W)) (seqZ 2 15) = true.
Proof. vm_compute. reflexivity. Qed.

Lemma Bcast_calls_all (data count : Z) :
  forallb (fun x => calls_checked x.1 (Bcast_world x.1 x.2 data count))
    sizes_and_roots = true.
Proof. vm_compute. reflexivity. Qed.

(** The processes of a world that all call [MIMPI_Barrier]. *)
Lemma Barrier_start (W : Z) (heaps : Z → heap) (alloc : Z → Z) :
  2 ≤ W ≤ MAXSIZE →
  let progs := fun i => MIMPI_Barrier W i (Z.to_nat W) in
  ∃ table,
    length table = Z.to_nat W ∧
    total_calls table = (4 * (Z.to_nat W - 1))%nat ∧
    (∀ i, 0 ≤ i < W → calls_left alloc (progs i) = script table (Z.to_nat i)) ∧
    on_script alloc W (start_mail heaps progs) ∧
    (∀ sched pos,
       world_run table sched (fun _ => O) = Some pos →
       (all_done table pos = false → ∃ i, ready table pos i = true) ∧
       ((∃ i, (i < length table)%nat ∧ pos i = length (script table i)) →
        ∀ j, (j < length table)%nat → (1 ≤ pos j)%nat)).
Proof.
  intros HW progs. unfold MAXSIZE in HW.
  assert (In W (seqZ 2 15)) as Hin.
  { apply list_elem_of_In, elem_of_seqZ. lia. }
  pose proof Barrier_checked_all as Hall. rewrite forallb_forall in Hall.
  specialize (Hall W Hin). unfold Barrier_checked in Hall.
  pose proof Barrier_calls_all as Hcalls. rewrite forallb_forall in Hcalls.
  specialize (Hcalls W Hin). unfold calls_checked in Hcalls.
  destruct (Barrier_world W) as [table|] eqn:Ht; [|done].
  apply andb_prop in Hall as [Hall Hw]. apply andb_prop in Hall as [Hlen Hc].
  apply Nat.eqb_eq in Hlen.
  apply andb_prop in Hcalls as [Hpeers Htotal]. apply Nat.eqb_eq in Htotal.
  assert (∀ i, 0 ≤ i < W →
            calls_left alloc (progs i) = script table (Z.to_nat i) ∧
            succeeds alloc (progs i)) as Hscript.
  { intros i Hi.
    apply (plain_script Barrier_call alloc W progs table i Ht Hi).
    apply plain_Barrier. }
  exists table. split; [done|]. split; [done|].
  split; [intros i Hi; by destruct (Hscript i Hi)|]. split.
  - intros i Hi. cbn. destruct (Hscript i Hi) as (Hs & Hok).
    split; [done|]. apply Forall_forall. intros e He.
    pose proof (plain_left _ alloc _ (plain_Barrier W i (Z.to_nat W))) as HP.
    rewrite Forall_forall in HP. specialize (HP e He).
    fold (progs i) in He. rewrite Hs in He.
    destruct (peers_valid_spec W table (Z.to_nat i) e Hpeers ltac:(lia) He)
      as [Hp Hne].
    apply (Barrier_call_valid W i e); [done|done|lia].
  - intros sched pos Hrun.
    destruct (world_checked table sched pos Hc Hrun) as (_ & H2 & H3). auto.
Qed.

(** X23. A world of [W] processes, [2 <= W <= 16], that all call
    [MIMPI_Barrier], run on the library in any interleaving of their caller
    and reader threads: no step stops a process, and no interleaving has
    more than [9 W - 8] steps; the memory of every process is left as it
    was; when no thread can move any more, every process has returned
    success from the Barrier; and as soon as one process has returned, every
    process has completed the first call of its Barrier, so that none leaves
    the Barrier before all have entered it. *)
Theorem Barrier_on_library (W : Z) (alloc : Z → Z) (detection : Z → bool)
    (heaps : Z → heap) (schedule : list move) (o : outcome World) :
  2 ≤ W ≤ MAXSIZE →
  processes_run alloc schedule
    (start_world W detection heaps
       (fun i => MIMPI_Barrier W i (Z.to_nat W))) = Some o →
  ∃ w,
    o = Done w ∧
    Z.of_nat (length schedule) ≤ 9 * W - 8 ∧
    (∀ i x, 0 ≤ i < W → memory (member w i) x = heaps i x) ∧
    ((∀ m, processes_move alloc w m = None) →
     ∀ i, 0 ≤ i < W →
       code (member w i) = Ret MIMPI_SUCCESS ∧ asleep (member w i) = false) ∧
    ((∃ i rc, 0 ≤ i < W ∧ code (member w i) = Ret rc) →
     ∀ j, 0 ≤ j < W →
       (length (calls_left alloc (code (member w j)))
        < length (calls_left alloc (MIMPI_Barrier W j (Z.to_nat W))))%nat).
Proof.
  intros HW Hrun.
  destruct (Barrier_start W heaps alloc HW)
    as (table & Hlen & Htotal & Hs & Hon & Hcheck).
  destruct (world_completes Barrier_call alloc W table detection heaps _
              schedule o ltac:(lia) Hlen
              (fun i => plain_Barrier W i (Z.to_nat W)) Hs Hon Hcheck Hrun)
    as (w & Hw & Hbound & Hstuck & Hsync).
  exists w. split; [done|]. split; [lia|]. split; [|done].
  set (progs := fun i => MIMPI_Barrier W i (Z.to_nat W)) in *.
  pose proof (run_simulated alloc W schedule (start_mail heaps progs)
                (start_world W detection heaps progs)
                (start_mail_of W detection heaps progs)
                (start_mail_ok heaps progs) Hon) as Hsim.
  destruct (mail_run alloc W schedule (start_mail heaps progs))
    as [a|] eqn:Hmail; [|congruence].
  destruct Hsim as (w' & Hw' & Hof & _).
  rewrite Hw' in Hrun. subst o. injection Hrun as ->.
  assert (Bcast_state W 0 0 0 heaps alloc (start_mail heaps progs)) as HB.
  { split; [intros s i m [Hm|Hm]; by apply elem_of_nil in Hm|].
    intros i Hi. cbn. split; [|split; [done|by left]].
    apply (plain_impl Barrier_call); [by left|apply plain_Barrier]. }
  pose proof (Bcast_state_run W 0 0 0 heaps alloc schedule ltac:(lia) _ _ HB
                Hmail) as [_ B2].
  intros i x Hi. specialize (B2 i Hi). destruct Hof as (_ & Hmem & _).
  destruct (Hmem i Hi) as [Hd _]. rewrite Hd in B2.
  destruct B2 as (_ & Hfr & _). apply Hfr. lia.
Qed.

Lemma Barrier_on_library_witness :
  ∃ w,
    processes_run (fun _ => 0)
      [Call 0; Call 1; Call 1; Read 0 1; Wake 0; Call 0; Read 1 0; Wake 1]
      (start_world 2 (fun _ => false) (fun _ => no_memory)
         (fun i => MIMPI_Barrier 2 i 2)) = Some (Done w) ∧
    code (member w 1) = Ret MIMPI_SUCCESS ∧
    (∀ i x, 0 ≤ i < 2 → memory (member w i) x = 0) ∧
    (length (calls_left (fun _ => 0%Z) (code (member w 0))) < 2)%nat.
Proof.
  assert (match
            processes_run (fun _ => 0)
              [Call 0; Call 1; Call 1; Read 0 1; Wake 0; Call 0; Read 1 0;
               Wake 1]
              (start_world 2 (fun _ => false) (fun _ => no_memory)
                 (fun i => MIMPI_Barrier 2 i 2))
          with
          | Some (Done w) => code (member w 1)
          | _ => OutOfFuel
          end = Ret MIMPI_SUCCESS) as Hcode by (vm_compute; reflexivity).
  destruct (processes_run _ _ _) as [[w|]|] eqn:Hrun; [|done|done].
  exists w. split; [done|]. split; [done|].
  destruct (Barrier_on_library 2 _ _ _ _ _ ltac:(unfold MAXSIZE; lia) Hrun)
    as (w' & Hw & _ & Hmem & _ & Hsync).
  injection Hw as <-. split; [exact Hmem|].
  apply (Hsync ltac:(exists 1, MIMPI_SUCCESS; split; [lia|done]) 0). lia.
Defined.

(** X24. A world of [W] processes, [2 <= W <= 16], that all call
    [MIMPI_Bcast] with the same buffer address, count and root, run on the
    library in any interleaving of their caller and reader threads: no
    interleaving has more than [9 W - 8] steps; when no thread can move any
    more, every process has returned success from the call; and as soon as
    one process has returned, every process has completed the first call of
    its own run. *)
Theorem Bcast_on_library (W root data count : Z) (alloc : Z → Z)
    (detection : Z → bool) (heaps : Z → heap) (schedule : list move)
    (o : outcome World) :
  2 ≤ W ≤ MAXSIZE → 0 ≤ root < W → 0 ≤ count < 2 ^ 31 →
  processes_run alloc schedule
    (start_world W detection heaps
       (fun i => MIMPI_Bcast W i (Z.to_nat W) data count root)) = Some o →
  ∃ w,
    o = Done w ∧
    Z.of_nat (length schedule) ≤ 9 * W - 8 ∧
    ((∀ m, processes_move alloc w m = None) →
     ∀ i, 0 ≤ i < W →
       code (member w i) = Ret MIMPI_SUCCESS ∧ asleep (member w i) = false) ∧
    ((∃ i rc, 0 ≤ i < W ∧ code (member w i) = Ret rc) →
     ∀ j, 0 ≤ j < W →
       (length (calls_left alloc (code (member w j)))
        < length (calls_left alloc
                    (MIMPI_Bcast W j (Z.to_nat W) data count root)))%nat).
Proof.
  intros HW Hroot Hcount Hrun.
  destruct (Bcast_start W root data count heaps alloc HW Hroot Hcount)
    as (table & Ht & Hlen & Hs & Hon & _).
  pose proof (sizes_and_roots_all W root HW Hroot) as Hin.
  apply list_elem_of_In in Hin.
  pose proof (Bcast_calls_all data count) as Hcalls.
  rewrite forallb_forall in Hcalls. specialize (Hcalls _ Hin).
  cbn [fst snd] in Hcalls. unfold calls_checked in Hcalls. rewrite Ht in Hcalls.
  apply andb_prop in Hcalls as [_ Htotal]. apply Nat.eqb_eq in Htotal.
  assert (∀ sched pos,
            world_run table sched (fun _ => O) = Some pos →
            (all_done table pos = false → ∃ i, ready table pos i = true) ∧
            ((∃ i, (i < length table)%nat ∧ pos i = length (script table i)) →
             ∀ j, (j < length table)%nat → (1 ≤ pos j)%nat)) as Hcheck.
  { intros sched pos Hsched.
    pose proof (Bcast_checked_all data count) as Hall.
    rewrite forallb_forall in Hall. specialize (Hall _ Hin).
    cbn [fst snd] in Hall.
    destruct (world_checked_uniform W (Bcast_world W root data count) sched
                pos Hall) as (table' & Ht' & _ & Hfacts).
    - intros table' Ht'.
      apply (carries_uniform MIMPI_BROADCAST_TAG count); [done|].
      eapply world_of_calls; [|exact Ht']. intros rank. apply cs_Bcast.
    - rewrite Ht in Ht'. injection Ht' as <-.
      destruct (Hfacts Hsched) as (_ & H2 & H3). auto. }
  destruct (world_completes (Bcast_call data count) alloc W table detection
              heaps _ schedule o ltac:(lia) Hlen
              (fun i => plain_Bcast W i (Z.to_nat W) data count root)
              Hs Hon Hcheck Hrun)
    as (w & Hw & Hbound & Hstuck & Hsync).
  exists w. split; [done|]. split; [lia|]. done.
Qed.

Lemma Bcast_on_library_witness :
  ∃ w,
    processes_run (fun _ => 0)
      [Call 0; Read 1 0; Call 1; Call 1; Read 0 1; Call 0]
      (start_world 2 (fun _ => true) (fun _ => no_memory)
         (fun i => MIMPI_Bcast 2 i 2 100 3 1)) = Some (Done w) ∧
    code (member w 0) = Ret MIMPI_SUCCESS ∧
    (length (calls_left (fun _ => 0%Z) (code (member w 1))) < 2)%nat.
Proof.
  assert (match
            processes_run (fun _ => 0)
              [Call 0; Read 1 0; Call 1; Call 1; Read 0 1; Call 0]
              (start_world 2 (fun _ => true) (fun _ => no_memory)
                 (fun i => MIMPI_Bcast 2 i 2 100 3 1))
          with
          | Some (Done w) => code (member w 0)
          | _ => OutOfFuel
          end = Ret MIMPI_SUCCESS) as Hcode by (vm_compute; reflexivity).
  destruct (processes_run _ _ _) as [[w|]|] eqn:Hrun; [|done|done].
  exists w. split; [done|]. split; [done|].
  destruct (Bcast_on_library 2 1 100 3 _ _ _ _ _ ltac:(unfold MAXSIZE; lia)
              ltac:(lia) ltac:(lia) Hrun) as (w' & Hw & _ & _ & Hsync).
  injection Hw as <-.
  apply (Hsync ltac:(exists 0, MIMPI_SUCCESS; split; [lia|done]) 1). lia.
Defined.
